(** * SysY-2022 middle end: IR data model, use-def machinery, analyses and
    transform passes, embedded from the C sources.

    Sources embedded here
      - include/ir/ir_data_structures.h   (structs and enums)
      - src/ir/ir_utils.c                 (worklist, use-def maintenance, erase,
                                           dominates, dom-tree timestamps)
      - src/ir/ir_builder.c               (create_reg, create_phi, phi_add_incoming)
      - src/ir/analysis/dominators.c      (compute_dominators)
      - src/ir/transforms/sccp.c, adce.c, inst_combine.c, mem2reg.c, inliner.c

    Representation.  Every IR object lives in the module's arena and is named by
    its address (a [nat]); the [state] holds one finite map per struct.  A NULL
    pointer is [None].  The instruction chain of a block keeps its [prev]/[next]
    and [head]/[tail] pointers, because sccp.c splices that chain by hand.  The
    operand chain of an instruction and the use chain of a value only change
    through add_operand / remove_operand / change_operand_value, so they are kept
    as lists (head first); [num_operands] is the length of the operand list.
    The block chain of a function is a list as well.  The C use chain is
    threaded through the operands ([next_use]); the list of a register is that
    chain exactly, for the code unlinks an operand from a register's chain
    before it links it elsewhere.  [remove_operand] is modelled for an operand
    that is in the list of its user, which is how the code calls it.

    A C function that may stop without returning (a failed [assert], a NULL or
    dangling dereference, a loop that never ends) returns an [outcome]. *)

From Stdlib Require Import ZArith List Bool Ascii String Lia SpecFloat.
From stdpp Require Import base option list gmap strings pretty.

Local Open Scope Z_scope.

(** ** Outcomes *)

Inductive failure := assertion_failed | invalid_pointer | no_termination | arithmetic_fault.

Inductive outcome (A : Type) :=
| Done (a : A)
| Stop (f : failure).
Arguments Done {A} a.
Arguments Stop {A} f.

#[global] Instance outcome_ret : MRet outcome := fun A a => Done a.
#[global] Instance outcome_bind : MBind outcome :=
  fun A B k m => match m with Done a => k a | Stop f => Stop f end.

Definition deref {A} (m : gmap nat A) (p : nat) : outcome A :=
  match m !! p with Some x => Done x | None => Stop invalid_pointer end.

Definition nonnull {A} (p : option A) : outcome A :=
  match p with Some x => Done x | None => Stop invalid_pointer end.

(** [assert(c)]: checked when assertions are compiled in, skipped under NDEBUG. *)
Definition c_assert (assert_on : bool) (c : bool) : outcome unit :=
  if assert_on && negb c then Stop assertion_failed else Done tt.

(** ** 32-bit cells: the [int] / [float] members of the C unions *)

Definition wrap32 (z : Z) : Z := (z + 2 ^ 31) mod 2 ^ 32 - 2 ^ 31.

(** C's [a / b] and [a % b] on [int]: the quotient truncates towards zero.  A
    zero divisor, and [INT_MIN] by [-1] whose quotient is no [int], are
    undefined, and the division instruction of the target faults on both. *)
Definition c_div (a b : Z) : outcome Z :=
  if (b =? 0) || ((a =? - 2 ^ 31) && (b =? -1)) then Stop arithmetic_fault
  else Done (wrap32 (Z.quot a b)).

Definition c_rem (a b : Z) : outcome Z :=
  if (b =? 0) || ((a =? - 2 ^ 31) && (b =? -1)) then Stop arithmetic_fault
  else Done (wrap32 (Z.rem a b)).

(** IEEE 754 binary32, on [SpecFloat] with precision 24 and emax 128. *)
Definition b32_of_bits (w : Z) : spec_float :=
  let u := w mod 2 ^ 32 in
  let s := 2 ^ 31 <=? u in
  let ex := (u / 2 ^ 23) mod 256 in
  let mant := u mod 2 ^ 23 in
  if ex =? 0 then
    if mant =? 0 then S754_zero s else S754_finite s (Z.to_pos mant) (-149)
  else if ex =? 255 then
    if mant =? 0 then S754_infinity s else S754_nan
  else S754_finite s (Z.to_pos (mant + 2 ^ 23)) (ex - 150).

Definition bits_of_b32 (f : spec_float) : Z :=
  let sign (s : bool) := if s then 2 ^ 31 else 0 in
  wrap32
    match f with
    | S754_zero s => sign s
    | S754_infinity s => sign s + 255 * 2 ^ 23
    | S754_nan => 255 * 2 ^ 23 + 2 ^ 22
    | S754_finite s m e =>
        if Z.pos m <? 2 ^ 23 then sign s + Z.pos m
        else sign s + (e + 150) * 2 ^ 23 + (Z.pos m - 2 ^ 23)
    end.

Definition f32_add (a b : Z) : Z := bits_of_b32 (SFadd 24 128 (b32_of_bits a) (b32_of_bits b)).
Definition f32_sub (a b : Z) : Z := bits_of_b32 (SFsub 24 128 (b32_of_bits a) (b32_of_bits b)).
Definition f32_mul (a b : Z) : Z := bits_of_b32 (SFmul 24 128 (b32_of_bits a) (b32_of_bits b)).
Definition f32_div (a b : Z) : Z := bits_of_b32 (SFdiv 24 128 (b32_of_bits a) (b32_of_bits b)).
Definition f32_eq (a b : Z) : bool := SFeqb (b32_of_bits a) (b32_of_bits b).
Definition f32_lt (a b : Z) : bool := SFltb (b32_of_bits a) (b32_of_bits b).
Definition f32_le (a b : Z) : bool := SFleb (b32_of_bits a) (b32_of_bits b).

(** The float literals the passes compare against. *)
Definition f32_zero : Z := 0.                       (* 0.0f *)
Definition f32_one : Z := 1065353216.               (* 1.0f  = 0x3F800000 *)
Definition f32_minus_one : Z := wrap32 3212836864.  (* -1.0f = 0xBF800000 *)
Definition f32_two : Z := 1073741824.               (* 2.0f  = 0x40000000 *)

(** [(float)i] and [(int)f]; the latter truncates and, outside the range of
    [int] (undefined in C), gives INT_MIN as the x86-64 conversion does. *)
Definition f32_of_int (i : Z) : Z := bits_of_b32 (binary_normalize 24 128 i 0 false).

Definition int_of_f32 (w : Z) : Z :=
  match b32_of_bits w with
  | S754_zero _ => 0
  | S754_finite s m e =>
      let mag := if 0 <=? e then Z.pos m * 2 ^ e else Z.pos m / 2 ^ (- e) in
      let r := if s then - mag else mag in
      if (- 2 ^ 31 <=? r) && (r <? 2 ^ 31) then r else - 2 ^ 31
  | _ => - 2 ^ 31
  end.

(** [fabs(a - b) < 1e-6]: the difference is a [float], widened exactly to
    [double] for [fabs] and the comparison with the double literal. *)
Definition widen_to_double (f : spec_float) : spec_float :=
  match f with
  | S754_finite s m e => binary_normalize 53 1024 (cond_Zopp s (Z.pos m)) e s
  | _ => f
  end.

Definition double_1e_6 : spec_float := S754_finite false 4722366482869645 (-72).

Definition f32_close (a b : Z) : bool :=
  SFltb (SFabs (widen_to_double (SFsub 24 128 (b32_of_bits a) (b32_of_bits b)))) double_1e_6.

(** ** Types (ast.h).  A [Type*] is compared by address. *)

Inductive BasicType :=
  BASIC_INT | BASIC_FLOAT | BASIC_I1 | BASIC_I8 | BASIC_I64 | BASIC_DOUBLE.

Inductive TypeKind := TYPE_VOID | TYPE_BASIC | TYPE_ARRAY | TYPE_POINTER | TYPE_FUNCTION.

Inductive Ty :=
| Ty_void (a : nat)
| Ty_basic (a : nat) (is_const : bool) (basic : BasicType)
| Ty_array (a : nat) (element_type : Ty) (dims : list Z)
| Ty_pointer (a : nat) (element_type : Ty)
| Ty_function (a : nat) (return_type : Ty) (param_count : nat) (is_variadic : bool).

#[global] Instance BasicType_eq_dec : EqDecision BasicType.
Proof. solve_decision. Defined.
#[global] Instance TypeKind_eq_dec : EqDecision TypeKind.
Proof. solve_decision. Defined.

Definition ty_addr (t : Ty) : nat :=
  match t with
  | Ty_void a | Ty_basic a _ _ | Ty_array a _ _ | Ty_pointer a _ | Ty_function a _ _ _ => a
  end.

Definition ty_kind (t : Ty) : TypeKind :=
  match t with
  | Ty_void _ => TYPE_VOID
  | Ty_basic _ _ _ => TYPE_BASIC
  | Ty_array _ _ _ => TYPE_ARRAY
  | Ty_pointer _ _ => TYPE_POINTER
  | Ty_function _ _ _ _ => TYPE_FUNCTION
  end.

(** [t->basic]; for a type that is not basic the C read lands in another union
    member and matches no [BasicType] tested by the passes. *)
Definition ty_basic (t : Ty) : option BasicType :=
  match t with Ty_basic _ _ b => Some b | _ => None end.

(** [t->pointer.element_type] (the array member shares its offset). *)
Definition ty_element_type (t : Ty) : option Ty :=
  match t with
  | Ty_pointer _ e | Ty_array _ e _ => Some e
  | _ => None
  end.

(** Pointer equality of two [Type*] (either may be NULL). *)
Definition type_ptr_eqb (t1 t2 : option Ty) : bool :=
  match t1, t2 with
  | None, None => true
  | Some a, Some b => Nat.eqb (ty_addr a) (ty_addr b)
  | _, _ => false
  end.

(** ** IR structs (ir_data_structures.h) *)

Inductive OperandKind := IR_OP_KIND_VALUE | IR_OP_KIND_BASIC_BLOCK.

Inductive Opcode :=
| IR_OP_RET | IR_OP_BR
| IR_OP_ADD | IR_OP_SUB | IR_OP_MUL | IR_OP_SDIV | IR_OP_SREM
| IR_OP_FADD | IR_OP_FSUB | IR_OP_FMUL | IR_OP_FDIV
| IR_OP_SHL | IR_OP_LSHR | IR_OP_ASHR | IR_OP_AND | IR_OP_OR | IR_OP_XOR
| IR_OP_ALLOCA | IR_OP_LOAD | IR_OP_STORE | IR_OP_GETELEMENTPTR
| IR_OP_ICMP | IR_OP_FCMP | IR_OP_PHI | IR_OP_CALL
| IR_OP_SITOFP | IR_OP_FPTOSI | IR_OP_ZEXT | IR_OP_FPEXT | IR_OP_SEXT | IR_OP_TRUNC
| IR_OP_FPTRUNC
| IR_OP_UNKNOWN.

#[global] Instance Opcode_eq_dec : EqDecision Opcode.
Proof. solve_decision. Defined.
#[global] Instance OperandKind_eq_dec : EqDecision OperandKind.
Proof. solve_decision. Defined.

Definition opcode_eqb (a b : Opcode) : bool := bool_decide (a = b).

Record IRValue := mkIRValue {
  v_is_constant : bool;
  v_is_global : bool;
  v_word : Z;                    (* the 32-bit cell read as int_val or float_val *)
  v_name : option string;
  v_type : option Ty;
  v_def_instr : option nat;
  v_alloca_instr : option nat;
  v_use_list : list nat          (* use_list_head and the next_use chain *)
}.

Record IROperand := mkIROperand {
  op_kind : OperandKind;
  op_data : option nat;          (* the data union: data.value or data.bb *)
  op_user : option nat
}.

Record IRInstruction := mkIRInstruction {
  i_opcode : Opcode;
  i_opcode_cond : option string;
  i_dest : option nat;
  i_operands : list nat;         (* operand_head .. operand_tail *)
  i_parent : option nat;
  i_next : option nat;
  i_prev : option nat;
  i_phi_for_alloca : option nat;
  i_align : Z;
  i_is_inbounds : bool;
  i_in_worklist : bool;
  i_is_live : bool
}.

Record IRBasicBlock := mkIRBasicBlock {
  bb_label : option string;
  bb_head : option nat;
  bb_tail : option nat;
  bb_parent : option nat;
  bb_successors : list nat;
  bb_predecessors : list nat;
  bb_post_order_id : Z;
  bb_dom_tin : Z;
  bb_dom_tout : Z;
  bb_idom : option nat;
  bb_dom_frontier : list nat;
  bb_dom_children : list nat;
  bb_loop_depth : Z
}.

Record IRFunction := mkIRFunction {
  fn_name : option string;
  fn_entry : option nat;
  fn_blocks : list nat;          (* blocks, next_in_func order *)
  fn_block_count : Z;
  fn_instruction_count : Z;
  fn_args : list nat;
  fn_reverse_post_order : option (list nat)
}.

(** The arena of one module. *)
Record state := mkState {
  values : gmap nat IRValue;
  operands : gmap nat IROperand;
  instrs : gmap nat IRInstruction;
  blocks : gmap nat IRBasicBlock;
  funcs : gmap nat IRFunction;
  module_functions : list nat;   (* module->functions *)
  next_addr : nat                (* bump pointer of the pool *)
}.

(** [op->data.value] and [op->data.bb] read the same pointer cell, whatever
    [kind] says.  All objects share the arena, so the address of a block is the
    address of no value. *)
Definition op_value (o : IROperand) : option nat := op_data o.
Definition op_bb (o : IROperand) : option nat := op_data o.

(** *** Field updates *)

Definition set_values (f : gmap nat IRValue -> gmap nat IRValue) (s : state) : state :=
  mkState (f (values s)) (operands s) (instrs s) (blocks s) (funcs s)
          (module_functions s) (next_addr s).
Definition set_operands (f : gmap nat IROperand -> gmap nat IROperand) (s : state) : state :=
  mkState (values s) (f (operands s)) (instrs s) (blocks s) (funcs s)
          (module_functions s) (next_addr s).
Definition set_instrs (f : gmap nat IRInstruction -> gmap nat IRInstruction) (s : state) : state :=
  mkState (values s) (operands s) (f (instrs s)) (blocks s) (funcs s)
          (module_functions s) (next_addr s).
Definition set_blocks (f : gmap nat IRBasicBlock -> gmap nat IRBasicBlock) (s : state) : state :=
  mkState (values s) (operands s) (instrs s) (f (blocks s)) (funcs s)
          (module_functions s) (next_addr s).
Definition set_funcs (f : gmap nat IRFunction -> gmap nat IRFunction) (s : state) : state :=
  mkState (values s) (operands s) (instrs s) (blocks s) (f (funcs s))
          (module_functions s) (next_addr s).

(** [pool_alloc]: hands out the next address. *)
Definition pool_alloc (s : state) : nat * state :=
  (next_addr s,
   mkState (values s) (operands s) (instrs s) (blocks s) (funcs s)
           (module_functions s) (S (next_addr s))).

Definition v_with_use_list (l : list nat) (v : IRValue) : IRValue :=
  mkIRValue (v_is_constant v) (v_is_global v) (v_word v) (v_name v) (v_type v)
            (v_def_instr v) (v_alloca_instr v) l.
Definition v_with_def_instr (d : option nat) (v : IRValue) : IRValue :=
  mkIRValue (v_is_constant v) (v_is_global v) (v_word v) (v_name v) (v_type v)
            d (v_alloca_instr v) (v_use_list v).

Definition op_with_data (d : option nat) (o : IROperand) : IROperand :=
  mkIROperand (op_kind o) d (op_user o).

Definition i_with_opcode (x : Opcode) (i : IRInstruction) : IRInstruction :=
  mkIRInstruction x (i_opcode_cond i) (i_dest i) (i_operands i) (i_parent i) (i_next i)
    (i_prev i) (i_phi_for_alloca i) (i_align i) (i_is_inbounds i) (i_in_worklist i) (i_is_live i).
Definition i_with_dest (x : option nat) (i : IRInstruction) : IRInstruction :=
  mkIRInstruction (i_opcode i) (i_opcode_cond i) x (i_operands i) (i_parent i) (i_next i)
    (i_prev i) (i_phi_for_alloca i) (i_align i) (i_is_inbounds i) (i_in_worklist i) (i_is_live i).
Definition i_with_operands (x : list nat) (i : IRInstruction) : IRInstruction :=
  mkIRInstruction (i_opcode i) (i_opcode_cond i) (i_dest i) x (i_parent i) (i_next i)
    (i_prev i) (i_phi_for_alloca i) (i_align i) (i_is_inbounds i) (i_in_worklist i) (i_is_live i).
Definition i_with_parent (x : option nat) (i : IRInstruction) : IRInstruction :=
  mkIRInstruction (i_opcode i) (i_opcode_cond i) (i_dest i) (i_operands i) x (i_next i)
    (i_prev i) (i_phi_for_alloca i) (i_align i) (i_is_inbounds i) (i_in_worklist i) (i_is_live i).
Definition i_with_next (x : option nat) (i : IRInstruction) : IRInstruction :=
  mkIRInstruction (i_opcode i) (i_opcode_cond i) (i_dest i) (i_operands i) (i_parent i) x
    (i_prev i) (i_phi_for_alloca i) (i_align i) (i_is_inbounds i) (i_in_worklist i) (i_is_live i).
Definition i_with_prev (x : option nat) (i : IRInstruction) : IRInstruction :=
  mkIRInstruction (i_opcode i) (i_opcode_cond i) (i_dest i) (i_operands i) (i_parent i) (i_next i)
    x (i_phi_for_alloca i) (i_align i) (i_is_inbounds i) (i_in_worklist i) (i_is_live i).
Definition i_with_phi_for_alloca (x : option nat) (i : IRInstruction) : IRInstruction :=
  mkIRInstruction (i_opcode i) (i_opcode_cond i) (i_dest i) (i_operands i) (i_parent i) (i_next i)
    (i_prev i) x (i_align i) (i_is_inbounds i) (i_in_worklist i) (i_is_live i).
Definition i_with_in_worklist (x : bool) (i : IRInstruction) : IRInstruction :=
  mkIRInstruction (i_opcode i) (i_opcode_cond i) (i_dest i) (i_operands i) (i_parent i) (i_next i)
    (i_prev i) (i_phi_for_alloca i) (i_align i) (i_is_inbounds i) x (i_is_live i).
Definition i_with_is_live (x : bool) (i : IRInstruction) : IRInstruction :=
  mkIRInstruction (i_opcode i) (i_opcode_cond i) (i_dest i) (i_operands i) (i_parent i) (i_next i)
    (i_prev i) (i_phi_for_alloca i) (i_align i) (i_is_inbounds i) (i_in_worklist i) x.

Definition bb_with_head (x : option nat) (b : IRBasicBlock) : IRBasicBlock :=
  mkIRBasicBlock (bb_label b) x (bb_tail b) (bb_parent b) (bb_successors b)
    (bb_predecessors b) (bb_post_order_id b) (bb_dom_tin b) (bb_dom_tout b) (bb_idom b)
    (bb_dom_frontier b) (bb_dom_children b) (bb_loop_depth b).
Definition bb_with_tail (x : option nat) (b : IRBasicBlock) : IRBasicBlock :=
  mkIRBasicBlock (bb_label b) (bb_head b) x (bb_parent b) (bb_successors b)
    (bb_predecessors b) (bb_post_order_id b) (bb_dom_tin b) (bb_dom_tout b) (bb_idom b)
    (bb_dom_frontier b) (bb_dom_children b) (bb_loop_depth b).
Definition bb_with_predecessors (x : list nat) (b : IRBasicBlock) : IRBasicBlock :=
  mkIRBasicBlock (bb_label b) (bb_head b) (bb_tail b) (bb_parent b) (bb_successors b)
    x (bb_post_order_id b) (bb_dom_tin b) (bb_dom_tout b) (bb_idom b)
    (bb_dom_frontier b) (bb_dom_children b) (bb_loop_depth b).
Definition bb_with_post_order_id (x : Z) (b : IRBasicBlock) : IRBasicBlock :=
  mkIRBasicBlock (bb_label b) (bb_head b) (bb_tail b) (bb_parent b) (bb_successors b)
    (bb_predecessors b) x (bb_dom_tin b) (bb_dom_tout b) (bb_idom b)
    (bb_dom_frontier b) (bb_dom_children b) (bb_loop_depth b).
Definition bb_with_dom_tin (x : Z) (b : IRBasicBlock) : IRBasicBlock :=
  mkIRBasicBlock (bb_label b) (bb_head b) (bb_tail b) (bb_parent b) (bb_successors b)
    (bb_predecessors b) (bb_post_order_id b) x (bb_dom_tout b) (bb_idom b)
    (bb_dom_frontier b) (bb_dom_children b) (bb_loop_depth b).
Definition bb_with_dom_tout (x : Z) (b : IRBasicBlock) : IRBasicBlock :=
  mkIRBasicBlock (bb_label b) (bb_head b) (bb_tail b) (bb_parent b) (bb_successors b)
    (bb_predecessors b) (bb_post_order_id b) (bb_dom_tin b) x (bb_idom b)
    (bb_dom_frontier b) (bb_dom_children b) (bb_loop_depth b).
Definition bb_with_idom (x : option nat) (b : IRBasicBlock) : IRBasicBlock :=
  mkIRBasicBlock (bb_label b) (bb_head b) (bb_tail b) (bb_parent b) (bb_successors b)
    (bb_predecessors b) (bb_post_order_id b) (bb_dom_tin b) (bb_dom_tout b) x
    (bb_dom_frontier b) (bb_dom_children b) (bb_loop_depth b).
Definition bb_with_dom_frontier (x : list nat) (b : IRBasicBlock) : IRBasicBlock :=
  mkIRBasicBlock (bb_label b) (bb_head b) (bb_tail b) (bb_parent b) (bb_successors b)
    (bb_predecessors b) (bb_post_order_id b) (bb_dom_tin b) (bb_dom_tout b) (bb_idom b)
    x (bb_dom_children b) (bb_loop_depth b).
Definition bb_with_dom_children (x : list nat) (b : IRBasicBlock) : IRBasicBlock :=
  mkIRBasicBlock (bb_label b) (bb_head b) (bb_tail b) (bb_parent b) (bb_successors b)
    (bb_predecessors b) (bb_post_order_id b) (bb_dom_tin b) (bb_dom_tout b) (bb_idom b)
    (bb_dom_frontier b) x (bb_loop_depth b).

Definition fn_with_instruction_count (x : Z) (f : IRFunction) : IRFunction :=
  mkIRFunction (fn_name f) (fn_entry f) (fn_blocks f) (fn_block_count f) x (fn_args f)
               (fn_reverse_post_order f).
Definition fn_with_reverse_post_order (x : option (list nat)) (f : IRFunction) : IRFunction :=
  mkIRFunction (fn_name f) (fn_entry f) (fn_blocks f) (fn_block_count f)
               (fn_instruction_count f) (fn_args f) x.

(** [p->field = x] on an object of the arena. *)
Definition upd_value (p : nat) (f : IRValue -> IRValue) (s : state) : state :=
  set_values (alter f p) s.
Definition upd_operand (p : nat) (f : IROperand -> IROperand) (s : state) : state :=
  set_operands (alter f p) s.
Definition upd_instr (p : nat) (f : IRInstruction -> IRInstruction) (s : state) : state :=
  set_instrs (alter f p) s.
Definition upd_block (p : nat) (f : IRBasicBlock -> IRBasicBlock) (s : state) : state :=
  set_blocks (alter f p) s.
Definition upd_func (p : nat) (f : IRFunction -> IRFunction) (s : state) : state :=
  set_funcs (alter f p) s.

Definition is_null {A} (p : option A) : bool :=
  match p with None => true | Some _ => false end.

Definition is_nil {A} (l : list A) : bool :=
  match l with [] => true | _ :: _ => false end.

Definition ptr_eqb (p q : option nat) : bool := bool_decide (p = q).

(** A [for] loop over a list captured before the loop starts. *)
Fixpoint for_each {A} (body : A -> state -> outcome state) (l : list A) (s : state)
  : outcome state :=
  match l with
  | [] => Done s
  | x :: t => s1 ← body x s; for_each body t s1
  end.

(** ** Worklist (ir_utils.c): a stack; the head of the list is the top. *)

Definition Worklist := list nat.
Definition create_worklist : Worklist := [].
Definition worklist_add (wl : Worklist) (item : nat) : Worklist := item :: wl.
Definition worklist_pop (wl : Worklist) : option nat * Worklist :=
  match wl with
  | [] => (None, [])
  | x :: t => (Some x, t)
  end.

(** ** Instruction chains *)

(** [for (i = cur; i; i = i->next)] collected; a chain longer than the number of
    instructions in the arena revisits one, and the C loop never ends. *)
Fixpoint chain_from (s : state) (fuel : nat) (cur : option nat) : outcome (list nat) :=
  match cur with
  | None => Done []
  | Some i =>
      match fuel with
      | O => Stop no_termination
      | S n =>
          ins ← deref (instrs s) i;
          rest ← chain_from s n (i_next ins);
          Done (i :: rest)
      end
  end.

Definition block_chain (s : state) (b : nat) : outcome (list nat) :=
  blk ← deref (blocks s) b;
  chain_from s (S (size (instrs s))) (bb_head blk).

(** ** Use-def maintenance (ir_utils.c) *)

Fixpoint remove_first (x : nat) (l : list nat) : list nat :=
  match l with
  | [] => []
  | y :: t => if Nat.eqb x y then t else y :: remove_first x t
  end.

Definition create_ir_operand (kind : OperandKind) (data : option nat) (user : nat)
  (s : state) : nat * state :=
  let '(p, s1) := pool_alloc s in
  (p, set_operands (insert p (mkIROperand kind data (Some user))) s1).

Definition add_operand (instr : nat) (kind : OperandKind) (data_ptr : option nat)
  (s : state) : outcome (option nat * state) :=
  match data_ptr with
  | None => Done (None, s)
  | Some d =>
      ins ← deref (instrs s) instr;
      (* MemoryPool *pool = instr->parent->parent->module->pool; *)
      pb ← nonnull (i_parent ins);
      blk ← deref (blocks s) pb;
      pf ← nonnull (bb_parent blk);
      _ ← deref (funcs s) pf;
      let '(op, s1) := create_ir_operand kind data_ptr instr s in
      let s2 := upd_instr instr (i_with_operands (i_operands ins ++ [op])) s1 in
      match kind with
      | IR_OP_KIND_VALUE =>
          val ← deref (values s2) d;
          if v_is_constant val then Done (Some op, s2)
          else Done (Some op, upd_value d (v_with_use_list (op :: v_use_list val)) s2)
      | IR_OP_KIND_BASIC_BLOCK => Done (Some op, s2)
      end
  end.

Definition add_value_operand (instr : nat) (val : option nat) (s : state) : outcome state :=
  '(_, s1) ← add_operand instr IR_OP_KIND_VALUE val s; Done s1.

Definition add_bb_operand (instr : nat) (bb : option nat) (s : state) : outcome state :=
  '(_, s1) ← add_operand instr IR_OP_KIND_BASIC_BLOCK bb s; Done s1.

Definition remove_operand_from_use_list (op : nat) (s : state) : outcome state :=
  o ← deref (operands s) op;
  match op_kind o with
  | IR_OP_KIND_BASIC_BLOCK => Done s
  | IR_OP_KIND_VALUE =>
      match op_value o with
      | None => Done s
      | Some v =>
          val ← deref (values s) v;
          if v_is_constant val || is_null (v_def_instr val) then Done s
          else Done (upd_value v (v_with_use_list (remove_first op (v_use_list val))) s)
      end
  end.

Definition remove_operand (op : nat) (s : state) : outcome state :=
  o ← deref (operands s) op;
  s1 ← remove_operand_from_use_list op s;
  instr ← nonnull (op_user o);
  ins ← deref (instrs s1) instr;
  Done (upd_instr instr (i_with_operands (remove_first op (i_operands ins))) s1).

Definition change_operand_value (assert_on : bool) (op : nat) (new_val : option nat)
  (s : state) : outcome state :=
  o ← deref (operands s) op;
  _ ← c_assert assert_on (bool_decide (op_kind o = IR_OP_KIND_VALUE));
  if ptr_eqb (op_value o) new_val then Done s
  else
    s1 ← remove_operand_from_use_list op s;
    let s2 := upd_operand op (op_with_data new_val) s1 in
    match new_val with
    | None => Done s2
    | Some nv =>
        val ← deref (values s2) nv;
        if negb (v_is_constant val) && negb (is_null (v_def_instr val))
        then Done (upd_value nv (v_with_use_list (op :: v_use_list val)) s2)
        else Done s2
    end.

(** The [while (old_val->use_list_head)] loop.  An iteration that leaves the
    head in place repeats for ever, so more iterations than the chain is long
    means no return. *)
Fixpoint rauw_loop (assert_on : bool) (fuel : nat) (wl : option Worklist) (old_val : nat)
  (new_val : option nat) (s : state) : outcome (option Worklist * state) :=
  old ← deref (values s) old_val;
  match v_use_list old with
  | [] => Done (wl, s)
  | use :: _ =>
      match fuel with
      | O => Stop no_termination
      | S n =>
          o ← deref (operands s) use;
          s1 ← change_operand_value assert_on use new_val s;
          r ← match wl, op_user o with
              | Some w, Some user_instr =>
                  ins ← deref (instrs s1) user_instr;
                  if negb (opcode_eqb (i_opcode ins) IR_OP_UNKNOWN)
                     && negb (i_in_worklist ins)
                  then Done (Some (worklist_add w user_instr),
                             upd_instr user_instr (i_with_in_worklist true) s1)
                  else Done (wl, s1)
              | _, _ => Done (wl, s1)
              end;
          rauw_loop assert_on n (fst r) old_val new_val (snd r)
      end
  end.

Definition replace_all_uses_with (assert_on : bool) (wl : option Worklist) (old_val : nat)
  (new_val : option nat) (s : state) : outcome (option Worklist * state) :=
  if ptr_eqb (Some old_val) new_val then Done (wl, s)
  else
    old ← deref (values s) old_val;
    if is_nil (v_use_list old) then Done (wl, s)
    else rauw_loop assert_on (S (length (v_use_list old))) wl old_val new_val s.

(** ** Erasing instructions (ir_utils.c) *)

(** [while (instr->operand_head) remove_operand(instr->operand_head);] *)
Fixpoint remove_all_operands (fuel : nat) (instr : nat) (s : state) : outcome state :=
  ins ← deref (instrs s) instr;
  match i_operands ins with
  | [] => Done s
  | op :: _ =>
      match fuel with
      | O => Stop no_termination
      | S n => s1 ← remove_operand op s; remove_all_operands n instr s1
      end
  end.

Definition unlink_instruction (instr : nat) (s : state) : outcome state :=
  ins ← deref (instrs s) instr;
  match i_parent ins with
  | None => Done s
  | Some pb =>
      s1 ← match i_prev ins with
           | Some p => _ ← deref (instrs s) p; Done (upd_instr p (i_with_next (i_next ins)) s)
           | None => _ ← deref (blocks s) pb; Done (upd_block pb (bb_with_head (i_next ins)) s)
           end;
      match i_next ins with
      | Some n => _ ← deref (instrs s1) n; Done (upd_instr n (i_with_prev (i_prev ins)) s1)
      | None => _ ← deref (blocks s1) pb; Done (upd_block pb (bb_with_tail (i_prev ins)) s1)
      end
  end.

Definition poison_instruction (i : IRInstruction) : IRInstruction :=
  i_with_in_worklist false (i_with_dest None (i_with_parent None (i_with_opcode IR_OP_UNKNOWN i))).

Definition erase_instruction (assert_on : bool) (instr : option nat) (s : state)
  : outcome state :=
  match instr with
  | None => Done s
  | Some i =>
      ins ← deref (instrs s) i;
      if opcode_eqb (i_opcode ins) IR_OP_UNKNOWN then Done s
      else
        _ ← match i_dest ins with
            | Some d =>
                if assert_on
                then dv ← deref (values s) d; c_assert assert_on (is_nil (v_use_list dv))
                else Done tt
            | None => Done tt
            end;
        s1 ← match i_parent ins with
             | Some pb =>
                 blk ← deref (blocks s) pb;
                 match bb_parent blk with
                 | Some pf =>
                     fn ← deref (funcs s) pf;
                     Done (upd_func pf
                             (fn_with_instruction_count (fn_instruction_count fn - 1)) s)
                 | None => Done s
                 end
             | None => Done s
             end;
        s2 ← remove_all_operands (S (length (i_operands ins))) i s1;
        s3 ← unlink_instruction i s2;
        Done (upd_instr i poison_instruction s3)
  end.

Definition mark_instruction_for_removal (instr : nat) (s : state) : state :=
  upd_instr instr (i_with_opcode IR_OP_UNKNOWN) s.

Definition cleanup_removed_instructions (assert_on : bool) (block : nat) (s : state)
  : outcome state :=
  l ← block_chain s block;
  for_each (fun i s' =>
              ins ← deref (instrs s') i;
              if opcode_eqb (i_opcode ins) IR_OP_UNKNOWN
              then erase_instruction assert_on (Some i) s'
              else Done s') l s.

(** ** Object creation (ir_utils.c, ast.c, inst_combine.c) *)

Definition create_basic_type (basic : BasicType) (is_const : bool) (s : state) : Ty * state :=
  let '(p, s1) := pool_alloc s in (Ty_basic p is_const basic, s1).

Definition create_ir_instruction (opcode : Opcode) (s : state) : nat * state :=
  let '(p, s1) := pool_alloc s in
  (p, set_instrs (insert p (mkIRInstruction opcode None None [] None None None None 0
                              false false false)) s1).

Definition create_const_int (value : Z) (s : state) : nat * state :=
  let '(v, s1) := pool_alloc s in
  let '(t, s2) := create_basic_type BASIC_INT false s1 in
  (v, set_values (insert v (mkIRValue true false value None (Some t) None None [])) s2).

Definition create_const_float (value : Z) (s : state) : nat * state :=
  let '(v, s1) := pool_alloc s in
  let '(t, s2) := create_basic_type BASIC_FLOAT false s1 in
  (v, set_values (insert v (mkIRValue true false value None (Some t) None None [])) s2).

(** ** Inliner gate (inliner.c) *)

Definition INLINE_THRESHOLD : Z := 80.

Fixpoint count_blocks_instructions (s : state) (bbs : list nat) : outcome Z :=
  match bbs with
  | [] => Done 0
  | bb :: rest =>
      l ← block_chain s bb;
      n ← count_blocks_instructions s rest;
      Done (Z.of_nat (length l) + n)
  end.

Definition count_instructions (s : state) (func : nat) : outcome Z :=
  fn ← deref (funcs s) func;
  count_blocks_instructions s (fn_blocks fn).

Definition should_inline_function (call_stack : Worklist) (callee : option nat) (s : state)
  : outcome bool :=
  match callee with
  | None => Done false
  | Some c =>
      fn ← deref (funcs s) c;
      if is_null (fn_entry fn) then Done false
      else if existsb (Nat.eqb c) call_stack then Done false
      else n ← count_instructions s c; Done (n <=? INLINE_THRESHOLD)
  end.

(** ** InstCombine (inst_combine.c) *)

Definition operand_at (s : state) (ins : IRInstruction) (k : nat) : outcome nat :=
  nonnull (i_operands ins !! k).

(** [is_power_of_two(n, &log_val)]; the loop shifts a 32-bit value. *)
Fixpoint log2_loop (fuel : nat) (temp log_val : Z) : Z :=
  match fuel with
  | O => log_val
  | S k =>
      if (Z.land temp 1 =? 0) && (1 <? temp) then log2_loop k (Z.shiftr temp 1) (log_val + 1)
      else log_val
  end.

Definition is_power_of_two (n : Z) : bool * Z :=
  if n <=? 0 then (false, 0)
  else if Z.land n (n - 1) =? 0 then (true, log2_loop 32 n 0)
  else (false, 0).

(** What a visit function hands back: the replacement value (or NULL), the
    [re_queue] flag of the context, and the arena. *)
Definition visit_out : Type := option nat * bool * state.

Definition visit_unhandled (s : state) : outcome visit_out := Done (None, false, s).

(** Replace operand [k] of [ins] through [change_operand_value]. *)
Definition set_operand (assert_on : bool) (ins : IRInstruction) (k : nat) (v : nat)
  (s : state) : outcome state :=
  op ← operand_at s ins k;
  change_operand_value assert_on op (Some v) s.

Definition second_operand_value (s : state) (def : nat) : outcome (option nat) :=
  dins ← deref (instrs s) def;
  op ← operand_at s dins 1;
  o ← deref (operands s) op;
  Done (op_value o).

Definition first_operand_value (s : state) (def : nat) : outcome (option nat) :=
  dins ← deref (instrs s) def;
  op ← operand_at s dins 0;
  o ← deref (operands s) op;
  Done (op_value o).

(** [v->def_instr && v->def_instr->opcode == IR_OP_SUB &&
     v->def_instr->operand_head->next_in_instr->data.value == other] *)
Definition cancels_with (s : state) (v : IRValue) (other : nat) : outcome (option (option nat)) :=
  match v_def_instr v with
  | None => Done None
  | Some d =>
      dins ← deref (instrs s) d;
      if opcode_eqb (i_opcode dins) IR_OP_SUB then
        snd_v ← second_operand_value s d;
        if ptr_eqb snd_v (Some other) then
          fst_v ← first_operand_value s d; Done (Some fst_v)
        else Done None
      else Done None
  end.

Definition visit_add (assert_on : bool) (instr : nat) (op1 op2 : option nat) (s : state)
  : outcome visit_out :=
  ins ← deref (instrs s) instr;
  lhs ← nonnull op1; rhs ← nonnull op2;
  l ← deref (values s) lhs; r ← deref (values s) rhs;
  if v_is_constant l && v_is_constant r then
    let '(c, s1) := create_const_int (wrap32 (v_word l + v_word r)) s in Done (Some c, false, s1)
  else if v_is_constant l && negb (v_is_constant r) then
    s1 ← set_operand assert_on ins 0 rhs s;
    s2 ← set_operand assert_on ins 1 lhs s1;
    Done (None, true, s2)
  else if v_is_constant r && (v_word r =? 0) then Done (Some lhs, false, s)
  else
    c1 ← cancels_with s l rhs;
    match c1 with
    | Some x => Done (x, false, s)
    | None =>
        c2 ← cancels_with s r lhs;
        match c2 with
        | Some x => Done (x, false, s)
        | None => Done (None, false, s)
        end
    end.

Definition visit_sub (assert_on : bool) (instr : nat) (op1 op2 : option nat) (s : state)
  : outcome visit_out :=
  lhs ← nonnull op1; rhs ← nonnull op2;
  l ← deref (values s) lhs; r ← deref (values s) rhs;
  if v_is_constant l && v_is_constant r then
    let '(c, s1) := create_const_int (wrap32 (v_word l - v_word r)) s in Done (Some c, false, s1)
  else if v_is_constant r && (v_word r =? 0) then Done (Some lhs, false, s)
  else if Nat.eqb lhs rhs then
    let '(c, s1) := create_const_int 0 s in Done (Some c, false, s1)
  else if v_is_constant r then
    let '(neg_const, s1) := create_const_int (wrap32 (- v_word r)) s in
    let s2 := upd_instr instr (i_with_opcode IR_OP_ADD) s1 in
    ins ← deref (instrs s2) instr;
    s3 ← set_operand assert_on ins 1 neg_const s2;
    Done (None, true, s3)
  else Done (None, false, s).

Definition visit_mul (assert_on : bool) (instr : nat) (op1 op2 : option nat) (s : state)
  : outcome visit_out :=
  ins ← deref (instrs s) instr;
  lhs ← nonnull op1; rhs ← nonnull op2;
  l ← deref (values s) lhs; r ← deref (values s) rhs;
  if v_is_constant l && v_is_constant r then
    let '(c, s1) := create_const_int (wrap32 (v_word l * v_word r)) s in Done (Some c, false, s1)
  else if v_is_constant l && negb (v_is_constant r) then
    s1 ← set_operand assert_on ins 0 rhs s;
    s2 ← set_operand assert_on ins 1 lhs s1;
    Done (None, true, s2)
  else if v_is_constant r then
    let c := v_word r in
    if c =? 0 then let '(z, s1) := create_const_int 0 s in Done (Some z, false, s1)
    else if c =? 1 then Done (Some lhs, false, s)
    else if c =? -1 then
      let s1 := upd_instr instr (i_with_opcode IR_OP_SUB) s in
      let '(z, s2) := create_const_int 0 s1 in
      s3 ← set_operand assert_on ins 0 z s2;
      s4 ← set_operand assert_on ins 1 lhs s3;
      Done (None, true, s4)
    else
      let '(is_pow2, log_val) := is_power_of_two c in
      if is_pow2 then
        let s1 := upd_instr instr (i_with_opcode IR_OP_SHL) s in
        let '(k, s2) := create_const_int log_val s1 in
        s3 ← set_operand assert_on ins 1 k s2;
        Done (None, true, s3)
      else Done (None, false, s)
  else Done (None, false, s).

Definition visit_sdiv (assert_on : bool) (instr : nat) (op1 op2 : option nat) (s : state)
  : outcome visit_out :=
  ins ← deref (instrs s) instr;
  rhs ← nonnull op2;
  r ← deref (values s) rhs;
  if v_is_constant r && (v_word r =? 0) then Done (None, false, s)
  else
    lhs ← nonnull op1;
    l ← deref (values s) lhs;
    if v_is_constant l && v_is_constant r then
      q ← c_div (v_word l) (v_word r);
      let '(c, s1) := create_const_int q s in
      Done (Some c, false, s1)
    else if v_is_constant r && (v_word r =? 1) then Done (Some lhs, false, s)
    else if v_is_constant r && (v_word r =? -1) then
      let s1 := upd_instr instr (i_with_opcode IR_OP_SUB) s in
      let '(z, s2) := create_const_int 0 s1 in
      s3 ← set_operand assert_on ins 0 z s2;
      s4 ← set_operand assert_on ins 1 lhs s3;
      Done (None, true, s4)
    else if v_is_constant l && (v_word l =? 0) then
      let '(z, s1) := create_const_int 0 s in Done (Some z, false, s1)
    else Done (None, false, s).

Definition visit_srem (op1 op2 : option nat) (s : state) : outcome visit_out :=
  rhs ← nonnull op2;
  r ← deref (values s) rhs;
  if v_is_constant r && (v_word r =? 0) then Done (None, false, s)
  else
    lhs ← nonnull op1;
    l ← deref (values s) lhs;
    if v_is_constant l && v_is_constant r then
      q ← c_rem (v_word l) (v_word r);
      let '(c, s1) := create_const_int q s in
      Done (Some c, false, s1)
    else if v_is_constant r && ((v_word r =? 1) || (v_word r =? -1)) then
      let '(z, s1) := create_const_int 0 s in Done (Some z, false, s1)
    else if Nat.eqb lhs rhs then
      let '(z, s1) := create_const_int 0 s in Done (Some z, false, s1)
    else Done (None, false, s).

Definition icmp_eval (pred : string) (a b : Z) : bool :=
  if String.eqb pred "eq" then a =? b
  else if String.eqb pred "ne" then negb (a =? b)
  else if String.eqb pred "slt" then a <? b
  else if String.eqb pred "sgt" then b <? a
  else if String.eqb pred "sle" then a <=? b
  else if String.eqb pred "sge" then b <=? a
  else false.

Definition fcmp_eval (pred : string) (a b : Z) : bool :=
  if String.eqb pred "oeq" then f32_eq a b
  else if String.eqb pred "one" then negb (f32_eq a b)
  else if String.eqb pred "olt" then f32_lt a b
  else if String.eqb pred "ogt" then f32_lt b a
  else if String.eqb pred "ole" then f32_le a b
  else if String.eqb pred "oge" then f32_le b a
  else false.

Definition visit_icmp (instr : nat) (op1 op2 : option nat) (s : state) : outcome visit_out :=
  ins ← deref (instrs s) instr;
  lhs ← nonnull op1;
  l ← deref (values s) lhs;
  if v_is_constant l then
    rhs ← nonnull op2;
    r ← deref (values s) rhs;
    if v_is_constant r then
      pred ← nonnull (i_opcode_cond ins);
      let '(c, s1) := create_const_int (if icmp_eval pred (v_word l) (v_word r) then 1 else 0) s in
      Done (Some c, false, s1)
    else Done (None, false, s)
  else Done (None, false, s).

Definition visit_fcmp (instr : nat) (op1 op2 : option nat) (s : state) : outcome visit_out :=
  ins ← deref (instrs s) instr;
  lhs ← nonnull op1;
  l ← deref (values s) lhs;
  if v_is_constant l then
    rhs ← nonnull op2;
    r ← deref (values s) rhs;
    if v_is_constant r then
      pred ← nonnull (i_opcode_cond ins);
      let '(c, s1) := create_const_int (if fcmp_eval pred (v_word l) (v_word r) then 1 else 0) s in
      Done (Some c, false, s1)
    else Done (None, false, s)
  else Done (None, false, s).

Definition visit_fadd (op1 op2 : option nat) (s : state) : outcome visit_out :=
  lhs ← nonnull op1; rhs ← nonnull op2;
  l ← deref (values s) lhs; r ← deref (values s) rhs;
  if v_is_constant l && v_is_constant r then
    let '(c, s1) := create_const_float (f32_add (v_word l) (v_word r)) s in
    Done (Some c, false, s1)
  else if v_is_constant r && f32_eq (v_word r) f32_zero then Done (Some lhs, false, s)
  else if v_is_constant l && f32_eq (v_word l) f32_zero then Done (Some rhs, false, s)
  else Done (None, false, s).

Definition visit_fsub (assert_on : bool) (instr : nat) (op1 op2 : option nat) (s : state)
  : outcome visit_out :=
  lhs ← nonnull op1; rhs ← nonnull op2;
  l ← deref (values s) lhs; r ← deref (values s) rhs;
  if v_is_constant l && v_is_constant r then
    let '(c, s1) := create_const_float (f32_sub (v_word l) (v_word r)) s in
    Done (Some c, false, s1)
  else if v_is_constant r && f32_eq (v_word r) f32_zero then Done (Some lhs, false, s)
  else if v_is_constant l && f32_eq (v_word l) f32_zero then
    let s1 := upd_instr instr (i_with_opcode IR_OP_FSUB) s in
    ins ← deref (instrs s1) instr;
    let '(z, s2) := create_const_float f32_zero s1 in
    s3 ← set_operand assert_on ins 0 z s2;
    s4 ← set_operand assert_on ins 1 rhs s3;
    Done (None, true, s4)
  else Done (None, false, s).

(** The rewrites of [visit_fmul] and [visit_fdiv] that turn the instruction into
    [new_opcode a, b] and re-queue it. *)
Definition rewrite_binary (assert_on : bool) (instr : nat) (new_opcode : Opcode)
  (a : state -> nat * state) (b : nat) (s : state) : outcome visit_out :=
  let s1 := upd_instr instr (i_with_opcode new_opcode) s in
  ins ← deref (instrs s1) instr;
  let '(x, s2) := a s1 in
  s3 ← set_operand assert_on ins 0 x s2;
  s4 ← set_operand assert_on ins 1 b s3;
  Done (None, true, s4).

Definition visit_fmul (assert_on : bool) (instr : nat) (op1 op2 : option nat) (s : state)
  : outcome visit_out :=
  lhs ← nonnull op1; rhs ← nonnull op2;
  l ← deref (values s) lhs; r ← deref (values s) rhs;
  if v_is_constant l && v_is_constant r then
    let '(c, s1) := create_const_float (f32_mul (v_word l) (v_word r)) s in
    Done (Some c, false, s1)
  else if v_is_constant r && f32_eq (v_word r) f32_one then Done (Some lhs, false, s)
  else if v_is_constant l && f32_eq (v_word l) f32_one then Done (Some rhs, false, s)
  else if (v_is_constant r && f32_eq (v_word r) f32_zero)
          || (v_is_constant l && f32_eq (v_word l) f32_zero) then
    let '(c, s1) := create_const_float f32_zero s in Done (Some c, false, s1)
  else if v_is_constant r && f32_eq (v_word r) f32_minus_one then
    rewrite_binary assert_on instr IR_OP_FSUB (create_const_float f32_zero) lhs s
  else if v_is_constant l && f32_eq (v_word l) f32_minus_one then
    rewrite_binary assert_on instr IR_OP_FSUB (create_const_float f32_zero) rhs s
  else if v_is_constant r && f32_eq (v_word r) f32_two then
    rewrite_binary assert_on instr IR_OP_FADD (fun s' => (lhs, s')) lhs s
  else if v_is_constant l && f32_eq (v_word l) f32_two then
    rewrite_binary assert_on instr IR_OP_FADD (fun s' => (rhs, s')) rhs s
  else Done (None, false, s).

Definition visit_fdiv (assert_on : bool) (instr : nat) (op1 op2 : option nat) (s : state)
  : outcome visit_out :=
  rhs ← nonnull op2;
  r ← deref (values s) rhs;
  if v_is_constant r && f32_eq (v_word r) f32_zero then Done (None, false, s)
  else
    lhs ← nonnull op1;
    l ← deref (values s) lhs;
    if v_is_constant l && v_is_constant r then
      let '(c, s1) := create_const_float (f32_div (v_word l) (v_word r)) s in
      Done (Some c, false, s1)
    else if v_is_constant l && f32_eq (v_word l) f32_zero then
      let '(c, s1) := create_const_float f32_zero s in Done (Some c, false, s1)
    else if v_is_constant r && f32_eq (v_word r) f32_one then Done (Some lhs, false, s)
    else if Nat.eqb lhs rhs then
      let '(c, s1) := create_const_float f32_one s in Done (Some c, false, s1)
    else if v_is_constant r && f32_eq (v_word r) f32_minus_one then
      rewrite_binary assert_on instr IR_OP_FSUB (create_const_float f32_zero) lhs s
    else Done (None, false, s).

(** [for (op = head; op; op = op->next_in_instr->next_in_instr)] over the
    (value, block) pairs of a PHI: is every incoming value [first_val] or the
    PHI's own result?  An odd operand count dereferences NULL on the way. *)
Fixpoint phi_all_same (s : state) (first_val dest : option nat) (ops : list nat)
  : outcome bool :=
  match ops with
  | [] => Done true
  | op :: rest =>
      o ← deref (operands s) op;
      if negb (ptr_eqb (op_value o) first_val) && negb (ptr_eqb (op_value o) dest)
      then Done false
      else
        match rest with
        | [] => Stop invalid_pointer
        | _ :: rest' => phi_all_same s first_val dest rest'
        end
  end.

(** The incoming value paired with block [pred], searched pair by pair. *)
Fixpoint phi_incoming_from (s : state) (pred : option nat) (ops : list nat)
  : outcome (option (option nat)) :=
  match ops with
  | [] => Done None
  | op :: rest =>
      o ← deref (operands s) op;
      match rest with
      | [] => Stop invalid_pointer
      | blk_op :: rest' =>
          ob ← deref (operands s) blk_op;
          if ptr_eqb (op_bb ob) pred then Done (Some (op_value o))
          else phi_incoming_from s pred rest'
      end
  end.

Definition visit_phi (instr : nat) (s : state) : outcome visit_out :=
  phi ← deref (instrs s) instr;
  match i_operands phi with
  | [] => Done (None, false, s)
  | op0 :: _ =>
      o0 ← deref (operands s) op0;
      let first_val := op_value o0 in
      all_same ← phi_all_same s first_val (i_dest phi) (i_operands phi);
      if (all_same : bool) then Done (first_val, false, s)
      else
        match i_parent phi with
        | None => Done (None, false, s)
        | Some bb =>
            blk ← deref (blocks s) bb;
            match bb_predecessors blk with
            | [p] =>
                r ← phi_incoming_from s (Some p) (i_operands phi);
                match r with
                | Some v => Done (v, false, s)
                | None => Done (None, false, s)
                end
            | _ => Done (None, false, s)
            end
        end
  end.

(** [visit_fn_table[opcode]], with [visit_unhandled] for the empty slots. *)
Definition visit_fn (assert_on : bool) (opcode : Opcode) (instr : nat) (op1 op2 : option nat)
  (s : state) : outcome visit_out :=
  match opcode with
  | IR_OP_ADD => visit_add assert_on instr op1 op2 s
  | IR_OP_SUB => visit_sub assert_on instr op1 op2 s
  | IR_OP_MUL => visit_mul assert_on instr op1 op2 s
  | IR_OP_SDIV => visit_sdiv assert_on instr op1 op2 s
  | IR_OP_SREM => visit_srem op1 op2 s
  | IR_OP_FADD => visit_fadd op1 op2 s
  | IR_OP_FSUB => visit_fsub assert_on instr op1 op2 s
  | IR_OP_FMUL => visit_fmul assert_on instr op1 op2 s
  | IR_OP_FDIV => visit_fdiv assert_on instr op1 op2 s
  | IR_OP_ICMP => visit_icmp instr op1 op2 s
  | IR_OP_FCMP => visit_fcmp instr op1 op2 s
  | IR_OP_PHI => visit_phi instr s
  | _ => visit_unhandled s           (* shl, ashr, and, gep: return NULL; others: no entry *)
  end.

(** [ctx.opK = k-th operand's data.value] when the instruction has it. *)
Definition operand_value_at (s : state) (ins : IRInstruction) (k : nat) : outcome (option nat) :=
  match i_operands ins !! k with
  | None => Done None
  | Some op => o ← deref (operands s) op; Done (op_value o)
  end.

(** One turn of [while (wl->count > 0)]. *)
Definition inst_combine_step (assert_on : bool) (instr : nat) (wl : Worklist) (s : state)
  : outcome (Worklist * bool * state) :=
  ins ← deref (instrs s) instr;
  if opcode_eqb (i_opcode ins) IR_OP_UNKNOWN then Done (wl, false, s)
  else
    op1 ← operand_value_at s ins 0;
    op2 ← operand_value_at s ins 1;
    _ ← operand_value_at s ins 2;
    _ ← operand_value_at s ins 3;
    '(new_val, re_queue, s1) ← visit_fn assert_on (i_opcode ins) instr op1 op2 s;
    match new_val with
    | Some nv =>
        ins1 ← deref (instrs s1) instr;
        '(wl1, s2) ← match i_dest ins1 with
                     | Some d =>
                         '(w, s') ← replace_all_uses_with assert_on (Some wl) d (Some nv) s1;
                         Done (default wl w, s')
                     | None => Done (wl, s1)
                     end;
        s3 ← erase_instruction assert_on (Some instr) s2;
        Done (wl1, true, s3)
    | None =>
        if (re_queue : bool) then Done (worklist_add wl instr, true, s1)
        else Done (wl, false, s1)
    end.

Fixpoint inst_combine_loop (assert_on : bool) (fuel : nat) (wl : Worklist) (changed : bool)
  (s : state) : outcome (bool * state) :=
  match worklist_pop wl with
  | (None, _) => Done (changed, s)
  | (Some instr, wl') =>
      match fuel with
      | O => Stop no_termination
      | S n =>
          '(wl1, ch, s1) ← inst_combine_step assert_on instr wl' s;
          inst_combine_loop assert_on n wl1 (changed || ch) s1
      end
  end.

(** The initial fill: [for (i = 0; i < block_count; ++i)] over
    [func->reverse_post_order[i]], every instruction pushed. *)
Fixpoint fill_worklist (s : state) (rpo : option (list nat)) (n : nat) (i : nat)
  (wl : Worklist) : outcome Worklist :=
  match n with
  | O => Done wl
  | S n' =>
      r ← nonnull rpo;
      bb ← nonnull (r !! i);
      l ← block_chain s bb;
      fill_worklist s rpo n' (S i) (fold_left worklist_add l wl)
  end.

(** [run_inst_combine(func)].  The worklist loop has no bound of its own (a
    visitor may re-queue its instruction for ever), hence [fuel]. *)
Definition run_inst_combine (assert_on : bool) (fuel : nat) (func : option nat) (s : state)
  : outcome (bool * state) :=
  match func with
  | None => Done (false, s)
  | Some f =>
      fn ← deref (funcs s) f;
      if is_null (fn_entry fn) then Done (false, s)
      else
        _ ← c_assert assert_on (negb (is_null (fn_reverse_post_order fn)));
        wl ← fill_worklist s (fn_reverse_post_order fn) (Z.to_nat (fn_block_count fn)) 0
               create_worklist;
        inst_combine_loop assert_on fuel wl false s
  end.

(** ** SCCP (sccp.c) *)

Inductive LatticeState := LATTICE_TIR_OP | LATTICE_CONSTANT | LATTICE_BOTTOM.

#[global] Instance LatticeState_eq_dec : EqDecision LatticeState.
Proof. solve_decision. Defined.

Record LatticeValue := mkLatticeValue {
  lv_state : LatticeState;
  lv_const_val : Z;              (* the int_val / float_val cell *)
  lv_type : option Ty;
  lv_is_valid : bool
}.

Definition lattice_bottom (valid : bool) : LatticeValue :=
  mkLatticeValue LATTICE_BOTTOM 0 None valid.

Record SCCPContext := mkSCCPContext {
  sc_func : nat;
  sc_cfg_worklist : Worklist;
  sc_ssa_worklist : Worklist;
  sc_value_lattice : gmap nat LatticeValue;   (* indexed by value id *)
  sc_value_count : Z;
  sc_executable_blocks : gset Z;              (* post_order_ids whose flag is set *)
  sc_value_id_map : gmap nat nat;             (* IRValue* -> id *)
  sc_value_nodes : list (nat * nat);          (* the map's nodes, in id order *)
  sc_iteration_count : Z;
  sc_max_iterations : Z;
  sc_changed : bool
}.

Definition sc_with_cfg_worklist (x : Worklist) (c : SCCPContext) : SCCPContext :=
  mkSCCPContext (sc_func c) x (sc_ssa_worklist c) (sc_value_lattice c) (sc_value_count c)
    (sc_executable_blocks c) (sc_value_id_map c) (sc_value_nodes c) (sc_iteration_count c)
    (sc_max_iterations c) (sc_changed c).
Definition sc_with_ssa_worklist (x : Worklist) (c : SCCPContext) : SCCPContext :=
  mkSCCPContext (sc_func c) (sc_cfg_worklist c) x (sc_value_lattice c) (sc_value_count c)
    (sc_executable_blocks c) (sc_value_id_map c) (sc_value_nodes c) (sc_iteration_count c)
    (sc_max_iterations c) (sc_changed c).
Definition sc_with_executable_blocks (x : gset Z) (c : SCCPContext) : SCCPContext :=
  mkSCCPContext (sc_func c) (sc_cfg_worklist c) (sc_ssa_worklist c) (sc_value_lattice c)
    (sc_value_count c) x (sc_value_id_map c) (sc_value_nodes c) (sc_iteration_count c)
    (sc_max_iterations c) (sc_changed c).
Definition sc_with_iteration_count (x : Z) (c : SCCPContext) : SCCPContext :=
  mkSCCPContext (sc_func c) (sc_cfg_worklist c) (sc_ssa_worklist c) (sc_value_lattice c)
    (sc_value_count c) (sc_executable_blocks c) (sc_value_id_map c) (sc_value_nodes c) x
    (sc_max_iterations c) (sc_changed c).

Definition is_executable (ctx : SCCPContext) (post_order_id : Z) : bool :=
  bool_decide (post_order_id ∈ sc_executable_blocks ctx).

(** [get_value_id]: -1 when the value is NULL, constant or has no node. *)
Definition get_value_id (ctx : SCCPContext) (s : state) (val : option nat) : outcome Z :=
  match val with
  | None => Done (-1)
  | Some v =>
      x ← deref (values s) v;
      if v_is_constant x then Done (-1)
      else
        match sc_value_id_map ctx !! v with
        | Some id => Done (Z.of_nat id)
        | None => Done (-1)
        end
  end.

Definition get_lattice_value (ctx : SCCPContext) (s : state) (val : option nat)
  : outcome LatticeValue :=
  match val with
  | None => Done (lattice_bottom false)
  | Some v =>
      x ← deref (values s) v;
      if v_is_constant x then
        (* both branches of the test on type->basic copy the same cell *)
        _ ← nonnull (v_type x);
        Done (mkLatticeValue LATTICE_CONSTANT (v_word x) (v_type x) true)
      else
        id ← get_value_id ctx s val;
        if negb (id =? -1) && (id <? sc_value_count ctx) then
          Done (default (mkLatticeValue LATTICE_TIR_OP 0 None false)
                        (sc_value_lattice ctx !! Z.to_nat id))
        else Done (lattice_bottom false)
  end.

Definition are_lattice_values_equal (v1 v2 : LatticeValue) : outcome bool :=
  if negb (bool_decide (lv_state v1 = lv_state v2)) then Done false
  else if bool_decide (lv_state v1 = LATTICE_CONSTANT) then
    if negb (type_ptr_eqb (lv_type v1) (lv_type v2)) then Done false
    else
      t ← nonnull (lv_type v1);
      if bool_decide (ty_basic t = Some BASIC_INT)
      then Done (lv_const_val v1 =? lv_const_val v2)
      else Done (f32_close (lv_const_val v1) (lv_const_val v2))
  else Done true.

Definition set_lattice_value (ctx : SCCPContext) (s : state) (val : option nat)
  (new_lval : LatticeValue) : outcome SCCPContext :=
  id ← get_value_id ctx s val;
  if (id =? -1) || (sc_value_count ctx <=? id) then Done ctx
  else
    let current := default (mkLatticeValue LATTICE_TIR_OP 0 None false)
                           (sc_value_lattice ctx !! Z.to_nat id) in
    eq ← are_lattice_values_equal current new_lval;
    if (eq : bool) then Done ctx
    else
      Done (mkSCCPContext (sc_func ctx) (sc_cfg_worklist ctx)
              (match val with
               | Some v => worklist_add (sc_ssa_worklist ctx) v
               | None => sc_ssa_worklist ctx
               end)
              (<[Z.to_nat id := new_lval]> (sc_value_lattice ctx)) (sc_value_count ctx)
              (sc_executable_blocks ctx) (sc_value_id_map ctx) (sc_value_nodes ctx)
              (sc_iteration_count ctx) (sc_max_iterations ctx) true).

Definition merge_lattice_values (v1 v2 : LatticeValue) : outcome LatticeValue :=
  if bool_decide (lv_state v1 = LATTICE_BOTTOM) || bool_decide (lv_state v2 = LATTICE_BOTTOM)
  then Done (lattice_bottom true)
  else if bool_decide (lv_state v1 = LATTICE_TIR_OP) then Done v2
  else if bool_decide (lv_state v2 = LATTICE_TIR_OP) then Done v1
  else
    eq ← are_lattice_values_equal v1 v2;
    if (eq : bool) then Done v1 else Done (lattice_bottom true).

(** The lattice values of the first two operands of [ins]. *)
Definition operand_lattice (ctx : SCCPContext) (s : state) (ins : IRInstruction) (k : nat)
  : outcome LatticeValue :=
  match i_operands ins !! k with
  | None => get_lattice_value ctx s None
  | Some op => o ← deref (operands s) op; get_lattice_value ctx s (op_value o)
  end.

Definition dest_type (s : state) (ins : IRInstruction) : outcome (option Ty) :=
  match i_dest ins with
  | None => Done None
  | Some d => dv ← deref (values s) d; Done (v_type dv)
  end.

Definition fold_int_binary (opcode : Opcode) (v1 v2 : Z) : outcome Z :=
  match opcode with
  | IR_OP_ADD => Done (wrap32 (v1 + v2))
  | IR_OP_SUB => Done (wrap32 (v1 - v2))
  | IR_OP_MUL => Done (wrap32 (v1 * v2))
  | IR_OP_SDIV => if negb (v2 =? 0) then c_div v1 v2 else Done 0
  | IR_OP_SREM => if negb (v2 =? 0) then c_rem v1 v2 else Done 0
  | _ => Done 0
  end.

(** The PHI case: merge over the pairs whose block is executable. *)
Fixpoint evaluate_phi (ctx : SCCPContext) (s : state) (ops : list nat) (merged : LatticeValue)
  : outcome LatticeValue :=
  match ops with
  | [] => Done merged
  | op :: rest =>
      o ← deref (operands s) op;
      match rest with
      | [] => Stop invalid_pointer
      | blk_op :: rest' =>
          ob ← deref (operands s) blk_op;
          incoming_bb ← nonnull (op_bb ob);
          blk ← deref (blocks s) incoming_bb;
          m ← (if is_executable ctx (bb_post_order_id blk) then
                 lval ← get_lattice_value ctx s (op_value o);
                 merge_lattice_values merged lval
               else Done merged);
          evaluate_phi ctx s rest' m
      end
  end.

Definition evaluate_instruction (ctx : SCCPContext) (s : state) (instr : option nat)
  : outcome LatticeValue :=
  match instr with
  | None => Done (lattice_bottom false)
  | Some i =>
      ins ← deref (instrs s) i;
      match i_opcode ins with
      | IR_OP_ADD | IR_OP_SUB | IR_OP_MUL | IR_OP_SDIV | IR_OP_SREM =>
          lval1 ← operand_lattice ctx s ins 0;
          lval2 ← operand_lattice ctx s ins 1;
          merged ← merge_lattice_values lval1 lval2;
          if bool_decide (lv_state merged = LATTICE_BOTTOM) then Done merged
          else if bool_decide (lv_state lval1 = LATTICE_CONSTANT)
                  && bool_decide (lv_state lval2 = LATTICE_CONSTANT) then
            res ← fold_int_binary (i_opcode ins) (lv_const_val lval1) (lv_const_val lval2);
            t ← dest_type s ins;
            Done (mkLatticeValue LATTICE_CONSTANT res t true)
          else Done merged
      | IR_OP_ICMP =>
          lval1 ← operand_lattice ctx s ins 0;
          lval2 ← operand_lattice ctx s ins 1;
          merged ← merge_lattice_values lval1 lval2;
          if bool_decide (lv_state merged = LATTICE_BOTTOM) then Done merged
          else if bool_decide (lv_state lval1 = LATTICE_CONSTANT)
                  && bool_decide (lv_state lval2 = LATTICE_CONSTANT) then
            pred ← nonnull (i_opcode_cond ins);
            t ← dest_type s ins;
            Done (mkLatticeValue LATTICE_CONSTANT
                    (if icmp_eval pred (lv_const_val lval1) (lv_const_val lval2) then 1 else 0)
                    t true)
          else Done merged
      | IR_OP_FCMP =>
          lval1 ← operand_lattice ctx s ins 0;
          lval2 ← operand_lattice ctx s ins 1;
          merged ← merge_lattice_values lval1 lval2;
          if bool_decide (lv_state merged = LATTICE_BOTTOM) then Done merged
          else if bool_decide (lv_state lval1 = LATTICE_CONSTANT)
                  && bool_decide (lv_state lval2 = LATTICE_CONSTANT) then
            pred ← nonnull (i_opcode_cond ins);
            t ← dest_type s ins;
            Done (mkLatticeValue LATTICE_CONSTANT
                    (if fcmp_eval pred (lv_const_val lval1) (lv_const_val lval2) then 1 else 0)
                    t true)
          else Done merged
      | IR_OP_ZEXT | IR_OP_SITOFP | IR_OP_FPTOSI =>
          lval1 ← operand_lattice ctx s ins 0;
          if bool_decide (lv_state lval1 = LATTICE_BOTTOM) then Done (lattice_bottom true)
          else if bool_decide (lv_state lval1 = LATTICE_CONSTANT) then
            t ← dest_type s ins;
            Done (mkLatticeValue LATTICE_CONSTANT
                    (match i_opcode ins with
                     | IR_OP_ZEXT => lv_const_val lval1
                     | IR_OP_SITOFP => f32_of_int (lv_const_val lval1)
                     | _ => int_of_f32 (lv_const_val lval1)
                     end) t true)
          else Done lval1
      | IR_OP_PHI =>
          evaluate_phi ctx s (i_operands ins) (mkLatticeValue LATTICE_TIR_OP 0 None true)
      | _ => Done (lattice_bottom true)
      end
  end.

(** [executable_blocks[bb->post_order_id] = true; worklist_add(cfg_worklist, bb)] *)
Definition mark_executable (ctx : SCCPContext) (target : nat) (post_order_id : Z)
  : SCCPContext :=
  sc_with_cfg_worklist (worklist_add (sc_cfg_worklist ctx) target)
    (sc_with_executable_blocks ({[post_order_id]} ∪ sc_executable_blocks ctx) ctx).

(** The leading PHIs of a block: [for (phi = to->head; phi && phi->opcode ==
    IR_OP_PHI; phi = phi->next)]. *)
Fixpoint leading_phis (s : state) (l : list nat) : outcome (list nat) :=
  match l with
  | [] => Done []
  | i :: rest =>
      ins ← deref (instrs s) i;
      if opcode_eqb (i_opcode ins) IR_OP_PHI
      then r ← leading_phis s rest; Done (i :: r)
      else Done []
  end.

Fixpoint fold_ctx {A} (body : SCCPContext -> A -> outcome SCCPContext) (l : list A)
  (ctx : SCCPContext) : outcome SCCPContext :=
  match l with
  | [] => Done ctx
  | x :: t => c ← body ctx x; fold_ctx body t c
  end.

(** [visit_phi_operands], over a given way of visiting one PHI. *)
Definition visit_phi_operands_with
  (visit : SCCPContext -> option nat -> outcome SCCPContext)
  (ctx : SCCPContext) (s : state) (to : nat) : outcome SCCPContext :=
  blk ← deref (blocks s) to;
  if negb (is_executable ctx (bb_post_order_id blk)) then Done ctx
  else
    l ← block_chain s to;
    phis ← leading_phis s l;
    fold_ctx (fun c phi => visit c (Some phi)) phis ctx.

(** Mark [target] executable if it is not yet, queue it and visit its PHIs. *)
Definition reach_block
  (visit_phis : SCCPContext -> nat -> outcome SCCPContext)
  (ctx : SCCPContext) (s : state) (target : nat) : outcome SCCPContext :=
  tb ← deref (blocks s) target;
  if negb (is_executable ctx (bb_post_order_id tb))
  then visit_phis (mark_executable ctx target (bb_post_order_id tb)) target
  else Done ctx.

(** The body of [visit_instruction], over a given [visit_phi_operands]. *)
Definition visit_instruction_with
  (visit_phis : SCCPContext -> nat -> outcome SCCPContext)
  (ctx : SCCPContext) (s : state) (instr : option nat) : outcome SCCPContext :=
  match instr with
  | None => Done ctx
  | Some i =>
      ins ← deref (instrs s) i;
      pb ← nonnull (i_parent ins);
      blk ← deref (blocks s) pb;
      if negb (is_executable ctx (bb_post_order_id blk)) then Done ctx
      else
        match i_dest ins with
        | Some d =>
            old_lval ← get_lattice_value ctx s (Some d);
            if bool_decide (lv_state old_lval = LATTICE_BOTTOM) then Done ctx
            else
              new_lval ← evaluate_instruction ctx s instr;
              set_lattice_value ctx s (Some d) new_lval
        | None =>
            if opcode_eqb (i_opcode ins) IR_OP_BR && (1 <? Z.of_nat (length (i_operands ins)))
            then
              op0 ← operand_at s ins 0;
              o0 ← deref (operands s) op0;
              cond_lval ← get_lattice_value ctx s (op_value o0);
              if bool_decide (lv_state cond_lval = LATTICE_CONSTANT) then
                op ← operand_at s ins 1;
                o ← deref (operands s) op;
                let true_target :=
                  if bool_decide (op_kind o = IR_OP_KIND_BASIC_BLOCK) then op_bb o else None in
                false_target ←
                  match i_operands ins !! 2%nat with
                  | Some op' =>
                      o' ← deref (operands s) op';
                      Done (if bool_decide (op_kind o' = IR_OP_KIND_BASIC_BLOCK)
                            then op_bb o' else None)
                  | None => Done None
                  end;
                let target :=
                  if negb (lv_const_val cond_lval =? 0) then true_target else false_target in
                match target with
                | Some t => reach_block visit_phis ctx s t
                | None => Done ctx
                end
              else Done ctx
            else if opcode_eqb (i_opcode ins) IR_OP_BR then
              op0 ← operand_at s ins 0;
              o0 ← deref (operands s) op0;
              target ← nonnull (op_bb o0);
              reach_block visit_phis ctx s target
            else Done ctx
        end
  end.

(** [visit_instruction].  [visit_phi_operands] only visits instructions whose
    opcode is PHI; such a visit takes neither branch arm, so it never comes
    back to [visit_phi_operands]. *)
Definition visit_phi_instruction (s : state) (ctx : SCCPContext) (phi : option nat)
  : outcome SCCPContext :=
  visit_instruction_with (fun c _ => Done c) ctx s phi.

Definition visit_phi_operands (ctx : SCCPContext) (s : state) (to : nat)
  : outcome SCCPContext :=
  visit_phi_operands_with (visit_phi_instruction s) ctx s to.

Definition visit_instruction (ctx : SCCPContext) (s : state) (instr : option nat)
  : outcome SCCPContext :=
  visit_instruction_with (fun c t => visit_phi_operands c s t) ctx s instr.

Definition visit_block (ctx : SCCPContext) (s : state) (bb : nat) : outcome SCCPContext :=
  blk ← deref (blocks s) bb;
  if negb (is_executable ctx (bb_post_order_id blk)) then Done ctx
  else
    l ← block_chain s bb;
    fold_ctx (fun c i => visit_instruction c s (Some i)) l ctx.

(** [assign_value_ids]: ids in block order, then instruction order. *)
Fixpoint dests_of_instrs (s : state) (l : list nat) : outcome (list nat) :=
  match l with
  | [] => Done []
  | i :: rest =>
      ins ← deref (instrs s) i;
      r ← dests_of_instrs s rest;
      Done (match i_dest ins with Some d => d :: r | None => r end)
  end.

Fixpoint dests_of_blocks (s : state) (bbs : list nat) : outcome (list nat) :=
  match bbs with
  | [] => Done []
  | bb :: rest =>
      l ← block_chain s bb;
      d ← dests_of_instrs s l;
      r ← dests_of_blocks s rest;
      Done (d ++ r)
  end.

Fixpoint number_from (k : nat) (l : list nat) : list (nat * nat) :=
  match l with
  | [] => []
  | v :: rest => (v, k) :: number_from (S k) rest
  end.

Definition top_lattice (n : nat) : gmap nat LatticeValue :=
  list_to_map (map (fun k => (k, mkLatticeValue LATTICE_TIR_OP 0 None true)) (seq 0 n)).

Definition initialize_sccp (func : nat) (s : state) : outcome SCCPContext :=
  fn ← deref (funcs s) func;
  dests ← dests_of_blocks s (fn_blocks fn);
  let nodes := number_from 0 dests in
  let ctx0 :=
    mkSCCPContext func create_worklist create_worklist (top_lattice (length dests))
      (Z.of_nat (length dests)) ∅ (list_to_map (rev nodes)) nodes 0 1000 false in
  ctx1 ← fold_ctx (fun c arg =>
                     a ← deref (values s) arg;
                     set_lattice_value c s (Some arg)
                       (mkLatticeValue LATTICE_BOTTOM 0 (v_type a) true))
                  (fn_args fn) ctx0;
  (* the worklists are created only now: a push before this point wrote
     through a NULL ssa_worklist *)
  _ ← (if is_nil (sc_ssa_worklist ctx1) then Done tt else Stop invalid_pointer);
  entry ← nonnull (fn_entry fn);
  eb ← deref (blocks s) entry;
  Done (mkSCCPContext func (worklist_add (sc_cfg_worklist ctx1) entry) (sc_ssa_worklist ctx1)
          (sc_value_lattice ctx1) (sc_value_count ctx1)
          ({[bb_post_order_id eb]} ∪ sc_executable_blocks ctx1)
          (sc_value_id_map ctx1) (sc_value_nodes ctx1) 0 (sc_max_iterations ctx1) false).

(** The users of a value's uses, in use-chain order. *)
Fixpoint users_of (s : state) (uses : list nat) : outcome (list (option nat)) :=
  match uses with
  | [] => Done []
  | u :: rest => o ← deref (operands s) u; r ← users_of s rest; Done (op_user o :: r)
  end.

(** [run_sccp_analysis]: the loop runs while a worklist is non-empty and
    [iteration_count < max_iterations]; [budget] is the distance to that cap. *)
Fixpoint sccp_analysis_loop (budget : nat) (ctx : SCCPContext) (s : state)
  : outcome SCCPContext :=
  match budget with
  | O => Done ctx
  | S n =>
      if is_nil (sc_cfg_worklist ctx) && is_nil (sc_ssa_worklist ctx) then Done ctx
      else
        let ctx0 := sc_with_iteration_count (sc_iteration_count ctx + 1) ctx in
        ctx1 ← match worklist_pop (sc_cfg_worklist ctx0) with
               | (Some bb, rest) => visit_block (sc_with_cfg_worklist rest ctx0) s bb
               | (None, _) => Done ctx0
               end;
        ctx2 ← match worklist_pop (sc_ssa_worklist ctx1) with
               | (Some val, rest) =>
                   v ← deref (values s) val;
                   users ← users_of s (v_use_list v);
                   fold_ctx (fun c u => visit_instruction c s u) users
                            (sc_with_ssa_worklist rest ctx1)
               | (None, _) => Done ctx1
               end;
        sccp_analysis_loop n ctx2 s
  end.

Definition run_sccp_analysis (ctx : SCCPContext) (s : state) : outcome SCCPContext :=
  sccp_analysis_loop (Z.to_nat (sc_max_iterations ctx - sc_iteration_count ctx)) ctx s.

(** *** CFG edits used by the transform (ir_utils.c) *)

Fixpoint remove_phi_pairs (pred : nat) (ops : list nat) (s : state) : outcome state :=
  match ops with
  | op_val :: op_block :: rest =>
      ob ← deref (operands s) op_block;
      s1 ← (if bool_decide (op_kind ob = IR_OP_KIND_BASIC_BLOCK)
               && ptr_eqb (op_bb ob) (Some pred)
            then s' ← remove_operand op_val s; remove_operand op_block s'
            else Done s);
      remove_phi_pairs pred rest s1
  | _ => Done s
  end.

Definition remove_phi_entries_for_predecessor (phi : option nat) (pred : option nat)
  (s : state) : outcome state :=
  match phi, pred with
  | Some p, Some pr =>
      ins ← deref (instrs s) p;
      if opcode_eqb (i_opcode ins) IR_OP_PHI then remove_phi_pairs pr (i_operands ins) s
      else Done s
  | _, _ => Done s
  end.

Definition remove_predecessor (block : option nat) (pred_to_remove : option nat) (s : state)
  : outcome state :=
  b ← nonnull block;
  blk ← deref (blocks s) b;
  match pred_to_remove with
  | Some pr =>
      if existsb (Nat.eqb pr) (bb_predecessors blk) then
        let s1 := upd_block b (bb_with_predecessors (remove_first pr (bb_predecessors blk))) s in
        l ← block_chain s1 b;
        phis ← leading_phis s1 l;
        for_each (fun phi s' => remove_phi_entries_for_predecessor (Some phi) pred_to_remove s')
                 phis s1
      else Done s
  | None => Done s            (* no predecessor entry is NULL *)
  end.

(** *** The transformation phase *)

Definition create_constant_from_lattice (lval : LatticeValue) (s : state)
  : option nat * state :=
  if negb (bool_decide (lv_state lval = LATTICE_CONSTANT)) then (None, s)
  else
    match lv_type lval with
    | None => (None, s)
    | Some t =>
        let '(v, s1) := pool_alloc s in
        let cell :=
          match ty_basic t with
          | Some BASIC_INT | Some BASIC_I1 | Some BASIC_FLOAT => lv_const_val lval
          | _ => 0
          end in
        (Some v, set_values (insert v (mkIRValue true false cell None (Some t) None None [])) s1)
    end.

(** Step 1: every node of the id map whose lattice value is Constant. *)
Fixpoint replace_constants (assert_on : bool) (ctx : SCCPContext) (nodes : list (nat * nat))
  (wl : Worklist) (changed : bool) (s : state) : outcome (Worklist * bool * state) :=
  match nodes with
  | [] => Done (wl, changed, s)
  | (value, id) :: rest =>
      let lval := default (mkLatticeValue LATTICE_TIR_OP 0 None false)
                          (sc_value_lattice ctx !! id) in
      if bool_decide (lv_state lval = LATTICE_CONSTANT) then
        let '(const_val, s1) := create_constant_from_lattice lval s in
        '(w, s2) ← replace_all_uses_with assert_on (Some wl) value const_val s1;
        replace_constants assert_on ctx rest (default wl w) true s2
      else replace_constants assert_on ctx rest wl changed s
  end.

(** Step 2 for one block: a conditional branch on a Constant condition becomes
    an unconditional one.  The new branch is linked in by hand before the old
    terminator is erased. *)
Definition fold_branch (assert_on : bool) (ctx : SCCPContext) (bb : nat) (s : state)
  : outcome (bool * state) :=
  blk ← deref (blocks s) bb;
  if negb (is_executable ctx (bb_post_order_id blk)) || is_null (bb_tail blk)
  then Done (false, s)
  else
    term ← nonnull (bb_tail blk);
    tins ← deref (instrs s) term;
    if opcode_eqb (i_opcode tins) IR_OP_BR && (1 <? Z.of_nat (length (i_operands tins))) then
      op0 ← operand_at s tins 0;
      o0 ← deref (operands s) op0;
      cond_lval ← get_lattice_value ctx s (op_value o0);
      if bool_decide (lv_state cond_lval = LATTICE_CONSTANT) then
        op1 ← operand_at s tins 1;
        o1 ← deref (operands s) op1;
        op2 ← operand_at s tins 2;
        o2 ← deref (operands s) op2;
        let true_target := op_bb o1 in
        let false_target := op_bb o2 in
        let final_target :=
          if negb (lv_const_val cond_lval =? 0) then true_target else false_target in
        let dead_succ :=
          if ptr_eqb final_target true_target then false_target else true_target in
        s1 ← remove_predecessor dead_succ (Some bb) s;
        let '(new_br, s2) := create_ir_instruction IR_OP_BR s1 in
        let s3 := upd_instr new_br (i_with_parent (Some bb)) s2 in
        s4 ← add_bb_operand new_br final_target s3;
        tins4 ← deref (instrs s4) term;
        s5 ← match i_prev tins4 with
             | Some p => _ ← deref (instrs s4) p; Done (upd_instr p (i_with_next (Some new_br)) s4)
             | None => Done (upd_block bb (bb_with_head (Some new_br)) s4)
             end;
        let s6 := upd_instr new_br (i_with_prev (i_prev tins4)) s5 in
        let s7 := upd_block bb (bb_with_tail (Some new_br)) s6 in
        s8 ← erase_instruction assert_on (Some term) s7;
        Done (true, s8)
      else Done (false, s)
    else Done (false, s).

Fixpoint fold_branches (assert_on : bool) (ctx : SCCPContext) (bbs : list nat) (changed : bool)
  (s : state) : outcome (bool * state) :=
  match bbs with
  | [] => Done (changed, s)
  | bb :: rest =>
      '(ch, s1) ← fold_branch assert_on ctx bb s;
      fold_branches assert_on ctx rest (changed || ch) s1
  end.

Definition transform_based_on_sccp (assert_on : bool) (ctx : SCCPContext) (s : state)
  : outcome (bool * state) :=
  '(_, changed, s1) ← replace_constants assert_on ctx (sc_value_nodes ctx) create_worklist
                        false s;
  fn ← deref (funcs s1) (sc_func ctx);
  fold_branches assert_on ctx (fn_blocks fn) changed s1.

Definition run_sccp (assert_on : bool) (func : option nat) (s : state) : outcome (bool * state) :=
  match func with
  | None => Done (false, s)
  | Some f =>
      fn ← deref (funcs s) f;
      if is_null (fn_entry fn) then Done (false, s)
      else
        ctx ← initialize_sccp f s;
        ctx' ← run_sccp_analysis ctx s;
        transform_based_on_sccp assert_on ctx' s
  end.

(** ** ADCE (adce.c) *)

Definition is_critical_instruction (s : state) (instr : option nat) : outcome bool :=
  match instr with
  | None => Done false
  | Some i =>
      ins ← deref (instrs s) i;
      Done match i_opcode ins with
           | IR_OP_CALL | IR_OP_STORE | IR_OP_RET | IR_OP_BR => true
           | _ => false
           end
  end.

Definition recalculate_instruction_count (func : nat) (s : state) : outcome state :=
  fn ← deref (funcs s) func;
  let count_block (bb : nat) (acc : Z) : outcome Z :=
    l ← block_chain s bb;
    foldr (fun i r =>
             n ← r;
             ins ← deref (instrs s) i;
             Done (if opcode_eqb (i_opcode ins) IR_OP_UNKNOWN then n else n + 1))
          (Done acc) l in
  total ← foldr (fun bb r => n ← r; count_block bb n) (Done 0) (fn_blocks fn);
  Done (upd_func func (fn_with_instruction_count total) s).

(** The pass-local state of ADCE: the worklist and the [live_blocks] flags, an
    array of [func->block_count] entries indexed by post-order id. *)
Record ADCEState := mkADCEState {
  ad_wl : Worklist;
  ad_live_blocks : gset Z;
  ad_block_count : Z
}.

(** [live_blocks[id]] and [block_info[id]]: an index outside the array reads
    or writes memory that is not the array's. *)
Definition block_index (block_count : Z) (id : Z) : outcome Z :=
  if (0 <=? id) && (id <? block_count) then Done id else Stop invalid_pointer.

Definition mark_instruction_live (instr : option nat) (a : ADCEState) (s : state)
  : outcome (ADCEState * state) :=
  match instr with
  | None => Done (a, s)
  | Some i =>
      ins ← deref (instrs s) i;
      if i_is_live ins then Done (a, s)
      else
        let s1 := upd_instr i (i_with_is_live true) s in
        let wl := worklist_add (ad_wl a) i in
        match i_parent ins with
        | Some pb =>
            blk ← deref (blocks s1) pb;
            block_id ← block_index (ad_block_count a) (bb_post_order_id blk);
            Done (mkADCEState wl ({[block_id]} ∪ ad_live_blocks a) (ad_block_count a), s1)
        | None => Done (mkADCEState wl (ad_live_blocks a) (ad_block_count a), s1)
        end
  end.

(** [val = op->data.value; if (val && !val->is_constant && val->def_instr)]:
    mark the definition live.  The C makes no test of the operand's kind: the
    word of the data union is taken as an [IRValue*] and read through.  When
    the operand is a block operand that word is the address of a block, the
    store has no value there, and the read does not return. *)
Definition mark_operand_definition (o : IROperand) (a : ADCEState) (s : state)
  : outcome (ADCEState * state) :=
  match op_value o with
  | None => Done (a, s)
  | Some v =>
      x ← deref (values s) v;
      if negb (v_is_constant x) && negb (is_null (v_def_instr x))
      then mark_instruction_live (v_def_instr x) a s
      else Done (a, s)
  end.

Fixpoint propagate_phi_pairs (ops : list nat) (a : ADCEState) (s : state)
  : outcome (ADCEState * state) :=
  match ops with
  | [] => Done (a, s)
  | op :: rest =>
      o ← deref (operands s) op;
      match rest with
      | [] => Done (a, s)
      | op_block :: rest' =>
          ob ← deref (operands s) op_block;
          '(a1, s1) ←
            (if bool_decide (op_kind ob = IR_OP_KIND_BASIC_BLOCK) then
               pred_bb ← nonnull (op_bb ob);
               pblk ← deref (blocks s) pred_bb;
               block_id ← block_index (ad_block_count a) (bb_post_order_id pblk);
               if bool_decide (block_id ∈ ad_live_blocks a)
               then mark_operand_definition o a s
               else Done (a, s)
             else Done (a, s));
          propagate_phi_pairs rest' a1 s1
      end
  end.

Fixpoint propagate_operands (ops : list nat) (a : ADCEState) (s : state)
  : outcome (ADCEState * state) :=
  match ops with
  | [] => Done (a, s)
  | op :: rest =>
      o ← deref (operands s) op;
      '(a1, s1) ← mark_operand_definition o a s;
      propagate_operands rest a1 s1
  end.

Definition propagate_data_flow_liveness (instr : option nat) (a : ADCEState) (s : state)
  : outcome (ADCEState * state) :=
  match instr with
  | None => Done (a, s)
  | Some i =>
      ins ← deref (instrs s) i;
      if opcode_eqb (i_opcode ins) IR_OP_PHI
      then propagate_phi_pairs (i_operands ins) a s
      else propagate_operands (i_operands ins) a s
  end.

Fixpoint mark_pred_terminators (preds : list nat) (a : ADCEState) (s : state)
  : outcome (ADCEState * state) :=
  match preds with
  | [] => Done (a, s)
  | p :: rest =>
      pblk ← deref (blocks s) p;
      '(a1, s1) ← (match bb_tail pblk with
                   | Some t => mark_instruction_live (Some t) a s
                   | None => Done (a, s)
                   end);
      mark_pred_terminators rest a1 s1
  end.

Definition propagate_control_flow_liveness (bb : option nat) (a : ADCEState) (s : state)
  : outcome (ADCEState * state) :=
  match bb with
  | None => Done (a, s)
  | Some b =>
      blk ← deref (blocks s) b;
      block_id ← block_index (ad_block_count a) (bb_post_order_id blk);
      if negb (bool_decide (block_id ∈ ad_live_blocks a)) then
        mark_pred_terminators (bb_predecessors blk)
          (mkADCEState (ad_wl a) ({[block_id]} ∪ ad_live_blocks a) (ad_block_count a)) s
      else Done (a, s)
  end.

(** All instructions of the function, block by block. *)
Fixpoint function_instructions (s : state) (bbs : list nat) : outcome (list nat) :=
  match bbs with
  | [] => Done []
  | bb :: rest =>
      l ← block_chain s bb;
      r ← function_instructions s rest;
      Done (l ++ r)
  end.

(** [initialize_instruction_info] fills [block_info], an array of
    [block_count] entries indexed by post-order id, and [instr_info], an array
    of [total_instructions] entries with one entry per instruction met. *)
Definition initialize_instruction_info (s : state) (bbs all : list nat)
  (block_count total_instructions : Z) : outcome unit :=
  _ ← foldr (fun bb r =>
               _ ← r;
               blk ← deref (blocks s) bb;
               _ ← block_index block_count (bb_post_order_id blk);
               Done tt)
            (Done tt) (rev bbs);
  if Z.of_nat (length all) <=? total_instructions then Done tt else Stop invalid_pointer.

Fixpoint mark_critical (l : list nat) (a : ADCEState) (s : state)
  : outcome (ADCEState * state) :=
  match l with
  | [] => Done (a, s)
  | i :: rest =>
      crit ← is_critical_instruction s (Some i);
      '(a1, s1) ← (if (crit : bool) then mark_instruction_live (Some i) a s else Done (a, s));
      mark_critical rest a1 s1
  end.

(** Step 5: [while (wl->count > 0 && iteration_count < max_iterations)]. *)
Fixpoint adce_propagate (budget : nat) (a : ADCEState) (s : state)
  : outcome (ADCEState * state) :=
  match budget with
  | O => Done (a, s)
  | S n =>
      match worklist_pop (ad_wl a) with
      | (None, _) => Done (a, s)
      | (Some live_instr, rest) =>
          '(a1, s1) ← propagate_data_flow_liveness (Some live_instr)
                        (mkADCEState rest (ad_live_blocks a) (ad_block_count a)) s;
          ins ← deref (instrs s1) live_instr;
          '(a2, s2) ← (match i_parent ins with
                       | Some pb => propagate_control_flow_liveness (Some pb) a1 s1
                       | None => Done (a1, s1)
                       end);
          adce_propagate n a2 s2
      end
  end.

(** Step 6 for one block: the successor is read before the erase. *)
Fixpoint sweep (assert_on : bool) (l : list nat) (changed : bool) (s : state)
  : outcome (bool * state) :=
  match l with
  | [] => Done (changed, s)
  | i :: rest =>
      ins ← deref (instrs s) i;
      if negb (i_is_live ins) then
        s1 ← erase_instruction assert_on (Some i) s;
        sweep assert_on rest true s1
      else sweep assert_on rest changed s
  end.

Fixpoint sweep_blocks (assert_on : bool) (bbs : list nat) (changed : bool) (s : state)
  : outcome (bool * state) :=
  match bbs with
  | [] => Done (changed, s)
  | bb :: rest =>
      l ← block_chain s bb;
      '(ch, s1) ← sweep assert_on l changed s;
      sweep_blocks assert_on rest ch s1
  end.

Definition run_adce (assert_on : bool) (func : option nat) (s : state) : outcome (bool * state) :=
  match func with
  | None => Done (false, s)
  | Some f =>
      fn ← deref (funcs s) f;
      if is_null (fn_entry fn) then Done (false, s)
      else
        s0 ← (if fn_instruction_count fn =? 0 then recalculate_instruction_count f s
              else Done s);
        fn0 ← deref (funcs s0) f;
        let total_instructions := fn_instruction_count fn0 in
        all ← function_instructions s0 (fn_blocks fn0);
        (* 2. the per-instruction and per-block tables *)
        _ ← initialize_instruction_info s0 (fn_blocks fn0) all (fn_block_count fn0)
              total_instructions;
        (* 3. every instruction starts dead *)
        let s1 := fold_left (fun st i => upd_instr i (i_with_is_live false) st) all s0 in
        (* 4. seed the worklist with the critical instructions *)
        '(a, s2) ← mark_critical all (mkADCEState create_worklist ∅ (fn_block_count fn0)) s1;
        (* 5. propagate *)
        '(_, s3) ← adce_propagate (Z.to_nat (total_instructions * 2)) a s2;
        (* 6. sweep *)
        sweep_blocks assert_on (fn_blocks fn0) false s3
  end.

(** ** BitSet (ir_utils.c): [num_words] 64-bit words, kept as one integer. *)

Record BitSet := mkBitSet {
  bs_num_words : Z;
  bs_bits : Z
}.

Definition bitset_create (num_elements : Z) : BitSet :=
  mkBitSet (Z.quot (num_elements + 63) 64) 0.

Definition bitset_add (bs : BitSet) (id : Z) : BitSet :=
  if id <? 0 then bs
  else if bs_num_words bs <=? Z.quot id 64 then bs
  else mkBitSet (bs_num_words bs) (Z.lor (bs_bits bs) (Z.shiftl 1 id)).

Definition bitset_contains (bs : BitSet) (id : Z) : bool :=
  if id <? 0 then false
  else if bs_num_words bs <=? Z.quot id 64 then false
  else Z.testbit (bs_bits bs) id.

Definition bitset_copy (dest src : BitSet) : BitSet :=
  let w := Z.min (bs_num_words dest) (bs_num_words src) in
  mkBitSet (bs_num_words dest)
    (Z.lor (Z.shiftl (Z.shiftr (bs_bits dest) (64 * w)) (64 * w))
           (Z.land (bs_bits src) (Z.ones (64 * w)))).

Definition bitset_intersect (assert_on : bool) (dest src : BitSet) : outcome BitSet :=
  _ ← c_assert assert_on (bs_num_words dest =? bs_num_words src);
  Done (mkBitSet (bs_num_words dest)
          (Z.land (bs_bits dest) (Z.land (bs_bits src) (Z.ones (64 * bs_num_words dest))))).

Definition bitset_equals (assert_on : bool) (bs1 bs2 : BitSet) : outcome bool :=
  _ ← c_assert assert_on (bs_num_words bs1 =? bs_num_words bs2);
  Done (Z.land (bs_bits bs1) (Z.ones (64 * bs_num_words bs1))
        =? Z.land (bs_bits bs2) (Z.ones (64 * bs_num_words bs1))).

(** [memset] fills the first [num_words] words; a negative count is, as a
    [size_t], larger than any object.  The mask then clears the bits of the last
    filled word from [remaining_bits] on. *)
Definition bitset_set_all (assert_on : bool) (bs : BitSet) (num_elements : Z) : outcome BitSet :=
  let num_words := Z.quot (num_elements + 63) 64 in
  _ ← c_assert assert_on (num_words <=? bs_num_words bs);
  if num_words <? 0 then Stop invalid_pointer
  else
    let filled := Z.lor (Z.shiftl (Z.shiftr (bs_bits bs) (64 * num_words)) (64 * num_words))
                        (Z.ones (64 * num_words)) in
    let remaining_bits := Z.rem num_elements 64 in
    Done (mkBitSet (bs_num_words bs)
            (if (0 <? remaining_bits) && (0 <? num_words)
             then Z.ldiff filled (Z.shiftl (Z.ones (64 - remaining_bits))
                                           (64 * (num_words - 1) + remaining_bits))
             else filled)).

Definition bitset_clear (bs : BitSet) : BitSet := mkBitSet (bs_num_words bs) 0.

(** ** Dominators (dominators.c, ir_utils.c) *)

Record DominatorContext := mkDominatorContext {
  dc_func : nat;
  dc_post_order : list nat;
  dc_reverse_post_order : list nat;
  dc_block_count : Z;
  dc_dom_sets : gmap Z BitSet
}.

Definition dc_with_dom_sets (x : gmap Z BitSet) (c : DominatorContext) : DominatorContext :=
  mkDominatorContext (dc_func c) (dc_post_order c) (dc_reverse_post_order c)
    (dc_block_count c) x.

(** An array read [a[i]]; outside the filled part the C read is undefined. *)
Definition array_at {A} (a : list A) (i : Z) : outcome A :=
  if i <? 0 then Stop invalid_pointer else nonnull (a !! Z.to_nat i).

Definition dom_set_at (sets : gmap Z BitSet) (i : Z) : outcome BitSet :=
  match sets !! i with Some b => Done b | None => Stop invalid_pointer end.

Definition post_order_id_of (s : state) (b : nat) : outcome Z :=
  blk ← deref (blocks s) b; Done (bb_post_order_id blk).

(** [dfs_visit]: each call marks one more id visited, so more calls than there
    are blocks cannot return. *)
Fixpoint dfs_visit (fuel : nat) (s : state) (block : nat) (visited : gset Z)
  (post_order_list : list nat) : outcome (gset Z * list nat) :=
  match fuel with
  | O => Stop no_termination
  | S n =>
      blk ← deref (blocks s) block;
      r ← foldl (fun acc succ =>
                   '(vis, po) ← acc;
                   sid ← post_order_id_of s succ;
                   if bool_decide (sid ∈ vis) then Done (vis, po)
                   else dfs_visit n s succ vis po)
                (Done ({[bb_post_order_id blk]} ∪ visited, post_order_list))
                (bb_successors blk);
      Done (fst r, snd r ++ [block])
  end.

(** [for (i = 0; i < block_count; ++i) post_order[i]->post_order_id = i;] *)
Fixpoint number_post_order (post_order : list nat) (n : nat) (i : Z) (s : state)
  : outcome state :=
  match n with
  | O => Done s
  | S n' =>
      b ← array_at post_order i;
      _ ← deref (blocks s) b;
      number_post_order post_order n' (i + 1) (upd_block b (bb_with_post_order_id i) s)
  end.

Definition perform_post_order_traversal (assert_on : bool) (ctx : DominatorContext)
  (s : state) : outcome (DominatorContext * state) :=
  fn ← deref (funcs s) (dc_func ctx);
  entry ← nonnull (fn_entry fn);
  '(_, po) ← dfs_visit (S (size (blocks s))) s entry ∅ [];
  _ ← c_assert assert_on (Z.of_nat (length po) =? dc_block_count ctx);
  s1 ← number_post_order po (Z.to_nat (dc_block_count ctx)) 0 s;
  let rpo := rev (take (Z.to_nat (dc_block_count ctx)) po) in
  Done (mkDominatorContext (dc_func ctx) po rpo (dc_block_count ctx) (dc_dom_sets ctx),
        upd_func (dc_func ctx) (fn_with_reverse_post_order (Some rpo)) s1).

(** One sweep of the dataflow loop over the reverse post-order. *)
Fixpoint dominator_sweep (assert_on : bool) (s : state) (entry : nat) (rpo : list nat)
  (sets : gmap Z BitSet) (temp_set : BitSet) (changed : bool)
  : outcome (gmap Z BitSet * BitSet * bool) :=
  match rpo with
  | [] => Done (sets, temp_set, changed)
  | b :: rest =>
      if Nat.eqb b entry then dominator_sweep assert_on s entry rest sets temp_set changed
      else
        blk ← deref (blocks s) b;
        let b_id := bb_post_order_id blk in
        temp1 ← match bb_predecessors blk with
                | [] => Done (bitset_clear temp_set)
                | p0 :: ps =>
                    p0_id ← post_order_id_of s p0;
                    d0 ← dom_set_at sets p0_id;
                    foldl (fun acc p =>
                             t ← acc;
                             pid ← post_order_id_of s p;
                             d ← dom_set_at sets pid;
                             bitset_intersect assert_on t d)
                          (Done (bitset_copy temp_set d0)) ps
                end;
        let temp2 := bitset_add temp1 b_id in
        cur ← dom_set_at sets b_id;
        eq ← bitset_equals assert_on cur temp2;
        if (eq : bool) then dominator_sweep assert_on s entry rest sets temp2 changed
        else dominator_sweep assert_on s entry rest
               (<[b_id := bitset_copy cur temp2]> sets) temp2 true
  end.

(** [while (changed)]: a sweep that changes something clears at least one bit;
    [fuel] sweeps beyond the number of bits cannot all change something. *)
Fixpoint dominator_fixpoint (assert_on : bool) (fuel : nat) (s : state) (entry : nat)
  (rpo : list nat) (sets : gmap Z BitSet) (temp_set : BitSet) : outcome (gmap Z BitSet) :=
  match fuel with
  | O => Stop no_termination
  | S n =>
      '(sets1, temp1, changed) ← dominator_sweep assert_on s entry rpo sets temp_set false;
      if (changed : bool) then dominator_fixpoint assert_on n s entry rpo sets1 temp1
      else Done sets1
  end.

Definition compute_dominator_sets (assert_on : bool) (ctx : DominatorContext) (s : state)
  : outcome DominatorContext :=
  fn ← deref (funcs s) (dc_func ctx);
  entry ← nonnull (fn_entry fn);
  entry_id ← post_order_id_of s entry;
  e_set ← dom_set_at (dc_dom_sets ctx) entry_id;
  let sets0 := <[entry_id := bitset_add e_set entry_id]> (dc_dom_sets ctx) in
  sets1 ← foldl (fun acc i =>
                   sets ← acc;
                   bb ← array_at (dc_post_order ctx) i;
                   if Nat.eqb bb entry then Done sets
                   else
                     id ← post_order_id_of s bb;
                     d ← dom_set_at sets id;
                     d' ← bitset_set_all assert_on d (dc_block_count ctx);
                     Done (<[id := d']> sets))
                (Done sets0) (seqZ 0 (dc_block_count ctx));
  let n := Z.to_nat (dc_block_count ctx) in
  sets2 ← dominator_fixpoint assert_on (S (S (n * (64 * S n)))) s entry
            (take n (dc_reverse_post_order ctx)) sets1 (bitset_create (dc_block_count ctx));
  Done (dc_with_dom_sets sets2 ctx).

(** The candidate loop of [compute_immediate_dominators]: the strict dominator
    with the highest id seen so far. *)
Definition pick_idom (b_doms : BitSet) (b_id : Z) (block_count : Z) : Z :=
  foldl (fun idom_id cand =>
           if cand =? b_id then idom_id
           else if bitset_contains b_doms cand
                then (if (idom_id =? -1) || (idom_id <? cand) then cand else idom_id)
                else idom_id)
        (-1) (seqZ 0 block_count).

Definition compute_immediate_dominators (assert_on : bool) (ctx : DominatorContext)
  (s : state) : outcome state :=
  fn ← deref (funcs s) (dc_func ctx);
  entry ← nonnull (fn_entry fn);
  foldl (fun acc i =>
           st ← acc;
           b ← array_at (dc_reverse_post_order ctx) i;
           blk ← deref (blocks st) b;
           let st1 := upd_block b (bb_with_idom None) st in
           if Nat.eqb b entry then Done st1
           else
             let b_id := bb_post_order_id blk in
             b_doms ← dom_set_at (dc_dom_sets ctx) b_id;
             let idom_id := pick_idom b_doms b_id (dc_block_count ctx) in
             _ ← c_assert assert_on (negb (idom_id =? -1));
             _ ← c_assert assert_on ((0 <=? idom_id) && (idom_id <? dc_block_count ctx));
             d ← array_at (dc_post_order ctx) idom_id;
             Done (upd_block b (bb_with_idom (Some d)) st1))
        (Done s) (seqZ 0 (dc_block_count ctx)).

Definition build_dominator_tree (ctx : DominatorContext) (s : state) : outcome state :=
  fn ← deref (funcs s) (dc_func ctx);
  let s1 := fold_left (fun st bb => upd_block bb (bb_with_dom_children []) st)
                      (fn_blocks fn) s in
  foldl (fun acc bb =>
           st ← acc;
           blk ← deref (blocks st) bb;
           match bb_idom blk with
           | None => Done st
           | Some parent =>
               pblk ← deref (blocks st) parent;
               Done (upd_block parent (bb_with_dom_children (bb_dom_children pblk ++ [bb])) st)
           end)
        (Done s1) (fn_blocks fn).

(** [while (runner != b->idom)]: walk up the dominator tree from a predecessor,
    adding [b] to the frontier of every block passed. *)
Fixpoint frontier_walk (assert_on : bool) (fuel : nat) (s : state) (runner : option nat)
  (stop_at : option nat) (b_id : Z) (df_sets : gmap Z BitSet) : outcome (gmap Z BitSet) :=
  if ptr_eqb runner stop_at then Done df_sets
  else
    match fuel with
    | O => Stop no_termination
    | S n =>
        _ ← c_assert assert_on (negb (is_null runner));
        r ← nonnull runner;
        rblk ← deref (blocks s) r;
        d ← dom_set_at df_sets (bb_post_order_id rblk);
        frontier_walk assert_on n s (bb_idom rblk) stop_at b_id
          (<[bb_post_order_id rblk := bitset_add d b_id]> df_sets)
    end.

Definition compute_dominance_frontiers (assert_on : bool) (ctx : DominatorContext)
  (s : state) : outcome state :=
  let ids := seqZ 0 (dc_block_count ctx) in
  let df0 : gmap Z BitSet :=
    list_to_map (map (fun i => (i, bitset_create (dc_block_count ctx))) ids) in
  df ← foldl (fun acc i =>
                sets ← acc;
                b ← array_at (dc_reverse_post_order ctx) i;
                blk ← deref (blocks s) b;
                if Z.of_nat (length (bb_predecessors blk)) <? 2 then Done sets
                else
                  foldl (fun acc' p =>
                           sets' ← acc';
                           frontier_walk assert_on (S (size (blocks s))) s (Some p)
                             (bb_idom blk) (bb_post_order_id blk) sets')
                        (Done sets) (bb_predecessors blk))
             (Done df0) ids;
  foldl (fun acc i =>
           st ← acc;
           b ← array_at (dc_post_order ctx) i;
           _ ← deref (blocks st) b;
           df_set ← dom_set_at df i;
           frontier ← foldr (fun id r =>
                               l ← r;
                               if bitset_contains df_set id
                               then x ← array_at (dc_post_order ctx) id; Done (x :: l)
                               else Done l)
                            (Done []) ids;
           Done (upd_block b (bb_with_dom_frontier frontier) st))
        (Done s) ids.

(** [dfs_dom_tree(bb, &time)] *)
Fixpoint dfs_dom_tree (fuel : nat) (bb : nat) (time : Z) (s : state) : outcome (Z * state) :=
  match fuel with
  | O => Stop no_termination
  | S n =>
      blk ← deref (blocks s) bb;
      let s1 := upd_block bb (bb_with_dom_tin time) s in
      r ← foldl (fun acc child => '(t, st) ← acc; dfs_dom_tree n child t st)
                (Done (time + 1, s1)) (bb_dom_children blk);
      Done (fst r + 1, upd_block bb (bb_with_dom_tout (fst r)) (snd r))
  end.

Definition compute_dom_tree_timestamps (func : option nat) (s : state) : outcome state :=
  match func with
  | None => Done s
  | Some f =>
      fn ← deref (funcs s) f;
      match fn_entry fn with
      | None => Done s
      | Some entry => '(_, s1) ← dfs_dom_tree (S (size (blocks s))) entry 0 s; Done s1
      end
  end.

Definition compute_dominators (assert_on : bool) (func : option nat) (s : state)
  : outcome state :=
  match func with
  | None => Done s
  | Some f =>
      fn ← deref (funcs s) f;
      if is_null (fn_entry fn) then Done s
      else
        let block_count := fn_block_count fn in
        (* a temporary id per block, in list order *)
        let s1 := snd (fold_left (fun '(k, st) bb => (k + 1, upd_block bb (bb_with_post_order_id k) st))
                                 (fn_blocks fn) (0, s)) in
        let sets : gmap Z BitSet :=
          list_to_map (map (fun i => (i, bitset_create block_count)) (seqZ 0 block_count)) in
        let ctx := mkDominatorContext f [] [] block_count sets in
        '(ctx1, s2) ← perform_post_order_traversal assert_on ctx s1;
        ctx2 ← compute_dominator_sets assert_on ctx1 s2;
        s3 ← compute_immediate_dominators assert_on ctx2 s2;
        s4 ← build_dominator_tree ctx2 s3;
        s5 ← compute_dominance_frontiers assert_on ctx2 s4;
        compute_dom_tree_timestamps func s5
  end.

Definition dominates (s : state) (dom use : option nat) : outcome bool :=
  if ptr_eqb dom use then Done true
  else
    match dom, use with
    | Some d, Some u =>
        db ← deref (blocks s) d;
        ub ← deref (blocks s) u;
        Done ((bb_dom_tin db <=? bb_dom_tin ub) && (bb_dom_tout ub <=? bb_dom_tout db))
    | _, _ => Done false
    end.

(** ** IR builder pieces used by Mem2Reg (ir_builder.c, ir_utils.c) *)

Record IRBuilder := mkIRBuilder {
  b_current_func : option nat;
  b_current_bb : option nat;
  b_insert_point : option nat;
  b_temp_reg_count : Z;
  b_label_count : Z
}.

Definition ir_builder_init (func : nat) (s : state) : outcome IRBuilder :=
  fn ← deref (funcs s) func;
  Done (mkIRBuilder (Some func) (fn_entry fn) None (fn_block_count fn * 15) (fn_block_count fn)).

Definition ir_builder_set_insertion_block_start (assert_on : bool) (builder : IRBuilder)
  (bb : option nat) (s : state) : outcome IRBuilder :=
  _ ← c_assert assert_on (negb (is_null bb));
  b ← nonnull bb;
  blk ← deref (blocks s) b;
  Done (mkIRBuilder (b_current_func builder) bb (bb_head blk) (b_temp_reg_count builder)
          (b_label_count builder)).

(** [sprintf(reg_name, "%s.%d", name_prefix ? name_prefix : "tmp", count++)] *)
Definition ir_builder_create_reg (builder : IRBuilder) (type : option Ty)
  (name_prefix : option string) (s : state) : nat * IRBuilder * state :=
  let '(v, s1) := pool_alloc s in
  let reg_name := (default "tmp" name_prefix ++ "." ++ pretty (b_temp_reg_count builder))%string in
  (v,
   mkIRBuilder (b_current_func builder) (b_current_bb builder) (b_insert_point builder)
     (b_temp_reg_count builder + 1) (b_label_count builder),
   set_values (insert v (mkIRValue false false 0 (Some reg_name) type None None [])) s1).

Definition is_terminator_instruction (s : state) (instr : option nat) : outcome bool :=
  match instr with
  | None => Done false
  | Some i =>
      ins ← deref (instrs s) i;
      Done (opcode_eqb (i_opcode ins) IR_OP_RET || opcode_eqb (i_opcode ins) IR_OP_BR)
  end.

Definition insert_instr_before (assert_on : bool) (new_instr pos : nat) (s : state)
  : outcome state :=
  pins ← deref (instrs s) pos;
  _ ← c_assert assert_on (negb (is_null (i_parent pins)));
  nins ← deref (instrs s) new_instr;
  _ ← c_assert assert_on (is_null (i_parent nins));
  let bb := i_parent pins in
  let s1 := upd_instr new_instr
              (fun x => i_with_prev (i_prev pins) (i_with_next (Some pos) (i_with_parent bb x))) s in
  s2 ← match i_prev pins with
       | Some p => _ ← deref (instrs s1) p; Done (upd_instr p (i_with_next (Some new_instr)) s1)
       | None => b ← nonnull bb; _ ← deref (blocks s1) b;
                 Done (upd_block b (bb_with_head (Some new_instr)) s1)
       end;
  Done (upd_instr pos (i_with_prev (Some new_instr)) s2).

Definition add_instr_to_bb_end (assert_on : bool) (bb : option nat) (instr : nat) (s : state)
  : outcome state :=
  _ ← c_assert assert_on (negb (is_null bb));
  b ← nonnull bb;
  blk ← deref (blocks s) b;
  _ ← deref (instrs s) instr;
  term ← is_terminator_instruction s (bb_tail blk);
  s1 ← (if negb (is_null (bb_tail blk)) && term then
          t ← nonnull (bb_tail blk); insert_instr_before assert_on instr t s
        else
          let s0 := upd_instr instr
                      (fun x => i_with_next None (i_with_prev (bb_tail blk)
                                                    (i_with_parent (Some b) x))) s in
          let s0' := match bb_tail blk with
                     | Some t => upd_instr t (i_with_next (Some instr)) s0
                     | None => upd_block b (bb_with_head (Some instr)) s0
                     end in
          Done (upd_block b (bb_with_tail (Some instr)) s0'));
  match bb_parent blk with
  | Some pf =>
      fn ← deref (funcs s1) pf;
      Done (upd_func pf (fn_with_instruction_count (fn_instruction_count fn + 1)) s1)
  | None => Done s1
  end.

(** [while (first_non_phi && first_non_phi->opcode == IR_OP_PHI)] *)
Fixpoint first_non_phi (s : state) (l : list nat) : outcome (option nat) :=
  match l with
  | [] => Done None
  | i :: rest =>
      ins ← deref (instrs s) i;
      if opcode_eqb (i_opcode ins) IR_OP_PHI then first_non_phi s rest else Done (Some i)
  end.

Definition ir_builder_create_phi (assert_on : bool) (builder : IRBuilder) (type : option Ty)
  (name : option string) (s : state) : outcome (nat * IRBuilder * state) :=
  let '(instr, s1) := create_ir_instruction IR_OP_PHI s in
  let '(dest, builder1, s2) := ir_builder_create_reg builder type name s1 in
  let s3 := upd_instr instr (i_with_dest (Some dest)) s2 in
  let s4 := upd_value dest (v_with_def_instr (Some instr)) s3 in
  bb ← nonnull (b_current_bb builder1);
  l ← block_chain s4 bb;
  fnp ← first_non_phi s4 l;
  s5 ← match fnp with
       | Some p => insert_instr_before assert_on instr p s4
       | None => add_instr_to_bb_end assert_on (Some bb) instr s4
       end;
  Done (instr, builder1, s5).

Definition ir_phi_add_incoming (assert_on : bool) (phi : option nat) (val pred : option nat)
  (s : state) : outcome state :=
  _ ← c_assert assert_on (negb (is_null phi));
  p ← nonnull phi;
  ins ← deref (instrs s) p;
  _ ← c_assert assert_on (opcode_eqb (i_opcode ins) IR_OP_PHI);
  _ ← c_assert assert_on (negb (is_null val));
  _ ← c_assert assert_on (negb (is_null pred));
  (* the type check only logs; it reads phi->dest->type and val->type *)
  _ ← match i_dest ins with
      | Some d =>
          dv ← deref (values s) d;
          if negb (is_null (v_type dv)) then v ← nonnull val; _ ← deref (values s) v; Done tt
          else Done tt
      | None => Done tt
      end;
  dup ← foldr (fun op r =>
                 b ← r;
                 o ← deref (operands s) op;
                 Done (b || (bool_decide (op_kind o = IR_OP_KIND_BASIC_BLOCK)
                             && ptr_eqb (op_bb o) pred)))
              (Done false) (i_operands ins);
  if (dup : bool) then
    _ ← c_assert assert_on false; Done s
  else
    s1 ← add_value_operand p val s;
    add_bb_operand p pred s1.

(** ** Mem2Reg (mem2reg.c) *)

Record PromotableAlloca := mkPromotableAlloca {
  pa_alloca_instr : nat;
  pa_alloca_val : option nat;
  pa_defining_blocks : BitSet;
  pa_phi_placement_blocks : BitSet
}.

Definition pa_with_phi_placement_blocks (x : BitSet) (p : PromotableAlloca) : PromotableAlloca :=
  mkPromotableAlloca (pa_alloca_instr p) (pa_alloca_val p) (pa_defining_blocks p) x.

Record Mem2RegContext := mkMem2RegContext {
  m_func : nat;
  m_promotables : list PromotableAlloca;
  m_builder : IRBuilder;
  m_undef_val : option nat
}.

Definition create_undef_value (s : state) : nat * state :=
  let '(v, s1) := pool_alloc s in
  (v, set_values (insert v (mkIRValue false false 0 None None None None [])) s1).

(** The loop over the uses of the alloca's result in [is_alloca_promotable]. *)
Fixpoint uses_are_promotable (s : state) (uses : list nat) : outcome bool :=
  match uses with
  | [] => Done true
  | use :: rest =>
      o ← deref (operands s) use;
      user ← nonnull (op_user o);
      uins ← deref (instrs s) user;
      if opcode_eqb (i_opcode uins) IR_OP_LOAD then uses_are_promotable s rest
      else if opcode_eqb (i_opcode uins) IR_OP_STORE then
        _ ← operand_at s uins 0;
        if ptr_eqb (Some use) (i_operands uins !! 1%nat) then uses_are_promotable s rest
        else Done false
      else Done false
  end.

Definition is_alloca_promotable (s : state) (alloca_instr : nat) : outcome bool :=
  ins ← deref (instrs s) alloca_instr;
  d ← nonnull (i_dest ins);
  dv ← deref (values s) d;
  t ← nonnull (v_type dv);
  allocated_type ← nonnull (ty_element_type t);
  if bool_decide (ty_kind allocated_type = TYPE_ARRAY) then Done false
  else uses_are_promotable s (v_use_list dv).

Fixpoint leading_allocas (s : state) (l : list nat) : outcome (list nat) :=
  match l with
  | [] => Done []
  | i :: rest =>
      ins ← deref (instrs s) i;
      if opcode_eqb (i_opcode ins) IR_OP_ALLOCA
      then r ← leading_allocas s rest; Done (i :: r)
      else Done []
  end.

Fixpoint defining_blocks_of (s : state) (uses : list nat) (bs : BitSet) : outcome BitSet :=
  match uses with
  | [] => Done bs
  | use :: rest =>
      o ← deref (operands s) use;
      user ← nonnull (op_user o);
      uins ← deref (instrs s) user;
      if opcode_eqb (i_opcode uins) IR_OP_STORE then
        pb ← nonnull (i_parent uins);
        id ← post_order_id_of s pb;
        defining_blocks_of s rest (bitset_add bs id)
      else defining_blocks_of s rest bs
  end.

Definition analyze_allocas (func : nat) (s : state) : outcome (list PromotableAlloca) :=
  fn ← deref (funcs s) func;
  entry ← nonnull (fn_entry fn);
  l ← block_chain s entry;
  allocas ← leading_allocas s l;
  promotable_list ← foldr (fun i r =>
                             rest ← r;
                             ok ← is_alloca_promotable s i;
                             Done (if (ok : bool) then i :: rest else rest))
                          (Done []) allocas;
  foldr (fun i r =>
           rest ← r;
           ins ← deref (instrs s) i;
           d ← nonnull (i_dest ins);
           dv ← deref (values s) d;
           defs ← defining_blocks_of s (v_use_list dv) (bitset_create (fn_block_count fn));
           Done (mkPromotableAlloca i (i_dest ins) defs (bitset_create (fn_block_count fn))
                   :: rest))
        (Done []) promotable_list.

(** The worklist loop of [compute_phi_placement] for one alloca.  A block is
    pushed when its bit is first set, so the pops are bounded by the pushes of
    the start plus the number of bits. *)
Fixpoint phi_placement_loop (fuel : nat) (s : state) (pa : PromotableAlloca)
  (worklist : Worklist) : outcome PromotableAlloca :=
  match worklist_pop worklist with
  | (None, _) => Done pa
  | (Some block, rest) =>
      match fuel with
      | O => Stop no_termination
      | S n =>
          blk ← deref (blocks s) block;
          r ← foldl (fun acc frontier_block =>
                       '(p, wl) ← acc;
                       frontier_id ← post_order_id_of s frontier_block;
                       if negb (bitset_contains (pa_phi_placement_blocks p) frontier_id) then
                         let p' := pa_with_phi_placement_blocks
                                     (bitset_add (pa_phi_placement_blocks p) frontier_id) p in
                         if negb (bitset_contains (pa_defining_blocks p) frontier_id)
                         then Done (p', worklist_add wl frontier_block)
                         else Done (p', wl)
                       else Done (p, wl))
                    (Done (pa, rest)) (bb_dom_frontier blk);
          phi_placement_loop n s (fst r) (snd r)
      end
  end.

Definition compute_phi_placement (func : nat) (pas : list PromotableAlloca) (s : state)
  : outcome (list PromotableAlloca) :=
  fn ← deref (funcs s) func;
  foldr (fun pa r =>
           rest ← r;
           worklist ← foldl (fun acc block_id =>
                               wl ← acc;
                               if bitset_contains (pa_defining_blocks pa) block_id then
                                 rpo ← nonnull (fn_reverse_post_order fn);
                                 b ← array_at rpo block_id;
                                 Done (worklist_add wl b)
                               else Done wl)
                            (Done create_worklist) (seqZ 0 (fn_block_count fn));
           pa' ← phi_placement_loop
                   (S (length worklist + Z.to_nat (64 * bs_num_words (pa_phi_placement_blocks pa))))
                   s pa worklist;
           Done (pa' :: rest))
        (Done []) pas.

(** The name of an inserted PHI: the alloca's name without a leading [%],
    cut at [.addr], else cut to the 63 characters [name_buf] holds. *)
Definition phi_name (alloca_name : option string) : string :=
  let base := default "tmp" alloca_name in
  let base_name :=
    match base with
    | String c rest => if Ascii.eqb c "%"%char then rest else base
    | EmptyString => base
    end in
  match String.index 0 ".addr" base_name with
  | Some k => String.substring 0 k base_name
  | None => String.substring 0 63 base_name
  end.

Definition insert_phi_nodes (assert_on : bool) (ctx : Mem2RegContext) (s : state)
  : outcome (Mem2RegContext * state) :=
  fn ← deref (funcs s) (m_func ctx);
  r ← foldl (fun acc pa =>
               foldl (fun acc' block_id =>
                        '(builder, st) ← acc';
                        if bitset_contains (pa_phi_placement_blocks pa) block_id then
                          fn' ← deref (funcs st) (m_func ctx);
                          rpo ← nonnull (fn_reverse_post_order fn');
                          block ← array_at rpo block_id;
                          builder1 ← ir_builder_set_insertion_block_start assert_on builder
                                       (Some block) st;
                          av ← nonnull (pa_alloca_val pa);
                          avv ← deref (values st) av;
                          t ← nonnull (v_type avv);
                          '(phi, builder2, st1) ←
                            ir_builder_create_phi assert_on builder1 (ty_element_type t)
                              (Some (phi_name (v_name avv))) st;
                          Done (builder2,
                                upd_instr phi (i_with_phi_for_alloca (Some (pa_alloca_instr pa))) st1)
                        else Done (builder, st))
                     acc (seqZ 0 (fn_block_count fn)))
            (Done (m_builder ctx, s)) (m_promotables ctx);
  Done (mkMem2RegContext (m_func ctx) (m_promotables ctx) (fst r) (m_undef_val ctx), snd r).

(** *** Renaming *)

(** One version stack per promotable alloca; the head of a list is the top. *)
Definition push_version (stacks : list (list (option nat))) (i : nat) (value : option nat)
  : list (list (option nat)) :=
  alter (cons value) i stacks.

Definition top_version (assert_on : bool) (stacks : list (list (option nat))) (i : nat)
  : outcome (option nat) :=
  stack ← nonnull (stacks !! i);
  _ ← c_assert assert_on (negb (is_nil stack));
  nonnull (head stack).

Fixpoint pop_versions (assert_on : bool) (n : nat) (i : nat) (stacks : list (list (option nat)))
  : outcome (list (list (option nat))) :=
  match n with
  | O => Done stacks
  | S n' =>
      stack ← nonnull (stacks !! i);
      _ ← c_assert assert_on (negb (is_nil stack));
      match stack with
      | [] => Stop invalid_pointer
      | _ :: rest => pop_versions assert_on n' i (<[i := rest]> stacks)
      end
  end.

(** [for (i = 0; i < promotable_count; ++i) if (test promotables[i]) ... break;]:
    the index of the first promotable alloca passing [test]. *)
Fixpoint find_promotable (test : PromotableAlloca -> bool) (pas : list PromotableAlloca)
  (i : nat) : option nat :=
  match pas with
  | [] => None
  | pa :: rest => if test pa then Some i else find_promotable test rest (S i)
  end.

Definition bump (counts : list nat) (i : nat) : list nat := alter S i counts.

(** Step 1 of [rename_recursive]: the block's own PHIs define new versions. *)
Fixpoint rename_phis (s : state) (pas : list PromotableAlloca) (phis : list nat)
  (stacks : list (list (option nat))) (pushed : list nat)
  : outcome (list (list (option nat)) * list nat) :=
  match phis with
  | [] => Done (stacks, pushed)
  | phi :: rest =>
      ins ← deref (instrs s) phi;
      match find_promotable
              (fun pa => ptr_eqb (i_phi_for_alloca ins) (Some (pa_alloca_instr pa))) pas 0 with
      | Some i => rename_phis s pas rest (push_version stacks i (i_dest ins)) (bump pushed i)
      | None => rename_phis s pas rest stacks pushed
      end
  end.

(** Step 2: loads and stores of promotable allocas. *)
Fixpoint rename_instructions (assert_on : bool) (pas : list PromotableAlloca) (l : list nat)
  (stacks : list (list (option nat))) (pushed : list nat) (s : state)
  : outcome (list (list (option nat)) * list nat * state) :=
  match l with
  | [] => Done (stacks, pushed, s)
  | instr :: rest =>
      ins ← deref (instrs s) instr;
      if opcode_eqb (i_opcode ins) IR_OP_LOAD then
        if is_nil pas then rename_instructions assert_on pas rest stacks pushed s
        else
          op0 ← operand_at s ins 0;
          o0 ← deref (operands s) op0;
          match find_promotable (fun pa => ptr_eqb (op_value o0) (pa_alloca_val pa)) pas 0 with
          | Some i =>
              top ← top_version assert_on stacks i;
              d ← nonnull (i_dest ins);
              '(_, s1) ← replace_all_uses_with assert_on None d top s;
              rename_instructions assert_on pas rest stacks pushed
                (mark_instruction_for_removal instr s1)
          | None => rename_instructions assert_on pas rest stacks pushed s
          end
      else if opcode_eqb (i_opcode ins) IR_OP_STORE then
        if is_nil pas then rename_instructions assert_on pas rest stacks pushed s
        else
          op0 ← operand_at s ins 0;
          o0 ← deref (operands s) op0;
          op1 ← operand_at s ins 1;
          o1 ← deref (operands s) op1;
          match find_promotable (fun pa => ptr_eqb (op_value o1) (pa_alloca_val pa)) pas 0 with
          | Some i =>
              rename_instructions assert_on pas rest (push_version stacks i (op_value o0))
                (bump pushed i) (mark_instruction_for_removal instr s)
          | None => rename_instructions assert_on pas rest stacks pushed s
          end
      else rename_instructions assert_on pas rest stacks pushed s
  end.

(** Step 3: the PHIs of one successor receive the current versions. *)
Fixpoint fill_successor_phis (assert_on : bool) (pas : list PromotableAlloca)
  (stacks : list (list (option nat))) (block : nat) (phis : list nat) (s : state)
  : outcome state :=
  match phis with
  | [] => Done s
  | phi :: rest =>
      ins ← deref (instrs s) phi;
      s1 ← match find_promotable
                   (fun pa => ptr_eqb (i_phi_for_alloca ins) (Some (pa_alloca_instr pa))) pas 0 with
           | Some j =>
               top ← top_version assert_on stacks j;
               ir_phi_add_incoming assert_on (Some phi) top (Some block) s
           | None => Done s
           end;
      fill_successor_phis assert_on pas stacks block rest s1
  end.

Fixpoint pop_all (assert_on : bool) (pushed : list nat) (i : nat)
  (stacks : list (list (option nat))) : outcome (list (list (option nat))) :=
  match pushed with
  | [] => Done stacks
  | n :: rest =>
      st ← pop_versions assert_on n i stacks;
      pop_all assert_on rest (S i) st
  end.

(** [rename_recursive]: the recursion follows [dom_children]; a deeper nesting
    than there are blocks revisits one and never returns. *)
Fixpoint rename_recursive (assert_on : bool) (fuel : nat) (pas : list PromotableAlloca)
  (block : nat) (stacks : list (list (option nat))) (s : state)
  : outcome (list (list (option nat)) * state) :=
  match fuel with
  | O => Stop no_termination
  | S n =>
      let pushed_counts := map (fun _ => O) pas in
      l ← block_chain s block;
      phis ← leading_phis s l;
      '(stacks1, pushed1) ← rename_phis s pas phis stacks pushed_counts;
      '(stacks2, pushed2, s2) ← rename_instructions assert_on pas l stacks1 pushed1 s;
      blk ← deref (blocks s2) block;
      s3 ← foldl (fun acc succ =>
                    st ← acc;
                    sl ← block_chain st succ;
                    sphis ← leading_phis st sl;
                    fill_successor_phis assert_on pas stacks2 block sphis st)
                 (Done s2) (bb_successors blk);
      blk3 ← deref (blocks s3) block;
      r ← foldl (fun acc child =>
                   '(stk, st) ← acc;
                   rename_recursive assert_on n pas child stk st)
                (Done (stacks2, s3)) (bb_dom_children blk3);
      s5 ← cleanup_removed_instructions assert_on block (snd r);
      stacks5 ← pop_all assert_on pushed2 0 (fst r);
      Done (stacks5, s5)
  end.

Definition rename_variables (assert_on : bool) (ctx : Mem2RegContext) (s : state)
  : outcome (Mem2RegContext * state) :=
  let '(undef_val, s1) := create_undef_value s in
  let stacks := map (fun _ => [Some undef_val]) (m_promotables ctx) in
  fn ← deref (funcs s1) (m_func ctx);
  entry ← nonnull (fn_entry fn);
  '(_, s2) ← rename_recursive assert_on (S (size (blocks s1))) (m_promotables ctx) entry
               stacks s1;
  Done (mkMem2RegContext (m_func ctx) (m_promotables ctx) (m_builder ctx) (Some undef_val), s2).

Definition run_mem2reg (assert_on : bool) (func : option nat) (s : state)
  : outcome (bool * state) :=
  match func with
  | None => Done (false, s)
  | Some f =>
      fn ← deref (funcs s) f;
      if is_null (fn_entry fn) then Done (false, s)
      else
        builder ← ir_builder_init f s;
        pas ← analyze_allocas f s;
        if is_nil pas then Done (false, s)
        else
          pas1 ← compute_phi_placement f pas s;
          '(ctx1, s1) ← insert_phi_nodes assert_on (mkMem2RegContext f pas1 builder None) s;
          '(ctx2, s2) ← rename_variables assert_on ctx1 s1;
          s3 ← for_each (fun pa st => erase_instruction assert_on (Some (pa_alloca_instr pa)) st)
                        (m_promotables ctx2) s2;
          Done (true, s3)
  end.

(** ** Example programs *)

Definition plain_instr (opcode : Opcode) (cond : option string) (dest : option nat)
  (ops : list nat) (parent prev next : option nat) : IRInstruction :=
  mkIRInstruction opcode cond dest ops parent next prev None 0 false false false.

Definition plain_block (head tail : option nat) (parent : option nat)
  (succs preds : list nat) (post_order_id : Z) : IRBasicBlock :=
  mkIRBasicBlock None head tail parent succs preds post_order_id 0 0 None [] [] 0.

Definition i32 (a : nat) : Ty := Ty_basic a false BASIC_INT.
Definition i1 (a : nat) : Ty := Ty_basic a false BASIC_I1.
Definition f32 (a : nat) : Ty := Ty_basic a false BASIC_FLOAT.

Definition register (name : string) (t : Ty) (def : nat) (uses : list nat) : IRValue :=
  mkIRValue false false 0 (Some name) (Some t) (Some def) None uses.
Definition argument (name : string) (t : Ty) (uses : list nat) : IRValue :=
  mkIRValue false false 0 (Some name) (Some t) None None uses.
Definition int_constant (t : Ty) (n : Z) : IRValue :=
  mkIRValue true false n None (Some t) None None [].
Definition value_operand (v user : nat) : IROperand :=
  mkIROperand IR_OP_KIND_VALUE (Some v) (Some user).
Definition block_operand (b user : nat) : IROperand :=
  mkIROperand IR_OP_KIND_BASIC_BLOCK (Some b) (Some user).

(** A block of [n] operand-free [add] instructions at addresses
    [base .. base+n-1]. *)
Definition straight_chain (bb base n : nat) : list (nat * IRInstruction) :=
  map (fun k =>
         (base + k,
          plain_instr IR_OP_ADD None None [] (Some bb)
            (if Nat.eqb k 0 then None else Some (base + k - 1))
            (if Nat.eqb (S k) n then None else Some (base + k + 1))))%nat
      (seq 0 n).

(** A callee with a body of exactly [n] instructions: function 1, block 2. *)
Definition callee_of_size (n : nat) : state :=
  mkState ∅ ∅ (list_to_map (straight_chain 2 100 n))
    {[ 2%nat := plain_block (Some 100%nat) (Some (100 + n - 1)%nat) (Some 1%nat) [] [] 0 ]}
    {[ 1%nat := mkIRFunction (Some "callee"%string) (Some 2%nat) [2%nat] 1 (Z.of_nat n) []
                  None ]}
    [1%nat] 1000.

(** Three blocks in a row, [entry(10) -> a(11) -> b(12)], before any analysis. *)
Definition chain_cfg : state :=
  mkState ∅ ∅ ∅
    (list_to_map
       [ (10%nat, plain_block None None (Some 1%nat) [11%nat] [] 0);
         (11%nat, plain_block None None (Some 1%nat) [12%nat] [10%nat] 0);
         (12%nat, plain_block None None (Some 1%nat) [] [11%nat] 0) ])
    {[ 1%nat := mkIRFunction (Some "f"%string) (Some 10%nat) [10%nat; 11%nat; 12%nat] 3 0 []
                  None ]}
    [1%nat] 1000.

(** [f(a)]:  entry(10): [%c = icmp ne %a, 0; br %c, then(11), else(12)];
    then: [ret]; else: [ret]. *)
Definition branch_on_argument : state :=
  mkState
    (list_to_map
       [ (50%nat, argument "a" (i32 900) [200%nat]);
         (51%nat, int_constant (i32 901) 0);
         (52%nat, register "c" (i1 902) 100 [202%nat]) ])
    (list_to_map
       [ (200%nat, value_operand 50 100); (201%nat, value_operand 51 100);
         (202%nat, value_operand 52 101); (203%nat, block_operand 11 101);
         (204%nat, block_operand 12 101) ])
    (list_to_map
       [ (100%nat, plain_instr IR_OP_ICMP (Some "ne"%string) (Some 52%nat)
                     [200%nat; 201%nat] (Some 10%nat) None (Some 101%nat));
         (101%nat, plain_instr IR_OP_BR None None [202%nat; 203%nat; 204%nat]
                     (Some 10%nat) (Some 100%nat) None);
         (102%nat, plain_instr IR_OP_RET None None [] (Some 11%nat) None None);
         (103%nat, plain_instr IR_OP_RET None None [] (Some 12%nat) None None) ])
    (list_to_map
       [ (10%nat, plain_block (Some 100%nat) (Some 101%nat) (Some 1%nat)
                    [11%nat; 12%nat] [] 2);
         (11%nat, plain_block (Some 102%nat) (Some 102%nat) (Some 1%nat) [] [10%nat] 1);
         (12%nat, plain_block (Some 103%nat) (Some 103%nat) (Some 1%nat) [] [10%nat] 0) ])
    {[ 1%nat := mkIRFunction (Some "f"%string) (Some 10%nat) [10%nat; 11%nat; 12%nat] 3 4
                  [50%nat] (Some [10%nat; 11%nat; 12%nat]) ]}
    [1%nat] 1000.

(** entry(10): [%r = sdiv 0, 0; ret %r], both operands of the division being
    the one constant object 51. *)
Definition sdiv_zero_zero : state :=
  mkState
    (list_to_map
       [ (51%nat, int_constant (i32 901) 0);
         (52%nat, register "r" (i32 902) 100 [202%nat]) ])
    (list_to_map
       [ (200%nat, value_operand 51 100); (201%nat, value_operand 51 100);
         (202%nat, value_operand 52 101) ])
    (list_to_map
       [ (100%nat, plain_instr IR_OP_SDIV None (Some 52%nat) [200%nat; 201%nat]
                     (Some 10%nat) None (Some 101%nat));
         (101%nat, plain_instr IR_OP_RET None None [202%nat]
                     (Some 10%nat) (Some 100%nat) None) ])
    (list_to_map
       [ (10%nat, plain_block (Some 100%nat) (Some 101%nat) (Some 1%nat) [] [] 0) ])
    {[ 1%nat := mkIRFunction (Some "f"%string) (Some 10%nat) [10%nat] 1 2 []
                  (Some [10%nat]) ]}
    [1%nat] 1000.

(** The same with [srem]. *)
Definition srem_zero_zero : state :=
  upd_instr 100 (i_with_opcode IR_OP_SREM) sdiv_zero_zero.

(** entry(10): [%p = alloca i32; store 42, %p; %x = load %p; ret %x]. *)
Definition one_slot : state :=
  mkState
    (list_to_map
       [ (50%nat, register "p" (Ty_pointer 903 (i32 900)) 100 [202%nat; 201%nat]);
         (51%nat, int_constant (i32 901) 42);
         (52%nat, register "x" (i32 900) 102 [203%nat]) ])
    (list_to_map
       [ (200%nat, value_operand 51 101); (201%nat, value_operand 50 101);
         (202%nat, value_operand 50 102); (203%nat, value_operand 52 103) ])
    (list_to_map
       [ (100%nat, plain_instr IR_OP_ALLOCA None (Some 50%nat) [] (Some 10%nat) None
                     (Some 101%nat));
         (101%nat, plain_instr IR_OP_STORE None None [200%nat; 201%nat]
                     (Some 10%nat) (Some 100%nat) (Some 102%nat));
         (102%nat, plain_instr IR_OP_LOAD None (Some 52%nat) [202%nat]
                     (Some 10%nat) (Some 101%nat) (Some 103%nat));
         (103%nat, plain_instr IR_OP_RET None None [203%nat]
                     (Some 10%nat) (Some 102%nat) None) ])
    (list_to_map
       [ (10%nat, plain_block (Some 100%nat) (Some 103%nat) (Some 1%nat) [] [] 0) ])
    {[ 1%nat := mkIRFunction (Some "f"%string) (Some 10%nat) [10%nat] 1 4 []
                  (Some [10%nat]) ]}
    [1%nat] 1000.

(** [f(float a)]:  entry(10): [%r = fdiv %a, %a; ret %r]. *)
Definition fdiv_self : state :=
  mkState
    (list_to_map
       [ (50%nat, argument "a" (f32 900) [201%nat; 200%nat]);
         (52%nat, register "r" (f32 900) 100 [202%nat]) ])
    (list_to_map
       [ (200%nat, value_operand 50 100); (201%nat, value_operand 50 100);
         (202%nat, value_operand 52 101) ])
    (list_to_map
       [ (100%nat, plain_instr IR_OP_FDIV None (Some 52%nat) [200%nat; 201%nat]
                     (Some 10%nat) None (Some 101%nat));
         (101%nat, plain_instr IR_OP_RET None None [202%nat]
                     (Some 10%nat) (Some 100%nat) None) ])
    (list_to_map
       [ (10%nat, plain_block (Some 100%nat) (Some 101%nat) (Some 1%nat) [] [] 0) ])
    {[ 1%nat := mkIRFunction (Some "f"%string) (Some 10%nat) [10%nat] 1 2 [50%nat]
                  (Some [10%nat]) ]}
    [1%nat] 1000.

(** An external declaration: a function without blocks. *)
Definition declaration_only : state :=
  mkState ∅ ∅ ∅ ∅
    {[ 1%nat := mkIRFunction (Some "getint"%string) None [] 0 0 [] None ]} [1%nat] 1000.

(** [f(int* p)]:  entry(10): [%x = load %p; ret], the loaded value unused. *)
Definition unused_load : state :=
  mkState
    (list_to_map
       [ (50%nat, argument "p" (Ty_pointer 903 (i32 900)) [200%nat]);
         (52%nat, register "x" (i32 900) 100 []) ])
    (list_to_map [ (200%nat, value_operand 50 100) ])
    (list_to_map
       [ (100%nat, plain_instr IR_OP_LOAD None (Some 52%nat) [200%nat]
                     (Some 10%nat) None (Some 101%nat));
         (101%nat, plain_instr IR_OP_RET None None [] (Some 10%nat) (Some 100%nat) None) ])
    (list_to_map
       [ (10%nat, plain_block (Some 100%nat) (Some 101%nat) (Some 1%nat) [] [] 0) ])
    {[ 1%nat := mkIRFunction (Some "f"%string) (Some 10%nat) [10%nat] 1 2 [50%nat]
                  (Some [10%nat]) ]}
    [1%nat] 1000.

(** The value an operand refers to. *)
Definition operand_referent (s : state) (op : nat) : option IRValue :=
  o ← operands s !! op; v ← op_value o; values s !! v.

Definition use_list_of (s : state) (v : nat) : option (list nat) :=
  v_use_list <$> values s !! v.

Definition opcode_of (s : state) (i : nat) : option Opcode :=
  i_opcode <$> instrs s !! i.

(** ** Paths in the control-flow graph *)

Definition cfg_edge (s : state) (a b : nat) : Prop :=
  ∃ blk, blocks s !! a = Some blk ∧ b ∈ bb_successors blk.

(** [cfg_path s entry p b]: [p] lists the blocks of a path from [entry] to [b],
    both ends included. *)
Inductive cfg_path (s : state) (entry : nat) : list nat → nat → Prop :=
| path_entry : cfg_path s entry [entry] entry
| path_step p a b :
    cfg_path s entry p a → cfg_edge s a b → cfg_path s entry (p ++ [b]) b.

Definition path_dominates (s : state) (entry a b : nat) : Prop :=
  ∀ p, cfg_path s entry p b → a ∈ p.

Definition timestamp_test (s : state) (a b : nat) : Prop :=
  ∃ ba bb, blocks s !! a = Some ba ∧ blocks s !! b = Some bb
           ∧ bb_dom_tin ba ≤ bb_dom_tin bb ∧ bb_dom_tout bb ≤ bb_dom_tout ba.

(** [chain_cfg] after [compute_dominators]. *)
Definition chain_cfg_analysed : state :=
  Eval vm_compute in
    match compute_dominators true (Some 1%nat) chain_cfg with
    | Done s => s
    | Stop _ => chain_cfg
    end.

(** A function pointer that is NULL or names a function without entry block. *)
Definition no_body (s : state) (func : option nat) : Prop :=
  match func with
  | None => True
  | Some f => ∃ fn, funcs s !! f = Some fn ∧ fn_entry fn = None
  end.

(** ** Use-def consistency *)

(** A register is a non-constant value with a defining instruction: the test
    [!val->is_constant && val->def_instr] of [change_operand_value] and
    [remove_operand_from_use_list]. *)
Definition is_register (v : IRValue) : bool :=
  negb (v_is_constant v) && negb (is_null (v_def_instr v)).

Definition operand_has (s : state) (op : nat) (P : IROperand → Prop) : Prop :=
  match operands s !! op with Some o => P o | None => False end.

#[global] Instance operand_has_dec s op P `{∀ o, Decision (P o)} :
  Decision (operand_has s op P).
Proof. unfold operand_has. destruct (operands s !! op); apply _. Defined.

(** [op] is a value operand whose value pointer is [v]. *)
Definition refers_to (s : state) (op v : nat) : Prop :=
  operand_has s op (λ o, op_kind o = IR_OP_KIND_VALUE ∧ op_value o = Some v).

(** [op] is in the operand list of an instruction of the arena. *)
Definition attached (s : state) (op : nat) : Prop :=
  ∃ i ins, instrs s !! i = Some ins ∧ op ∈ i_operands ins.

(** The invariant of the claim: the use list of a register has no duplicates
    and holds exactly the attached value operands that refer to it. *)
Definition use_def_consistent (s : state) : Prop :=
  ∀ v val, values s !! v = Some val → is_register val = true →
    NoDup (v_use_list val)
    ∧ ∀ op, attached s op → (refers_to s op v ↔ op ∈ v_use_list val).

(** The entries of a use list are value operands; those of a register's list
    refer to the register, once each. *)
Definition use_list_ok (s : state) (v : nat) (val : IRValue) : Prop :=
  Forall (λ op, operand_has s op (λ o, op_kind o = IR_OP_KIND_VALUE
                                   ∧ (is_register val = true → op_value o = Some v)))
         (v_use_list val)
  ∧ (is_register val = true → NoDup (v_use_list val)).

(** A value operand that refers to a register is in the register's use list. *)
Definition in_use_list_of_referent (s : state) (op : nat) (o : IROperand) : Prop :=
  op_kind o = IR_OP_KIND_VALUE →
  match op_value o with
  | Some v =>
      match values s !! v with
      | Some val => is_register val = true → op ∈ v_use_list val
      | None => False
      end
  | None => True
  end.

#[global] Instance in_use_list_of_referent_dec s op o :
  Decision (in_use_list_of_referent s op o).
Proof.
  unfold in_use_list_of_referent.
  destruct (op_value o) as [v|]; [destruct (values s !! v)|]; apply _.
Defined.

(** The operands of an instruction are distinct, name it as their user, and
    are linked into the use lists of the registers they refer to. *)
Definition operand_list_ok (s : state) (i : nat) (ins : IRInstruction) : Prop :=
  NoDup (i_operands ins)
  ∧ Forall (λ op, operand_has s op (λ o, op_user o = Some i
                                      ∧ in_use_list_of_referent s op o))
           (i_operands ins).

Definition user_ok (s : state) (op : nat) (o : IROperand) : Prop :=
  match op_user o with Some i => is_Some (instrs s !! i) | None => True end.

#[global] Instance user_ok_dec s op o : Decision (user_ok s op o).
Proof. unfold user_ok. destruct (op_user o); apply _. Defined.

Definition ud_wf (s : state) : Prop :=
  map_Forall (λ op _, (op < next_addr s)%nat) (operands s)
  ∧ map_Forall (use_list_ok s) (values s)
  ∧ map_Forall (operand_list_ok s) (instrs s)
  ∧ map_Forall (user_ok s) (operands s).

#[global] Instance ud_wf_dec s : Decision (ud_wf s).
Proof. unfold ud_wf, use_list_ok, operand_list_ok. apply _. Defined.

(** The use lists after the operand [op] has been taken out of the list of
    the register it refers to. *)
Definition unlinked_from_referent (op : nat) (s s' : state) : Prop :=
  ∃ o, operands s !! op = Some o
    ∧ match op_kind o, op_value o with
      | IR_OP_KIND_VALUE, Some v =>
          ∃ val, values s !! v = Some val
            ∧ s' = (if is_register val
                    then upd_value v (v_with_use_list (remove_first op (v_use_list val))) s
                    else s)
      | _, _ => s' = s
      end.

(** [s1] is [s] with entries taken out of use lists, and [op] out of the use
    list of every register. *)
Definition use_lists_shrunk (op : nat) (s s1 : state) : Prop :=
  operands s1 = operands s ∧ instrs s1 = instrs s ∧ blocks s1 = blocks s
  ∧ funcs s1 = funcs s ∧ next_addr s1 = next_addr s
  ∧ ∀ w, match values s !! w, values s1 !! w with
         | Some wal, Some wal1 =>
             wal1 = v_with_use_list (v_use_list wal1) wal
             ∧ (∀ x, x ∈ v_use_list wal1 → x ∈ v_use_list wal)
             ∧ (∀ x, x ≠ op → x ∈ v_use_list wal → x ∈ v_use_list wal1)
             ∧ (NoDup (v_use_list wal) → NoDup (v_use_list wal1))
             ∧ (is_register wal = true → op ∉ v_use_list wal1)
         | None, None => True
         | _, _ => False
         end.

(** A value pointer that is NULL or names a value of the arena. *)
Definition value_valid (s : state) (p : option nat) : Prop :=
  match p with Some v => is_Some (values s !! v) | None => True end.

(** The operand-manipulation calls of ir_utils.c. *)
Inductive ud_call :=
| Call_add_operand (instr : nat) (kind : OperandKind) (data_ptr : option nat)
| Call_remove_operand (op : nat)
| Call_change_operand_value (op : nat) (new_val : option nat)
| Call_replace_all_uses_with (wl : option Worklist) (old_val : nat) (new_val : option nat).

Definition run_call (assert_on : bool) (c : ud_call) (s : state) : outcome state :=
  match c with
  | Call_add_operand instr kind data_ptr =>
      '(_, s1) ← add_operand instr kind data_ptr s; Done s1
  | Call_remove_operand op => remove_operand op s
  | Call_change_operand_value op new_val => change_operand_value assert_on op new_val s
  | Call_replace_all_uses_with wl old_val new_val =>
      '(_, s1) ← replace_all_uses_with assert_on wl old_val new_val s; Done s1
  end.

(** [op] is in the operand list of the instruction it names as its user. *)
Definition in_operand_list_of_user (s : state) (op : nat) (o : IROperand) : Prop :=
  match op_user o with
  | Some i => match instrs s !! i with
              | Some ins => op ∈ i_operands ins
              | None => False
              end
  | None => False
  end.

#[global] Instance in_operand_list_of_user_dec s op o :
  Decision (in_operand_list_of_user s op o).
Proof.
  unfold in_operand_list_of_user.
  destruct (op_user o) as [i|]; [destruct (instrs s !! i)|]; apply _.
Defined.

(** What a call expects of its arguments: [remove_operand] is given an operand
    that is in its user's list, [change_operand_value] a value operand. *)
Definition call_ok (s : state) (c : ud_call) : Prop :=
  match c with
  | Call_remove_operand op => operand_has s op (in_operand_list_of_user s op)
  | Call_change_operand_value op _ =>
      operand_has s op (λ o, op_kind o = IR_OP_KIND_VALUE)
  | _ => True
  end.

#[global] Instance call_ok_dec s c : Decision (call_ok s c).
Proof. destruct c; simpl; apply _. Defined.

(** [calls_from s cs s']: the calls [cs], each given what it expects, run one
    after the other from [s], all return, and leave [s']. *)
Inductive calls_from (assert_on : bool) : state → list ud_call → state → Prop :=
| calls_nil s : calls_from assert_on s [] s
| calls_cons s c s1 cs s' :
    call_ok s c → run_call assert_on c s = Done s1 →
    calls_from assert_on s1 cs s' → calls_from assert_on s (c :: cs) s'.

(** The second half of the claim, as it is stated: whenever
    [replace_all_uses_with(old, new)] returns, the use list of [old] is empty. *)
Definition rauw_empties_use_list : Prop :=
  ∀ assert_on wl old_val new_val s wl' s',
    ud_wf s →
    (∃ val, values s !! old_val = Some val ∧ is_register val = true) →
    replace_all_uses_with assert_on wl old_val new_val s = Done (wl', s') →
    use_list_of s' old_val = Some [].

(** [one_slot] before its operands are attached, and the calls that attach
    them and then replace [%x] by the constant 42. *)
Definition one_slot_bare : state :=
  mkState
    (list_to_map
       [ (50%nat, register "p" (Ty_pointer 903 (i32 900)) 100 []);
         (51%nat, int_constant (i32 901) 42);
         (52%nat, register "x" (i32 900) 102 []) ])
    ∅
    (list_to_map
       [ (100%nat, plain_instr IR_OP_ALLOCA None (Some 50%nat) [] (Some 10%nat) None
                     (Some 101%nat));
         (101%nat, plain_instr IR_OP_STORE None None [] (Some 10%nat) (Some 100%nat)
                     (Some 102%nat));
         (102%nat, plain_instr IR_OP_LOAD None (Some 52%nat) [] (Some 10%nat)
                     (Some 101%nat) (Some 103%nat));
         (103%nat, plain_instr IR_OP_RET None None [] (Some 10%nat) (Some 102%nat) None) ])
    (list_to_map
       [ (10%nat, plain_block (Some 100%nat) (Some 103%nat) (Some 1%nat) [] [] 0) ])
    {[ 1%nat := mkIRFunction (Some "f"%string) (Some 10%nat) [10%nat] 1 4 []
                  (Some [10%nat]) ]}
    [1%nat] 200.

Definition one_slot_calls : list ud_call :=
  [ Call_add_operand 101 IR_OP_KIND_VALUE (Some 51%nat);
    Call_add_operand 101 IR_OP_KIND_VALUE (Some 50%nat);
    Call_add_operand 102 IR_OP_KIND_VALUE (Some 50%nat);
    Call_add_operand 103 IR_OP_KIND_VALUE (Some 52%nat);
    Call_replace_all_uses_with None 52 (Some 51%nat);
    Call_change_operand_value 200 (Some 52%nat);
    Call_remove_operand 200 ].

Fixpoint run_calls (assert_on : bool) (cs : list ud_call) (s : state) : outcome state :=
  match cs with
  | [] => Done s
  | c :: rest => s1 ← run_call assert_on c s; run_calls assert_on rest s1
  end.

Definition one_slot_built : state :=
  Eval vm_compute in
    match run_calls true one_slot_calls one_slot_bare with
    | Done s => s
    | Stop _ => one_slot_bare
    end.

(** ** Instruction lists of blocks *)

(** The link fields of an instruction: [prev], [next], [parent]. *)
Definition link_fields (ins : IRInstruction) : option nat * option nat * option nat :=
  (i_prev ins, i_next ins, i_parent ins).

Definition links (s : state) : gmap nat (option nat * option nat * option nat) :=
  link_fields <$> instrs s.

(** [head] and [tail] of every block. *)
Definition ends (s : state) : gmap nat (option nat * option nat) :=
  (λ blk, (bb_head blk, bb_tail blk)) <$> blocks s.

(** [l] is a doubly linked run of instructions of block [b] that follows
    [prev]: each names its predecessor, its successor and [b]. *)
Fixpoint linked (lk : gmap nat (option nat * option nat * option nat)) (b : nat)
  (prev : option nat) (l : list nat) : Prop :=
  match l with
  | [] => True
  | i :: rest => lk !! i = Some (prev, head rest, Some b) ∧ linked lk b (Some i) rest
  end.

#[global] Instance linked_dec lk b prev l : Decision (linked lk b prev l).
Proof. revert prev. induction l; intros prev; simpl; apply _. Defined.

(** The instruction list of block [b] is exactly [l]. *)
Definition chain_ok (s : state) (b : nat) (l : list nat) : Prop :=
  NoDup l ∧ linked (links s) b None l ∧ ends s !! b = Some (head l, last l).

#[global] Instance chain_ok_dec s b l : Decision (chain_ok s b l).
Proof. unfold chain_ok. apply _. Defined.

(** The link table after [i], whose neighbours are [pv] and [nx], has been
    taken out of its list. *)
Definition unlink_links (pv nx : option nat)
  (lk : gmap nat (option nat * option nat * option nat))
  : gmap nat (option nat * option nat * option nat) :=
  let lk1 := match pv with
             | Some p => alter (λ '(pr, _, pa), (pr, nx, pa)) p lk
             | None => lk
             end in
  match nx with
  | Some n => alter (λ '(_, ne, pa), (pv, ne, pa)) n lk1
  | None => lk1
  end.

Definition last_or (l : list nat) (d : option nat) : option nat :=
  match last l with Some x => Some x | None => d end.

(** What an instruction is, apart from where it is linked. *)
Definition body_fields (ins : IRInstruction) : Opcode * option nat * list nat * bool :=
  (i_opcode ins, i_dest ins, i_operands ins, i_is_live ins).

Definition bodies (s : state) : gmap nat (Opcode * option nat * list nat * bool) :=
  body_fields <$> instrs s.

(** The [head] and [tail] table after an instruction of block [b] with
    neighbours [pv] and [nx] has been taken out. *)
Definition unlink_ends (b : nat) (pv nx : option nat)
  (e : gmap nat (option nat * option nat)) : gmap nat (option nat * option nat) :=
  let e1 := match pv with
            | Some _ => e
            | None => alter (λ '(_, t), (nx, t)) b e
            end in
  match nx with
  | Some _ => e1
  | None => alter (λ '(h, _), (h, pv)) b e1
  end.

(** The precondition of [erase_instruction]: the result of the instruction,
    if it has one, has an empty use list. *)
Definition dest_unused (s : state) (ins : IRInstruction) : Prop :=
  match i_dest ins with
  | Some d => match values s !! d with
              | Some dv => v_use_list dv = []
              | None => False
              end
  | None => True
  end.

#[global] Instance dest_unused_dec s ins : Decision (dest_unused s ins).
Proof.
  unfold dest_unused. destruct (i_dest ins) as [d|]; [destruct (values s !! d)|]; apply _.
Defined.

(** The block exists and its function, if it names one, exists too. *)
Definition parent_function_ok (s : state) (b : nat) : Prop :=
  match blocks s !! b with
  | Some blk => match bb_parent blk with
                | Some pf => is_Some (funcs s !! pf)
                | None => True
                end
  | None => False
  end.

#[global] Instance parent_function_ok_dec s b : Decision (parent_function_ok s b).
Proof.
  unfold parent_function_ok.
  destruct (blocks s !! b) as [blk|]; [destruct (bb_parent blk)|]; apply _.
Defined.

(** The instruction count of the function that owns block [b]. *)
Definition instruction_count_of (s : state) (b : nat) : option Z :=
  blk ← blocks s !! b; pf ← bb_parent blk; fn ← funcs s !! pf;
  Some (fn_instruction_count fn).

(** The contract of [erase_instruction] as the claim states it, for an
    instruction [i] that is linked in block [b]. *)
Definition erase_contract (assert_on : bool) (s : state) (b : nat) (l : list nat) (i : nat)
  (ins : IRInstruction) : Prop :=
  ∃ s', erase_instruction assert_on (Some i) s = Done s'
    ∧ (∀ op w wal', op ∈ i_operands ins → values s' !! w = Some wal' →
                    is_register wal' = true → op ∉ v_use_list wal')
    ∧ chain_ok s' b (remove_first i l)
    ∧ opcode_of s' i = Some IR_OP_UNKNOWN.

Definition erase_contract_as_stated : Prop :=
  ∀ assert_on s b l i ins,
    ud_wf s → chain_ok s b l → parent_function_ok s b →
    i ∈ l → instrs s !! i = Some ins → dest_unused s ins →
    erase_contract assert_on s b l i ins.

(** [one_slot] after [mark_instruction_for_removal] on its store. *)
Definition one_slot_marked : state := mark_instruction_for_removal 101 one_slot.

(** ** ADCE *)

















(** ** ValueMap (ir_utils.c): a hash map from [IRValue*] to [IRValue*]

    The map is a struct of the caller; its two arrays come from the pool.
    [entries] holds [capacity] cells of which the first [count] are in use, and
    the list here is that used part.  A pointer to [entries[i]] (a bucket head,
    [next_in_hash]) is the index [i].  [hash_capacity] is the length of
    [hash_table].  The pool does not run out, and the [LogConfig] arguments,
    which only print, are left out. *)

Record ValueMapEntry := mkValueMapEntry {
  e_old_val : option nat;
  e_new_val : option nat;
  e_next_in_hash : option nat
}.

Record ValueMap := mkValueMap {
  vm_entries : list ValueMapEntry;
  vm_capacity : Z;
  vm_hash_table : list (option nat)
}.

Definition vm_count (m : ValueMap) : Z := Z.of_nat (length (vm_entries m)).
Definition vm_hash_capacity (m : ValueMap) : Z := Z.of_nat (length (vm_hash_table m)).

Definition e_with_new_val (v : option nat) (e : ValueMapEntry) : ValueMapEntry :=
  mkValueMapEntry (e_old_val e) v (e_next_in_hash e).

Definition e_with_next_in_hash (n : option nat) (e : ValueMapEntry) : ValueMapEntry :=
  mkValueMapEntry (e_old_val e) (e_new_val e) n.

Definition value_map_init : ValueMap := mkValueMap [] 32 (replicate 32 None).

Definition HASH_MULTIPLIER : Z := 2654435761.

(** [(unsigned int) z] *)
Definition to_unsigned_int (z : Z) : Z := z mod 2 ^ 32.

Section ValueMap.

(** The union of an [IRValue] is eight bytes wide and the arena keeps its low
    word ([v_word]).  The high word, which only the hash of a [double]
    constant reads, is given by address. *)
Variable union_high_word : nat → Z.

(** [hash_value(val)], with pointers of 64 bits. *)
Definition hash_value (s : state) (val : option nat) : outcome Z :=
  match val with
  | None => Done 0
  | Some p =>
      v ← deref (values s) p;
      let ptr := Z.of_nat p in
      let addr_hash := to_unsigned_int (Z.shiftr (Z.lxor ptr (Z.shiftr ptr 32)) 3) in
      if v_is_constant v then
        t ← nonnull (v_type v);
        if bool_decide (ty_kind t = TYPE_BASIC) then
          let content_hash :=
            match ty_basic t with
            | Some BASIC_INT => to_unsigned_int (v_word v)
            | Some BASIC_FLOAT => to_unsigned_int (v_word v)
            | Some BASIC_DOUBLE =>
                Z.lxor (to_unsigned_int (v_word v)) (to_unsigned_int (union_high_word p))
            | Some BASIC_I1 => if v_word v =? 0 then 0 else 1
            | Some BASIC_I8 => Z.land (v_word v) 255
            | _ => to_unsigned_int (Z.shiftr ptr 3)
            end in
          Done (to_unsigned_int (content_hash * HASH_MULTIPLIER))
        else Done (to_unsigned_int (addr_hash * HASH_MULTIPLIER))
      else Done (to_unsigned_int (addr_hash * HASH_MULTIPLIER))
  end.

(** [hash % map->hash_capacity], unsigned; a remainder by zero traps. *)
Definition bucket_index (hash hash_capacity : Z) : outcome Z :=
  if hash_capacity =? 0 then Stop invalid_pointer else Done (hash mod hash_capacity).

(** [for (entry = hash_table[hash]; entry; entry = entry->next_in_hash)
       if (entry->old_val == old_val) ...]: the first entry of the chain with
    the key.  A chain that visits more entries than there are has come back to
    one, and the walk does not end. *)
Fixpoint bucket_find (entries : list ValueMapEntry) (fuel : nat) (entry : option nat)
  (old_val : nat) : outcome (option nat) :=
  match entry with
  | None => Done None
  | Some i =>
      match fuel with
      | O => Stop no_termination
      | S n =>
          e ← nonnull (entries !! i);
          if ptr_eqb (e_old_val e) (Some old_val) then Done (Some i)
          else bucket_find entries n (e_next_in_hash e) old_val
      end
  end.

(** The lookup that [value_map_put] and [value_map_get] both start with. *)
Definition value_map_find (s : state) (map : ValueMap) (old_val : nat)
  : outcome (Z * option nat) :=
  hash ← hash_value s (Some old_val);
  hash ← bucket_index hash (vm_hash_capacity map);
  head ← array_at (vm_hash_table map) hash;
  found ← bucket_find (vm_entries map) (S (length (vm_entries map))) head old_val;
  Done (hash, found).

(** [while (new_hash_capacity & (new_hash_capacity - 1)) new_hash_capacity++;] *)
Fixpoint round_up_to_power_of_two (fuel : nat) (n : Z) : outcome Z :=
  if Z.land n (n - 1) =? 0 then Done n
  else match fuel with
       | O => Stop no_termination
       | S k => round_up_to_power_of_two k (n + 1)
       end.

(** The rebuild of the buckets: [for (i = 0; i < count; ++i)], each entry
    pushed on the front of its chain. *)
Fixpoint rehash (s : state) (idx : list nat) (entries : list ValueMapEntry)
  (hash_table : list (option nat)) : outcome (list ValueMapEntry * list (option nat)) :=
  match idx with
  | [] => Done (entries, hash_table)
  | i :: rest =>
      e ← nonnull (entries !! i);
      hash ← hash_value s (e_old_val e);
      hash ← bucket_index hash (Z.of_nat (length hash_table));
      head ← array_at hash_table hash;
      rehash s rest (<[i := e_with_next_in_hash head e]> entries)
        (<[Z.to_nat hash := Some i]> hash_table)
  end.

(** The growth step of [value_map_put]. *)
Definition value_map_grow (s : state) (map : ValueMap) : outcome ValueMap :=
  let new_capacity := vm_capacity map * 2 in
  new_hash_capacity ← round_up_to_power_of_two (Z.to_nat new_capacity) new_capacity;
  '(entries, hash_table) ←
    rehash s (seq 0 (length (vm_entries map))) (vm_entries map)
      (replicate (Z.to_nat new_hash_capacity) None);
  Done (mkValueMap entries new_capacity hash_table).

Definition value_map_put (s : state) (map : ValueMap) (old_val new_val : option nat)
  : outcome ValueMap :=
  match old_val with
  | None => Done map
  | Some k =>
      v ← deref (values s) k;
      if v_is_constant v then Done map
      else
        map1 ← (if vm_capacity map <=? vm_count map then value_map_grow s map else Done map);
        '(hash, found) ← value_map_find s map1 k;
        match found with
        | Some i =>
            e ← nonnull (vm_entries map1 !! i);
            Done (mkValueMap (<[i := e_with_new_val new_val e]> (vm_entries map1))
                    (vm_capacity map1) (vm_hash_table map1))
        | None =>
            (* entry = &map->entries[map->count] *)
            if vm_count map1 <? vm_capacity map1 then
              head ← array_at (vm_hash_table map1) hash;
              Done (mkValueMap
                      (vm_entries map1 ++ [mkValueMapEntry (Some k) new_val head])
                      (vm_capacity map1)
                      (<[Z.to_nat hash := Some (length (vm_entries map1))]>
                         (vm_hash_table map1)))
            else Stop invalid_pointer
        end
  end.

Definition value_map_get (s : state) (map : option ValueMap) (old_val : option nat)
  : outcome (option nat) :=
  match old_val, map with
  | Some k, Some m =>
      '(_, found) ← value_map_find s m k;
      match found with
      | Some i => e ← nonnull (vm_entries m !! i); Done (e_new_val e)
      | None => Done None
      end
  | _, _ => Done None
  end.

Definition remap_value (s : state) (map : option ValueMap) (old_val : option nat)
  : outcome (option nat) :=
  new_val ← value_map_get s map old_val;
  Done (if is_null new_val then old_val else new_val).

(** [value_map_merge(dst, src)]: every entry of [src] put into [dst]. *)
Fixpoint value_map_merge_loop (s : state) (dst : ValueMap) (src : list ValueMapEntry)
  : outcome ValueMap :=
  match src with
  | [] => Done dst
  | e :: rest =>
      dst1 ← value_map_put s dst (e_old_val e) (e_new_val e);
      value_map_merge_loop s dst1 rest
  end.

Definition value_map_merge (s : state) (dst src : option ValueMap) : outcome (option ValueMap) :=
  match dst, src with
  | Some d, Some m => d1 ← value_map_merge_loop s d (vm_entries m); Done (Some d1)
  | _, _ => Done dst
  end.

(** The entry that the key [k] finds is [i]. *)
Definition finds (s : state) (map : ValueMap) (k i : nat) : Prop :=
  match value_map_find s map k with
  | Done (_, Some j) => j = i
  | _ => False
  end.

#[global] Instance finds_dec s map k i : Decision (finds s map k i).
Proof.
  unfold finds. destruct (value_map_find s map k) as [[h [j|]]|]; apply _.
Defined.

(** A key of the map is a value of the arena that is not a constant. *)
Definition key_ok (s : state) (k : nat) : Prop :=
  match values s !! k with
  | Some v => v_is_constant v = false
  | None => False
  end.

#[global] Instance key_ok_dec s k : Decision (key_ok s k).
Proof. unfold key_ok. destruct (values s !! k); apply _. Defined.

(** Entry [i] is the one its own key finds, and its chain goes on to an
    earlier entry. *)
Definition entry_ok (s : state) (map : ValueMap) (i : nat) (e : ValueMapEntry) : Prop :=
  match e_old_val e with
  | Some k => finds s map k i ∧ key_ok s k
  | None => False
  end
  ∧ match e_next_in_hash e with
    | Some j => (j < i)%nat
    | None => True
    end.

#[global] Instance entry_ok_dec s map i e : Decision (entry_ok s map i e).
Proof.
  unfold entry_ok. destruct (e_old_val e), (e_next_in_hash e); apply _.
Defined.

Definition head_ok (map : ValueMap) (head : option nat) : Prop :=
  match head with
  | Some j => (j < length (vm_entries map))%nat
  | None => True
  end.

#[global] Instance head_ok_dec map head : Decision (head_ok map head).
Proof. unfold head_ok. destruct head; apply _. Defined.

(** The map is in a state that [value_map_init] and [value_map_put] leave it
    in: the used cells fit the array, which has grown by doubling; no key is
    entered twice; every entry is the one its own key finds; and a chain runs
    from a later entry to an earlier one. *)
Definition vm_wf (s : state) (map : ValueMap) : Prop :=
  (0 < vm_capacity map ∧ vm_count map ≤ vm_capacity map
   ∧ vm_capacity map ≤ Z.max 32 (2 * vm_count map))
  ∧ vm_hash_table map ≠ []
  ∧ NoDup (e_old_val <$> vm_entries map)
  ∧ map_Forall (entry_ok s map) (map_seq 0 (vm_entries map) : gmap nat ValueMapEntry)
  ∧ Forall (head_ok map) (vm_hash_table map).

#[global] Instance vm_wf_dec s map : Decision (vm_wf s map).
Proof. unfold vm_wf. apply _. Defined.

(** What the map holds for a key: the new value of the entry with that key. *)
Definition vm_content (map : ValueMap) (k : nat) : option nat :=
  match list_find (λ e, e_old_val e = Some k) (vm_entries map) with
  | Some (_, e) => e_new_val e
  | None => None
  end.

End ValueMap.

(** ** Instruction lists (ir_utils.c) *)

Definition insert_instr_after (assert_on : bool) (new_instr pos : nat) (s : state)
  : outcome state :=
  pins ← deref (instrs s) pos;
  _ ← c_assert assert_on (negb (is_null (i_parent pins)));
  nins ← deref (instrs s) new_instr;
  _ ← c_assert assert_on (is_null (i_parent nins));
  let bb := i_parent pins in
  let s1 := upd_instr new_instr
              (fun x => i_with_next (i_next pins) (i_with_prev (Some pos) (i_with_parent bb x))) s in
  s2 ← match i_next pins with
       | Some n => _ ← deref (instrs s1) n; Done (upd_instr n (i_with_prev (Some new_instr)) s1)
       | None => b ← nonnull bb; _ ← deref (blocks s1) b;
                 Done (upd_block b (bb_with_tail (Some new_instr)) s1)
       end;
  Done (upd_instr pos (i_with_next (Some new_instr)) s2).

(** [opcode == IR_OP_RET || opcode == IR_OP_BR] *)
Definition terminator_opcode (op : Opcode) : bool :=
  opcode_eqb op IR_OP_RET || opcode_eqb op IR_OP_BR.

(** The list of a block after [add_instr_to_bb_end]: the instruction goes
    before the terminator that ends the list, and last when there is none. *)
Definition added_to_end (s : state) (l : list nat) (instr : nat) : list nat :=
  match last l with
  | Some t =>
      match instrs s !! t with
      | Some tins =>
          if terminator_opcode (i_opcode tins) then removelast l ++ [instr; t]
          else l ++ [instr]
      | None => l ++ [instr]
      end
  | None => l ++ [instr]
  end.

(** [one_slot] with a fresh, detached [add] instruction (at address 1000). *)
Definition one_slot_with_new : state := snd (create_ir_instruction IR_OP_ADD one_slot).

(** [unused_load]'s map with [%x] mapped to [%p]. *)
Definition x_to_p : ValueMap :=
  Eval vm_compute in
    match value_map_put (λ _, 0) unused_load value_map_init (Some 52%nat) (Some 50%nat) with
    | Done m => m
    | Stop _ => value_map_init
    end.

(** ... and with [%p] mapped to [%x]. *)
Definition p_to_x : ValueMap :=
  Eval vm_compute in
    match value_map_put (λ _, 0) unused_load value_map_init (Some 50%nat) (Some 52%nat) with
    | Done m => m
    | Stop _ => value_map_init
    end.

(** ** Control-flow graph construction (cfg_builder.c) *)

Definition bb_with_successors (x : list nat) (b : IRBasicBlock) : IRBasicBlock :=
  mkIRBasicBlock (bb_label b) (bb_head b) (bb_tail b) (bb_parent b) x
    (bb_predecessors b) (bb_post_order_id b) (bb_dom_tin b) (bb_dom_tout b) (bb_idom b)
    (bb_dom_frontier b) (bb_dom_children b) (bb_loop_depth b).

(** Pass 1, first loop: the old edges of every block of the function go. *)
Definition clear_edges (block : nat) (s : state) : outcome state :=
  _ ← deref (blocks s) block;
  Done (upd_block block (fun b => bb_with_predecessors [] (bb_with_successors [] b)) s).

(** The successors that pass 1 reads off the terminator: [data.bb] of the
    second and third operand of a [br] with more than one operand, of the
    first operand of any other [br]; nothing for another tail, or none. *)
Definition terminator_successors (assert_on : bool) (s : state) (blk : IRBasicBlock)
  : outcome (list nat) :=
  match bb_tail blk with
  | None => Done []
  | Some t =>
      term ← deref (instrs s) t;
      if opcode_eqb (i_opcode term) IR_OP_BR then
        if (1 <? length (i_operands term))%nat then
          op1 ← nonnull (i_operands term !! 1%nat);
          o1 ← deref (operands s) op1;
          op2 ← nonnull (i_operands term !! 2%nat);
          o2 ← deref (operands s) op2;
          _ ← c_assert assert_on (negb (is_null (op_bb o1)) && negb (is_null (op_bb o2)));
          true_succ ← nonnull (op_bb o1);
          false_succ ← nonnull (op_bb o2);
          Done [true_succ; false_succ]
        else
          op0 ← nonnull (i_operands term !! 0%nat);
          o0 ← deref (operands s) op0;
          _ ← c_assert assert_on (negb (is_null (op_bb o0)));
          succ ← nonnull (op_bb o0);
          Done [succ]
      else Done []
  end.

(** Pass 1, second loop, for one block: the successor array is set and each
    successor has its predecessor count raised (the count alone; the arrays
    come in pass 2). *)
Definition set_successors (assert_on : bool) (block : nat) (s : state) : outcome state :=
  blk ← deref (blocks s) block;
  succs ← terminator_successors assert_on s blk;
  _ ← foldr (fun succ r => _ ← deref (blocks s) succ; r) (Done tt) succs;
  Done (upd_block block (bb_with_successors succs) s).

(** Pass 3 for one block: [succ->predecessors[succ->num_predecessors++] = block]
    for each successor.  Pass 2 gave every block of the function an array of
    the size counted in pass 1 and set its count back to zero, so these writes
    fill that array from the start.  A successor that is not a block of the
    function kept its old array and its old count, raised in pass 1: the write
    lands past the entries that array holds. *)
Fixpoint fill_predecessors (func_blocks : list nat) (block : nat) (succs : list nat)
  (s : state) : outcome state :=
  match succs with
  | [] => Done s
  | succ :: rest =>
      sblk ← deref (blocks s) succ;
      if bool_decide (succ ∈ func_blocks) then
        fill_predecessors func_blocks block rest
          (upd_block succ (bb_with_predecessors (bb_predecessors sblk ++ [block])) s)
      else Stop invalid_pointer
  end.

Definition build_cfg (assert_on : bool) (func : option nat) (s : state) : outcome state :=
  match func with
  | None => Done s
  | Some f =>
      fn ← deref (funcs s) f;
      if is_null (fn_entry fn) then Done s
      else
        s1 ← for_each clear_edges (fn_blocks fn) s;
        s2 ← for_each (set_successors assert_on) (fn_blocks fn) s1;
        for_each (fun block s' =>
                    blk ← deref (blocks s') block;
                    fill_predecessors (fn_blocks fn) block (bb_successors blk) s')
                 (fn_blocks fn) s2
  end.

(** The function is ready for [build_cfg]: its blocks are in the arena, the
    terminators name their targets in full, and the targets are blocks of the
    function. *)
Definition block_ready (s : state) (func_blocks : list nat) (block : nat) : Prop :=
  match blocks s !! block with
  | Some blk =>
      match terminator_successors true s blk with
      | Done succs => Forall (λ succ, succ ∈ func_blocks) succs
      | Stop _ => False
      end
  | None => False
  end.

#[global] Instance block_ready_dec s func_blocks block :
  Decision (block_ready s func_blocks block).
Proof.
  unfold block_ready. destruct (blocks s !! block) as [blk|]; [|apply _].
  destruct (terminator_successors true s blk); apply _.
Defined.

Definition cfg_ready (s : state) (func_blocks : list nat) : Prop :=
  Forall (block_ready s func_blocks) func_blocks.

#[global] Instance cfg_ready_dec s func_blocks : Decision (cfg_ready s func_blocks).
Proof. unfold cfg_ready. apply _. Defined.

(** The targets of the terminator of a block, as [build_cfg] reads them. *)
Definition branch_targets (s : state) (block : nat) : list nat :=
  match blocks s !! block with
  | Some blk =>
      match terminator_successors false s blk with
      | Done succs => succs
      | Stop _ => []
      end
  | None => []
  end.

(** The predecessors that pass 3 enters for [b] while it goes through the
    blocks [from]: each block, once for every target of its that is [b]. *)
Definition incoming (s : state) (from : list nat) (b : nat) : list nat :=
  a ← from; (λ _, a) <$> filter (λ x, x = b) (branch_targets s a).

(** *** The edges that the branches of a function spell out *)

(** The kinds of the operands of an instruction, in operand order. *)
Definition operand_kinds (s : state) (ins : IRInstruction) : list (option OperandKind) :=
  (λ op, op_kind <$> operands s !! op) <$> i_operands ins.

(** The block a block operand holds; nothing for a value operand. *)
Definition label_of (s : state) (op : nat) : option nat :=
  match operands s !! op with
  | Some o => if bool_decide (op_kind o = IR_OP_KIND_BASIC_BLOCK) then op_data o else None
  | None => None
  end.

(** The labels of an instruction: the blocks its block operands hold, in
    operand order. *)
Definition labels (s : state) (ins : IRInstruction) : list nat :=
  omap (label_of s) (i_operands ins).

(** [br label], one block operand, or [br cond, label, label], a value
    operand and two block operands; every block operand holds a block. *)
Definition branch_well_formed (s : state) (term : IRInstruction) : Prop :=
  (operand_kinds s term = [Some IR_OP_KIND_BASIC_BLOCK]
   ∧ length (labels s term) = 1%nat)
  ∨ (operand_kinds s term
     = [Some IR_OP_KIND_VALUE; Some IR_OP_KIND_BASIC_BLOCK; Some IR_OP_KIND_BASIC_BLOCK]
     ∧ length (labels s term) = 2%nat).

(** The last instruction of a block, if it has one. *)
Definition last_instruction (s : state) (block : nat) : option IRInstruction :=
  match blocks s !! block with
  | Some blk => match bb_tail blk with
                | Some t => instrs s !! t
                | None => None
                end
  | None => None
  end.

(** The blocks a block jumps to: the labels of its last instruction when that
    is a [br], none otherwise. *)
Definition jump_targets (s : state) (block : nat) : list nat :=
  match last_instruction s block with
  | Some term => if bool_decide (i_opcode term = IR_OP_BR) then labels s term else []
  | None => []
  end.

(** The blocks of [from] that jump to [b]: each of them, in the order of
    [from], once for every label of its branch that is [b]. *)
Definition jumping_to (s : state) (from : list nat) (b : nat) : list nat :=
  a ← from; (λ _, a) <$> filter (λ x, x = b) (jump_targets s a).

(** A block of a function ends well: the block and, if it has one, its last
    instruction are in the arena, and a [br] at its end is well formed and
    jumps to blocks of the function. *)
Definition block_ends_well (s : state) (func_blocks : list nat) (block : nat) : Prop :=
  match blocks s !! block with
  | Some blk =>
      match bb_tail blk with
      | Some t =>
          match instrs s !! t with
          | Some term =>
              i_opcode term = IR_OP_BR →
              branch_well_formed s term ∧ Forall (λ b, b ∈ func_blocks) (labels s term)
          | None => False
          end
      | None => True
      end
  | None => False
  end.

#[global] Instance block_ends_well_dec s func_blocks block :
  Decision (block_ends_well s func_blocks block).
Proof.
  unfold block_ends_well, branch_well_formed.
  destruct (blocks s !! block) as [blk|]; [|apply _].
  destruct (bb_tail blk) as [t|]; [|apply _].
  destruct (instrs s !! t); apply _.
Defined.

Definition branches_well_formed (s : state) (func_blocks : list nat) : Prop :=
  Forall (block_ends_well s func_blocks) func_blocks.

#[global] Instance branches_well_formed_dec s func_blocks :
  Decision (branches_well_formed s func_blocks).
Proof. unfold branches_well_formed. apply _. Defined.

Definition with_edges (succs preds : list nat) (blk : IRBasicBlock) : IRBasicBlock :=
  bb_with_predecessors preds (bb_with_successors succs blk).

(** The blocks of [s] with the edges of the blocks [func_blocks] replaced. *)
Definition blocks_with_edges (s : state) (func_blocks : list nat)
  (succs preds : nat → list nat) (b : nat) : option IRBasicBlock :=
  (λ blk, if bool_decide (b ∈ func_blocks) then with_edges (succs b) (preds b) blk else blk)
    <$> blocks s !! b.

(** ** PHI operands (ir_utils.c) *)

(** [for (op_val = head; op_val && op_val->next_in_instr; op_val = next->next)]:
    the value paired with [block], pair by pair. *)
Fixpoint phi_pairs_find (s : state) (block : nat) (ops : list nat) : outcome (option nat) :=
  match ops with
  | op_val :: op_block :: rest =>
      ob ← deref (operands s) op_block;
      if bool_decide (op_kind ob = IR_OP_KIND_BASIC_BLOCK) && ptr_eqb (op_bb ob) (Some block)
      then ov ← deref (operands s) op_val; Done (op_value ov)
      else phi_pairs_find s block rest
  | _ => Done None
  end.

Definition phi_get_incoming_value_for_block (s : state) (phi block : option nat)
  : outcome (option nat) :=
  match phi with
  | None => Done None
  | Some p =>
      ins ← deref (instrs s) p;
      if negb (opcode_eqb (i_opcode ins) IR_OP_PHI) then Done None
      else match block with
           | None => Done None
           | Some b => phi_pairs_find s b (i_operands ins)
           end
  end.

(** [one_slot]'s block with a PHI in front:
    [%m = phi [42, block 11], [%x, block 12]]. *)
Definition with_phi : state :=
  mkState
    (list_to_map
       [ (51%nat, int_constant (i32 901) 42);
         (52%nat, register "x" (i32 900) 102 [212%nat]);
         (53%nat, register "m" (i32 900) 110 []) ])
    (list_to_map
       [ (210%nat, value_operand 51 110); (211%nat, block_operand 11 110);
         (212%nat, value_operand 52 110); (213%nat, block_operand 12 110) ])
    (list_to_map
       [ (110%nat, plain_instr IR_OP_PHI None (Some 53%nat)
                     [210%nat; 211%nat; 212%nat; 213%nat] (Some 10%nat) None None);
         (102%nat, plain_instr IR_OP_LOAD None (Some 52%nat) [] (Some 12%nat) None None) ])
    (list_to_map
       [ (10%nat, plain_block (Some 110%nat) (Some 110%nat) (Some 1%nat) [] [11%nat; 12%nat] 0);
         (11%nat, plain_block None None (Some 1%nat) [10%nat] [] 1);
         (12%nat, plain_block (Some 102%nat) (Some 102%nat) (Some 1%nat) [10%nat] [] 2) ])
    {[ 1%nat := mkIRFunction (Some "f"%string) (Some 11%nat) [11%nat; 12%nat; 10%nat] 3 2 []
                  None ]}
    [1%nat] 1000.

(** [op] is a block operand that names [block]. *)
Definition names_block (s : state) (block : nat) (op : nat) : Prop :=
  operand_has s op (λ o, op_kind o = IR_OP_KIND_BASIC_BLOCK ∧ op_bb o = Some block).

#[global] Instance names_block_dec s block op : Decision (names_block s block op).
Proof. unfold names_block. apply _. Defined.

(** [instr->parent->parent] can be followed: the instruction is in a block of
    a function, where [add_operand] finds the pool. *)
Definition reaches_function (s : state) (ins : IRInstruction) : Prop :=
  match i_parent ins with
  | Some b => match blocks s !! b with
              | Some blk => match bb_parent blk with
                            | Some f => is_Some (funcs s !! f)
                            | None => False
                            end
              | None => False
              end
  | None => False
  end.

#[global] Instance reaches_function_dec s ins : Decision (reaches_function s ins).
Proof.
  unfold reaches_function. destruct (i_parent ins) as [b|]; [|apply _].
  destruct (blocks s !! b) as [blk|]; [|apply _]. destruct (bb_parent blk); apply _.
Defined.

(** ** Moving a block's instructions (ir_utils.c) *)

Definition bb_with_ends (h t : option nat) (b : IRBasicBlock) : IRBasicBlock :=
  bb_with_tail t (bb_with_head h b).

(** [for (instr = from->head; instr; instr = instr->next) instr->parent = to;] *)
Definition set_parents (to : nat) (l : list nat) (s : state) : state :=
  foldl (λ st i, upd_instr i (i_with_parent (Some to)) st) s l.

Definition move_instructions_to_block_end (from to : option nat) (s : state) : outcome state :=
  match from, to with
  | Some f, Some t =>
      if bool_decide (f = t) then Done s
      else
        fb ← deref (blocks s) f;
        match bb_head fb with
        | None => Done s
        | Some fh =>
            (* log_config is read through from->parent when that is set *)
            _ ← match bb_parent fb with
                | Some p => _ ← deref (funcs s) p; Done tt
                | None => Done tt
                end;
            (* the counting loop *)
            _ ← chain_from s (S (size (instrs s))) (Some fh);
            tb ← deref (blocks s) t;
            s1 ← match bb_head tb with
                 | None => Done (upd_block t (bb_with_ends (Some fh) (bb_tail fb)) s)
                 | Some _ =>
                     tl ← nonnull (bb_tail tb);
                     _ ← deref (instrs s) tl;
                     let s0 := upd_instr tl (i_with_next (Some fh)) s in
                     _ ← deref (instrs s0) fh;
                     Done (upd_block t (bb_with_tail (bb_tail fb))
                             (upd_instr fh (i_with_prev (Some tl)) s0))
                 end;
            moved ← chain_from s1 (S (size (instrs s1))) (Some fh);
            Done (upd_block f (bb_with_ends None None) (set_parents t moved s1))
        end
  | _, _ => Done s
  end.

(** ** Dominator-tree timestamps (ir_utils.c) *)

(** A finite tree of blocks. *)
#[warnings="-register-all"]
Inductive BlockTree := BlockNode (b : nat) (kids : list BlockTree).

Definition tree_root (T : BlockTree) : nat := match T with BlockNode b _ => b end.

(** The blocks of [T], in the order a depth-first walk enters them. *)
Fixpoint tree_nodes (T : BlockTree) : list nat :=
  match T with BlockNode b kids => b :: concat (map tree_nodes kids) end.

Fixpoint tree_height (T : BlockTree) : nat :=
  match T with BlockNode _ kids => S (foldr Nat.max 0%nat (map tree_height kids)) end.

(** The [dom_children] arrays of the blocks. *)
Definition dom_shape (s : state) : gmap nat (list nat) := bb_dom_children <$> blocks s.

(** [dom_tin] and [dom_tout] of the blocks. *)
Definition dom_stamps (s : state) : gmap nat (Z * Z) :=
  (λ blk, (bb_dom_tin blk, bb_dom_tout blk)) <$> blocks s.

(** The [dom_children] arrays spell out [T]. *)
Fixpoint is_dom_tree (sh : gmap nat (list nat)) (T : BlockTree) : Prop :=
  match T with
  | BlockNode b kids =>
      sh !! b = Some (map tree_root kids) ∧ foldr (λ k P, is_dom_tree sh k ∧ P) True kids
  end.

(** [a] is [b] or above [b] in [T]. *)
Fixpoint tree_above (T : BlockTree) (a b : nat) : Prop :=
  match T with
  | BlockNode r kids =>
      (a = r ∧ b ∈ tree_nodes T) ∨ foldr (λ k P, tree_above k a b ∨ P) False kids
  end.

Definition forest_nodes (ks : list BlockTree) : list nat := concat (map tree_nodes ks).

Definition forest_above (ks : list BlockTree) (a b : nat) : Prop :=
  foldr (λ k P, tree_above k a b ∨ P) False ks.

Definition forest_is (sh : gmap nat (list nat)) (ks : list BlockTree) : Prop :=
  foldr (λ k P, is_dom_tree sh k ∧ P) True ks.

Definition tree_size (T : BlockTree) : Z := Z.of_nat (length (tree_nodes T)).
Definition forest_size (ks : list BlockTree) : Z := Z.of_nat (length (forest_nodes ks)).

(** The stamps [st] of [nodes], handed out from time [t] on, are nested the
    way [above] says. *)
Definition stamped (above : nat → nat → Prop) (nodes : list nat) (t size : Z)
  (st : gmap nat (Z * Z)) : Prop :=
  (∀ x, x ∈ nodes → ∃ i o, st !! x = Some (i, o) ∧ t ≤ i ∧ i < o ∧ o < t + 2 * size)
  ∧ (∀ a b i o i' o', a ∈ nodes → b ∈ nodes →
       st !! a = Some (i, o) → st !! b = Some (i', o') →
       (i ≤ i' ∧ o' ≤ o ↔ above a b)).

(** What [dfs_dom_tree] does on the tree [T] with [n] levels of recursion. *)
Definition dfs_ok (n : nat) (T : BlockTree) : Prop :=
  ∀ t s, is_dom_tree (dom_shape s) T → NoDup (tree_nodes T) →
    ∃ s', dfs_dom_tree n (tree_root T) t s = Done (t + 2 * tree_size T, s')
      ∧ dom_shape s' = dom_shape s
      ∧ (∀ x, x ∉ tree_nodes T → dom_stamps s' !! x = dom_stamps s !! x)
      ∧ stamped (tree_above T) (tree_nodes T) t (tree_size T) (dom_stamps s').

(** The dominator tree of [chain_cfg] as [compute_dominators] leaves it. *)
Definition two_leaves : BlockTree := BlockNode 10 [BlockNode 11 []; BlockNode 12 []].

(** ** Retargeting a terminator (ir_utils.c) *)

(** The body of the loop of [change_terminator_target]. *)
Definition retarget_operand (from to : option nat) (op : nat) (s : state) : outcome state :=
  o ← deref (operands s) op;
  if bool_decide (op_kind o = IR_OP_KIND_BASIC_BLOCK) && ptr_eqb (op_bb o) from
  then Done (upd_operand op (op_with_data to) s)
  else Done s.

Definition change_terminator_target (assert_on : bool) (term : option nat)
  (from to : option nat) (s : state) : outcome state :=
  _ ← (if assert_on
       then is_term ← is_terminator_instruction s term; c_assert true is_term
       else Done tt);
  t ← nonnull term;
  ins ← deref (instrs s) t;
  for_each (retarget_operand from to) (i_operands ins) s.

(** [from] replaced by [to]. *)
Definition retargeted (from to : nat) (x : nat) : nat :=
  if bool_decide (x = from) then to else x.

(** The operands of [ins] that hold [from] are block operands. *)
Definition targets_are_blocks (s : state) (from : nat) (ins : IRInstruction) : Prop :=
  Forall (λ op, operand_has s op (λ o, op_bb o = Some from →
                                       op_kind o = IR_OP_KIND_BASIC_BLOCK))
         (i_operands ins).

#[global] Instance targets_are_blocks_dec s from ins : Decision (targets_are_blocks s from ins).
Proof. unfold targets_are_blocks. apply _. Defined.

(** What the loop makes of one operand. *)
Definition retargeted_operand (from to : option nat) (o : IROperand) : IROperand :=
  if bool_decide (op_kind o = IR_OP_KIND_BASIC_BLOCK) && ptr_eqb (op_bb o) from
  then op_with_data to o else o.

(** From [s] to [s'] nothing but operand lists of the instruction [i] (and
    use lists) changed. *)
Definition only_operands_of (i : nat) (s s' : state) : Prop :=
  blocks s' = blocks s ∧ funcs s' = funcs s ∧ links s' = links s
  ∧ i_opcode <$> instrs s' = i_opcode <$> instrs s
  ∧ ∀ j, j ≠ i → instrs s' !! j = instrs s !! j.

(** ** Remapping the operands of an instruction (ir_utils.c) *)

Section Remap.

Variable union_high_word : nat → Z.

(** The body of the loop of [remap_instruction_operands]. *)
Definition remap_operand (assert_on : bool) (value_remap : ValueMap) (op : nat) (s : state)
  : outcome state :=
  o ← deref (operands s) op;
  if bool_decide (op_kind o = IR_OP_KIND_VALUE) then
    new_val ← remap_value union_high_word s (Some value_remap) (op_value o);
    change_operand_value assert_on op new_val s
  else Done s.

Definition remap_instruction_operands (assert_on : bool) (instr : option nat)
  (value_remap : option ValueMap) (s : state) : outcome state :=
  match instr, value_remap with
  | Some i, Some m =>
      ins ← deref (instrs s) i;
      (* log_config is read through instr->parent->parent when these are set *)
      _ ← match i_parent ins with
          | Some p =>
              blk ← deref (blocks s) p;
              match bb_parent blk with
              | Some f => _ ← deref (funcs s) f; Done tt
              | None => Done tt
              end
          | None => Done tt
          end;
      for_each (remap_operand assert_on m) (i_operands ins) s
  | _, _ => Done s
  end.

(** [hash_value] can read [v]. *)
Definition hashes (s : state) (v : option nat) : Prop :=
  match hash_value union_high_word s v with Done _ => True | Stop _ => False end.

#[global] Instance hashes_dec s v : Decision (hashes s v).
Proof. unfold hashes. destruct (hash_value union_high_word s v); apply _. Defined.

(** The values that the value operands of [ins] hold can be hashed. *)
Definition remappable (s : state) (ins : IRInstruction) : Prop :=
  Forall (λ op, operand_has s op (λ o, op_kind o = IR_OP_KIND_VALUE → hashes s (op_value o)))
         (i_operands ins).

#[global] Instance remappable_dec s ins : Decision (remappable s ins).
Proof. unfold remappable. apply _. Defined.

End Remap.

(** The new values of the map are values of the arena. *)
Definition vm_targets_valid (s : state) (m : ValueMap) : Prop :=
  Forall (λ e, value_valid s (e_new_val e)) (vm_entries m).

#[global] Instance value_valid_dec s p : Decision (value_valid s p).
Proof. unfold value_valid. destruct p; apply _. Defined.

#[global] Instance vm_targets_valid_dec s m : Decision (vm_targets_valid s m).
Proof. unfold vm_targets_valid. apply _. Defined.

(** What [remap_value] makes of [v]. *)
Definition remapped (m : ValueMap) (v : option nat) : option nat :=
  match v with
  | Some k => match vm_content m k with Some n => Some n | None => Some k end
  | None => None
  end.

Definition remapped_operand (m : ValueMap) (o : IROperand) : IROperand :=
  if bool_decide (op_kind o = IR_OP_KIND_VALUE) then op_with_data (remapped m (op_value o)) o
  else o.

(** The instruction's block and function, when set, are in the arena. *)
Definition home_ok (s : state) (ins : IRInstruction) : Prop :=
  match i_parent ins with
  | Some b => parent_function_ok s b
  | None => True
  end.

#[global] Instance home_ok_dec s ins : Decision (home_ok s ins).
Proof. unfold home_ok. destruct (i_parent ins); apply _. Defined.

(** The values of the arena without their use lists. *)
Definition cells (s : state) : gmap nat IRValue := v_with_use_list [] <$> values s.

(** ** Cloning an instruction (ir_utils.c) *)

Definition i_with_copied_fields (cond : option string) (align : Z) (is_inbounds : bool)
  (i : IRInstruction) : IRInstruction :=
  mkIRInstruction (i_opcode i) cond (i_dest i) (i_operands i) (i_parent i) (i_next i)
    (i_prev i) (i_phi_for_alloca i) align is_inbounds (i_in_worklist i) (i_is_live i).

(** The body of the loop of [clone_instruction]: [op->data.value] and
    [op->data.bb] are the same cell of the union. *)
Definition clone_operand (new_instr : nat) (op : nat) (s : state) : outcome state :=
  o ← deref (operands s) op;
  '(_, s1) ← add_operand new_instr (op_kind o) (op_data o) s;
  Done s1.

Definition clone_instruction (instr : option nat) (s : state) : outcome (option nat * state) :=
  match instr with
  | None => Done (None, s)
  | Some i =>
      ins ← deref (instrs s) i;
      let '(new_instr, s1) := create_ir_instruction (i_opcode ins) s in
      let s2 := upd_instr new_instr
                  (i_with_copied_fields (i_opcode_cond ins) (i_align ins) (i_is_inbounds ins))
                  s1 in
      s3 ← for_each (clone_operand new_instr) (i_operands ins) s2;
      Done (Some new_instr, upd_instr new_instr (i_with_dest None) s3)
  end.

(** [op] is in the arena and holds a NULL pointer. *)
Definition holds_null (s : state) (op : nat) : Prop :=
  operand_has s op (λ o, op_data o = None).

#[global] Instance holds_null_dec s op : Decision (holds_null s op).
Proof. unfold holds_null. apply _. Defined.

(** [f(x)]: [%y = mul %x, 8; ret %y]. *)
Definition times_eight : state :=
  mkState
    (list_to_map
       [ (50%nat, argument "x" (i32 900) [200%nat]);
         (51%nat, int_constant (i32 901) 8);
         (52%nat, register "y" (i32 902) 100 [202%nat]) ])
    (list_to_map
       [ (200%nat, value_operand 50 100); (201%nat, value_operand 51 100);
         (202%nat, value_operand 52 101) ])
    (list_to_map
       [ (100%nat, plain_instr IR_OP_MUL None (Some 52%nat) [200%nat; 201%nat]
                     (Some 10%nat) None (Some 101%nat));
         (101%nat, plain_instr IR_OP_RET None None [202%nat] (Some 10%nat) (Some 100%nat)
                     None) ])
    (list_to_map
       [ (10%nat, plain_block (Some 100%nat) (Some 101%nat) (Some 1%nat) [] [] 0) ])
    {[ 1%nat := mkIRFunction (Some "f"%string) (Some 10%nat) [10%nat] 1 2 [50%nat]
                  (Some [10%nat]) ]}
    [1%nat] 1000.

(** ** Promotable allocas (mem2reg.c) *)

(** The operand [use] belongs to a load, or is the second operand of a store:
    the address stored to. *)
Definition address_use (s : state) (use : nat) : Prop :=
  ∃ o user uins,
    operands s !! use = Some o ∧ op_user o = Some user ∧ instrs s !! user = Some uins
    ∧ (i_opcode uins = IR_OP_LOAD
       ∨ (i_opcode uins = IR_OP_STORE ∧ i_operands uins !! 1%nat = Some use)).

(** * Theorems *)

(** ** The outcome monad *)

Lemma bind_Done {A B} (m : outcome A) (k : A → outcome B) (b : B) :
  m ≫= k = Done b ↔ ∃ a, m = Done a ∧ k a = Done b.
Proof.
  destruct m as [a|f]; simpl; split.
  - intros H. exists a. auto.
  - intros (a' & Ha & Hk). injection Ha as ->. exact Hk.
  - intros H. discriminate H.
  - intros (a' & Ha & _). discriminate Ha.
Qed.

Lemma deref_Done {A} (m : gmap nat A) (p : nat) (x : A) :
  deref m p = Done x ↔ m !! p = Some x.
Proof.
  unfold deref. destruct (m !! p); split; intros H; try discriminate H.
  - injection H as ->. reflexivity.
  - injection H as ->. reflexivity.
Qed.

Lemma nonnull_Done {A} (p : option A) (x : A) : nonnull p = Done x ↔ p = Some x.
Proof.
  destruct p; simpl; split; intros H; try discriminate H; injection H as ->; reflexivity.
Qed.

(** ** SCCP: branches *)

(** C1: during the SCCP analysis of [branch_on_argument] the condition [%c] of
    the conditional branch of the (reachable) entry block gets lattice state
    Bottom, and the branch marks neither successor: when the analysis ends the
    entry block (post-order id 2) is the only executable block, and visiting the
    branch again changes nothing. *)
Theorem sccp_bottom_branch_marks_no_successor :
  ∃ ctx0 ctx,
    initialize_sccp 1 branch_on_argument = Done ctx0
    ∧ run_sccp_analysis ctx0 branch_on_argument = Done ctx
    ∧ (∃ lv, get_lattice_value ctx branch_on_argument (Some 52%nat) = Done lv
             ∧ lv_state lv = LATTICE_BOTTOM)
    ∧ is_executable ctx 2 = true
    ∧ is_executable ctx 1 = false
    ∧ is_executable ctx 0 = false
    ∧ visit_instruction ctx branch_on_argument (Some 101%nat) = Done ctx.
Proof.
  eexists. eexists.
  split; [vm_compute; reflexivity|].
  split; [vm_compute; reflexivity|].
  split; [eexists; split; vm_compute; reflexivity|].
  repeat apply conj; vm_compute; reflexivity.
Qed.

(** ** Division by the constant zero *)

Lemma visit_sdiv_zero_divisor assert_on instr op1 rhs s ins r :
  instrs s !! instr = Some ins →
  values s !! rhs = Some r →
  v_is_constant r = true → v_word r = 0 →
  visit_sdiv assert_on instr op1 (Some rhs) s = Done (None, false, s).
Proof.
  intros Hi Hr Hc Hw. unfold visit_sdiv.
  rewrite (proj2 (deref_Done _ _ _) Hi). simpl.
  rewrite (proj2 (deref_Done _ _ _) Hr). simpl.
  rewrite Hc, Hw. reflexivity.
Qed.

Lemma visit_srem_zero_divisor op1 rhs s r :
  values s !! rhs = Some r →
  v_is_constant r = true → v_word r = 0 →
  visit_srem op1 (Some rhs) s = Done (None, false, s).
Proof.
  intros Hr Hc Hw. unfold visit_srem. simpl.
  rewrite (proj2 (deref_Done _ _ _) Hr). simpl.
  rewrite Hc, Hw. reflexivity.
Qed.

(** C2: on [%r = sdiv 0, 0; ret %r] (and on the same with [srem]) SCCP
    evaluates the division by the constant zero to the lattice value
    Constant 0, and [run_sccp] replaces the use of [%r] in [ret] by a fresh
    constant 0; InstCombine's [visit_sdiv] and [visit_srem] leave the same
    instruction alone. *)
Theorem sccp_folds_division_by_constant_zero :
  (∃ ctx lv, initialize_sccp 1 sdiv_zero_zero = Done ctx
     ∧ evaluate_instruction ctx sdiv_zero_zero (Some 100%nat) = Done lv
     ∧ lv_state lv = LATTICE_CONSTANT ∧ lv_const_val lv = 0)
  ∧ (∃ s' c, run_sccp true (Some 1%nat) sdiv_zero_zero = Done (true, s')
     ∧ operand_referent sdiv_zero_zero 202 = values sdiv_zero_zero !! 52%nat
     ∧ operand_referent s' 202 = Some c
     ∧ v_is_constant c = true ∧ v_word c = 0)
  ∧ (∃ ctx lv, initialize_sccp 1 srem_zero_zero = Done ctx
     ∧ evaluate_instruction ctx srem_zero_zero (Some 100%nat) = Done lv
     ∧ lv_state lv = LATTICE_CONSTANT ∧ lv_const_val lv = 0)
  ∧ (∃ s' c, run_sccp true (Some 1%nat) srem_zero_zero = Done (true, s')
     ∧ operand_referent s' 202 = Some c
     ∧ v_is_constant c = true ∧ v_word c = 0)
  ∧ visit_sdiv true 100 (Some 51%nat) (Some 51%nat) sdiv_zero_zero
    = Done (None, false, sdiv_zero_zero)
  ∧ visit_srem (Some 51%nat) (Some 51%nat) srem_zero_zero
    = Done (None, false, srem_zero_zero).
Proof.
  split; [do 2 eexists; repeat apply conj; vm_compute; reflexivity|].
  split; [do 2 eexists; repeat apply conj; vm_compute; reflexivity|].
  split; [do 2 eexists; repeat apply conj; vm_compute; reflexivity|].
  split; [do 2 eexists; repeat apply conj; vm_compute; reflexivity|].
  split.
  - apply visit_sdiv_zero_divisor with (ins := plain_instr IR_OP_SDIV None (Some 52%nat)
      [200%nat; 201%nat] (Some 10%nat) None (Some 101%nat)) (r := int_constant (i32 901) 0);
      vm_compute; reflexivity.
  - apply visit_srem_zero_divisor with (r := int_constant (i32 901) 0); vm_compute; reflexivity.
Qed.

(** ** Mem2Reg *)

(** C4: on [%p = alloca i32; store 42, %p; %x = load %p; ret %x] the alloca is
    promotable; with assertions compiled in [run_mem2reg] stops at the
    assertion of [erase_instruction]; without them it returns, and the former
    store (101) and load (102) are still linked in the entry block, their
    operands still refer to [%p], and they are still in the use list of [%p]. *)
Theorem mem2reg_leaves_loads_and_stores :
  is_alloca_promotable one_slot 100 = Done true
  ∧ opcode_of one_slot 101 = Some IR_OP_STORE
  ∧ opcode_of one_slot 102 = Some IR_OP_LOAD
  ∧ run_mem2reg true (Some 1%nat) one_slot = Stop assertion_failed
  ∧ ∃ s', run_mem2reg false (Some 1%nat) one_slot = Done (true, s')
      ∧ block_chain s' 10 = Done [101%nat; 102%nat; 103%nat]
      ∧ operand_referent s' 201 = values s' !! 50%nat
      ∧ operand_referent s' 202 = values s' !! 50%nat
      ∧ use_list_of s' 50 = Some [202%nat; 201%nat]
      ∧ opcode_of s' 101 = Some IR_OP_UNKNOWN
      ∧ opcode_of s' 102 = Some IR_OP_UNKNOWN.
Proof.
  split; [vm_compute; reflexivity|].
  split; [vm_compute; reflexivity|].
  split; [vm_compute; reflexivity|].
  split; [vm_compute; reflexivity|].
  eexists. split; [vm_compute; reflexivity|].
  repeat apply conj; vm_compute; reflexivity.
Qed.

(** ** The inliner's size gate *)

Lemma should_inline_function_size call_stack callee s fn n :
  funcs s !! callee = Some fn →
  fn_entry fn ≠ None →
  existsb (Nat.eqb callee) call_stack = false →
  count_instructions s callee = Done n →
  should_inline_function call_stack (Some callee) s = Done (n <=? 80).
Proof.
  intros Hf He Hs Hn. unfold should_inline_function.
  rewrite (proj2 (deref_Done _ _ _) Hf). simpl.
  destruct (fn_entry fn) as [e|]; [|contradiction]. simpl.
  rewrite Hs, Hn. reflexivity.
Qed.

(** C7: a callee with a body of exactly 80 instructions that is not on the
    call stack passes [should_inline_function]: the test is
    [count <= INLINE_THRESHOLD], not [count < INLINE_THRESHOLD]. *)
Theorem inliner_accepts_eighty_instructions :
  count_instructions (callee_of_size 80) 1 = Done 80
  ∧ should_inline_function [] (Some 1%nat) (callee_of_size 80) = Done true
  ∧ should_inline_function [] (Some 1%nat) (callee_of_size 81) = Done false.
Proof. repeat apply conj; vm_compute; reflexivity. Qed.

(** ** InstCombine: [fdiv x, x] *)

Lemma visit_fdiv_same_operand assert_on instr x s xv :
  values s !! x = Some xv →
  v_is_constant xv = false →
  visit_fdiv assert_on instr (Some x) (Some x) s
  = Done (Some (fst (create_const_float f32_one s)), false, snd (create_const_float f32_one s)).
Proof.
  intros Hx Hc. unfold visit_fdiv. simpl.
  rewrite (proj2 (deref_Done _ _ _) Hx). simpl.
  rewrite Hc. simpl. rewrite Nat.eqb_refl. reflexivity.
Qed.

(** C8: on [%r = fdiv %a, %a; ret %r] with [%a] a function argument, about
    which nothing is known, [visit_fdiv] answers the fresh constant 1.0 and
    [run_inst_combine] replaces [%r] by it in [ret]; when [%a] is 0.0 at run
    time the quotient is a NaN, not 1.0. *)
Theorem fdiv_of_unknown_value_by_itself_becomes_one :
  (∃ av, values fdiv_self !! 50%nat = Some av
         ∧ v_is_constant av = false ∧ v_def_instr av = None)
  ∧ (∃ c s1 cv, visit_fdiv true 100 (Some 50%nat) (Some 50%nat) fdiv_self
                = Done (Some c, false, s1)
       ∧ values s1 !! c = Some cv ∧ v_is_constant cv = true ∧ v_word cv = f32_one)
  ∧ (∃ s' cv, run_inst_combine true 100 (Some 1%nat) fdiv_self = Done (true, s')
       ∧ operand_referent fdiv_self 202 = values fdiv_self !! 52%nat
       ∧ operand_referent s' 202 = Some cv
       ∧ v_is_constant cv = true ∧ v_word cv = f32_one
       ∧ block_chain s' 10 = Done [101%nat])
  ∧ f32_div f32_zero f32_zero ≠ f32_one.
Proof.
  split; [eexists; repeat apply conj; vm_compute; reflexivity|].
  split; [do 3 eexists; repeat apply conj; vm_compute; reflexivity|].
  split; [do 2 eexists; repeat apply conj; vm_compute; reflexivity|].
  vm_compute. discriminate.
Qed.

(** ** Pass entry points *)

(** C10: on a NULL function, or on a function without entry block, [run_sccp],
    [run_adce], [run_inst_combine] and [run_mem2reg] return [false] and the
    state they were given. *)
Theorem pass_entry_points_skip_bodiless_functions assert_on fuel func s :
  no_body s func →
  run_sccp assert_on func s = Done (false, s)
  ∧ run_adce assert_on func s = Done (false, s)
  ∧ run_inst_combine assert_on fuel func s = Done (false, s)
  ∧ run_mem2reg assert_on func s = Done (false, s).
Proof.
  destruct func as [f|]; simpl.
  - intros (fn & Hf & He).
    unfold run_sccp, run_adce, run_inst_combine, run_mem2reg.
    rewrite (proj2 (deref_Done _ _ _) Hf). simpl. rewrite He. simpl. auto.
  - intros _. auto.
Qed.

Lemma pass_entry_points_skip_bodiless_functions_witness :
  no_body declaration_only (Some 1%nat)
  ∧ run_sccp true (Some 1%nat) declaration_only = Done (false, declaration_only)
  ∧ run_adce true (Some 1%nat) declaration_only = Done (false, declaration_only)
  ∧ run_inst_combine true 10 (Some 1%nat) declaration_only = Done (false, declaration_only)
  ∧ run_mem2reg true (Some 1%nat) declaration_only = Done (false, declaration_only).
Proof.
  assert (H : no_body declaration_only (Some 1%nat)).
  { simpl. eexists. split; [vm_compute; reflexivity | reflexivity]. }
  split; [exact H|].
  exact (pass_entry_points_skip_bodiless_functions true 10 (Some 1%nat) declaration_only H).
Defined.

(** ** Dominators *)

Lemma cfg_path_ends_in_target s entry p b : cfg_path s entry p b → b ∈ p.
Proof.
  intros H. destruct H.
  - apply list_elem_of_here.
  - apply elem_of_app. right. apply list_elem_of_here.
Qed.

Lemma chain_cfg_blocks b blk :
  blocks chain_cfg_analysed !! b = Some blk → b = 10%nat ∨ b = 11%nat ∨ b = 12%nat.
Proof.
  intros H.
  assert (Hd : b ∈ dom (blocks chain_cfg_analysed)) by (apply elem_of_dom; eauto).
  assert (Hdom : dom (blocks chain_cfg_analysed) = {[10%nat; 11%nat; 12%nat]})
    by (vm_compute; reflexivity).
  rewrite Hdom in Hd. rewrite !elem_of_union, !elem_of_singleton in Hd. tauto.
Qed.

Lemma chain_cfg_edge_into_b a : cfg_edge chain_cfg_analysed a 12 → a = 11%nat.
Proof.
  intros (blk & Hl & Hin).
  destruct (chain_cfg_blocks _ _ Hl) as [-> | [-> | ->]];
    vm_compute in Hl; injection Hl as <-; simpl in Hin.
  - apply list_elem_of_singleton in Hin. discriminate Hin.
  - reflexivity.
  - apply elem_of_nil in Hin. contradiction.
Qed.

(** C5: on the three blocks [entry(10) -> a(11) -> b(12)] every path from the
    entry to [b] passes through [a], yet after [compute_dominators] the
    timestamp test fails for [(a, b)] and [dominates(a, b)] answers [false]:
    [compute_immediate_dominators] gave [b] the entry as immediate dominator,
    the strict dominator with the highest post-order id. *)
Theorem timestamps_miss_a_dominator :
  compute_dominators true (Some 1%nat) chain_cfg = Done chain_cfg_analysed
  ∧ cfg_path chain_cfg_analysed 10 [10%nat; 11%nat; 12%nat] 12
  ∧ path_dominates chain_cfg_analysed 10 11 12
  ∧ (bb_idom <$> blocks chain_cfg_analysed !! 12%nat) = Some (Some 10%nat)
  ∧ ¬ timestamp_test chain_cfg_analysed 11 12
  ∧ dominates chain_cfg_analysed (Some 11%nat) (Some 12%nat) = Done false.
Proof.
  split; [vm_compute; reflexivity|].
  split.
  { apply (path_step _ _ [10%nat; 11%nat] 11 12).
    - apply (path_step _ _ [10%nat] 10 11).
      + apply path_entry.
      + eexists. split; [vm_compute; reflexivity|]. apply list_elem_of_here.
    - eexists. split; [vm_compute; reflexivity|]. apply list_elem_of_here. }
  split.
  { intros p Hp. inversion Hp as [ | p' a b' Hp' He]; subst.
    apply chain_cfg_edge_into_b in He. subst a.
    apply elem_of_app. left. eapply cfg_path_ends_in_target. exact Hp'. }
  split; [vm_compute; reflexivity|].
  split.
  { intros (ba & bb & Ha & Hb & Hin & Hout).
    vm_compute in Ha. vm_compute in Hb.
    injection Ha as <-. injection Hb as <-. simpl in Hin, Hout. lia. }
  vm_compute. reflexivity.
Qed.

(** ** Use-def maintenance *)

Section remove_first.
Implicit Types (x y : nat) (l : list nat).

Lemma remove_first_head x l : remove_first x (x :: l) = l.
Proof. simpl. rewrite Nat.eqb_refl. reflexivity. Qed.

Lemma elem_of_remove_first y x l : y ∈ remove_first x l → y ∈ l.
Proof.
  induction l as [|z l IH]; simpl; [auto|].
  destruct (Nat.eqb x z); intros H.
  - apply elem_of_cons. right. exact H.
  - apply elem_of_cons in H as [->|H]; apply elem_of_cons; auto.
Qed.

Lemma elem_of_remove_first_ne y x l : y ≠ x → y ∈ l → y ∈ remove_first x l.
Proof.
  intros Hne. induction l as [|z l IH]; simpl; [auto|].
  intros H. apply elem_of_cons in H as [->|H].
  - destruct (Nat.eqb_spec x z) as [->|_]; [contradiction|]. apply list_elem_of_here.
  - destruct (Nat.eqb x z); [exact H|]. apply list_elem_of_further. auto.
Qed.

Lemma NoDup_remove_first x l : NoDup l → NoDup (remove_first x l).
Proof.
  induction 1 as [|z l Hz Hl IH]; simpl; [constructor|].
  destruct (Nat.eqb x z); [exact Hl|].
  constructor; [|exact IH]. intros H. apply Hz. eapply elem_of_remove_first, H.
Qed.

Lemma not_elem_of_remove_first x l : NoDup l → x ∉ remove_first x l.
Proof.
  induction 1 as [|z l Hz Hl IH]; simpl; [apply not_elem_of_nil|].
  destruct (Nat.eqb_spec x z) as [->|Hne]; [exact Hz|].
  apply not_elem_of_cons. auto.
Qed.

Lemma Forall_remove_first (P : nat → Prop) x l : Forall P l → Forall P (remove_first x l).
Proof.
  intros H. apply Forall_forall. intros y Hy.
  eapply Forall_forall in H; [exact H|]. eapply elem_of_remove_first, Hy.
Qed.

Lemma remove_first_absent x l : x ∉ l → remove_first x l = l.
Proof.
  induction l as [|z l IH]; simpl; [auto|].
  intros H. apply not_elem_of_cons in H as [Hne Hl].
  destruct (Nat.eqb_spec x z) as [->|_]; [contradiction|]. f_equal. auto.
Qed.
End remove_first.

Lemma is_register_with_use_list l val :
  is_register (v_with_use_list l val) = is_register val.
Proof. reflexivity. Qed.

Lemma operand_has_iff s op P :
  operand_has s op P ↔ ∃ o, operands s !! op = Some o ∧ P o.
Proof.
  unfold operand_has. destruct (operands s !! op) as [o|]; split.
  - intros H. exists o. auto.
  - intros (o' & Ho & H). injection Ho as ->. exact H.
  - intros [].
  - intros (o' & Ho & _). discriminate Ho.
Qed.

Lemma operand_has_ext s s' op P :
  operands s' !! op = operands s !! op → operand_has s op P → operand_has s' op P.
Proof. unfold operand_has. intros ->. auto. Qed.

Lemma operand_has_impl s op (P Q : IROperand → Prop) :
  (∀ o, operands s !! op = Some o → P o → Q o) → operand_has s op P → operand_has s op Q.
Proof. unfold operand_has. destruct (operands s !! op); [|auto]. intros H. apply H. reflexivity. Qed.

(** *** [remove_operand_from_use_list] and [remove_operand] *)

Lemma remove_operand_from_use_list_spec op s s' :
  remove_operand_from_use_list op s = Done s' → unlinked_from_referent op s s'.
Proof.
  unfold remove_operand_from_use_list, unlinked_from_referent, deref.
  destruct (operands s !! op) as [o|] eqn:Ho; simpl; [|discriminate].
  intros H. exists o. split; [reflexivity|].
  destruct (op_kind o); [|injection H as <-; reflexivity].
  destruct (op_value o) as [v|]; [|injection H as <-; reflexivity].
  destruct (values s !! v) as [val|] eqn:Hv; simpl in H; [|discriminate].
  exists val. split; [reflexivity|]. unfold is_register.
  destruct (v_is_constant val); simpl in *; [injection H as <-; reflexivity|].
  destruct (v_def_instr val); simpl in *; injection H as <-; reflexivity.
Qed.

(** Taking entries out of use lists keeps the lists well formed. *)
Lemma use_lists_ok_shrink s v val l' :
  map_Forall (use_list_ok s) (values s) →
  values s !! v = Some val →
  (∀ x, x ∈ l' → x ∈ v_use_list val) →
  (NoDup (v_use_list val) → NoDup l') →
  let s' := upd_value v (v_with_use_list l') s in
  map_Forall (use_list_ok s') (values s').
Proof.
  intros Hwf Hv Hsub Hnd s' w wal Hw. subst s'. simpl in Hw.
  destruct (decide (v = w)) as [<-|Hne].
  - rewrite lookup_alter_eq, Hv in Hw. injection Hw as <-.
    destruct (Hwf v val Hv) as [Hall Hdup]. split; simpl.
    + apply Forall_forall. intros x Hx. apply Hsub in Hx.
      eapply Forall_forall in Hall; [|exact Hx]. exact Hall.
    + intros Hr. apply Hnd, Hdup, Hr.
  - rewrite lookup_alter_ne in Hw by exact Hne. exact (Hwf w wal Hw).
Qed.

Lemma v_with_use_list_same val : v_with_use_list (v_use_list val) val = val.
Proof. destruct val. reflexivity. Qed.

(** In a well-formed arena an operand is in the use list of a register only
    when it refers to it. *)
Lemma use_list_entry_refers s w wal x :
  ud_wf s → values s !! w = Some wal → is_register wal = true →
  x ∈ v_use_list wal → refers_to s x w.
Proof.
  intros (_ & Hu & _ & _) Hw Hr Hx.
  destruct (Hu w wal Hw) as [Hall _].
  eapply Forall_forall in Hall; [|exact Hx].
  eapply operand_has_impl; [|exact Hall]. simpl. intros o _ [Hk Hv]. auto.
Qed.

Lemma refers_to_unique s x v w : refers_to s x v → refers_to s x w → v = w.
Proof.
  unfold refers_to, operand_has. destruct (operands s !! x); [|intros []].
  intros [_ H1] [_ H2]. congruence.
Qed.

Lemma unlinked_shrinks op s s1 :
  ud_wf s → unlinked_from_referent op s s1 → use_lists_shrunk op s s1.
Proof.
  intros Hwf (o & Ho & H).
  assert (Hsame : ∀ w wal, values s !! w = Some wal → is_register wal = true →
                           ¬ refers_to s op w → op ∉ v_use_list wal).
  { intros w wal Hw Hr Hn Hin. apply Hn. eapply use_list_entry_refers; eauto. }
  assert (Hid : (op_kind o = IR_OP_KIND_VALUE → ∀ v val, op_value o = Some v →
                   values s !! v = Some val → is_register val = false) →
                use_lists_shrunk op s s).
  { intros Hnr. repeat (split; [reflexivity|]). intros w.
    destruct (values s !! w) as [wal|] eqn:Hw; [|exact I].
    split; [symmetry; apply v_with_use_list_same|].
    split; [auto|]. split; [auto|]. split; [auto|].
    intros Hr. apply (Hsame w wal Hw Hr). unfold refers_to, operand_has. rewrite Ho.
    intros [Hk Hv]. specialize (Hnr Hk w wal Hv Hw). congruence. }
  destruct (op_kind o) eqn:Hk.
  2:{ subst s1. apply Hid. discriminate. }
  destruct (op_value o) as [v|] eqn:Hv.
  2:{ subst s1. apply Hid. discriminate. }
  destruct H as (val & Hval & ->).
  destruct (is_register val) eqn:Hreg.
  2:{ apply Hid. intros _ v' val' [= <-] Hval'. congruence. }
  repeat (split; [reflexivity|]). intros w. simpl.
  destruct (decide (v = w)) as [<-|Hne].
  - rewrite lookup_alter_eq, Hval. simpl.
    destruct Hwf as (_ & Hu & _ & _). destruct (Hu v val Hval) as [_ Hnd].
    split; [reflexivity|].
    split; [intros x; apply elem_of_remove_first|].
    split; [intros x Hx; apply elem_of_remove_first_ne; exact Hx|].
    split; [apply NoDup_remove_first|].
    intros _. apply not_elem_of_remove_first. auto.
  - rewrite lookup_alter_ne by exact Hne.
    destruct (values s !! w) as [wal|] eqn:Hw; [|exact I].
    split; [symmetry; apply v_with_use_list_same|].
    split; [auto|]. split; [auto|]. split; [auto|].
    intros Hr. apply (Hsame w wal Hw Hr). unfold refers_to, operand_has. rewrite Ho.
    intros [_ Hv']. congruence.
Qed.

Lemma shrunk_values s s1 op w wal1 :
  use_lists_shrunk op s s1 → values s1 !! w = Some wal1 →
  ∃ wal, values s !! w = Some wal
    ∧ is_register wal1 = is_register wal
    ∧ (∀ x, x ∈ v_use_list wal1 → x ∈ v_use_list wal)
    ∧ (NoDup (v_use_list wal) → NoDup (v_use_list wal1))
    ∧ (is_register wal = true → op ∉ v_use_list wal1).
Proof.
  intros (_ & _ & _ & _ & _ & H) Hw. specialize (H w). rewrite Hw in H.
  destruct (values s !! w) as [wal|]; [|contradiction].
  destruct H as (Heq & Hsub & _ & Hnd & Hout).
  exists wal. split; [reflexivity|]. split; [rewrite Heq; reflexivity|]. auto.
Qed.

Lemma shrunk_values_rev s s1 op w wal :
  use_lists_shrunk op s s1 → values s !! w = Some wal →
  ∃ wal1, values s1 !! w = Some wal1
    ∧ is_register wal1 = is_register wal
    ∧ (∀ x, x ≠ op → x ∈ v_use_list wal → x ∈ v_use_list wal1).
Proof.
  intros (_ & _ & _ & _ & _ & H) Hw. specialize (H w). rewrite Hw in H.
  destruct (values s1 !! w) as [wal1|]; [|contradiction].
  destruct H as (Heq & _ & Hkeep & _).
  exists wal1. split; [reflexivity|]. split; [rewrite Heq; reflexivity|]. auto.
Qed.

Lemma shrunk_use_lists_ok op s s1 :
  ud_wf s → use_lists_shrunk op s s1 → map_Forall (use_list_ok s1) (values s1).
Proof.
  intros (_ & Hu & _ & _) Hs w wal1 Hw.
  destruct (shrunk_values _ _ _ _ _ Hs Hw) as (wal & Hwal & Hreg & Hsub & Hnd & _).
  destruct (Hu w wal Hwal) as [Hall Hdup].
  destruct Hs as (Hops & _). split.
  - apply Forall_forall. intros x Hx. apply Hsub in Hx.
    eapply Forall_forall in Hall; [|exact Hx].
    unfold operand_has in *. rewrite Hops, Hreg. exact Hall.
  - rewrite Hreg. auto.
Qed.

(** An attached operand keeps its place in the use list of its referent when
    another operand is unlinked. *)
Lemma shrunk_in_use_list op s s1 x o :
  use_lists_shrunk op s s1 → x ≠ op →
  in_use_list_of_referent s x o → in_use_list_of_referent s1 x o.
Proof.
  intros Hs Hne H Hk. specialize (H Hk).
  destruct (op_value o) as [w|]; [|exact I].
  destruct (values s !! w) as [wal|] eqn:Hw; [|contradiction].
  destruct (shrunk_values_rev _ _ _ _ _ Hs Hw) as (wal1 & -> & Hreg & Hkeep).
  rewrite Hreg. intros Hr. apply Hkeep; auto.
Qed.

Lemma remove_operand_spec op s s' :
  remove_operand op s = Done s' →
  ∃ o i ins s1,
    operands s !! op = Some o ∧ op_user o = Some i
    ∧ unlinked_from_referent op s s1
    ∧ instrs s1 !! i = Some ins
    ∧ s' = upd_instr i (i_with_operands (remove_first op (i_operands ins))) s1.
Proof.
  unfold remove_operand. intros H.
  apply bind_Done in H as (o & Ho & H). apply deref_Done in Ho.
  apply bind_Done in H as (s1 & Hs1 & H). apply remove_operand_from_use_list_spec in Hs1.
  apply bind_Done in H as (i & Hi & H). apply nonnull_Done in Hi.
  apply bind_Done in H as (ins & Hins & H). apply deref_Done in Hins.
  injection H as <-. exists o, i, ins, s1. auto.
Qed.

Lemma remove_operand_wf op s s' :
  ud_wf s → remove_operand op s = Done s' → ud_wf s'.
Proof.
  intros Hwf H.
  apply remove_operand_spec in H as (o & i & ins & s1 & Ho & Hu & Hun & Hins & ->).
  pose proof (unlinked_shrinks _ _ _ Hwf Hun) as Hs.
  pose proof (shrunk_use_lists_ok _ _ _ Hwf Hs) as Huses.
  destruct Hwf as (Hfresh & _ & Hlists & Husers).
  pose proof Hs as (Hops & Hinstrs & Hrest).
  rewrite Hinstrs in Hins.
  split; [|split; [|split]].
  - simpl. rewrite Hops. destruct Hrest as (_ & _ & -> & _). exact Hfresh.
  - intros w wal Hw. simpl in Hw. destruct (Huses w wal Hw) as [Hall Hnd].
    split; [|exact Hnd]. exact Hall.
  - intros j jns Hj. simpl in Hj. rewrite Hinstrs in Hj.
    destruct (decide (i = j)) as [<-|Hne].
    + rewrite lookup_alter_eq, Hins in Hj. injection Hj as <-. simpl.
      destruct (Hlists i ins Hins) as [Hnd Hall]. split; [apply NoDup_remove_first, Hnd|].
      apply Forall_forall. intros x Hx.
      assert (Hxne : x ≠ op).
      { intros ->. revert Hx. apply not_elem_of_remove_first, Hnd. }
      apply elem_of_remove_first in Hx.
      eapply Forall_forall in Hall; [|exact Hx].
      unfold operand_has in *. simpl. rewrite Hops.
      destruct (operands s !! x) as [ox|]; [|contradiction].
      destruct Hall as [Hux Hin]. split; [exact Hux|].
      exact (shrunk_in_use_list op s s1 x ox Hs Hxne Hin).
    + rewrite lookup_alter_ne in Hj by exact Hne.
      destruct (Hlists j jns Hj) as [Hnd Hall]. split; [exact Hnd|].
      apply Forall_forall. intros x Hx.
      eapply Forall_forall in Hall; [|exact Hx].
      unfold operand_has in *. simpl. rewrite Hops.
      destruct (operands s !! x) as [ox|] eqn:Hox; [|contradiction].
      destruct Hall as [Hux Hin]. split; [exact Hux|].
      assert (Hxne : x ≠ op).
      { intros ->. rewrite Ho in Hox. injection Hox as <-. congruence. }
      exact (shrunk_in_use_list op s s1 x ox Hs Hxne Hin).
  - intros x ox Hx. simpl in Hx. rewrite Hops in Hx.
    specialize (Husers x ox Hx). unfold user_ok in *. simpl. rewrite Hinstrs.
    destruct (op_user ox) as [u|]; [|exact I].
    destruct (decide (i = u)) as [<-|Hne].
    + rewrite lookup_alter_eq, Hins. eauto.
    + rewrite lookup_alter_ne by exact Hne. exact Husers.
Qed.

(** *** [change_operand_value] *)

Lemma change_operand_value_spec assert_on op new_val s s' :
  change_operand_value assert_on op new_val s = Done s' →
  ∃ o, operands s !! op = Some o
    ∧ (assert_on = true → op_kind o = IR_OP_KIND_VALUE)
    ∧ ((op_value o = new_val ∧ s' = s)
       ∨ (op_value o ≠ new_val
          ∧ ∃ s1, unlinked_from_referent op s s1
              ∧ match new_val with
                | None => s' = upd_operand op (op_with_data None) s1
                | Some nv =>
                    ∃ val, values s1 !! nv = Some val
                      ∧ s' = (if is_register val
                              then upd_value nv (v_with_use_list (op :: v_use_list val))
                                     (upd_operand op (op_with_data new_val) s1)
                              else upd_operand op (op_with_data new_val) s1)
                end)).
Proof.
  unfold change_operand_value. intros H.
  apply bind_Done in H as (o & Ho & H). apply deref_Done in Ho.
  apply bind_Done in H as ([] & Ha & H).
  exists o. split; [exact Ho|]. split.
  { intros ->. unfold c_assert in Ha. simpl in Ha.
    destruct (bool_decide_reflect (op_kind o = IR_OP_KIND_VALUE)); [assumption|discriminate]. }
  unfold ptr_eqb in H.
  destruct (bool_decide_reflect (op_value o = new_val)) as [Heq|Hne].
  { left. injection H as <-. auto. }
  right. split; [exact Hne|].
  apply bind_Done in H as (s1 & Hs1 & H). apply remove_operand_from_use_list_spec in Hs1.
  exists s1. split; [exact Hs1|].
  destruct new_val as [nv|]; [|injection H as <-; reflexivity].
  apply bind_Done in H as (val & Hval & H). apply deref_Done in Hval. simpl in Hval.
  exists val. split; [exact Hval|]. unfold is_register.
  destruct (negb (v_is_constant val) && negb (is_null (v_def_instr val)));
    injection H as <-; reflexivity.
Qed.

(** The state after [change_operand_value] has unlinked [op] (giving [s1]),
    stored [new_val] in it and, when [link] holds, pushed it on the use list
    of [nv]. *)
Lemma retarget_wf s s1 op o new_val (link : bool) nv val :
  ud_wf s →
  operands s !! op = Some o → op_kind o = IR_OP_KIND_VALUE →
  use_lists_shrunk op s s1 →
  (link = true → new_val = Some nv ∧ values s1 !! nv = Some val ∧ is_register val = true
                 ∧ op ∉ v_use_list val) →
  (link = false → ∀ w, new_val = Some w →
                   ∃ wal, values s1 !! w = Some wal ∧ is_register wal = false) →
  let s2 := upd_operand op (op_with_data new_val) s1 in
  ud_wf (if link then upd_value nv (v_with_use_list (op :: v_use_list val)) s2 else s2).
Proof.
  intros Hwf Ho Hk Hs Hlink Hnolink s2.
  pose proof (shrunk_use_lists_ok _ _ _ Hwf Hs) as Huses1.
  pose proof Hs as (Hops & Hinstrs & _ & _ & Hnext & _).
  pose proof Hwf as (Hfresh & _ & Hlists & Husers).
  set (F := if link then _ else _).
  assert (HopsF : operands F = alter (op_with_data new_val) op (operands s)).
  { subst F s2. destruct link; simpl; rewrite Hops; reflexivity. }
  assert (HinsF : instrs F = instrs s).
  { subst F s2. destruct link; simpl; rewrite Hinstrs; reflexivity. }
  assert (HnextF : next_addr F = next_addr s).
  { subst F s2. destruct link; simpl; rewrite Hnext; reflexivity. }
  (* the use lists of F against those of s1 *)
  assert (HV : ∀ w, match values s1 !! w, values F !! w with
                    | Some wal1, Some walF =>
                        is_register walF = is_register wal1
                        ∧ ((v_use_list walF = v_use_list wal1 ∧ (link = true → w ≠ nv))
                           ∨ (link = true ∧ w = nv
                              ∧ v_use_list walF = op :: v_use_list wal1))
                    | None, None => True
                    | _, _ => False
                    end).
  { intros w. subst F s2. destruct link; simpl.
    - destruct (Hlink eq_refl) as (_ & Hnv & _).
      destruct (decide (nv = w)) as [<-|Hne].
      + rewrite lookup_alter_eq, Hnv. simpl. split; [reflexivity|]. right. auto.
      + rewrite lookup_alter_ne by exact Hne.
        destruct (values s1 !! w); [|exact I]. split; [reflexivity|]. left.
        split; [reflexivity|]. intros _ ->. contradiction.
    - destruct (values s1 !! w); [|exact I]. split; [reflexivity|]. left.
      split; [reflexivity|]. discriminate. }
  (* the operand records of F *)
  assert (HO : ∀ x ox, operands s !! x = Some ox →
               operands F !! x = Some (if decide (op = x) then op_with_data new_val ox else ox)).
  { intros x ox Hx. rewrite HopsF. destruct (decide (op = x)) as [<-|Hne].
    - rewrite lookup_alter_eq, Hx. reflexivity.
    - rewrite lookup_alter_ne by exact Hne. exact Hx. }
  split; [|split; [|split]].
  - intros x ox Hx. rewrite HopsF in Hx. rewrite HnextF.
    apply lookup_alter_Some in Hx as [(_ & y & Hy & _)|[_ Hy]]; exact (Hfresh _ _ Hy).
  - intros w walF HwF. specialize (HV w). rewrite HwF in HV.
    destruct (values s1 !! w) as [wal1|] eqn:Hw1; [|contradiction].
    destruct HV as [Hreg Hlist].
    destruct (Huses1 w wal1 Hw1) as [Hall Hnd].
    destruct (shrunk_values _ _ _ _ _ Hs Hw1) as (wal & Hw & Hreg1 & _ & _ & Hout).
    assert (Hold : Forall (λ x, operand_has F x
                     (λ o0, op_kind o0 = IR_OP_KIND_VALUE
                            ∧ (is_register walF = true → op_value o0 = Some w)))
                   (v_use_list wal1)).
    { apply Forall_forall. intros x Hx.
      eapply Forall_forall in Hall; [|exact Hx].
      unfold operand_has in Hall |- *. rewrite Hops in Hall.
      destruct (operands s !! x) as [ox|] eqn:Hox; [|contradiction].
      rewrite (HO x ox Hox). destruct Hall as [Hkx Hvx].
      destruct (decide (op = x)) as [<-|Hne].
      - simpl. split; [exact Hkx|]. rewrite Hreg, Hreg1. intros Hr.
        exfalso. exact (Hout Hr Hx).
      - split; [exact Hkx|]. rewrite Hreg. exact Hvx. }
    destruct Hlist as [[Hl _]|(-> & -> & Hl)].
    + split; [rewrite Hl; exact Hold|]. rewrite Hl, Hreg. exact Hnd.
    + destruct (Hlink eq_refl) as (-> & Hnv & Hr & Hnotin).
      rewrite Hw1 in Hnv. injection Hnv as <-.
      split; rewrite Hl.
      * constructor; [|exact Hold].
        unfold operand_has. rewrite (HO op o Ho).
        destruct (decide (op = op)); [|contradiction]. simpl. auto.
      * intros _. apply NoDup_cons. split; [exact Hnotin|]. apply Hnd. exact Hr.
  - intros j jns Hj. rewrite HinsF in Hj.
    destruct (Hlists j jns Hj) as [Hnd Hall]. split; [exact Hnd|].
    apply Forall_forall. intros x Hx.
    eapply Forall_forall in Hall; [|exact Hx].
    unfold operand_has in Hall |- *.
    destruct (operands s !! x) as [ox|] eqn:Hox; [|contradiction].
    rewrite (HO x ox Hox). destruct Hall as [Hux Hin].
    destruct (decide (op = x)) as [<-|Hne].
    + simpl. split; [exact Hux|]. intros _. simpl. unfold op_value. simpl.
      destruct new_val as [w|]; [|exact I].
      specialize (HV w).
      destruct link.
      * destruct (Hlink eq_refl) as ([= ->] & Hnv & Hr & Hnotin).
        rewrite Hnv in HV. destruct (values F !! nv) as [walF|]; [|contradiction].
        destruct HV as [_ [[_ Hc]|(_ & _ & ->)]]; [exfalso; exact (Hc eq_refl eq_refl)|].
        intros _. apply list_elem_of_here.
      * destruct (Hnolink eq_refl w eq_refl) as (wal1 & Hw1 & Hnr).
        rewrite Hw1 in HV. destruct (values F !! w) as [walF|]; [|contradiction].
        destruct HV as [Hreg _]. rewrite Hreg, Hnr. discriminate.
    + split; [exact Hux|].
      assert (Hin1 : in_use_list_of_referent s1 x ox)
        by (apply (shrunk_in_use_list op s s1 x ox Hs); auto).
      intros Hkx. specialize (Hin1 Hkx).
      destruct (op_value ox) as [w|]; [|exact I].
      specialize (HV w).
      destruct (values s1 !! w) as [wal1|]; [|contradiction].
      destruct (values F !! w) as [walF|]; [|contradiction].
      destruct HV as [Hreg [[-> _]|(_ & _ & ->)]]; rewrite Hreg; intros Hr.
      * auto.
      * apply list_elem_of_further. auto.
  - intros x ox Hx. rewrite HopsF in Hx. unfold user_ok. rewrite HinsF.
    apply lookup_alter_Some in Hx as [(_ & y & Hy & ->)|[_ Hy]].
    + exact (Husers _ _ Hy).
    + exact (Husers _ _ Hy).
Qed.

Lemma change_operand_value_wf assert_on op new_val s s' :
  ud_wf s →
  operand_has s op (λ o, op_kind o = IR_OP_KIND_VALUE) →
  change_operand_value assert_on op new_val s = Done s' → ud_wf s'.
Proof.
  intros Hwf Hkind H.
  apply change_operand_value_spec in H as (o & Ho & _ & [[_ ->]|(Hne & s1 & Hun & H)]);
    [exact Hwf|].
  unfold operand_has in Hkind. rewrite Ho in Hkind.
  pose proof (unlinked_shrinks _ _ _ Hwf Hun) as Hs.
  destruct new_val as [nv|].
  - destruct H as (val & Hval & ->).
    destruct (is_register val) eqn:Hreg.
    + apply (retarget_wf s s1 op o (Some nv) true nv val Hwf Ho Hkind Hs).
      * intros _. split; [reflexivity|]. split; [exact Hval|]. split; [exact Hreg|].
        destruct (shrunk_values _ _ _ _ _ Hs Hval) as (wal & _ & Hr & _ & _ & Hout).
        apply Hout. congruence.
      * discriminate.
    + apply (retarget_wf s s1 op o (Some nv) false nv val Hwf Ho Hkind Hs).
      * discriminate.
      * intros _ w [= <-]. eauto.
  - subst s'.
    apply (retarget_wf s s1 op o None false 0%nat
             (mkIRValue false false 0 None None None None []) Hwf Ho Hkind Hs).
    + discriminate.
    + intros _ w Hw. discriminate Hw.
Qed.

(** *** [add_operand] *)

Lemma add_operand_spec instr kind d s r s' :
  add_operand instr kind (Some d) s = Done (r, s') →
  ∃ ins, instrs s !! instr = Some ins
    ∧ r = Some (next_addr s)
    ∧ let op := next_addr s in
      let s2 := upd_instr instr (i_with_operands (i_operands ins ++ [op]))
                  (set_operands (insert op (mkIROperand kind (Some d) (Some instr)))
                     (snd (pool_alloc s))) in
      match kind with
      | IR_OP_KIND_VALUE =>
          ∃ val, values s !! d = Some val
            ∧ s' = (if v_is_constant val then s2
                    else upd_value d (v_with_use_list (op :: v_use_list val)) s2)
      | IR_OP_KIND_BASIC_BLOCK => s' = s2
      end.
Proof.
  unfold add_operand. intros H.
  apply bind_Done in H as (ins & Hins & H). apply deref_Done in Hins.
  apply bind_Done in H as (pb & _ & H).
  apply bind_Done in H as (blk & _ & H).
  apply bind_Done in H as (pf & _ & H).
  apply bind_Done in H as (fn & _ & H).
  exists ins. split; [exact Hins|].
  unfold create_ir_operand in H. simpl in H.
  destruct kind.
  - apply bind_Done in H as (val & Hval & H). apply deref_Done in Hval. simpl in Hval.
    destruct (v_is_constant val) eqn:Hc; injection H as <- <-.
    + split; [reflexivity|]. exists val. rewrite Hc. auto.
    + split; [reflexivity|]. exists val. rewrite Hc. auto.
  - injection H as <- <-. auto.
Qed.

Lemma add_operand_wf instr kind data_ptr s r s' :
  ud_wf s → add_operand instr kind data_ptr s = Done (r, s') → ud_wf s'.
Proof.
  intros Hwf H. destruct data_ptr as [d|]; [|injection H as _ <-; exact Hwf].
  apply add_operand_spec in H as (ins & Hins & _ & H). simpl in H.
  set (op := next_addr s) in *.
  set (o := mkIROperand kind (Some d) (Some instr)) in *.
  pose proof Hwf as (Hfresh & Huses & Hlists & Husers).
  assert (Hnew : operands s !! op = None).
  { destruct (operands s !! op) eqn:E; [|reflexivity].
    specialize (Hfresh _ _ E). simpl in Hfresh. subst op. lia. }
  assert (Hdom : ∀ x P, operand_has s x P → x ≠ op).
  { intros x P Hx ->. unfold operand_has in Hx. rewrite Hnew in Hx. exact Hx. }
  (* [link]: whether [op] is pushed on the use list of [d] *)
  assert (HF : ∃ (link : bool) val,
             (link = true → kind = IR_OP_KIND_VALUE ∧ values s !! d = Some val
                            ∧ v_is_constant val = false)
             ∧ (link = false → kind = IR_OP_KIND_VALUE →
                  ∃ val', values s !! d = Some val' ∧ v_is_constant val' = true)
             ∧ values s' = (if link then alter (v_with_use_list (op :: v_use_list val)) d
                                          (values s)
                            else values s)
             ∧ operands s' = <[op := o]> (operands s)
             ∧ instrs s' = alter (i_with_operands (i_operands ins ++ [op])) instr (instrs s)
             ∧ next_addr s' = S (next_addr s)).
  { destruct kind.
    - destruct H as (val & Hval & ->). destruct (v_is_constant val) eqn:Hc.
      + exists false, val. repeat split; try discriminate. eauto.
      + exists true, val. repeat split; auto; discriminate.
    - subst s'. exists false, (mkIRValue false false 0 None None None None []).
      repeat split; discriminate. }
  clear H. destruct HF as (link & val & Hyes & Hno & HvF & HoF & HiF & HnF).
  assert (HO : ∀ x P, operand_has s x P → operand_has s' x P).
  { intros x P Hx. pose proof (Hdom x P Hx) as Hne.
    unfold operand_has in Hx |- *. rewrite HoF, lookup_insert_ne by auto. exact Hx. }
  assert (HV : ∀ w wal, values s !! w = Some wal →
               ∃ wal', values s' !! w = Some wal'
                 ∧ is_register wal' = is_register wal
                 ∧ ((v_use_list wal' = v_use_list wal ∧ (link = true → w ≠ d))
                    ∨ (link = true ∧ w = d ∧ v_use_list wal' = op :: v_use_list wal))).
  { intros w wal Hw. rewrite HvF. destruct link.
    2:{ exists wal. split; [exact Hw|]. split; [reflexivity|]. left.
        split; [reflexivity|discriminate]. }
    destruct (Hyes eq_refl) as (_ & Hval & _).
    destruct (decide (d = w)) as [<-|Hne].
    - rewrite lookup_alter_eq, Hw. rewrite Hval in Hw. injection Hw as <-.
      eexists. split; [reflexivity|]. simpl. auto.
    - rewrite lookup_alter_ne by exact Hne. exists wal. split; [exact Hw|].
      split; [reflexivity|]. left. split; [reflexivity|]. intros _ ->. contradiction. }
  assert (HVr : ∀ w wal', values s' !! w = Some wal' → ∃ wal, values s !! w = Some wal).
  { intros w wal' Hw. rewrite HvF in Hw. destruct link; [|eauto].
    apply lookup_alter_Some in Hw as [(_ & y & Hy & _)|[_ Hy]]; eauto. }
  assert (Hin : ∀ x ox, in_use_list_of_referent s x ox → in_use_list_of_referent s' x ox).
  { intros x ox Hx Hk. specialize (Hx Hk).
    destruct (op_value ox) as [w|]; [|exact I].
    destruct (values s !! w) as [wal|] eqn:Hw; [|contradiction].
    destruct (HV w wal Hw) as (wal' & -> & Hreg & Hl). simpl.
    intros Hr. rewrite Hreg in Hr.
    destruct Hl as [[Hl _]|(_ & _ & Hl)].
    - rewrite Hl. auto.
    - rewrite Hl. apply list_elem_of_further. auto. }
  split; [|split; [|split]].
  - intros x ox Hx. rewrite HoF in Hx. rewrite HnF.
    apply lookup_insert_Some in Hx as [[<- _]|[_ Hx]]; [subst op; lia|].
    specialize (Hfresh _ _ Hx). simpl in Hfresh. lia.
  - intros w wal' Hw. destruct (HVr _ _ Hw) as (wal & Hwal).
    destruct (HV w wal Hwal) as (wal2 & Hw2 & Hreg & Hl). rewrite Hw in Hw2.
    injection Hw2 as <-. destruct (Huses w wal Hwal) as [Hall Hnd].
    assert (Hold : Forall (λ x, operand_has s' x
                     (λ o0, op_kind o0 = IR_OP_KIND_VALUE
                            ∧ (is_register wal' = true → op_value o0 = Some w)))
                   (v_use_list wal)).
    { rewrite Hreg. eapply Forall_impl; [exact Hall|]. intros x. apply HO. }
    unfold use_list_ok.
    destruct Hl as [[Hl _]|(-> & -> & Hl)]; rewrite Hl.
    + split; [exact Hold|]. rewrite Hreg. exact Hnd.
    + destruct (Hyes eq_refl) as (-> & Hval & Hc). split.
      * constructor; [|exact Hold]. unfold operand_has.
        rewrite HoF, lookup_insert_eq. subst o. simpl. auto.
      * rewrite Hreg. intros Hr. apply NoDup_cons. split; [|auto].
        intros Hop. eapply Forall_forall in Hall; [|exact Hop].
        exact (Hdom _ _ Hall eq_refl).
  - intros j jns Hj. rewrite HiF in Hj.
    assert (Hcase : (j = instr ∧ i_operands jns = i_operands ins ++ [op])
                    ∨ instrs s !! j = Some jns).
    { apply lookup_alter_Some in Hj as [(<- & y & Hy & ->)|[_ Hy]]; [|auto].
      left. rewrite Hins in Hy. injection Hy as <-. auto. }
    assert (Hold : ∀ jns0, instrs s !! j = Some jns0 →
              Forall (λ x, operand_has s' x
                 (λ o0, op_user o0 = Some j ∧ in_use_list_of_referent s' x o0))
                 (i_operands jns0)).
    { intros jns0 Hj0. destruct (Hlists j jns0 Hj0) as [_ Hall].
      eapply Forall_impl; [exact Hall|]. intros x Hx. apply HO.
      eapply operand_has_impl; [|exact Hx]. simpl. intros ox _ [Hu Hx']. auto. }
    destruct Hcase as [[-> Hl]|Hj0].
    + unfold operand_list_ok. rewrite Hl. destruct (Hlists instr ins Hins) as [Hnd Hall]. split.
      * apply NoDup_app. split; [exact Hnd|]. split; [|apply NoDup_singleton].
        intros x Hx Hx'. apply list_elem_of_singleton in Hx'. subst x.
        eapply Forall_forall in Hall; [|exact Hx]. exact (Hdom _ _ Hall eq_refl).
      * apply Forall_app. split; [apply Hold, Hins|]. constructor; [|constructor].
        unfold operand_has. rewrite HoF, lookup_insert_eq. subst o. simpl.
        split; [reflexivity|]. intros Hk. simpl in Hk. unfold op_value. simpl.
        destruct link.
        -- destruct (Hyes eq_refl) as (_ & Hval & Hc).
           destruct (HV d val Hval) as (wal' & -> & _ & [[_ Hc']|(_ & _ & ->)]).
           ++ exfalso. exact (Hc' eq_refl eq_refl).
           ++ intros _. apply list_elem_of_here.
        -- destruct (Hno eq_refl Hk) as (val' & Hval' & Hc).
           destruct (HV d val' Hval') as (wal' & -> & Hreg & _).
           rewrite Hreg. unfold is_register. rewrite Hc. discriminate.
    + destruct (Hlists j jns Hj0) as [Hnd _]. split; [exact Hnd|]. apply Hold, Hj0.
  - intros x ox Hx. rewrite HoF in Hx. unfold user_ok. rewrite HiF.
    assert (Hkeep : ∀ u, is_Some (instrs s !! u) →
              is_Some (alter (i_with_operands (i_operands ins ++ [op])) instr (instrs s) !! u)).
    { intros u [y Hy]. destruct (decide (instr = u)) as [<-|Hne].
      - rewrite lookup_alter_eq, Hy. eauto.
      - rewrite lookup_alter_ne by exact Hne. eauto. }
    apply lookup_insert_Some in Hx as [[_ <-]|[_ Hx]].
    + subst o. simpl. apply Hkeep. eauto.
    + specialize (Husers _ _ Hx). unfold user_ok in Husers.
      destruct (op_user ox); [|exact I]. apply Hkeep, Husers.
Qed.

(** Updates that leave the three use-def tables alone keep the arena well formed. *)
Lemma upd_instr_wf i f s :
  (∀ x, i_operands (f x) = i_operands x) → ud_wf s → ud_wf (upd_instr i f s).
Proof.
  intros Hf (Hfresh & Huses & Hlists & Husers).
  split; [exact Hfresh|]. split; [exact Huses|]. split.
  - intros j jns Hj. simpl in Hj.
    apply lookup_alter_Some in Hj as [(<- & y & Hy & ->)|[_ Hy]].
    + destruct (Hlists _ _ Hy) as [Hnd Hall]. unfold operand_list_ok. rewrite Hf.
      split; [exact Hnd|exact Hall].
    + exact (Hlists _ _ Hy).
  - intros x ox Hx. specialize (Husers x ox Hx). unfold user_ok in *. simpl.
    destruct (op_user ox) as [u|]; [|exact I].
    destruct Husers as [y Hy]. destruct (decide (i = u)) as [<-|Hne].
    + rewrite lookup_alter_eq, Hy. eauto.
    + rewrite lookup_alter_ne by exact Hne. eauto.
Qed.

Lemma upd_block_wf b f s : ud_wf s → ud_wf (upd_block b f s).
Proof. intros H. exact H. Qed.

Lemma upd_func_wf p f s : ud_wf s → ud_wf (upd_func p f s).
Proof. intros H. exact H. Qed.

Lemma use_list_entry_is_value_operand s w wal x :
  ud_wf s → values s !! w = Some wal → x ∈ v_use_list wal →
  operand_has s x (λ o, op_kind o = IR_OP_KIND_VALUE).
Proof.
  intros (_ & Hu & _ & _) Hw Hx. destruct (Hu w wal Hw) as [Hall _].
  eapply Forall_forall in Hall; [|exact Hx].
  eapply operand_has_impl; [|exact Hall]. simpl. intros o _ [Hk _]. exact Hk.
Qed.

(** *** [replace_all_uses_with] *)

Lemma rauw_loop_wf assert_on fuel old_val new_val :
  ∀ wl s wl' s',
    ud_wf s →
    rauw_loop assert_on fuel wl old_val new_val s = Done (wl', s') → ud_wf s'.
Proof.
  induction fuel as [|n IH]; intros wl s wl' s' Hwf H; simpl in H.
  - apply bind_Done in H as (old & Hold & H).
    destruct (v_use_list old); [injection H as _ <-; exact Hwf|discriminate].
  - apply bind_Done in H as (old & Hold & H). apply deref_Done in Hold.
    destruct (v_use_list old) as [|use rest] eqn:Hl; [injection H as _ <-; exact Hwf|].
    apply bind_Done in H as (o & Ho & H).
    apply bind_Done in H as (s1 & Hs1 & H).
    apply bind_Done in H as ([wl1 s2] & Hr & H). simpl in H.
    assert (Hwf1 : ud_wf s1).
    { eapply change_operand_value_wf; [exact Hwf| |exact Hs1].
      eapply use_list_entry_is_value_operand; [exact Hwf|exact Hold|].
      rewrite Hl. apply list_elem_of_here. }
    assert (Hwf2 : ud_wf s2).
    { destruct wl as [w|]; [|injection Hr as _ <-; exact Hwf1].
      destruct (op_user o) as [user|]; [|injection Hr as _ <-; exact Hwf1].
      apply bind_Done in Hr as (ins & _ & Hr).
      destruct (negb (opcode_eqb (i_opcode ins) IR_OP_UNKNOWN) && negb (i_in_worklist ins)).
      - injection Hr as _ <-. apply upd_instr_wf; [reflexivity|exact Hwf1].
      - injection Hr as _ <-. exact Hwf1. }
    exact (IH _ _ _ _ Hwf2 H).
Qed.

Lemma replace_all_uses_with_wf assert_on wl old_val new_val s wl' s' :
  ud_wf s →
  replace_all_uses_with assert_on wl old_val new_val s = Done (wl', s') → ud_wf s'.
Proof.
  unfold replace_all_uses_with. intros Hwf H.
  destruct (ptr_eqb (Some old_val) new_val); [injection H as _ <-; exact Hwf|].
  apply bind_Done in H as (old & _ & H).
  destruct (is_nil (v_use_list old)); [injection H as _ <-; exact Hwf|].
  eapply rauw_loop_wf; eauto.
Qed.

(** Every returning call that is given what it expects keeps the arena well
    formed. *)
Lemma run_call_wf assert_on c s s' :
  ud_wf s → call_ok s c → run_call assert_on c s = Done s' → ud_wf s'.
Proof.
  intros Hwf Hok H. destruct c as [instr kind d|op|op new_val|wl old_val new_val]; simpl in H.
  - apply bind_Done in H as ([r s1] & H1 & H). injection H as <-.
    eapply add_operand_wf; eauto.
  - eapply remove_operand_wf; eauto.
  - eapply change_operand_value_wf; eauto.
  - apply bind_Done in H as ([r s1] & H1 & H). injection H as <-.
    eapply replace_all_uses_with_wf; eauto.
Qed.

Lemma calls_from_wf assert_on s cs s' :
  calls_from assert_on s cs s' → ud_wf s → ud_wf s'.
Proof.
  induction 1 as [|s c s1 cs s' Hok Hrun _ IH]; [auto|].
  intros Hwf. apply IH. eapply run_call_wf; eauto.
Qed.

(** Well-formedness gives the invariant as the claim states it. *)
Lemma ud_wf_consistent s : ud_wf s → use_def_consistent s.
Proof.
  intros Hwf v val Hv Hr. pose proof Hwf as (_ & Hu & Hl & _).
  destruct (Hu v val Hv) as [_ Hnd]. split; [auto|].
  intros op (i & ins & Hi & Hop). split.
  - intros Href. destruct (Hl i ins Hi) as [_ Hall].
    eapply Forall_forall in Hall; [|exact Hop].
    unfold refers_to, operand_has in *.
    destruct (operands s !! op) as [o|]; [|contradiction].
    destruct Href as [Hk Hval]. destruct Hall as [_ Hin].
    specialize (Hin Hk). rewrite Hval, Hv in Hin. auto.
  - intros Hin. eapply use_list_entry_refers; eauto.
Qed.

Lemma c_assert_true assert_on : c_assert assert_on true = Done tt.
Proof. destruct assert_on; reflexivity. Qed.

Lemma is_register_true val :
  is_register val = true → v_is_constant val = false ∧ is_null (v_def_instr val) = false.
Proof.
  unfold is_register. destruct (v_is_constant val), (is_null (v_def_instr val)); simpl; auto.
  all: discriminate.
Qed.

(** One turn of the loop of [replace_all_uses_with] on a register: the head
    of the use list moves over to [new_val]. *)
Lemma change_head_use assert_on s old_val oval op rest new_val :
  ud_wf s →
  values s !! old_val = Some oval → is_register oval = true →
  v_use_list oval = op :: rest →
  Some old_val ≠ new_val → value_valid s new_val →
  ∃ s1 o,
    operands s !! op = Some o
    ∧ change_operand_value assert_on op new_val s = Done s1
    ∧ (∃ oval1, values s1 !! old_val = Some oval1 ∧ is_register oval1 = true
                ∧ v_use_list oval1 = rest)
    ∧ operands s1 = alter (op_with_data new_val) op (operands s)
    ∧ instrs s1 = instrs s
    ∧ value_valid s1 new_val.
Proof.
  intros Hwf Hold Hreg Hl Hne Hvalid.
  assert (Href : refers_to s op old_val).
  { eapply use_list_entry_refers; eauto. rewrite Hl. apply list_elem_of_here. }
  unfold refers_to, operand_has in Href.
  destruct (operands s !! op) as [o|] eqn:Ho; [|contradiction].
  destruct Href as [Hk Hv].
  destruct (is_register_true _ Hreg) as [Hc Hd].
  assert (Hrofl : remove_operand_from_use_list op s
                  = Done (upd_value old_val (v_with_use_list rest) s)).
  { unfold remove_operand_from_use_list, deref. rewrite Ho. simpl. rewrite Hk, Hv.
    rewrite Hold. simpl. rewrite Hc, Hd. simpl. rewrite Hl, remove_first_head. reflexivity. }
  assert (Hunf : change_operand_value assert_on op new_val s
     = match new_val with
       | None => Done (upd_operand op (op_with_data new_val)
                         (upd_value old_val (v_with_use_list rest) s))
       | Some nv =>
           val ← deref (values (upd_operand op (op_with_data new_val)
                                  (upd_value old_val (v_with_use_list rest) s))) nv;
           if negb (v_is_constant val) && negb (is_null (v_def_instr val))
           then Done (upd_value nv (v_with_use_list (op :: v_use_list val))
                        (upd_operand op (op_with_data new_val)
                           (upd_value old_val (v_with_use_list rest) s)))
           else Done (upd_operand op (op_with_data new_val)
                        (upd_value old_val (v_with_use_list rest) s))
       end).
  { unfold change_operand_value, deref. rewrite Ho. simpl. rewrite Hk.
    rewrite bool_decide_true by reflexivity. rewrite c_assert_true. simpl.
    unfold ptr_eqb. rewrite Hv. rewrite bool_decide_false by exact Hne.
    rewrite Hrofl. reflexivity. }
  destruct new_val as [nv|].
  - assert (Hnv : nv ≠ old_val) by congruence.
    destruct Hvalid as [nval Hnval].
    assert (Hlook : deref (values (upd_operand op (op_with_data (Some nv))
                             (upd_value old_val (v_with_use_list rest) s))) nv = Done nval).
    { apply deref_Done. simpl. rewrite lookup_alter_ne by auto. exact Hnval. }
    rewrite Hlook in Hunf. simpl in Hunf.
    destruct (negb (v_is_constant nval) && negb (is_null (v_def_instr nval))).
    + eexists. exists o. split; [reflexivity|]. split; [exact Hunf|]. simpl.
      split.
      { exists (v_with_use_list rest oval). rewrite lookup_alter_ne by auto.
        rewrite lookup_alter_eq, Hold. auto. }
      split; [reflexivity|]. split; [reflexivity|].
      rewrite lookup_alter_eq, lookup_alter_ne, Hnval by auto. simpl. eauto.
    + eexists. exists o. split; [reflexivity|]. split; [exact Hunf|]. simpl.
      split.
      { exists (v_with_use_list rest oval). rewrite lookup_alter_eq, Hold. auto. }
      split; [reflexivity|]. split; [reflexivity|].
      rewrite lookup_alter_ne, Hnval by auto. eauto.
  - eexists. exists o. split; [reflexivity|]. split; [exact Hunf|]. simpl.
    split.
    { exists (v_with_use_list rest oval). rewrite lookup_alter_eq, Hold. auto. }
    auto.
Qed.

(** No call changes the kind of an operand. *)
Lemma change_operand_value_keeps_kinds assert_on op new_val s s' x :
  change_operand_value assert_on op new_val s = Done s' →
  operand_has s x (λ o, op_kind o = IR_OP_KIND_VALUE) →
  operand_has s' x (λ o, op_kind o = IR_OP_KIND_VALUE).
Proof.
  intros H Hx.
  apply change_operand_value_spec in H as (o & Ho & _ & [[_ ->]|(_ & s1 & Hun & H)]);
    [exact Hx|].
  assert (Hs1 : operands s1 = operands s).
  { destruct Hun as (o' & _ & Hun). destruct (op_kind o'); [|subst; reflexivity].
    destruct (op_value o') as [v|]; [|subst; reflexivity].
    destruct Hun as (val & _ & ->). destruct (is_register val); reflexivity. }
  assert (Hops : operands s' = alter (op_with_data new_val) op (operands s)).
  { destruct new_val as [nv|].
    - destruct H as (val & _ & ->). destruct (is_register val); simpl; rewrite Hs1; reflexivity.
    - subst s'. simpl. rewrite Hs1. reflexivity. }
  unfold operand_has in *. rewrite Hops.
  destruct (decide (op = x)) as [<-|Hne].
  - rewrite lookup_alter_eq. destruct (operands s !! op); [exact Hx|contradiction].
  - rewrite lookup_alter_ne by exact Hne. exact Hx.
Qed.

Lemma rauw_loop_keeps_kinds assert_on fuel old_val new_val x :
  ∀ wl s wl' s',
    rauw_loop assert_on fuel wl old_val new_val s = Done (wl', s') →
    operand_has s x (λ o, op_kind o = IR_OP_KIND_VALUE) →
    operand_has s' x (λ o, op_kind o = IR_OP_KIND_VALUE).
Proof.
  induction fuel as [|n IH]; intros wl s wl' s' H Hx; simpl in H.
  - apply bind_Done in H as (old & Hold & H).
    destruct (v_use_list old); [injection H as _ <-; exact Hx|discriminate].
  - apply bind_Done in H as (old & Hold & H).
    destruct (v_use_list old) as [|use rest]; [injection H as _ <-; exact Hx|].
    apply bind_Done in H as (o & Ho & H).
    apply bind_Done in H as (s1 & Hs1 & H).
    apply bind_Done in H as ([wl1 s2] & Hr & H). simpl in H.
    apply (IH _ _ _ _ H).
    assert (Hx1 : operand_has s1 x (λ o0, op_kind o0 = IR_OP_KIND_VALUE))
      by (eapply change_operand_value_keeps_kinds; eauto).
    destruct wl as [w|]; [|injection Hr as _ <-; exact Hx1].
    destruct (op_user o) as [user|]; [|injection Hr as _ <-; exact Hx1].
    apply bind_Done in Hr as (ins & _ & Hr).
    destruct (negb (opcode_eqb (i_opcode ins) IR_OP_UNKNOWN) && negb (i_in_worklist ins));
      injection Hr as _ <-; exact Hx1.
Qed.

Lemma rauw_keeps_kinds assert_on wl old_val new_val s wl' s' x :
  replace_all_uses_with assert_on wl old_val new_val s = Done (wl', s') →
  operand_has s x (λ o, op_kind o = IR_OP_KIND_VALUE) →
  operand_has s' x (λ o, op_kind o = IR_OP_KIND_VALUE).
Proof.
  unfold replace_all_uses_with. intros H Hx.
  destruct (ptr_eqb (Some old_val) new_val); [injection H as _ <-; exact Hx|].
  apply bind_Done in H as (old & _ & H).
  destruct (is_nil (v_use_list old)); [injection H as _ <-; exact Hx|].
  eapply rauw_loop_keeps_kinds; eauto.
Qed.

Lemma rauw_loop_on_register assert_on old_val new_val :
  Some old_val ≠ new_val →
  ∀ l s wl fuel oval,
    ud_wf s →
    values s !! old_val = Some oval → is_register oval = true →
    v_use_list oval = l →
    value_valid s new_val →
    (length l < fuel)%nat →
    ∃ wl' s',
      rauw_loop assert_on fuel wl old_val new_val s = Done (wl', s')
      ∧ ud_wf s'
      ∧ use_list_of s' old_val = Some []
      ∧ (∀ op, op ∈ l → operand_has s' op (λ o, op_value o = new_val))
      ∧ (∀ x, x ∉ l → operands s' !! x = operands s !! x).
Proof.
  intros Hne. induction l as [|op rest IH]; intros s wl fuel oval Hwf Hold Hreg Hl Hvalid Hfuel.
  - destruct fuel as [|n]; [simpl in Hfuel; lia|]. simpl.
    rewrite (proj2 (deref_Done _ _ _) Hold). simpl. rewrite Hl.
    exists wl, s. split; [reflexivity|]. split; [exact Hwf|].
    split; [unfold use_list_of; rewrite Hold; simpl; rewrite Hl; reflexivity|].
    split; [intros op Hop; apply elem_of_nil in Hop; contradiction|auto].
  - destruct fuel as [|n]; [simpl in Hfuel; lia|]. simpl in Hfuel.
    destruct (change_head_use assert_on s old_val oval op rest new_val
                Hwf Hold Hreg Hl Hne Hvalid)
      as (s1 & o & Ho & Hs1 & (oval1 & Hold1 & Hreg1 & Hl1) & Hops1 & Hins1 & Hvalid1).
    assert (Hwf1 : ud_wf s1).
    { eapply change_operand_value_wf; [exact Hwf| |exact Hs1].
      unfold operand_has. rewrite Ho.
      assert (Href : refers_to s op old_val).
      { eapply use_list_entry_refers; eauto. rewrite Hl. apply list_elem_of_here. }
      unfold refers_to, operand_has in Href. rewrite Ho in Href. tauto. }
    (* the worklist step *)
    assert (Hstep : ∃ wl1 s2,
      match wl, op_user o with
      | Some w, Some user_instr =>
          ins ← deref (instrs s1) user_instr;
          if negb (opcode_eqb (i_opcode ins) IR_OP_UNKNOWN) && negb (i_in_worklist ins)
          then Done (Some (worklist_add w user_instr),
                     upd_instr user_instr (i_with_in_worklist true) s1)
          else Done (wl, s1)
      | _, _ => Done (wl, s1)
      end = Done (wl1, s2)
      ∧ ud_wf s2 ∧ values s2 = values s1 ∧ operands s2 = operands s1).
    { destruct wl as [w|]; [|exists None, s1; auto].
      destruct (op_user o) as [user|] eqn:Hu; [|exists (Some w), s1; auto].
      pose proof Hwf as (_ & _ & _ & Husers).
      specialize (Husers op o Ho). unfold user_ok in Husers. rewrite Hu in Husers.
      destruct Husers as [ins Hins]. rewrite <- Hins1 in Hins.
      rewrite (proj2 (deref_Done _ _ _) Hins). simpl.
      destruct (negb (opcode_eqb (i_opcode ins) IR_OP_UNKNOWN) && negb (i_in_worklist ins)).
      - eexists. eexists. split; [reflexivity|].
        split; [apply upd_instr_wf; [reflexivity|exact Hwf1]|auto].
      - exists (Some w), s1. auto. }
    destruct Hstep as (wl1 & s2 & Hstep & Hwf2 & Hv2 & Ho2).
    assert (Hold2 : values s2 !! old_val = Some oval1) by (rewrite Hv2; exact Hold1).
    assert (Hvalid2 : value_valid s2 new_val).
    { unfold value_valid in *. rewrite Hv2. exact Hvalid1. }
    assert (Hfuel2 : (length rest < n)%nat) by lia.
    destruct (IH s2 wl1 n oval1 Hwf2 Hold2 Hreg1 Hl1 Hvalid2 Hfuel2)
      as (wl' & s' & Hrun & Hwf' & Hempty & Hnew & Hsame).
    exists wl', s'. split.
    { simpl. rewrite (proj2 (deref_Done _ _ _) Hold). simpl. rewrite Hl.
      rewrite (proj2 (deref_Done _ _ _) Ho). simpl. rewrite Hs1. simpl.
      rewrite Hstep. simpl. exact Hrun. }
    split; [exact Hwf'|]. split; [exact Hempty|].
    assert (Hnd : NoDup (op :: rest)).
    { pose proof Hwf as (_ & Hu & _ & _). destruct (Hu _ _ Hold) as [_ Hnd].
      rewrite <- Hl. auto. }
    apply NoDup_cons in Hnd as [Hnotin _].
    split.
    + intros x Hx. apply elem_of_cons in Hx as [->|Hx]; [|auto].
      unfold operand_has. rewrite (Hsame op Hnotin), Ho2, Hops1, lookup_alter_eq, Ho.
      reflexivity.
    + intros x Hx. apply not_elem_of_cons in Hx as [Hxop Hxrest].
      rewrite (Hsame x Hxrest), Ho2, Hops1. apply lookup_alter_ne. auto.
Qed.

Lemma replace_all_uses_with_on_register assert_on wl old_val new_val s oval :
  ud_wf s →
  values s !! old_val = Some oval → is_register oval = true →
  Some old_val ≠ new_val → value_valid s new_val →
  ∃ wl' s',
    replace_all_uses_with assert_on wl old_val new_val s = Done (wl', s')
    ∧ ud_wf s'
    ∧ use_list_of s' old_val = Some []
    ∧ (∀ op, op ∈ v_use_list oval → operand_has s' op (λ o, op_value o = new_val))
    ∧ (∀ op, op ∈ v_use_list oval →
             operand_has s' op (λ o, op_kind o = IR_OP_KIND_VALUE)).
Proof.
  intros Hwf Hold Hreg Hne Hvalid.
  assert (Hkinds : ∀ wl' s', replace_all_uses_with assert_on wl old_val new_val s
                              = Done (wl', s') →
            ∀ op, op ∈ v_use_list oval →
                  operand_has s' op (λ o, op_kind o = IR_OP_KIND_VALUE)).
  { intros wl' s' Hrun op Hop.
    pose proof (use_list_entry_is_value_operand s old_val oval op Hwf Hold Hop) as Hk.
    eapply rauw_keeps_kinds; eauto. }
  unfold replace_all_uses_with, ptr_eqb.
  rewrite bool_decide_false by exact Hne.
  rewrite (proj2 (deref_Done _ _ _) Hold). simpl.
  destruct (v_use_list oval) as [|op rest] eqn:Hl; simpl.
  - exists wl, s. split; [reflexivity|]. split; [exact Hwf|].
    split; [unfold use_list_of; rewrite Hold; simpl; rewrite Hl; reflexivity|].
    split; intros op Hop; apply elem_of_nil in Hop; contradiction.
  - destruct (rauw_loop_on_register assert_on old_val new_val Hne (op :: rest) s wl
                (S (S (length rest))) oval Hwf Hold Hreg Hl Hvalid)
      as (wl' & s' & Hrun & Hwf' & Hempty & Hnew & _); [simpl; lia|].
    exists wl', s'. split; [exact Hrun|]. split; [exact Hwf'|]. split; [exact Hempty|].
    split; [exact Hnew|]. apply (Hkinds wl' s').
    unfold replace_all_uses_with, ptr_eqb. rewrite bool_decide_false by exact Hne.
    rewrite (proj2 (deref_Done _ _ _) Hold). simpl. rewrite Hl. simpl. exact Hrun.
Qed.

(** C3, as stated, fails: [replace_all_uses_with(%p, %p)] on [one_slot]
    returns at its first test and the use list of [%p] still holds the operands
    of the store and of the load. *)
Lemma rauw_of_a_value_by_itself_keeps_its_uses : ¬ rauw_empties_use_list.
Proof.
  intros H.
  specialize (H true None 50%nat (Some 50%nat) one_slot None one_slot).
  assert (Hwf : ud_wf one_slot) by (apply (bool_decide_unpack _); vm_compute; reflexivity).
  assert (Hreg : ∃ val, values one_slot !! 50%nat = Some val ∧ is_register val = true).
  { eexists. split; vm_compute; reflexivity. }
  specialize (H Hwf Hreg eq_refl). vm_compute in H. discriminate H.
Qed.

(** C3 (amended): from a well-formed arena, after any sequence of returning
    calls of [add_operand], [remove_operand] (on an operand of its user),
    [change_operand_value] (on a value operand) and [replace_all_uses_with],
    the use list of every register has no duplicates and holds exactly the
    attached value operands that refer to the register; and from there
    [replace_all_uses_with(old, new)] on a register [old] and a value [new]
    of the arena other than [old] returns, leaves the use list of [old] empty,
    makes every operand of the former use list refer to [new], and keeps the
    invariant. *)
Theorem use_def_consistency_maintained assert_on s cs s' :
  ud_wf s → calls_from assert_on s cs s' →
  use_def_consistent s'
  ∧ ∀ wl old_val new_val oval,
      values s' !! old_val = Some oval → is_register oval = true →
      old_val ≠ new_val → is_Some (values s' !! new_val) →
      ∃ wl' s'',
        replace_all_uses_with assert_on wl old_val (Some new_val) s' = Done (wl', s'')
        ∧ use_list_of s'' old_val = Some []
        ∧ (∀ op, op ∈ v_use_list oval → refers_to s'' op new_val)
        ∧ use_def_consistent s''.
Proof.
  intros Hwf Hcalls.
  assert (Hwf' : ud_wf s') by (eapply calls_from_wf; eauto).
  split; [apply ud_wf_consistent, Hwf'|].
  intros wl old_val new_val oval Hold Hreg Hne Hvalid.
  destruct (replace_all_uses_with_on_register assert_on wl old_val (Some new_val) s' oval
              Hwf' Hold Hreg) as (wl' & s'' & Hrun & Hwf'' & Hempty & Hnew & Hkind);
    [congruence|exact Hvalid|].
  exists wl', s''. split; [exact Hrun|]. split; [exact Hempty|].
  split; [|apply ud_wf_consistent, Hwf''].
  intros op Hop. specialize (Hnew op Hop). specialize (Hkind op Hop).
  unfold refers_to, operand_has in *.
  destruct (operands s'' !! op); [auto|contradiction].
Qed.

Lemma use_def_consistency_maintained_witness :
  use_def_consistent one_slot_built
  ∧ ∀ wl old_val new_val oval,
      values one_slot_built !! old_val = Some oval → is_register oval = true →
      old_val ≠ new_val → is_Some (values one_slot_built !! new_val) →
      ∃ wl' s'',
        replace_all_uses_with true wl old_val (Some new_val) one_slot_built
        = Done (wl', s'')
        ∧ use_list_of s'' old_val = Some []
        ∧ (∀ op, op ∈ v_use_list oval → refers_to s'' op new_val)
        ∧ use_def_consistent s''.
Proof.
  apply (use_def_consistency_maintained true one_slot_bare one_slot_calls one_slot_built).
  - apply (bool_decide_unpack _). vm_compute. reflexivity.
  - unfold one_slot_calls.
    repeat (eapply calls_cons;
            [ apply (bool_decide_unpack _); vm_compute; reflexivity
            | vm_compute; reflexivity | ]).
    apply calls_nil.
Defined.

(** ** Instruction lists *)

Lemma linked_ext lk lk' b prev l :
  (∀ x, x ∈ l → lk' !! x = lk !! x) → linked lk b prev l → linked lk' b prev l.
Proof.
  revert prev. induction l as [|i rest IH]; intros prev Hsame; simpl; [auto|].
  intros [Hi Hrest]. split.
  - rewrite Hsame by apply list_elem_of_here. exact Hi.
  - apply IH; [|exact Hrest]. intros x Hx. apply Hsame. apply list_elem_of_further, Hx.
Qed.

Lemma linked_lookup lk b prev l x :
  linked lk b prev l → x ∈ l → ∃ pv nx, lk !! x = Some (pv, nx, Some b).
Proof.
  revert prev. induction l as [|i rest IH]; intros prev H Hx.
  - apply elem_of_nil in Hx. contradiction.
  - destruct H as [Hi Hrest]. apply elem_of_cons in Hx as [->|Hx]; [eauto|].
    eapply IH; eauto.
Qed.

Lemma links_lookup s i pv nx pa :
  links s !! i = Some (pv, nx, pa) ↔
  ∃ ins, instrs s !! i = Some ins ∧ i_prev ins = pv ∧ i_next ins = nx ∧ i_parent ins = pa.
Proof.
  unfold links. rewrite lookup_fmap. destruct (instrs s !! i) as [ins|]; simpl; split.
  - intros [= <- <- <-]. eauto.
  - intros (ins' & [= <-] & <- & <- & <-). reflexivity.
  - discriminate.
  - intros (ins' & Hc & _). discriminate Hc.
Qed.

(** Following [next] from the head of a linked run reads the run. *)
Lemma chain_from_linked s b l :
  ∀ prev fuel, linked (links s) b prev l → (length l ≤ fuel)%nat →
               chain_from s fuel (head l) = Done l.
Proof.
  induction l as [|i rest IH]; intros prev fuel H Hfuel; simpl.
  - destruct fuel; reflexivity.
  - destruct H as [Hi Hrest]. apply links_lookup in Hi as (ins & Hins & _ & Hnx & _).
    destruct fuel as [|n]; [simpl in Hfuel; lia|]. simpl.
    rewrite (proj2 (deref_Done _ _ _) Hins). simpl. rewrite Hnx.
    rewrite (IH (Some i) n Hrest) by (simpl in Hfuel; lia). reflexivity.
Qed.

Lemma NoDup_length_le_size {A} (m : gmap nat A) (l : list nat) :
  NoDup l → (∀ x, x ∈ l → is_Some (m !! x)) → (length l ≤ size m)%nat.
Proof.
  intros Hnd Hin.
  rewrite <- (size_dom m), <- (size_list_to_set (C := gset nat) l Hnd).
  apply subseteq_size. intros x Hx. apply elem_of_list_to_set in Hx.
  apply elem_of_dom. auto.
Qed.

Lemma block_chain_ok s b l : chain_ok s b l → block_chain s b = Done l.
Proof.
  intros (Hnd & Hl & He). unfold block_chain.
  unfold ends in He. rewrite lookup_fmap in He.
  destruct (blocks s !! b) as [blk|] eqn:Hb; [|discriminate]. simpl in He.
  injection He as Hh _. rewrite (proj2 (deref_Done _ _ _) Hb).
  change (chain_from s (S (size (instrs s))) (bb_head blk) = Done l). rewrite Hh.
  eapply chain_from_linked; [exact Hl|].
  apply Nat.le_le_succ_r. apply NoDup_length_le_size; [exact Hnd|].
  intros x Hx. destruct (linked_lookup _ _ _ _ _ Hl Hx) as (pv & nx & Hx').
  apply links_lookup in Hx' as (ins & Hins & _). eauto.
Qed.

(** *** Taking an instruction out of its list *)

Lemma unlink_links_other pv nx lk x :
  pv ≠ Some x → nx ≠ Some x → unlink_links pv nx lk !! x = lk !! x.
Proof.
  intros Hp Hn. unfold unlink_links.
  destruct nx as [n|].
  - rewrite lookup_alter_ne by congruence.
    destruct pv as [p|]; [|reflexivity]. apply lookup_alter_ne. congruence.
  - destruct pv as [p|]; [|reflexivity]. apply lookup_alter_ne. congruence.
Qed.

Lemma unlink_links_prev p nx lk pr ne pa :
  nx ≠ Some p → lk !! p = Some (pr, ne, pa) →
  unlink_links (Some p) nx lk !! p = Some (pr, nx, pa).
Proof.
  intros Hn Hp. unfold unlink_links.
  destruct nx as [n|].
  - rewrite lookup_alter_ne by congruence. rewrite lookup_alter_eq, Hp. reflexivity.
  - rewrite lookup_alter_eq, Hp. reflexivity.
Qed.

Lemma unlink_links_next pv n lk pr ne pa :
  pv ≠ Some n → lk !! n = Some (pr, ne, pa) →
  unlink_links pv (Some n) lk !! n = Some (pv, ne, pa).
Proof.
  intros Hp Hn. unfold unlink_links. rewrite lookup_alter_eq.
  destruct pv as [p|].
  - rewrite lookup_alter_ne by congruence. rewrite Hn. reflexivity.
  - rewrite Hn. reflexivity.
Qed.

Lemma last_or_cons a l d : last_or (a :: l) d = last_or l (Some a).
Proof.
  unfold last_or. destruct l as [|a' l']; [reflexivity|].
  change (last (a :: a' :: l')) with (last (a' :: l')).
  destruct (last (a' :: l')) eqn:E; [reflexivity|].
  apply last_None in E. discriminate E.
Qed.

Lemma last_or_elem l d x : last_or l d = Some x → x ∈ l ∨ (l = [] ∧ d = Some x).
Proof.
  unfold last_or. destruct (last l) as [y|] eqn:E.
  - intros [= <-]. left. apply last_Some in E as [l' ->].
    apply elem_of_app. right. apply list_elem_of_here.
  - apply last_None in E. auto.
Qed.

Lemma head_elem (l : list nat) x : head l = Some x → x ∈ l.
Proof. destruct l; [discriminate|]. intros [= <-]. apply list_elem_of_here. Qed.

Lemma linked_unlink lk b i l2 :
  ∀ l1 prev0,
    linked lk b prev0 (l1 ++ i :: l2) →
    NoDup (l1 ++ i :: l2) →
    (∀ p, prev0 = Some p → p ∉ l1 ++ i :: l2) →
    linked (unlink_links (last_or l1 prev0) (head l2) lk) b prev0 (l1 ++ l2).
Proof.
  induction l1 as [|a l1 IH]; intros prev0 H Hnd Hprev.
  - simpl in *. destruct H as [Hi Hrest]. unfold last_or. simpl.
    apply NoDup_cons in Hnd as [Hi2 Hnd2].
    destruct l2 as [|n l3]; [exact I|].
    destruct Hrest as [Hn Hrest3]. apply NoDup_cons in Hnd2 as [Hn3 Hnd3].
    assert (Hpn : prev0 ≠ Some n).
    { intros ->. apply (Hprev n eq_refl). apply list_elem_of_further, list_elem_of_here. }
    split.
    + simpl. apply (unlink_links_next prev0 n lk _ _ _ Hpn Hn).
    + eapply linked_ext; [|exact Hrest3]. intros x Hx. apply unlink_links_other.
      * intros ->. apply (Hprev x eq_refl).
        apply list_elem_of_further, list_elem_of_further, Hx.
      * simpl. intros [= ->]. contradiction.
  - rewrite last_or_cons. simpl in H. destruct H as [Ha Hrest].
    change ((a :: l1) ++ i :: l2) with (a :: (l1 ++ i :: l2)) in Hnd.
    apply NoDup_cons in Hnd as [Ha2 Hnd2].
    assert (IH' := IH (Some a) Hrest Hnd2).
    simpl. split.
    + destruct l1 as [|a' l1'].
      * simpl in *. unfold last_or. simpl.
        eapply unlink_links_prev; [|exact Ha].
        intros Hh. apply head_elem in Hh. apply Ha2. apply list_elem_of_further, Hh.
      * simpl. rewrite unlink_links_other; [exact Ha| |].
        -- intros Hl. apply last_or_elem in Hl as [Hl|[Hc _]]; [|discriminate Hc].
           apply Ha2. apply elem_of_app. left. exact Hl.
        -- intros Hh. apply head_elem in Hh. apply Ha2.
           apply elem_of_app. right. apply list_elem_of_further, Hh.
    + apply IH'. intros p [= <-]. exact Ha2.
Qed.

Lemma remove_first_middle i (l1 l2 : list nat) :
  i ∉ l1 → remove_first i (l1 ++ i :: l2) = l1 ++ l2.
Proof.
  induction l1 as [|a l1 IH]; intros Hi; simpl.
  - rewrite Nat.eqb_refl. reflexivity.
  - apply not_elem_of_cons in Hi as [Hne Hi].
    destruct (Nat.eqb_spec i a) as [->|_]; [contradiction|]. f_equal. auto.
Qed.

(** The neighbours of [i] in a linked run. *)
Lemma linked_at lk b i l2 :
  ∀ l1 prev0, linked lk b prev0 (l1 ++ i :: l2) →
              lk !! i = Some (last_or l1 prev0, head l2, Some b).
Proof.
  induction l1 as [|a l1 IH]; intros prev0 H.
  - destruct H as [Hi _]. exact Hi.
  - rewrite last_or_cons. destruct H as [_ Hrest]. apply IH. exact Hrest.
Qed.

(** *** [unlink_instruction] on the tables *)

Lemma fmap_alter_commute {A B} (f : A → B) (g : A → A) (g' : B → B) (i : nat)
  (m : gmap nat A) :
  (∀ x, f (g x) = g' (f x)) → f <$> alter g i m = alter g' i (f <$> m).
Proof.
  intros H. apply map_eq. intros j. rewrite lookup_fmap.
  destruct (decide (i = j)) as [<-|Hne].
  - rewrite !lookup_alter_eq, lookup_fmap. destruct (m !! i); simpl; [rewrite H|]; reflexivity.
  - rewrite !lookup_alter_ne by exact Hne. rewrite lookup_fmap. reflexivity.
Qed.

Lemma fmap_alter_same {A B} (f : A → B) (g : A → A) (i : nat) (m : gmap nat A) :
  (∀ x, f (g x) = f x) → f <$> alter g i m = f <$> m.
Proof.
  intros H. apply map_eq. intros j. rewrite !lookup_fmap.
  destruct (decide (i = j)) as [<-|Hne].
  - rewrite lookup_alter_eq. destruct (m !! i); simpl; [rewrite H|]; reflexivity.
  - rewrite lookup_alter_ne by exact Hne. reflexivity.
Qed.

Lemma unlink_instruction_effect s i ins b :
  instrs s !! i = Some ins → i_parent ins = Some b →
  (∀ p, i_prev ins = Some p → is_Some (instrs s !! p)) →
  (∀ n, i_next ins = Some n → is_Some (instrs s !! n)) →
  is_Some (blocks s !! b) →
  ∃ s', unlink_instruction i s = Done s'
    ∧ links s' = unlink_links (i_prev ins) (i_next ins) (links s)
    ∧ ends s' = unlink_ends b (i_prev ins) (i_next ins) (ends s)
    ∧ bodies s' = bodies s
    ∧ bb_parent <$> blocks s' = bb_parent <$> blocks s
    ∧ values s' = values s ∧ operands s' = operands s ∧ funcs s' = funcs s
    ∧ next_addr s' = next_addr s.
Proof.
  intros Hins Hpa Hp Hn [blk Hb]. unfold unlink_instruction.
  rewrite (proj2 (deref_Done _ _ _) Hins). simpl. rewrite Hpa.
  unfold unlink_links, unlink_ends.
  destruct (i_prev ins) as [p|] eqn:Epv.
  - destruct (Hp p eq_refl) as [pins Hpins].
    rewrite (proj2 (deref_Done _ _ _) Hpins). simpl.
    destruct (i_next ins) as [n|] eqn:Enx.
    + assert (Hn' : is_Some (alter (i_with_next (Some n)) p (instrs s) !! n)).
      { destruct (Hn n eq_refl) as [nins Hnins].
        destruct (decide (p = n)) as [<-|Hne].
        - rewrite lookup_alter_eq, Hnins. eauto.
        - rewrite lookup_alter_ne by exact Hne. eauto. }
      destruct Hn' as [nins' Hn']. rewrite (proj2 (deref_Done _ _ _) Hn'). simpl.
      eexists. split; [reflexivity|]. unfold links, ends, bodies. simpl.
      split; [|split; [reflexivity|split; [|split; [reflexivity|auto]]]].
      * rewrite (fmap_alter_commute link_fields _ (λ '(_, ne, pa), (Some p, ne, pa)))
          by reflexivity.
        rewrite (fmap_alter_commute link_fields _ (λ '(pr, _, pa), (pr, Some n, pa)))
          by reflexivity.
        reflexivity.
      * rewrite !fmap_alter_same by reflexivity. reflexivity.
    + rewrite (proj2 (deref_Done _ _ _) Hb). simpl.
      eexists. split; [reflexivity|]. unfold links, ends, bodies. simpl.
      split; [|split; [|split; [|split; [|auto]]]].
      * rewrite (fmap_alter_commute link_fields _ (λ '(pr, _, pa), (pr, None, pa)))
          by reflexivity.
        reflexivity.
      * apply (fmap_alter_commute (λ blk0, (bb_head blk0, bb_tail blk0))). reflexivity.
      * rewrite !fmap_alter_same by reflexivity. reflexivity.
      * rewrite !fmap_alter_same by reflexivity. reflexivity.
  - rewrite (proj2 (deref_Done _ _ _) Hb). simpl.
    destruct (i_next ins) as [n|] eqn:Enx.
    + destruct (Hn n eq_refl) as [nins Hnins].
      rewrite (proj2 (deref_Done _ _ _) Hnins). simpl.
      eexists. split; [reflexivity|]. unfold links, ends, bodies. simpl.
      split; [|split; [|split; [|split; [|auto]]]].
      * rewrite (fmap_alter_commute link_fields _ (λ '(_, ne, pa), (None, ne, pa)))
          by reflexivity.
        reflexivity.
      * apply (fmap_alter_commute (λ blk0, (bb_head blk0, bb_tail blk0))). reflexivity.
      * rewrite !fmap_alter_same by reflexivity. reflexivity.
      * rewrite !fmap_alter_same by reflexivity. reflexivity.
    + assert (Hb' : alter (bb_with_head None) b (blocks s) !! b
                    = Some (bb_with_head None blk)).
      { rewrite lookup_alter_eq, Hb. reflexivity. }
      rewrite (proj2 (deref_Done _ _ _) Hb'). simpl.
      eexists. split; [reflexivity|]. unfold links, ends, bodies. simpl.
      split; [reflexivity|]. split; [|split; [reflexivity|split; [|auto]]].
      * rewrite (fmap_alter_commute (λ blk0, (bb_head blk0, bb_tail blk0)) _
                   (λ '(h, _), (h, None))) by reflexivity.
        rewrite (fmap_alter_commute (λ blk0, (bb_head blk0, bb_tail blk0)) _
                   (λ '(_, t), (None, t))) by reflexivity.
        reflexivity.
      * rewrite !fmap_alter_same by reflexivity. reflexivity.
Qed.

Lemma chain_ok_block s b l : chain_ok s b l → is_Some (blocks s !! b).
Proof.
  intros (_ & _ & He). unfold ends in He. rewrite lookup_fmap in He.
  destruct (blocks s !! b); [eauto|discriminate].
Qed.

Lemma chain_ok_instr s b l x :
  chain_ok s b l → x ∈ l → ∃ ins, instrs s !! x = Some ins ∧ i_parent ins = Some b.
Proof.
  intros (_ & Hl & _) Hx. destruct (linked_lookup _ _ _ _ _ Hl Hx) as (pv & nx & H).
  apply links_lookup in H as (ins & Hins & _ & _ & Hpa). eauto.
Qed.

Lemma last_or_None l : last_or l None = last l.
Proof. unfold last_or. destruct (last l); reflexivity. Qed.

Lemma unlink_instruction_chain s b l1 i l2 :
  chain_ok s b (l1 ++ i :: l2) →
  ∃ s', unlink_instruction i s = Done s'
    ∧ chain_ok s' b (l1 ++ l2)
    ∧ links s' = unlink_links (last l1) (head l2) (links s)
    ∧ ends s' = unlink_ends b (last l1) (head l2) (ends s)
    ∧ bodies s' = bodies s
    ∧ bb_parent <$> blocks s' = bb_parent <$> blocks s
    ∧ values s' = values s ∧ operands s' = operands s ∧ funcs s' = funcs s
    ∧ next_addr s' = next_addr s.
Proof.
  intros Hc. pose proof Hc as (Hnd & Hl & He).
  pose proof (linked_at _ _ _ _ _ _ Hl) as Hi. rewrite last_or_None in Hi.
  apply links_lookup in Hi as (ins & Hins & Hpv & Hnx & Hpa).
  assert (Hin : ∀ x, x ∈ l1 ++ i :: l2 → is_Some (instrs s !! x)).
  { intros x Hx. destruct (chain_ok_instr _ _ _ _ Hc Hx) as (y & Hy & _). eauto. }
  destruct (unlink_instruction_effect s i ins b Hins Hpa) as (s' & Hrun & Hlk & Hen & Hrest).
  - rewrite Hpv. intros p Hp. apply Hin. apply elem_of_app. left.
    apply last_Some in Hp as [l' ->]. apply elem_of_app. right. apply list_elem_of_here.
  - rewrite Hnx. intros n Hn. apply Hin. apply elem_of_app. right.
    apply list_elem_of_further. apply head_elem, Hn.
  - eapply chain_ok_block. exact Hc.
  - rewrite Hpv, Hnx in Hlk, Hen.
    exists s'. split; [exact Hrun|]. split; [|split; [exact Hlk|split; [exact Hen|exact Hrest]]].
    split; [|split].
    + apply NoDup_app in Hnd as (H1 & H12 & H2). apply NoDup_cons in H2 as [_ H2].
      apply NoDup_app. split; [exact H1|]. split; [|exact H2].
      intros x Hx Hx2. apply (H12 x Hx). apply list_elem_of_further, Hx2.
    + rewrite Hlk, <- (last_or_None l1). apply (linked_unlink _ _ i); [exact Hl|exact Hnd|].
      intros p Hp. discriminate Hp.
    + rewrite Hen. unfold unlink_ends.
      assert (Hh : head (l1 ++ l2) = match last l1 with
                                     | Some _ => head (l1 ++ i :: l2)
                                     | None => head l2
                                     end).
      { destruct l1 as [|a l1']; [reflexivity|]. simpl.
        destruct (last (a :: l1')) eqn:E; [reflexivity|].
        apply last_None in E. discriminate E. }
      assert (Ht : last (l1 ++ l2) = match head l2 with
                                     | Some _ => last (l1 ++ i :: l2)
                                     | None => last l1
                                     end).
      { destruct l2 as [|n l2']; simpl.
        - rewrite app_nil_r. reflexivity.
        - rewrite !last_app. change (last (i :: n :: l2')) with (last (n :: l2')).
          reflexivity. }
      rewrite Hh, Ht.
      destruct (last l1), (head l2);
        rewrite ?lookup_alter_eq, ?He; reflexivity.
Qed.

(** A list that shares no instruction with the one [i] is taken out of, in
    another block, stays as it is. *)
Lemma unlink_links_frame lk b' pv nx l' :
  (∀ p, pv = Some p → p ∉ l') → (∀ n, nx = Some n → n ∉ l') →
  ∀ prev, linked lk b' prev l' → linked (unlink_links pv nx lk) b' prev l'.
Proof.
  intros Hp Hn prev. apply linked_ext. intros x Hx. apply unlink_links_other.
  - intros ->. exact (Hp x eq_refl Hx).
  - intros ->. exact (Hn x eq_refl Hx).
Qed.


(** *** [remove_operand] and [erase_instruction] on attached operands *)

Lemma remove_operand_attached s i ins op :
  ud_wf s → instrs s !! i = Some ins → op ∈ i_operands ins →
  ∃ s1, use_lists_shrunk op s s1
    ∧ remove_operand op s
      = Done (upd_instr i (i_with_operands (remove_first op (i_operands ins))) s1).
Proof.
  intros Hwf Hins Hop. pose proof Hwf as (_ & _ & Hlists & _).
  destruct (Hlists i ins Hins) as [_ Hall].
  eapply Forall_forall in Hall; [|exact Hop].
  unfold operand_has in Hall. destruct (operands s !! op) as [o|] eqn:Ho; [|contradiction].
  destruct Hall as [Hu Hin].
  assert (Htot : ∃ s1, remove_operand_from_use_list op s = Done s1).
  { unfold remove_operand_from_use_list, deref. rewrite Ho. simpl.
    destruct (op_kind o) eqn:Hk; [|eauto].
    unfold in_use_list_of_referent in Hin. rewrite Hk in Hin. specialize (Hin eq_refl).
    destruct (op_value o) as [v|]; [|eauto].
    destruct (values s !! v) as [val|]; [|contradiction]. simpl.
    destruct (v_is_constant val || is_null (v_def_instr val)); eauto. }
  destruct Htot as (s1 & Hs1). exists s1.
  pose proof (unlinked_shrinks _ _ _ Hwf (remove_operand_from_use_list_spec _ _ _ Hs1)) as Hs.
  split; [exact Hs|].
  unfold remove_operand, deref. rewrite Ho. simpl. rewrite Hs1. simpl. rewrite Hu. simpl.
  destruct Hs as (_ & -> & _). rewrite Hins. reflexivity.
Qed.

Lemma i_with_operands_same ins : i_with_operands (i_operands ins) ins = ins.
Proof. destruct ins. reflexivity. Qed.

Lemma alter_id_at {A} (f : A → A) (i : nat) (m : gmap nat A) x :
  m !! i = Some x → f x = x → alter f i m = m.
Proof.
  intros Hi Hf. apply map_eq. intros j. destruct (decide (i = j)) as [<-|Hne].
  - rewrite lookup_alter_eq, Hi. simpl. rewrite Hf. reflexivity.
  - apply lookup_alter_ne. exact Hne.
Qed.

Lemma alter_twice {A} (f g h : A → A) (i : nat) (m : gmap nat A) :
  (∀ x, f (g x) = h x) → alter f i (alter g i m) = alter h i m.
Proof.
  intros H. apply map_eq. intros j. destruct (decide (i = j)) as [<-|Hne].
  - rewrite !lookup_alter_eq. destruct (m !! i); simpl; [rewrite H|]; reflexivity.
  - rewrite !lookup_alter_ne by exact Hne. reflexivity.
Qed.

Lemma remove_all_operands_attached i :
  ∀ ops s ins,
    ud_wf s → instrs s !! i = Some ins → i_operands ins = ops →
    ∃ s',
      remove_all_operands (S (length ops)) i s = Done s'
      ∧ ud_wf s'
      ∧ instrs s' = alter (i_with_operands []) i (instrs s)
      ∧ operands s' = operands s ∧ blocks s' = blocks s ∧ funcs s' = funcs s
      ∧ next_addr s' = next_addr s
      ∧ (∀ w wal', values s' !! w = Some wal' →
           ∃ wal, values s !! w = Some wal
             ∧ is_register wal' = is_register wal
             ∧ (∀ x, x ∈ v_use_list wal' → x ∈ v_use_list wal)
             ∧ (is_register wal = true → ∀ op, op ∈ ops → op ∉ v_use_list wal')).
Proof.
  induction ops as [|op rest IH]; intros s ins Hwf Hins Hops.
  - exists s. simpl. rewrite (proj2 (deref_Done _ _ _) Hins). simpl. rewrite Hops.
    split; [reflexivity|]. split; [exact Hwf|].
    split.
    { symmetry. eapply alter_id_at; [exact Hins|].
      rewrite <- Hops. apply i_with_operands_same. }
    repeat (split; [reflexivity|]).
    intros w wal' Hw. exists wal'. split; [exact Hw|]. split; [reflexivity|].
    split; [auto|]. intros _ x Hx. apply elem_of_nil in Hx. contradiction.
  - destruct (remove_operand_attached s i ins op Hwf Hins) as (s1 & Hs & Hrun).
    { rewrite Hops. apply list_elem_of_here. }
    rewrite Hops, remove_first_head in Hrun.
    set (s2 := upd_instr i (i_with_operands rest) s1) in *.
    assert (Hwf2 : ud_wf s2) by (eapply remove_operand_wf; eauto).
    pose proof Hs as (Hops1 & Hins1 & Hb1 & Hf1 & Hn1 & _).
    assert (Hins2 : instrs s2 !! i = Some (i_with_operands rest ins)).
    { subst s2. simpl. rewrite Hins1, lookup_alter_eq, Hins. reflexivity. }
    destruct (IH s2 (i_with_operands rest ins) Hwf2 Hins2 eq_refl)
      as (s' & Hrun' & Hwf' & Hi' & Ho' & Hb' & Hf' & Hn' & Hv').
    exists s'. split.
    { change (remove_all_operands (S (length (op :: rest))) i s)
        with (ins0 ← deref (instrs s) i;
              match i_operands ins0 with
              | [] => Done s
              | op0 :: _ => s1' ← remove_operand op0 s;
                            remove_all_operands (S (length rest)) i s1'
              end).
      rewrite (proj2 (deref_Done _ _ _) Hins). simpl. rewrite Hops, Hrun. exact Hrun'. }
    split; [exact Hwf'|]. split.
    { rewrite Hi'. subst s2. simpl. rewrite Hins1. apply alter_twice. reflexivity. }
    split; [rewrite Ho'; exact Hops1|]. split; [rewrite Hb'; exact Hb1|].
    split; [rewrite Hf'; exact Hf1|]. split; [rewrite Hn'; exact Hn1|].
    intros w wal' Hw. destruct (Hv' w wal' Hw) as (wal2 & Hw2 & Hreg2 & Hsub2 & Hout2).
    change (values s2) with (values s1) in Hw2.
    destruct (shrunk_values _ _ _ _ _ Hs Hw2) as (wal & Hwal & Hreg1 & Hsub1 & _ & Hout1).
    exists wal. split; [exact Hwal|]. split; [congruence|]. split; [auto|].
    intros Hr x Hx. apply elem_of_cons in Hx as [->|Hx].
    + intros Hin. apply (Hout1 Hr). apply Hsub2, Hin.
    + apply Hout2; [congruence|exact Hx].
Qed.

(** ** [erase_instruction] *)

Lemma ud_wf_same_bodies s s' :
  values s' = values s → operands s' = operands s → next_addr s' = next_addr s →
  bodies s' = bodies s → ud_wf s → ud_wf s'.
Proof.
  intros Hv Ho Hn Hb (Hfresh & Huses & Hlists & Husers).
  assert (Hbody : ∀ j jns', instrs s' !! j = Some jns' →
            ∃ jns, instrs s !! j = Some jns ∧ i_operands jns' = i_operands jns).
  { intros j jns' Hj. assert (E : bodies s' !! j = bodies s !! j) by (rewrite Hb; reflexivity).
    unfold bodies in E. rewrite !lookup_fmap, Hj in E. simpl in E.
    destruct (instrs s !! j) as [jns|]; [|discriminate]. simpl in E.
    exists jns. split; [reflexivity|]. unfold body_fields in E. congruence. }
  assert (Hdom : ∀ j, is_Some (instrs s !! j) → is_Some (instrs s' !! j)).
  { intros j [jns Hj]. assert (E : bodies s' !! j = bodies s !! j) by (rewrite Hb; reflexivity).
    unfold bodies in E. rewrite !lookup_fmap, Hj in E. simpl in E.
    destruct (instrs s' !! j); [eauto|discriminate]. }
  split; [|split; [|split]].
  - rewrite Ho, Hn. exact Hfresh.
  - rewrite Hv. intros w wal Hw. destruct (Huses w wal Hw) as [Hall Hnd].
    split; [|exact Hnd]. eapply Forall_impl; [exact Hall|]. intros x.
    apply operand_has_ext. rewrite Ho. reflexivity.
  - intros j jns' Hj. destruct (Hbody j jns' Hj) as (jns & Hjs & Heq).
    destruct (Hlists j jns Hjs) as [Hnd Hall]. unfold operand_list_ok. rewrite Heq.
    split; [exact Hnd|]. eapply Forall_impl; [exact Hall|]. intros x Hx.
    unfold operand_has in *. rewrite Ho. destruct (operands s !! x) as [ox|]; [|contradiction].
    destruct Hx as [Hu Hin]. split; [exact Hu|].
    unfold in_use_list_of_referent in *. rewrite Hv. exact Hin.
  - rewrite Ho. intros x ox Hx. specialize (Husers x ox Hx). unfold user_ok in *.
    destruct (op_user ox); [|exact I]. apply Hdom, Husers.
Qed.

Lemma outcome_bind_Done {A B} (a : A) (k : A → outcome B) : Done a ≫= k = k a.
Proof. reflexivity. Qed.

Lemma chain_ok_same_tables s s' b l :
  links s' = links s → ends s' = ends s → chain_ok s b l → chain_ok s' b l.
Proof. unfold chain_ok. intros -> ->. auto. Qed.

Lemma instruction_count_of_Some s b blk :
  blocks s !! b = Some blk →
  instruction_count_of s b
  = match bb_parent blk with
    | Some pf => fn_instruction_count <$> funcs s !! pf
    | None => None
    end.
Proof.
  intros Hb. unfold instruction_count_of. rewrite Hb. simpl.
  destruct (bb_parent blk) as [pf|]; [|reflexivity]. simpl.
  destruct (funcs s !! pf); reflexivity.
Qed.

(** What [erase_instruction] does, assertions aside, to an instruction that
    is linked in its block and not yet poisoned. *)
Lemma erase_instruction_unasserted s b l1 i l2 ins :
  ud_wf s → chain_ok s b (l1 ++ i :: l2) → parent_function_ok s b →
  instrs s !! i = Some ins → i_opcode ins ≠ IR_OP_UNKNOWN →
  ∃ s', erase_instruction false (Some i) s = Done s'
    ∧ ud_wf s'
    ∧ chain_ok s' b (l1 ++ l2)
    ∧ links s' = alter (λ '(pr, ne, _), (pr, ne, None)) i
                   (unlink_links (last l1) (head l2) (links s))
    ∧ ends s' = unlink_ends b (last l1) (head l2) (ends s)
    ∧ bodies s' = alter (λ '(_, _, _, live), (IR_OP_UNKNOWN, None, [], live)) i (bodies s)
    ∧ bb_parent <$> blocks s' = bb_parent <$> blocks s
    ∧ (∀ p, is_Some (funcs s' !! p) ↔ is_Some (funcs s !! p))
    ∧ instruction_count_of s' b = (λ n, n - 1) <$> instruction_count_of s b
    ∧ operands s' = operands s
    ∧ (∀ op w wal', op ∈ i_operands ins → values s' !! w = Some wal' →
                    is_register wal' = true → op ∉ v_use_list wal').
Proof.
  intros Hwf Hc Hpf Hins Hop.
  assert (Hi : i ∈ l1 ++ i :: l2) by (apply elem_of_app; right; apply list_elem_of_here).
  destruct (chain_ok_instr _ _ _ _ Hc Hi) as (ins' & Hins' & Hpa).
  rewrite Hins in Hins'. injection Hins' as <-.
  unfold parent_function_ok in Hpf.
  destruct (blocks s !! b) as [blk|] eqn:Hb; [|contradiction].
  (* the instruction count *)
  set (count_step := match i_parent ins with
             | Some pb =>
                 blk0 ← deref (blocks s) pb;
                 match bb_parent blk0 with
                 | Some pf =>
                     fn ← deref (funcs s) pf;
                     Done (upd_func pf
                             (fn_with_instruction_count (fn_instruction_count fn - 1)) s)
                 | None => Done s
                 end
             | None => Done s
             end).
  assert (H1 : ∃ s1, count_step = Done s1
             ∧ values s1 = values s ∧ operands s1 = operands s ∧ instrs s1 = instrs s
             ∧ blocks s1 = blocks s ∧ next_addr s1 = next_addr s
             ∧ (∀ p, is_Some (funcs s1 !! p) ↔ is_Some (funcs s !! p))
             ∧ instruction_count_of s1 b = (λ n, n - 1) <$> instruction_count_of s b).
  { subst count_step. rewrite Hpa, (proj2 (deref_Done _ _ _) Hb). simpl.
    destruct (bb_parent blk) as [pf|] eqn:Hpar.
    - destruct Hpf as [fn Hfn]. rewrite (proj2 (deref_Done _ _ _) Hfn). simpl.
      eexists. split; [reflexivity|]. repeat (split; [reflexivity|]). split.
      + intros p. simpl. destruct (decide (pf = p)) as [<-|Hne].
        * rewrite lookup_alter_eq, Hfn. simpl. split; eauto.
        * rewrite lookup_alter_ne by exact Hne. reflexivity.
      + rewrite !(instruction_count_of_Some _ _ blk) by exact Hb. rewrite Hpar. simpl.
        rewrite lookup_alter_eq, Hfn. reflexivity.
    - exists s. split; [reflexivity|]. repeat (split; [reflexivity|]).
      rewrite (instruction_count_of_Some _ _ blk) by exact Hb. rewrite Hpar. reflexivity. }
  destruct H1 as (s1 & Hs1 & Hv1 & Ho1 & Hi1 & Hb1 & Hn1 & Hf1 & Hcount1).
  assert (Hwf1 : ud_wf s1).
  { apply (ud_wf_same_bodies s s1); auto. unfold bodies. rewrite Hi1. reflexivity. }
  assert (Hins1 : instrs s1 !! i = Some ins) by (rewrite Hi1; exact Hins).
  destruct (remove_all_operands_attached i (i_operands ins) s1 ins Hwf1 Hins1 eq_refl)
    as (s2 & Hs2 & Hwf2 & Hi2 & Ho2 & Hb2 & Hf2 & Hn2 & Hv2).
  assert (Hlk2 : links s2 = links s).
  { unfold links. rewrite Hi2, Hi1. apply fmap_alter_same. reflexivity. }
  assert (Hen2 : ends s2 = ends s) by (unfold ends; rewrite Hb2, Hb1; reflexivity).
  assert (Hc2 : chain_ok s2 b (l1 ++ i :: l2)) by (eapply chain_ok_same_tables; eauto).
  destruct (unlink_instruction_chain s2 b l1 i l2 Hc2)
    as (s3 & Hs3 & Hc3 & Hlk3 & Hen3 & Hbd3 & Hbp3 & Hv3 & Ho3 & Hf3 & Hn3).
  exists (upd_instr i poison_instruction s3). split.
  { unfold erase_instruction. rewrite (proj2 (deref_Done _ _ _) Hins), outcome_bind_Done.
    cbv beta. unfold opcode_eqb. rewrite bool_decide_false by exact Hop.
    assert (Hd : match i_dest ins with
                 | Some d => if false then
                               dv ← deref (values s) d; c_assert false (is_nil (v_use_list dv))
                             else Done tt
                 | None => Done tt
                 end = Done tt) by (destruct (i_dest ins); reflexivity).
    rewrite Hd, outcome_bind_Done. cbv beta. fold count_step.
    rewrite Hs1, outcome_bind_Done. cbv beta.
    rewrite Hs2, outcome_bind_Done. cbv beta.
    rewrite Hs3. reflexivity. }
  assert (Hnotin : i ∉ l1 ++ l2).
  { destruct Hc as (Hnd & _). apply NoDup_app in Hnd as (_ & H12 & H2).
    apply NoDup_cons in H2 as [H2 _]. intros Hx. apply elem_of_app in Hx as [Hx|Hx].
    - apply (H12 i Hx). apply list_elem_of_here.
    - contradiction. }
  assert (Hlk' : links (upd_instr i poison_instruction s3)
                 = alter (λ '(pr, ne, _), (pr, ne, None)) i (links s3)).
  { unfold links. simpl. apply fmap_alter_commute. reflexivity. }
  split.
  { apply upd_instr_wf; [reflexivity|].
    apply (ud_wf_same_bodies s2 s3); auto. }
  split.
  { destruct Hc3 as (Hnd3 & Hl3 & He3). split; [exact Hnd3|]. split; [|exact He3].
    rewrite Hlk'. eapply linked_ext; [|exact Hl3].
    intros x Hx. apply lookup_alter_ne. intros ->. contradiction. }
  split; [rewrite Hlk', Hlk3, Hlk2; reflexivity|].
  split; [change (ends (upd_instr i poison_instruction s3)) with (ends s3);
          rewrite Hen3, Hen2; reflexivity|].
  split.
  { unfold bodies in *. simpl.
    rewrite (fmap_alter_commute body_fields poison_instruction
               (λ '(_, _, ops, live), (IR_OP_UNKNOWN, None, ops, live))) by reflexivity.
    rewrite Hbd3, Hi2, Hi1.
    rewrite (fmap_alter_commute body_fields (i_with_operands [])
               (λ '(o, d, _, live), (o, d, [], live))) by reflexivity.
    apply alter_twice. intros [[[o d] ops] live]. reflexivity. }
  split; [simpl; rewrite Hbp3, Hb2, Hb1; reflexivity|].
  split; [intros p; simpl; rewrite Hf3, Hf2; apply Hf1|].
  split.
  { rewrite <- Hcount1. unfold instruction_count_of. simpl.
    assert (E : ∀ x, bb_parent <$> blocks s3 !! x = bb_parent <$> blocks s1 !! x).
    { intros x. rewrite <- !lookup_fmap, Hbp3, Hb2. reflexivity. }
    specialize (E b). rewrite Hf3, Hf2.
    destruct (blocks s3 !! b), (blocks s1 !! b); simpl in *; try discriminate; [|reflexivity].
    injection E as ->. reflexivity. }
  split; [simpl; rewrite Ho3, Ho2; exact Ho1|].
  intros op w wal' Hopin Hw Hr. simpl in Hw. rewrite Hv3 in Hw.
  destruct (Hv2 w wal' Hw) as (wal & _ & Hreg & _ & Hout).
  apply Hout; [congruence|exact Hopin].
Qed.

(** The assertion of [erase_instruction] passes when the result is unused. *)
Lemma erase_instruction_assertion_passes assert_on s i ins :
  instrs s !! i = Some ins → dest_unused s ins →
  erase_instruction assert_on (Some i) s = erase_instruction false (Some i) s.
Proof.
  intros Hins Hd. destruct assert_on; [|reflexivity].
  unfold erase_instruction. rewrite (proj2 (deref_Done _ _ _) Hins), !outcome_bind_Done.
  cbv beta. destruct (opcode_eqb (i_opcode ins) IR_OP_UNKNOWN); [reflexivity|].
  unfold dest_unused in Hd. destruct (i_dest ins) as [d|]; [|reflexivity].
  destruct (values s !! d) as [dv|] eqn:Hdv; [|contradiction].
  rewrite (proj2 (deref_Done _ _ _) Hdv), outcome_bind_Done. cbv beta.
  rewrite Hd. reflexivity.
Qed.


Lemma split_at_member (l : list nat) i :
  NoDup l → i ∈ l → ∃ l1 l2, l = l1 ++ i :: l2 ∧ remove_first i l = l1 ++ l2.
Proof.
  intros Hnd Hi. apply list_elem_of_split in Hi as (l1 & l2 & ->).
  exists l1, l2. split; [reflexivity|]. apply remove_first_middle.
  apply NoDup_app in Hnd as (_ & H & _). intros Hx. apply (H i Hx). apply list_elem_of_here.
Qed.

(** C9, as stated, fails: on the store of [one_slot] once
    [mark_instruction_for_removal] has poisoned its opcode,
    [erase_instruction] returns at its first test; the store stays linked in
    its block and its operands stay in the use list of [%p]. *)
Lemma erase_of_a_marked_instruction_does_nothing : ¬ erase_contract_as_stated.
Proof.
  intros H.
  destruct (H true one_slot_marked 10%nat [100; 101; 102; 103]%nat 101%nat
              (i_with_opcode IR_OP_UNKNOWN
                 (plain_instr IR_OP_STORE None None [200%nat; 201%nat]
                    (Some 10%nat) (Some 100%nat) (Some 102%nat))))
    as (s' & Hrun & _ & Hchain & _).
  - apply (bool_decide_unpack _). vm_compute. reflexivity.
  - apply (bool_decide_unpack _). vm_compute. reflexivity.
  - apply (bool_decide_unpack _). vm_compute. reflexivity.
  - apply (bool_decide_unpack _). vm_compute. reflexivity.
  - vm_compute. reflexivity.
  - exact I.
  - assert (Hs' : s' = one_slot_marked).
    { vm_compute in Hrun. injection Hrun as <-. vm_compute. reflexivity. }
    subst s'. apply block_chain_ok in Hchain. vm_compute in Hchain. discriminate Hchain.
Qed.

(** C9 (amended): for an instruction that is linked in its block, is not
    yet poisoned and whose result, if any, has an empty use list,
    [erase_instruction] returns, whether assertions are compiled in or not;
    afterwards no operand of the instruction is in the use list of a register,
    the block's list is the old one without the instruction, and the opcode of
    the instruction is [IR_OP_UNKNOWN]. *)
Theorem erase_instruction_contract assert_on s b l i ins :
  ud_wf s → chain_ok s b l → parent_function_ok s b →
  i ∈ l → instrs s !! i = Some ins → dest_unused s ins →
  i_opcode ins ≠ IR_OP_UNKNOWN →
  erase_contract assert_on s b l i ins.
Proof.
  intros Hwf Hc Hpf Hi Hins Hd Hop.
  destruct (split_at_member l i) as (l1 & l2 & -> & Hrem); [apply Hc|exact Hi|].
  destruct (erase_instruction_unasserted s b l1 i l2 ins Hwf Hc Hpf Hins Hop)
    as (s' & Hrun & _ & Hc' & _ & _ & Hbd & _ & _ & _ & _ & Huses).
  exists s'. split.
  { rewrite (erase_instruction_assertion_passes assert_on s i ins Hins Hd). exact Hrun. }
  split; [exact Huses|]. split; [rewrite Hrem; exact Hc'|].
  unfold opcode_of.
  assert (E : bodies s' !! i = (λ '(_, _, _, live), (IR_OP_UNKNOWN, None, [], live))
                                 <$> bodies s !! i).
  { rewrite Hbd, lookup_alter_eq. reflexivity. }
  unfold bodies in E. rewrite !lookup_fmap, Hins in E. simpl in E.
  destruct (instrs s' !! i) as [ins'|]; [|discriminate]. simpl in *.
  unfold body_fields in E. congruence.
Qed.

Lemma erase_instruction_contract_witness :
  erase_contract true one_slot 10 [100; 101; 102; 103]%nat 101
    (plain_instr IR_OP_STORE None None [200%nat; 201%nat]
       (Some 10%nat) (Some 100%nat) (Some 102%nat)).
Proof.
  apply erase_instruction_contract.
  - apply (bool_decide_unpack _). vm_compute. reflexivity.
  - apply (bool_decide_unpack _). vm_compute. reflexivity.
  - apply (bool_decide_unpack _). vm_compute. reflexivity.
  - apply (bool_decide_unpack _). vm_compute. reflexivity.
  - vm_compute. reflexivity.
  - exact I.
  - discriminate.
Defined.

(** ** ADCE *)















(** *** What liveness cannot reach *)





















(** *** What the tables decide *)


Lemma parent_function_ok_ext s s' b :
  bb_parent <$> blocks s' = bb_parent <$> blocks s →
  (∀ p, is_Some (funcs s' !! p) ↔ is_Some (funcs s !! p)) →
  parent_function_ok s b → parent_function_ok s' b.
Proof.
  intros Hb Hf. unfold parent_function_ok.
  assert (E : bb_parent <$> blocks s' !! b = bb_parent <$> blocks s !! b)
    by (rewrite <- !lookup_fmap, Hb; reflexivity).
  destruct (blocks s !! b) as [blk|], (blocks s' !! b) as [blk'|];
    simpl in E; try discriminate; [|auto].
  injection E as ->. destruct (bb_parent blk); [|auto]. apply Hf.
Qed.


(** *** The sweep *)















(** ** BitSet *)

Lemma quot64_lt id n : 0 ≤ id → (Z.quot id 64 <? n) = (id <? 64 * n).
Proof.
  intros Hid. rewrite Z.quot_div_nonneg by lia.
  destruct (Z.ltb_spec (id / 64) n) as [H|H], (Z.ltb_spec id (64 * n)) as [H'|H'];
    try reflexivity; exfalso.
  - pose proof (Z.mul_div_le id 64 ltac:(lia)). pose proof (Z.mod_pos_bound id 64 ltac:(lia)).
    pose proof (Z.div_mod id 64 ltac:(lia)). lia.
  - pose proof (Z.div_lt_upper_bound id 64 n ltac:(lia) H'). lia.
Qed.

Lemma bitset_contains_spec bs id :
  bitset_contains bs id = (0 <=? id) && (id <? 64 * bs_num_words bs) && Z.testbit (bs_bits bs) id.
Proof.
  unfold bitset_contains.
  destruct (Z.ltb_spec id 0) as [H|H].
  - destruct (Z.leb_spec 0 id); [lia|reflexivity].
  - destruct (Z.leb_spec 0 id) as [_|]; [|lia]. simpl.
    rewrite <- (quot64_lt id _ H), Z.ltb_antisym.
    destruct (bs_num_words bs <=? Z.quot id 64); reflexivity.
Qed.

Lemma testbit_one_shifted id id' : 0 ≤ id → 0 ≤ id' →
  Z.testbit (Z.shiftl 1 id) id' = bool_decide (id' = id).
Proof.
  intros H H'. rewrite Z.shiftl_1_l, Z.pow2_bits_eqb by lia.
  destruct (Z.eqb_spec id id') as [->|Hne].
  - rewrite bool_decide_true; reflexivity.
  - rewrite bool_decide_false; [reflexivity|congruence].
Qed.

Lemma testbit_keep_high b k id : 0 ≤ k → 0 ≤ id →
  Z.testbit (Z.shiftl (Z.shiftr b k) k) id = negb (id <? k) && Z.testbit b id.
Proof.
  intros Hk Hid. destruct (Z.ltb_spec id k) as [H|H]; simpl.
  - apply Z.shiftl_spec_low. exact H.
  - rewrite Z.shiftl_spec by lia. rewrite Z.shiftr_spec by lia. f_equal. lia.
Qed.

Lemma testbit_ones_nonneg n id : 0 ≤ n → 0 ≤ id → Z.testbit (Z.ones n) id = (id <? n).
Proof.
  intros Hn Hid. rewrite Z.testbit_ones by exact Hn.
  destruct (Z.leb_spec 0 id); [reflexivity|lia].
Qed.

(** X1: a fresh bit set has no member, and [bitset_add] adds exactly [id] when
    [id] is within the words of the set; an [id] that is negative or beyond
    the last word is dropped and the set stays as it was. *)
Theorem bitset_add_then_contains bs n id id' :
  bitset_contains (bitset_create n) id = false
  ∧ bitset_contains (bitset_add bs id) id'
    = bitset_contains bs id'
      || (bool_decide (id' = id) && (0 <=? id) && (id <? 64 * bs_num_words bs)).
Proof.
  split.
  - rewrite bitset_contains_spec. simpl. rewrite Z.testbit_0_l. apply andb_false_r.
  - unfold bitset_add. destruct (Z.ltb_spec id 0) as [Hneg|Hpos].
    { destruct (Z.leb_spec 0 id); [lia|]. rewrite andb_false_r. simpl.
      symmetry. apply orb_false_r. }
    destruct (Z.leb_spec 0 id) as [_|]; [|lia].
    rewrite (Z.leb_antisym (Z.quot id 64)), (quot64_lt id _ Hpos).
    destruct (Z.ltb_spec id (64 * bs_num_words bs)) as [Hin|Hout]; simpl.
    + rewrite !bitset_contains_spec. simpl.
      destruct (Z.leb_spec 0 id') as [Hpos'|Hneg'].
      2:{ simpl. rewrite bool_decide_false by lia. reflexivity. }
      simpl. rewrite Z.lor_spec, testbit_one_shifted by lia.
      destruct (Z.ltb_spec id' (64 * bs_num_words bs)) as [Hin'|Hout']; simpl.
      * rewrite !andb_true_r. reflexivity.
      * rewrite bool_decide_false by lia. reflexivity.
    + rewrite andb_false_r. symmetry. apply orb_false_r.
Qed.

(** X2: [bitset_intersect] on two sets of the same size leaves in [dest] the
    ids that were in both. *)
Theorem bitset_intersect_contains assert_on dest src :
  bs_num_words dest = bs_num_words src →
  ∃ r, bitset_intersect assert_on dest src = Done r
       ∧ bs_num_words r = bs_num_words dest
       ∧ ∀ id, bitset_contains r id = bitset_contains dest id && bitset_contains src id.
Proof.
  intros Hw. unfold bitset_intersect, c_assert.
  rewrite (proj2 (Z.eqb_eq _ _) Hw), andb_false_r. simpl.
  eexists. split; [reflexivity|]. split; [reflexivity|].
  intros id. rewrite !bitset_contains_spec. simpl. rewrite <- Hw.
  destruct (Z.leb_spec 0 id) as [Hpos|Hneg]; [|reflexivity]. simpl.
  destruct (Z.ltb_spec id (64 * bs_num_words dest)) as [Hin|Hout]; [|reflexivity]. simpl.
  rewrite !Z.land_spec, testbit_ones_nonneg by lia.
  rewrite (proj2 (Z.ltb_lt _ _) Hin), andb_true_r. reflexivity.
Qed.

Lemma bitset_intersect_contains_witness :
  ∃ r, bitset_intersect true (mkBitSet 2 (2 ^ 3 + 2 ^ 70)) (mkBitSet 2 (2 ^ 70 + 2 ^ 100))
       = Done r
       ∧ bs_num_words r = 2
       ∧ ∀ id, bitset_contains r id
               = bitset_contains (mkBitSet 2 (2 ^ 3 + 2 ^ 70)) id
                 && bitset_contains (mkBitSet 2 (2 ^ 70 + 2 ^ 100)) id.
Proof.
  apply (bitset_intersect_contains true (mkBitSet 2 (2 ^ 3 + 2 ^ 70))
           (mkBitSet 2 (2 ^ 70 + 2 ^ 100))).
  reflexivity.
Defined.

(** X3: [bitset_set_all(bs, n)] makes the members of the first
    [(n + 63) / 64] words exactly the ids [0 .. n-1]: the bits of the last word
    past [n] are cleared; the words after them keep their members. *)
Theorem bitset_set_all_contains assert_on bs n :
  0 ≤ n → Z.quot (n + 63) 64 ≤ bs_num_words bs →
  ∃ r, bitset_set_all assert_on bs n = Done r
       ∧ bs_num_words r = bs_num_words bs
       ∧ ∀ id, bitset_contains r id
               = if id <? 64 * Z.quot (n + 63) 64 then (0 <=? id) && (id <? n)
                 else bitset_contains bs id.
Proof.
  intros Hn Hw. unfold bitset_set_all, c_assert.
  rewrite (proj2 (Z.leb_le _ _) Hw), andb_false_r. cbn [mbind outcome_bind].
  set (k := Z.quot (n + 63) 64) in *. set (rb := Z.rem n 64).
  assert (Hk : 0 ≤ k ∧ n ≤ 64 * k ∧ 0 ≤ rb < 64 ∧ (0 < rb → n = 64 * (k - 1) + rb)
               ∧ (rb = 0 → n = 64 * k)).
  { subst k rb. rewrite Z.quot_div_nonneg, Z.rem_mod_nonneg by lia.
    pose proof (Z.div_mod (n + 63) 64 ltac:(lia)).
    pose proof (Z.mod_pos_bound (n + 63) 64 ltac:(lia)).
    pose proof (Z.div_mod n 64 ltac:(lia)).
    pose proof (Z.mod_pos_bound n 64 ltac:(lia)).
    assert (0 ≤ (n + 63) / 64) by (apply Z.div_pos; lia).
    split; [lia|]. split; [lia|]. split; [lia|].
    split; intros Hr.
    - assert ((n + 63) / 64 = n / 64 + 1); [|lia].
      symmetry. apply (Z.div_unique (n + 63) 64 (n / 64 + 1) (n mod 64 - 1)); lia.
    - assert ((n + 63) / 64 = n / 64); [|lia].
      symmetry. apply (Z.div_unique (n + 63) 64 (n / 64) 63); lia. }
  destruct Hk as (Hk0 & Hnk & Hrb & Hpart & Hfull).
  destruct (Z.ltb_spec k 0) as [|_]; [lia|].
  eexists. split; [reflexivity|]. split; [reflexivity|].
  intros id. rewrite !bitset_contains_spec. cbn [bs_num_words bs_bits].
  destruct (Z.leb_spec 0 id) as [Hpos|Hneg]; simpl.
  2:{ destruct (id <? 64 * k); reflexivity. }
  assert (Hfilled : Z.testbit
            (Z.lor (Z.shiftl (Z.shiftr (bs_bits bs) (64 * k)) (64 * k)) (Z.ones (64 * k))) id
          = (if id <? 64 * k then true else Z.testbit (bs_bits bs) id)).
  { rewrite Z.lor_spec, testbit_keep_high, testbit_ones_nonneg by lia.
    destruct (id <? 64 * k); simpl; [reflexivity|apply orb_false_r]. }
  destruct (Z.ltb_spec 0 rb) as [Hr|Hr]; simpl.
  - destruct (Z.ltb_spec 0 k) as [Hkpos|Hk1]; simpl.
    + rewrite Z.ldiff_spec, Hfilled, Z.shiftl_spec, Z.testbit_ones by lia.
      specialize (Hpart Hr).
      destruct (Z.ltb_spec id (64 * k)) as [Hlow|Hhigh]; simpl.
      * destruct (Z.ltb_spec id (64 * bs_num_words bs)); [|lia]. simpl.
        destruct (Z.ltb_spec id n), (Z.leb_spec 0 (id - (64 * (k - 1) + rb))),
          (Z.ltb_spec (id - (64 * (k - 1) + rb)) (64 - rb)); simpl; try reflexivity; lia.
      * destruct (Z.leb_spec 0 (id - (64 * (k - 1) + rb))),
          (Z.ltb_spec (id - (64 * (k - 1) + rb)) (64 - rb)); simpl;
          try (rewrite ?andb_true_r; reflexivity); lia.
    + lia.
  - rewrite Hfilled. specialize (Hfull ltac:(lia)).
    destruct (Z.ltb_spec id (64 * k)) as [Hlow|Hhigh]; simpl.
    + destruct (Z.ltb_spec id (64 * bs_num_words bs)); [|lia].
      destruct (Z.ltb_spec id n); [reflexivity|lia].
    + reflexivity.
Qed.

Lemma bitset_set_all_contains_witness :
  ∃ r, bitset_set_all true (mkBitSet 3 (2 ^ 69 + 2 ^ 130)) 70 = Done r
       ∧ bs_num_words r = 3
       ∧ ∀ id, bitset_contains r id
               = if id <? 64 * Z.quot (70 + 63) 64 then (0 <=? id) && (id <? 70)
                 else bitset_contains (mkBitSet 3 (2 ^ 69 + 2 ^ 130)) id.
Proof.
  apply (bitset_set_all_contains true (mkBitSet 3 (2 ^ 69 + 2 ^ 130)) 70).
  - lia.
  - vm_compute. discriminate.
Defined.

(** X4: [bitset_equals] on two sets of the same size answers true exactly
    when the sets have the same members. *)
Theorem bitset_equals_same_members assert_on bs1 bs2 :
  bs_num_words bs1 = bs_num_words bs2 → 0 ≤ bs_num_words bs1 →
  ∃ r, bitset_equals assert_on bs1 bs2 = Done r
       ∧ (r = true ↔ ∀ id, bitset_contains bs1 id = bitset_contains bs2 id).
Proof.
  intros Hw Hnn. unfold bitset_equals, c_assert.
  rewrite (proj2 (Z.eqb_eq _ _) Hw), andb_false_r. simpl.
  eexists. split; [reflexivity|].
  set (k := 64 * bs_num_words bs1).
  assert (Hk : 0 ≤ k) by (subst k; lia).
  rewrite Z.eqb_eq. split.
  - intros Heq id. rewrite !bitset_contains_spec, <- Hw. fold k.
    destruct (Z.leb_spec 0 id) as [Hpos|Hneg]; [|reflexivity]. simpl.
    destruct (Z.ltb_spec id k) as [Hin|Hout]; [|reflexivity]. simpl.
    assert (E : Z.testbit (Z.land (bs_bits bs1) (Z.ones k)) id
                = Z.testbit (Z.land (bs_bits bs2) (Z.ones k)) id) by (rewrite Heq; reflexivity).
    rewrite !Z.land_spec, testbit_ones_nonneg in E by lia.
    rewrite (proj2 (Z.ltb_lt _ _) Hin), !andb_true_r in E. exact E.
  - intros Hall. apply Z.bits_inj'. intros id Hpos.
    rewrite !Z.land_spec, testbit_ones_nonneg by lia.
    destruct (Z.ltb_spec id k) as [Hin|Hout]; [|rewrite !andb_false_r; reflexivity].
    rewrite !andb_true_r. specialize (Hall id).
    rewrite !bitset_contains_spec, <- Hw in Hall. fold k in Hall.
    rewrite (proj2 (Z.leb_le _ _) Hpos), (proj2 (Z.ltb_lt _ _) Hin) in Hall. exact Hall.
Qed.

Lemma bitset_equals_same_members_witness :
  ∃ r, bitset_equals true (mkBitSet 1 5) (mkBitSet 1 (5 + 2 ^ 64)) = Done r
       ∧ (r = true ↔ ∀ id, bitset_contains (mkBitSet 1 5) id
                            = bitset_contains (mkBitSet 1 (5 + 2 ^ 64)) id).
Proof.
  apply (bitset_equals_same_members true (mkBitSet 1 5) (mkBitSet 1 (5 + 2 ^ 64))).
  - reflexivity.
  - simpl. lia.
Defined.

(** X5: [bitset_copy(dest, src)] gives [dest] the members of [src] over the
    words both sets have; with sets of different sizes the words of [dest]
    past those of [src] keep their members. *)
Theorem bitset_copy_contains dest src id :
  0 ≤ bs_num_words dest → 0 ≤ bs_num_words src →
  bitset_contains (bitset_copy dest src) id
  = if id <? 64 * Z.min (bs_num_words dest) (bs_num_words src)
    then bitset_contains src id else bitset_contains dest id.
Proof.
  intros Hd Hs. rewrite !bitset_contains_spec. unfold bitset_copy. simpl.
  set (k := 64 * Z.min (bs_num_words dest) (bs_num_words src)).
  assert (Hk : 0 ≤ k ∧ k ≤ 64 * bs_num_words dest ∧ k ≤ 64 * bs_num_words src)
    by (subst k; lia).
  destruct (Z.leb_spec 0 id) as [Hpos|Hneg]; simpl.
  2:{ destruct (id <? k); reflexivity. }
  rewrite Z.lor_spec, Z.land_spec, testbit_keep_high, testbit_ones_nonneg by lia.
  destruct (Z.ltb_spec id k) as [Hlow|Hhigh]; simpl.
  - destruct (Z.ltb_spec id (64 * bs_num_words dest)); [|lia].
    destruct (Z.ltb_spec id (64 * bs_num_words src)); [|lia].
    simpl. rewrite andb_true_r. reflexivity.
  - rewrite andb_false_r, orb_false_r. reflexivity.
Qed.

Lemma bitset_copy_contains_witness :
  bitset_contains (bitset_copy (mkBitSet 2 (2 ^ 1 + 2 ^ 100)) (mkBitSet 1 (2 ^ 5))) 100
  = if 100 <? 64 * Z.min 2 1
    then bitset_contains (mkBitSet 1 (2 ^ 5)) 100
    else bitset_contains (mkBitSet 2 (2 ^ 1 + 2 ^ 100)) 100.
Proof.
  apply (bitset_copy_contains (mkBitSet 2 (2 ^ 1 + 2 ^ 100)) (mkBitSet 1 (2 ^ 5)) 100).
  - simpl. lia.
  - simpl. lia.
Defined.

(** ** ValueMap *)

(** The key and the chain link of an entry: what a bucket walk reads. *)
Lemma bucket_find_key entries k : ∀ fuel cur i,
  bucket_find entries fuel cur k = Done (Some i) →
  ∃ e, entries !! i = Some e ∧ e_old_val e = Some k.
Proof.
  induction fuel as [|n IH]; intros cur i H; destruct cur as [j|]; simpl in H;
    try discriminate.
  destruct (entries !! j) as [e|] eqn:He; simpl in H; [|discriminate].
  unfold ptr_eqb in H. destruct (decide (e_old_val e = Some k)) as [Hk|Hk].
  - rewrite bool_decide_true in H by exact Hk. injection H as <-. eauto.
  - rewrite bool_decide_false in H by exact Hk. eapply IH, H.
Qed.

Lemma bucket_find_step entries fuel i k :
  bucket_find entries (S fuel) (Some i) k
  = e ← nonnull (entries !! i);
    if ptr_eqb (e_old_val e) (Some k) then Done (Some i)
    else bucket_find entries fuel (e_next_in_hash e) k.
Proof. reflexivity. Qed.

(** Two arrays that agree, below [n], on the keys and links, are walked alike
    from an entry below [n] when the links of one go down. *)
Lemma bucket_find_agree e1 e2 k n :
  (∀ j, (j < n)%nat →
        (λ e, (e_old_val e, e_next_in_hash e)) <$> e1 !! j
        = (λ e, (e_old_val e, e_next_in_hash e)) <$> e2 !! j) →
  (∀ j e j', (j < n)%nat → e1 !! j = Some e → e_next_in_hash e = Some j' → (j' < j)%nat) →
  ∀ fuel cur, (∀ j, cur = Some j → (j < n)%nat) →
    bucket_find e1 fuel cur k = bucket_find e2 fuel cur k.
Proof.
  intros Hagree Hdown. induction fuel as [|f IH]; intros cur Hcur;
    destruct cur as [j|]; simpl; try reflexivity.
  specialize (Hcur j eq_refl). pose proof (Hagree j Hcur) as E.
  destruct (e1 !! j) as [a|] eqn:Ha, (e2 !! j) as [b|] eqn:Hb; simpl in E;
    try discriminate; [|reflexivity].
  injection E as Ek En. simpl. rewrite <- Ek, <- En.
  destruct (ptr_eqb (e_old_val a) (Some k)); [reflexivity|].
  apply IH. intros j' Hj'. specialize (Hdown j a j' Hcur Ha Hj'). lia.
Qed.

(** With links that go down, a walk from an entry below [n] needs no more
    than [n] steps. *)
Lemma bucket_find_enough entries k : ∀ n fuel1 fuel2 cur,
  (∀ j e j', (j < n)%nat → entries !! j = Some e → e_next_in_hash e = Some j' →
             (j' < j)%nat) →
  (∀ j, cur = Some j → (j < n)%nat) → (n ≤ fuel1)%nat → (n ≤ fuel2)%nat →
  bucket_find entries fuel1 cur k = bucket_find entries fuel2 cur k.
Proof.
  induction n as [|n IH]; intros fuel1 fuel2 cur Hdown Hcur H1 H2.
  - destruct cur as [j|]; [specialize (Hcur j eq_refl); lia|].
    destruct fuel1, fuel2; reflexivity.
  - destruct cur as [j|]; [|destruct fuel1, fuel2; reflexivity].
    specialize (Hcur j eq_refl).
    destruct fuel1 as [|f1]; [lia|]. destruct fuel2 as [|f2]; [lia|]. simpl.
    destruct (entries !! j) as [e|] eqn:He; simpl; [|reflexivity].
    destruct (ptr_eqb (e_old_val e) (Some k)); [reflexivity|].
    apply IH; try lia.
    + intros j0 e0 j' Hj0. apply Hdown. lia.
    + intros j' Hj'. specialize (Hdown j e j' Hcur He Hj'). lia.
Qed.

(** ... and it ends. *)
Lemma bucket_find_returns entries k : ∀ n fuel cur,
  (∀ j e j', (j < n)%nat → entries !! j = Some e → e_next_in_hash e = Some j' →
             (j' < j)%nat) →
  (∀ j, cur = Some j → (j < n)%nat ∧ (j < length entries)%nat) → (n ≤ fuel)%nat →
  ∃ r, bucket_find entries fuel cur k = Done r.
Proof.
  induction n as [|n IH]; intros fuel cur Hdown Hcur Hf.
  - destruct cur as [j|]; [destruct (Hcur j eq_refl); lia|].
    destruct fuel; simpl; eauto.
  - destruct cur as [j|]; [|destruct fuel; simpl; eauto].
    destruct (Hcur j eq_refl) as [Hj Hlen].
    destruct fuel as [|f]; [lia|]. simpl.
    destruct (lookup_lt_is_Some_2 entries j Hlen) as [e He]. rewrite He. simpl.
    destruct (ptr_eqb (e_old_val e) (Some k)); [eauto|].
    apply IH; try lia.
    + intros j0 e0 j' Hj0. apply Hdown. lia.
    + intros j' Hj'. pose proof (Hdown j e j' Hj He Hj'). lia.
Qed.

Section value_map_facts.
Variable hw : nat → Z.

Lemma hash_value_range s v h : hash_value hw s v = Done h → 0 ≤ h < 2 ^ 32.
Proof.
  assert (R : ∀ z, 0 ≤ to_unsigned_int z < 2 ^ 32)
    by (intros z; unfold to_unsigned_int; apply Z.mod_pos_bound; lia).
  unfold hash_value. destruct v as [p|]; [|intros [= <-]; lia].
  intros H. apply bind_Done in H as (v & _ & H).
  destruct (v_is_constant v); [|injection H as <-; apply R].
  apply bind_Done in H as (t & _ & H).
  destruct (bool_decide (ty_kind t = TYPE_BASIC)); injection H as <-; apply R.
Qed.

Lemma vm_wf_down s m :
  vm_wf hw s m →
  ∀ j e j', vm_entries m !! j = Some e → e_next_in_hash e = Some j' → (j' < j)%nat.
Proof.
  intros (_ & _ & _ & Hall & _) j e j' He Hn.
  rewrite <- (lookup_map_seq_0 (M := gmap nat)) in He.
  destruct (Hall j e He) as [_ Hd]. rewrite Hn in Hd. exact Hd.
Qed.

Lemma vm_wf_heads s m :
  vm_wf hw s m →
  ∀ b j, vm_hash_table m !! b = Some (Some j) → (j < length (vm_entries m))%nat.
Proof.
  intros (_ & _ & _ & _ & Hh) b j Hb.
  exact (proj1 (Forall_lookup _ _) Hh b (Some j) Hb).
Qed.

Lemma vm_wf_entry s m i e :
  vm_wf hw s m → vm_entries m !! i = Some e →
  ∃ k, e_old_val e = Some k ∧ finds hw s m k i ∧ key_ok s k.
Proof.
  intros (_ & _ & _ & Hall & _) He.
  rewrite <- (lookup_map_seq_0 (M := gmap nat)) in He.
  destruct (Hall i e He) as [Hk _].
  destruct (e_old_val e) as [k|]; [|contradiction]. destruct Hk. eauto.
Qed.

Lemma value_map_find_Done s m k b r :
  value_map_find hw s m k = Done (b, r) →
  ∃ h head, hash_value hw s (Some k) = Done h ∧ vm_hash_table m ≠ []
            ∧ b = h mod vm_hash_capacity m
            ∧ vm_hash_table m !! Z.to_nat b = Some head
            ∧ bucket_find (vm_entries m) (S (length (vm_entries m))) head k = Done r.
Proof.
  unfold value_map_find. intros H.
  apply bind_Done in H as (h & Hh & H).
  apply bind_Done in H as (b' & Hb & H).
  apply bind_Done in H as (head & Hhead & H).
  apply bind_Done in H as (r' & Hr & H). injection H as <- <-.
  unfold bucket_index in Hb.
  destruct (Z.eqb_spec (vm_hash_capacity m) 0) as [|Hne]; [discriminate|].
  injection Hb as <-.
  unfold array_at in Hhead.
  destruct (h mod vm_hash_capacity m <? 0); [discriminate|].
  apply nonnull_Done in Hhead.
  exists h, head. repeat split; auto.
  intros E. apply Hne. unfold vm_hash_capacity. rewrite E. reflexivity.
Qed.

Lemma value_map_find_intro s m k h head r :
  hash_value hw s (Some k) = Done h → vm_hash_table m ≠ [] →
  vm_hash_table m !! Z.to_nat (h mod vm_hash_capacity m) = Some head →
  bucket_find (vm_entries m) (S (length (vm_entries m))) head k = Done r →
  value_map_find hw s m k = Done (h mod vm_hash_capacity m, r).
Proof.
  intros Hh Hne Hhead Hr. unfold value_map_find.
  rewrite Hh, outcome_bind_Done. cbv beta.
  assert (Hc : 0 < vm_hash_capacity m).
  { unfold vm_hash_capacity. destruct (vm_hash_table m); [contradiction|]. simpl. lia. }
  unfold bucket_index. destruct (Z.eqb_spec (vm_hash_capacity m) 0) as [|_]; [lia|].
  rewrite outcome_bind_Done. cbv beta.
  pose proof (hash_value_range _ _ _ Hh) as Hr0.
  pose proof (Z.mod_pos_bound h _ Hc) as Hb.
  unfold array_at. destruct (Z.ltb_spec (h mod vm_hash_capacity m) 0) as [|_]; [lia|].
  rewrite Hhead. change (nonnull (Some head)) with (Done head).
  rewrite outcome_bind_Done. cbv beta. rewrite Hr. reflexivity.
Qed.

Lemma bucket_in_table m h :
  vm_hash_table m ≠ [] → 0 ≤ h →
  (Z.to_nat (h mod vm_hash_capacity m) < length (vm_hash_table m))%nat.
Proof.
  intros Hne Hh.
  assert (Hc : 0 < vm_hash_capacity m).
  { unfold vm_hash_capacity. destruct (vm_hash_table m); [contradiction|]. simpl. lia. }
  pose proof (Z.mod_pos_bound h _ Hc) as Hb. unfold vm_hash_capacity in *. lia.
Qed.

(** In a well-formed map every lookup returns. *)
Lemma value_map_find_total s m k h :
  vm_wf hw s m → hash_value hw s (Some k) = Done h →
  ∃ r, value_map_find hw s m k = Done (h mod vm_hash_capacity m, r).
Proof.
  intros Hwf Hh. pose proof Hwf as (_ & Hne & _).
  pose proof (hash_value_range _ _ _ Hh) as Hr0.
  destruct (lookup_lt_is_Some_2 _ _ (bucket_in_table m h Hne ltac:(lia))) as [head Hhead].
  destruct (bucket_find_returns (vm_entries m) k (length (vm_entries m))
              (S (length (vm_entries m))) head) as [r Hr].
  - intros j e j' _. apply (vm_wf_down s m Hwf).
  - intros j ->. split; eapply vm_wf_heads; eauto.
  - lia.
  - exists r. eapply value_map_find_intro; eauto.
Qed.

(** What [value_map_get] answers in a well-formed map. *)
Lemma value_map_get_content s m k h :
  vm_wf hw s m → hash_value hw s (Some k) = Done h →
  value_map_get hw s (Some m) (Some k) = Done (vm_content m k).
Proof.
  intros Hwf Hh. destruct (value_map_find_total s m k h Hwf Hh) as [r Hr].
  unfold value_map_get. rewrite Hr, outcome_bind_Done. cbv beta iota.
  pose proof Hwf as (_ & _ & Hnd & _).
  unfold vm_content.
  destruct r as [i|].
  - apply value_map_find_Done in Hr as (h' & head & _ & _ & _ & _ & Hr).
    apply bucket_find_key in Hr as (e & He & Hk). rewrite He. simpl.
    destruct (list_find _ _) as [[i0 e0]|] eqn:Hf.
    + apply list_find_Some in Hf as (He0 & Hk0 & _).
      assert (i0 = i).
      { apply (NoDup_lookup _ i0 i (Some k) Hnd);
          rewrite list_lookup_fmap; [rewrite He0|rewrite He]; simpl; congruence. }
      subst i0. congruence.
    + apply list_find_None in Hf.
      pose proof (proj1 (Forall_lookup _ _) Hf i e He) as Hn. simpl in Hn. contradiction.
  - destruct (list_find _ _) as [[i0 e0]|] eqn:Hf; [|reflexivity].
    apply list_find_Some in Hf as (He0 & Hk0 & _).
    destruct (vm_wf_entry s m i0 e0 Hwf He0) as (k0 & Hk0' & Hfinds & _).
    assert (k0 = k) by congruence. subst k0.
    unfold finds in Hfinds. rewrite Hr in Hfinds. contradiction.
Qed.

Lemma outcome_bind_ext {A B} (m : outcome A) (k1 k2 : A → outcome B) :
  (∀ a, m = Done a → k1 a = k2 a) → m ≫= k1 = m ≫= k2.
Proof. intros H. destruct m as [a|f]; [apply H; reflexivity|reflexivity]. Qed.

Lemma vm_content_entry m i e k :
  NoDup (e_old_val <$> vm_entries m) → vm_entries m !! i = Some e → e_old_val e = Some k →
  vm_content m k = e_new_val e.
Proof.
  intros Hnd He Hk. unfold vm_content.
  destruct (list_find _ _) as [[i0 e0]|] eqn:Hf.
  - apply list_find_Some in Hf as (He0 & Hk0 & _).
    assert (i0 = i).
    { apply (NoDup_lookup _ i0 i (Some k) Hnd);
        rewrite list_lookup_fmap; [rewrite He0|rewrite He]; simpl; congruence. }
    subst i0. congruence.
  - apply list_find_None in Hf.
    pose proof (proj1 (Forall_lookup _ _) Hf i e He) as Hn. simpl in Hn. contradiction.
Qed.

Lemma vm_content_absent m k :
  (∀ i e, vm_entries m !! i = Some e → e_old_val e ≠ Some k) → vm_content m k = None.
Proof.
  intros Hno. unfold vm_content.
  destruct (list_find _ _) as [[i0 e0]|] eqn:Hf; [|reflexivity].
  apply list_find_Some in Hf as (He0 & Hk0 & _). destruct (Hno i0 e0 He0 Hk0).
Qed.

Lemma vm_content_cases m k :
  (∃ i e, vm_entries m !! i = Some e ∧ e_old_val e = Some k)
  ∨ (∀ i e, vm_entries m !! i = Some e → e_old_val e ≠ Some k).
Proof.
  destruct (list_find (λ e, e_old_val e = Some k) (vm_entries m)) as [[i0 e0]|] eqn:Hf.
  - apply list_find_Some in Hf as (He0 & Hk0 & _). left. eauto.
  - apply list_find_None in Hf. right. intros i e He.
    exact (proj1 (Forall_lookup _ _) Hf i e He).
Qed.

(** Two maps with the same entries, up to the chain links, hold the same. *)
Lemma vm_content_same_pairs m m' k :
  NoDup (e_old_val <$> vm_entries m) →
  (λ e, (e_old_val e, e_new_val e)) <$> vm_entries m'
  = (λ e, (e_old_val e, e_new_val e)) <$> vm_entries m →
  vm_content m' k = vm_content m k.
Proof.
  intros Hnd Heq.
  assert (Hl : ∀ j, (λ e, (e_old_val e, e_new_val e)) <$> vm_entries m' !! j
                    = (λ e, (e_old_val e, e_new_val e)) <$> vm_entries m !! j).
  { intros j. rewrite <- !list_lookup_fmap, Heq. reflexivity. }
  assert (Hk : e_old_val <$> vm_entries m' = e_old_val <$> vm_entries m).
  { apply list_eq. intros j. rewrite !list_lookup_fmap. specialize (Hl j).
    destruct (vm_entries m' !! j), (vm_entries m !! j); simpl in *; congruence. }
  destruct (vm_content_cases m k) as [(i & e & He & Hke)|Hno].
  - rewrite (vm_content_entry m i e k Hnd He Hke).
    specialize (Hl i). rewrite He in Hl.
    destruct (vm_entries m' !! i) as [e'|] eqn:He'; simpl in Hl; [|discriminate].
    injection Hl as Hk' Hv'.
    rewrite (vm_content_entry m' i e' k); [congruence|rewrite Hk; exact Hnd|exact He'|congruence].
  - rewrite (vm_content_absent m k Hno). apply vm_content_absent.
    intros i e' He' Hk'. specialize (Hl i). rewrite He' in Hl.
    destruct (vm_entries m !! i) as [e|] eqn:He; simpl in Hl; [|discriminate].
    injection Hl as Hk'' _. apply (Hno i e He). congruence.
Qed.

(** *** Overwriting the value of an entry *)

Lemma value_map_find_same_shape s m m' k :
  vm_wf hw s m → vm_hash_table m' = vm_hash_table m →
  length (vm_entries m') = length (vm_entries m) →
  (∀ j, (λ e, (e_old_val e, e_next_in_hash e)) <$> vm_entries m' !! j
        = (λ e, (e_old_val e, e_next_in_hash e)) <$> vm_entries m !! j) →
  value_map_find hw s m' k = value_map_find hw s m k.
Proof.
  intros Hwf Ht Hlen Hshape. unfold value_map_find, vm_hash_capacity. rewrite Ht, Hlen.
  apply outcome_bind_ext. intros h _. apply outcome_bind_ext. intros b _.
  apply outcome_bind_ext. intros head Hhead.
  assert (Hcur : ∀ j, head = Some j → (j < length (vm_entries m))%nat).
  { intros j ->. unfold array_at in Hhead. destruct (b <? 0); [discriminate|].
    apply nonnull_Done in Hhead. eapply vm_wf_heads; eauto. }
  rewrite (bucket_find_agree (vm_entries m') (vm_entries m) k (length (vm_entries m)));
    [reflexivity| | |exact Hcur].
  - intros j _. apply Hshape.
  - intros j e j' _ He Hn. specialize (Hshape j). rewrite He in Hshape.
    destruct (vm_entries m !! j) as [e0|] eqn:He0; simpl in Hshape; [|discriminate].
    injection Hshape as _ Hn0. eapply (vm_wf_down s m Hwf j e0); [exact He0|congruence].
Qed.

Lemma vm_wf_update s m i e nv :
  vm_wf hw s m → vm_entries m !! i = Some e →
  vm_wf hw s (mkValueMap (<[i := e_with_new_val nv e]> (vm_entries m)) (vm_capacity m)
                (vm_hash_table m)).
Proof.
  intros Hwf He. pose proof Hwf as ((Hc & Hcnt & Hmax) & Hne & Hnd & Hall & Hh).
  set (m' := mkValueMap _ _ _).
  assert (Hlen : length (vm_entries m') = length (vm_entries m))
    by (subst m'; simpl; apply length_insert).
  assert (Hshape : ∀ j, (λ e, (e_old_val e, e_next_in_hash e)) <$> vm_entries m' !! j
                        = (λ e, (e_old_val e, e_next_in_hash e)) <$> vm_entries m !! j).
  { intros j. subst m'. simpl. destruct (decide (i = j)) as [<-|Hne'].
    - rewrite list_lookup_insert_eq by (eapply lookup_lt_Some; eauto). rewrite He. reflexivity.
    - rewrite list_lookup_insert_ne by exact Hne'. reflexivity. }
  assert (Hkeys : e_old_val <$> vm_entries m' = e_old_val <$> vm_entries m).
  { apply list_eq. intros j. rewrite !list_lookup_fmap. specialize (Hshape j).
    destruct (vm_entries m' !! j), (vm_entries m !! j); simpl in *; congruence. }
  split; [unfold vm_count in *; rewrite Hlen; auto|].
  split; [exact Hne|]. split; [rewrite Hkeys; exact Hnd|]. split.
  - intros j e' He'. rewrite (lookup_map_seq_0 (M := gmap nat)) in He'.
    pose proof (Hshape j) as E. rewrite He' in E.
    destruct (vm_entries m !! j) as [e0|] eqn:He0; simpl in E; [|discriminate].
    injection E as Ek En.
    rewrite <- (lookup_map_seq_0 (M := gmap nat)) in He0.
    destruct (Hall j e0 He0) as [H1 H2]. unfold entry_ok. rewrite Ek, En.
    split; [|exact H2]. destruct (e_old_val e0) as [k0|]; [|exact H1].
    destruct H1 as [H1 H1']. split; [|exact H1'].
    unfold finds in *. rewrite (value_map_find_same_shape s m m' k0 Hwf); auto.
  - apply Forall_forall. intros head Hin. unfold head_ok. rewrite Hlen.
    exact (proj1 (Forall_forall _ _) Hh head Hin).
Qed.

Lemma vm_content_update m i e nv k k' :
  NoDup (e_old_val <$> vm_entries m) → vm_entries m !! i = Some e → e_old_val e = Some k →
  vm_content (mkValueMap (<[i := e_with_new_val nv e]> (vm_entries m)) (vm_capacity m)
                (vm_hash_table m)) k'
  = if decide (k' = k) then nv else vm_content m k'.
Proof.
  intros Hnd He Hk. set (m' := mkValueMap _ _ _).
  assert (Hi : (i < length (vm_entries m))%nat) by (eapply lookup_lt_Some; eauto).
  assert (Hkeys : e_old_val <$> vm_entries m' = e_old_val <$> vm_entries m).
  { subst m'. simpl. rewrite list_fmap_insert. simpl. apply list_insert_id.
    rewrite list_lookup_fmap, He. reflexivity. }
  destruct (decide (k' = k)) as [->|Hne].
  - rewrite (vm_content_entry m' i (e_with_new_val nv e) k); [reflexivity| | |exact Hk].
    + rewrite Hkeys. exact Hnd.
    + subst m'. simpl. apply list_lookup_insert_eq. exact Hi.
  - destruct (vm_content_cases m k') as [(j & ej & Hej & Hkj)|Hno].
    + assert (i ≠ j) by (intros ->; congruence).
      rewrite (vm_content_entry m j ej k' Hnd Hej Hkj).
      apply (vm_content_entry m' j ej k'); [rewrite Hkeys; exact Hnd| |exact Hkj].
      subst m'. simpl. rewrite list_lookup_insert_ne by assumption. exact Hej.
    + rewrite (vm_content_absent m k' Hno). apply vm_content_absent.
      intros j ej Hej Hkj. subst m'. simpl in Hej.
      apply list_lookup_insert_Some in Hej as [(<- & <- & _)|(_ & Hej)].
      * simpl in Hkj. congruence.
      * exact (Hno j ej Hej Hkj).
Qed.

(** *** Entering a new key *)

Lemma value_map_find_absent s m k b :
  vm_wf hw s m → value_map_find hw s m k = Done (b, None) →
  ∀ i e, vm_entries m !! i = Some e → e_old_val e ≠ Some k.
Proof.
  intros Hwf Hfind i e He Hk.
  destruct (vm_wf_entry s m i e Hwf He) as (k0 & Hk0 & Hf & _).
  assert (k0 = k) by congruence. subst k0. unfold finds in Hf. rewrite Hfind in Hf.
  contradiction.
Qed.

Lemma vm_wf_append s m k b nv head :
  vm_wf hw s m → key_ok s k → value_map_find hw s m k = Done (b, None) →
  vm_count m < vm_capacity m → vm_hash_table m !! Z.to_nat b = Some head →
  vm_wf hw s (mkValueMap (vm_entries m ++ [mkValueMapEntry (Some k) nv head])
                (vm_capacity m)
                (<[Z.to_nat b := Some (length (vm_entries m))]> (vm_hash_table m))).
Proof.
  intros Hwf Hkey Hfind Hroom Hhead.
  pose proof Hwf as ((Hc & Hcnt & Hmax) & Hne & Hnd & Hall & Hh).
  pose proof (value_map_find_absent s m k b Hwf Hfind) as Habs.
  apply value_map_find_Done in Hfind as (h & head0 & Hhash & _ & Hb & Hhead0 & _).
  set (n := length (vm_entries m)).
  set (en := mkValueMapEntry (Some k) nv head).
  set (m' := mkValueMap _ _ _).
  assert (Hcap : vm_hash_capacity m' = vm_hash_capacity m).
  { unfold vm_hash_capacity. subst m'. simpl. rewrite length_insert. reflexivity. }
  assert (Hne' : vm_hash_table m' ≠ []).
  { subst m'. simpl. intros E. apply Hne. apply (f_equal length) in E.
    rewrite length_insert in E. destruct (vm_hash_table m); [reflexivity|discriminate]. }
  assert (Hlen' : length (vm_entries m') = S n).
  { subst m'. simpl. rewrite length_app. simpl. lia. }
  assert (Hbn : (Z.to_nat b < length (vm_hash_table m))%nat) by (eapply lookup_lt_Some; eauto).
  assert (Hheadn : ∀ j, head = Some j → (j < n)%nat).
  { intros j ->. eapply vm_wf_heads; eauto. }
  assert (Hagree : ∀ j, (j < n)%nat →
            (λ e, (e_old_val e, e_next_in_hash e)) <$> vm_entries m' !! j
            = (λ e, (e_old_val e, e_next_in_hash e)) <$> vm_entries m !! j).
  { intros j Hj. subst m'. simpl. rewrite lookup_app_l by exact Hj. reflexivity. }
  assert (Hdown' : ∀ j e j', (j < n)%nat → vm_entries m' !! j = Some e →
                             e_next_in_hash e = Some j' → (j' < j)%nat).
  { intros j e j' Hj He. subst m'. simpl in He. rewrite lookup_app_l in He by exact Hj.
    eapply vm_wf_down; eauto. }
  assert (Hlast : vm_entries m' !! n = Some en).
  { subst m'. simpl. rewrite lookup_app_r by (subst n; lia).
    replace (n - length (vm_entries m))%nat with 0%nat by (subst n; lia). reflexivity. }
  split.
  { unfold vm_count in *. rewrite Hlen'. fold n in Hroom, Hmax.
    change (vm_capacity m') with (vm_capacity m). lia. }
  split; [exact Hne'|]. split.
  { subst m'. simpl. rewrite fmap_app. apply NoDup_app. split; [exact Hnd|]. split.
    - intros x Hx Hx'. apply list_elem_of_singleton in Hx'. subst x.
      apply list_elem_of_fmap in Hx as (e & Hek & Hin).
      apply list_elem_of_lookup in Hin as (i & Hi). exact (Habs i e Hi (eq_sym Hek)).
    - apply NoDup_singleton. }
  split.
  - intros j e He. rewrite (lookup_map_seq_0 (M := gmap nat)) in He.
    destruct (decide (j = n)) as [->|Hjn].
    + rewrite Hlast in He. injection He as <-. split; simpl.
      * split; [|exact Hkey]. unfold finds.
        rewrite (value_map_find_intro s m' k h (Some n) (Some n) Hhash Hne').
        -- reflexivity.
        -- rewrite Hcap, <- Hb. subst m'. simpl. apply list_lookup_insert_eq. exact Hbn.
        -- rewrite Hlen', bucket_find_step, Hlast.
           change (nonnull (Some en)) with (Done en).
           rewrite outcome_bind_Done. cbv beta. unfold ptr_eqb.
           rewrite bool_decide_true by reflexivity. reflexivity.
      * destruct head as [j|]; [|exact I]. apply Hheadn. reflexivity.
    + assert (Hj : (j < n)%nat).
      { apply lookup_lt_Some in He. rewrite Hlen' in He. lia. }
      assert (He0 : vm_entries m !! j = Some e).
      { subst m'. simpl in He. rewrite lookup_app_l in He by exact Hj. exact He. }
      destruct (vm_wf_entry s m j e Hwf He0) as (kj & Hkj & Hf & Hkeyj).
      split; [|destruct (e_next_in_hash e) as [j'|] eqn:Hn; [|exact I];
               eapply vm_wf_down; eauto].
      rewrite Hkj. split; [|exact Hkeyj]. unfold finds in *.
      destruct (value_map_find hw s m kj) as [[bj [j0|]]|] eqn:Hfj; try contradiction.
      subst j0.
      apply value_map_find_Done in Hfj as (hj & headj & Hhj & _ & Hbj & Hheadj & Hwalk).
      assert (Hkne : kj ≠ k) by (intros ->; exact (Habs j e He0 Hkj)).
      assert (Hwalk' : bucket_find (vm_entries m') (S n) headj kj = Done (Some j)).
      { rewrite <- Hwalk.
        apply (bucket_find_agree (vm_entries m') (vm_entries m) kj n Hagree Hdown').
        intros j1 ->. eapply vm_wf_heads; eauto. }
      destruct (decide (Z.to_nat bj = Z.to_nat b)) as [Hsame|Hdiff].
      * rewrite (value_map_find_intro s m' kj hj (Some n) (Some j) Hhj Hne');
          [reflexivity| |].
        -- rewrite Hcap, <- Hbj, Hsame. subst m'. simpl.
           apply list_lookup_insert_eq. exact Hbn.
        -- rewrite Hlen', bucket_find_step, Hlast. change (nonnull (Some en)) with (Done en).
           rewrite outcome_bind_Done. cbv beta. unfold ptr_eqb.
           rewrite bool_decide_false by (subst en; simpl; congruence).
           subst en. simpl e_next_in_hash.
           assert (head = headj) by (rewrite Hsame in Hheadj; congruence). subst head.
           exact Hwalk'.
      * rewrite (value_map_find_intro s m' kj hj headj (Some j) Hhj Hne');
          [reflexivity| |].
        -- rewrite Hcap, <- Hbj. subst m'. simpl.
           rewrite list_lookup_insert_ne by (intros E; apply Hdiff; symmetry; exact E).
           exact Hheadj.
        -- rewrite Hlen'. rewrite <- Hwalk'.
           apply (bucket_find_enough (vm_entries m') kj n); [exact Hdown'| |lia|lia].
           intros j1 ->. eapply vm_wf_heads; eauto.
  - subst m'. simpl. apply Forall_insert.
    + eapply Forall_impl; [exact Hh|]. intros hd. unfold head_ok. simpl.
      rewrite length_app. simpl. destruct hd; [lia|auto].
    + unfold head_ok. simpl. rewrite length_app. simpl. lia.
Qed.

Lemma vm_content_append m k nv head tbl k' :
  NoDup (e_old_val <$> vm_entries m) →
  (∀ i e, vm_entries m !! i = Some e → e_old_val e ≠ Some k) →
  vm_content (mkValueMap (vm_entries m ++ [mkValueMapEntry (Some k) nv head])
                (vm_capacity m) tbl) k'
  = if decide (k' = k) then nv else vm_content m k'.
Proof.
  intros Hnd Habs. set (m' := mkValueMap _ _ _).
  assert (Hnd' : NoDup (e_old_val <$> vm_entries m')).
  { subst m'. simpl. rewrite fmap_app. apply NoDup_app. split; [exact Hnd|]. split.
    - intros x Hx Hx'. apply list_elem_of_singleton in Hx'. subst x.
      apply list_elem_of_fmap in Hx as (e & Hek & Hin).
      apply list_elem_of_lookup in Hin as (i & Hi). exact (Habs i e Hi (eq_sym Hek)).
    - apply NoDup_singleton. }
  destruct (decide (k' = k)) as [->|Hne].
  - apply (vm_content_entry m' (length (vm_entries m)) (mkValueMapEntry (Some k) nv head) k);
      [exact Hnd'| |reflexivity].
    subst m'. simpl. rewrite lookup_app_r by lia.
    replace (length (vm_entries m) - length (vm_entries m))%nat with 0%nat by lia.
    reflexivity.
  - destruct (vm_content_cases m k') as [(j & ej & Hej & Hkj)|Hno].
    + rewrite (vm_content_entry m j ej k' Hnd Hej Hkj).
      apply (vm_content_entry m' j ej k' Hnd'); [|exact Hkj].
      subst m'. simpl. rewrite lookup_app_l by (eapply lookup_lt_Some; eauto). exact Hej.
    + rewrite (vm_content_absent m k' Hno). apply vm_content_absent.
      intros j ej Hej Hkj. subst m'. simpl in Hej.
      apply lookup_app_Some in Hej as [Hej|[_ Hej]].
      * exact (Hno j ej Hej Hkj).
      * destruct (j - length (vm_entries m))%nat; simpl in Hej; [|discriminate].
        injection Hej as <-. simpl in Hkj. congruence.
Qed.

(** *** Growing the map *)

Lemma land_power_of_two k : 0 ≤ k → Z.land (2 ^ k) (2 ^ k - 1) = 0.
Proof.
  intros Hk. replace (2 ^ k - 1) with (Z.ones k) by (rewrite Z.ones_equiv; lia).
  rewrite Z.land_ones by exact Hk. apply Z_mod_same_full.
Qed.

Lemma round_up_to_power_of_two_returns : ∀ fuel n,
  (∃ k, 0 ≤ k ∧ n ≤ 2 ^ k ≤ n + Z.of_nat fuel) →
  ∃ r, round_up_to_power_of_two fuel n = Done r ∧ n ≤ r.
Proof.
  induction fuel as [|f IH]; intros n (k & Hk & Hn).
  - assert (n = 2 ^ k) by lia. subst n. simpl.
    rewrite land_power_of_two by exact Hk. simpl. eexists. split; [reflexivity|lia].
  - simpl. destruct (Z.eqb_spec (Z.land n (n - 1)) 0) as [_|Hne].
    + eexists. split; [reflexivity|lia].
    + assert (n ≠ 2 ^ k) by (intros ->; apply Hne, land_power_of_two, Hk).
      destruct (IH (n + 1)) as (r & Hr & Hle); [exists k; lia|].
      exists r. split; [exact Hr|lia].
Qed.

Lemma round_up_from n : 1 ≤ n →
  ∃ r, round_up_to_power_of_two (Z.to_nat n) n = Done r ∧ n ≤ r.
Proof.
  intros Hn. apply round_up_to_power_of_two_returns.
  destruct (Z.eq_dec n 1) as [->|Hne].
  - exists 0. simpl. lia.
  - exists (Z.log2_up n). pose proof (Z.log2_up_spec n ltac:(lia)) as [Hlo Hhi].
    pose proof (Z.log2_up_pos n ltac:(lia)) as Hpos.
    split; [lia|]. split; [exact Hhi|].
    replace (2 ^ Z.log2_up n) with (2 * 2 ^ Z.pred (Z.log2_up n))
      by (rewrite <- Z.pow_succ_r by lia; f_equal; lia).
    lia.
Qed.

Lemma rehash_inv s n : ∀ cnt i ents tbl,
  (i + cnt = n)%nat → length ents = n → tbl ≠ [] →
  NoDup (e_old_val <$> ents) →
  (∀ j e, ents !! j = Some e →
          ∃ kj hj, e_old_val e = Some kj ∧ hash_value hw s (Some kj) = Done hj) →
  (∀ j e kj hj, (j < i)%nat → ents !! j = Some e → e_old_val e = Some kj →
                hash_value hw s (Some kj) = Done hj →
                ∃ head, tbl !! Z.to_nat (hj mod Z.of_nat (length tbl)) = Some head
                        ∧ bucket_find ents (S n) head kj = Done (Some j)) →
  (∀ j e j', (j < i)%nat → ents !! j = Some e → e_next_in_hash e = Some j' → (j' < j)%nat) →
  (∀ b j, tbl !! b = Some (Some j) → (j < i)%nat) →
  ∃ ents' tbl',
    rehash hw s (seq i cnt) ents tbl = Done (ents', tbl')
    ∧ length ents' = n ∧ length tbl' = length tbl
    ∧ (λ e, (e_old_val e, e_new_val e)) <$> ents' = (λ e, (e_old_val e, e_new_val e)) <$> ents
    ∧ (∀ j e kj hj, ents' !! j = Some e → e_old_val e = Some kj →
                    hash_value hw s (Some kj) = Done hj →
                    ∃ head, tbl' !! Z.to_nat (hj mod Z.of_nat (length tbl')) = Some head
                            ∧ bucket_find ents' (S n) head kj = Done (Some j))
    ∧ (∀ j e j', ents' !! j = Some e → e_next_in_hash e = Some j' → (j' < j)%nat)
    ∧ (∀ b j, tbl' !! b = Some (Some j) → (j < n)%nat).
Proof.
  induction cnt as [|c IH]; intros i ents tbl Hi Hlen Hne Hnd Hkeys HA HB HC.
  - assert (i = n) by lia. subst i. exists ents, tbl. simpl.
    split; [reflexivity|]. split; [exact Hlen|]. split; [reflexivity|].
    split; [reflexivity|]. split; [|split; [|exact HC]].
    + intros j e kj hj He. pose proof (lookup_lt_Some _ _ _ He). apply HA; [lia|exact He].
    + intros j e j' He. pose proof (lookup_lt_Some _ _ _ He). apply HB; [lia|exact He].
  - assert (Hin : (i < length ents)%nat) by lia.
    destruct (lookup_lt_is_Some_2 ents i Hin) as [e He].
    destruct (Hkeys i e He) as (ki & hi & Hki & Hhi).
    pose proof (hash_value_range _ _ _ Hhi) as Hri.
    assert (HH : 0 < Z.of_nat (length tbl)) by (destruct tbl; [contradiction|simpl; lia]).
    set (b := hi mod Z.of_nat (length tbl)).
    pose proof (Z.mod_pos_bound hi _ HH) as Hb. fold b in Hb.
    assert (Hbn : (Z.to_nat b < length tbl)%nat) by lia.
    destruct (lookup_lt_is_Some_2 tbl _ Hbn) as [head Hhead].
    set (e' := e_with_next_in_hash head e).
    set (ents1 := <[i := e']> ents).
    set (tbl1 := <[Z.to_nat b := Some i]> tbl).
    assert (Hrun : rehash hw s (seq i (S c)) ents tbl = rehash hw s (seq (S i) c) ents1 tbl1).
    { change (seq i (S c)) with (i :: seq (S i) c).
      change (rehash hw s (i :: seq (S i) c) ents tbl)
        with (e0 ← nonnull (ents !! i);
              hash ← hash_value hw s (e_old_val e0);
              hash ← bucket_index hash (Z.of_nat (length tbl));
              head0 ← array_at tbl hash;
              rehash hw s (seq (S i) c) (<[i := e_with_next_in_hash head0 e0]> ents)
                (<[Z.to_nat hash := Some i]> tbl)).
      rewrite He. change (nonnull (Some e)) with (Done e).
      rewrite outcome_bind_Done. cbv beta. rewrite Hki, Hhi, outcome_bind_Done. cbv beta.
      unfold bucket_index. destruct (Z.eqb_spec (Z.of_nat (length tbl)) 0) as [|_]; [lia|].
      rewrite outcome_bind_Done. cbv beta. fold b.
      unfold array_at. destruct (Z.ltb_spec b 0) as [|_]; [lia|].
      rewrite Hhead. reflexivity. }
    assert (Hlen1 : length ents1 = n) by (subst ents1; rewrite length_insert; exact Hlen).
    assert (Hlt1 : length tbl1 = length tbl) by (subst tbl1; apply length_insert).
    assert (Hk1 : e_old_val <$> ents1 = e_old_val <$> ents).
    { subst ents1. rewrite list_fmap_insert. apply list_insert_id.
      rewrite list_lookup_fmap, He. reflexivity. }
    assert (Hp1 : (λ e, (e_old_val e, e_new_val e)) <$> ents1
                  = (λ e, (e_old_val e, e_new_val e)) <$> ents).
    { subst ents1. rewrite list_fmap_insert. apply list_insert_id.
      rewrite list_lookup_fmap, He. reflexivity. }
    assert (Hi1 : ents1 !! i = Some e').
    { subst ents1. apply list_lookup_insert_eq. exact Hin. }
    assert (Hother : ∀ j, j ≠ i → ents1 !! j = ents !! j).
    { intros j Hj. subst ents1. apply list_lookup_insert_ne. congruence. }
    assert (Hheadlt : ∀ j, head = Some j → (j < i)%nat).
    { intros j ->. eapply HC; eauto. }
    destruct (IH (S i) ents1 tbl1) as (ents' & tbl' & Hr & Hl' & Ht' & Hp' & HA' & HB' & HC').
    + lia.
    + exact Hlen1.
    + intros E. apply (f_equal length) in E. rewrite Hlt1 in E.
      destruct tbl; [contradiction|discriminate].
    + rewrite Hk1. exact Hnd.
    + intros j ej Hej. destruct (decide (j = i)) as [->|Hj].
      * rewrite Hi1 in Hej. injection Hej as <-. exists ki, hi. auto.
      * rewrite (Hother j Hj) in Hej. eauto.
    + intros j ej kj hj Hj Hej Hkj Hhj. rewrite Hlt1.
      destruct (decide (j = i)) as [->|Hji].
      * rewrite Hi1 in Hej. injection Hej as <-. simpl in Hkj.
        assert (kj = ki) by congruence. subst kj.
        assert (hj = hi) by congruence. subst hj. fold b.
        exists (Some i). split; [subst tbl1; apply list_lookup_insert_eq; exact Hbn|].
        rewrite bucket_find_step, Hi1. change (nonnull (Some e')) with (Done e').
        rewrite outcome_bind_Done. cbv beta. unfold ptr_eqb.
        rewrite bool_decide_true by (subst e'; simpl; exact Hki). reflexivity.
      * assert (Hj' : (j < i)%nat) by lia.
        rewrite (Hother j Hji) in Hej.
        destruct (HA j ej kj hj Hj' Hej Hkj Hhj) as (headj & Hheadj & Hwalk).
        assert (Hkne : kj ≠ ki).
        { intros ->. apply Hji.
          apply (NoDup_lookup _ j i (Some ki) Hnd);
            rewrite list_lookup_fmap; [rewrite Hej|rewrite He]; simpl; congruence. }
        assert (Hag : ∀ fuel, bucket_find ents1 fuel headj kj = bucket_find ents fuel headj kj).
        { intros fuel. apply (bucket_find_agree ents1 ents kj i).
          - intros j0 Hj0. rewrite Hother by lia. reflexivity.
          - intros j0 e0 j0' Hj0 He0. rewrite Hother in He0 by lia. eapply HB; eauto.
          - intros j0 ->. eapply HC; eauto. }
        set (bj := hj mod Z.of_nat (length tbl)) in *.
        destruct (decide (Z.to_nat bj = Z.to_nat b)) as [Hsame|Hdiff].
        -- exists (Some i). split.
           { rewrite Hsame. subst tbl1. apply list_lookup_insert_eq. exact Hbn. }
           rewrite bucket_find_step, Hi1. change (nonnull (Some e')) with (Done e').
           rewrite outcome_bind_Done. cbv beta. unfold ptr_eqb.
           rewrite bool_decide_false by (subst e'; simpl; congruence).
           subst e'. simpl e_next_in_hash.
           assert (head = headj) by (rewrite Hsame in Hheadj; congruence). subst head.
           rewrite Hag, <- Hwalk.
           apply (bucket_find_enough ents kj i); [|exact Hheadlt|lia|lia].
           intros j0 e0 j0' Hj0. eapply HB; eauto.
        -- exists headj. split.
           { subst tbl1. rewrite list_lookup_insert_ne by congruence. exact Hheadj. }
           rewrite Hag. exact Hwalk.
    + intros j ej j' Hj Hej Hn. destruct (decide (j = i)) as [->|Hji].
      * rewrite Hi1 in Hej. injection Hej as <-. simpl in Hn. apply Hheadlt. exact Hn.
      * rewrite (Hother j Hji) in Hej. eapply HB; eauto. lia.
    + intros b0 j Hb0. subst tbl1.
      apply list_lookup_insert_Some in Hb0 as [(_ & Hj & _)|(_ & Hb0)].
      * injection Hj as <-. lia.
      * specialize (HC b0 j Hb0). lia.
    + exists ents', tbl'. rewrite Hrun. split; [exact Hr|]. split; [exact Hl'|].
      split; [congruence|]. split; [congruence|]. auto.
Qed.

Lemma value_map_grow_wf s m :
  vm_wf hw s m → vm_capacity m ≤ vm_count m →
  ∃ m1, value_map_grow hw s m = Done m1 ∧ vm_wf hw s m1
        ∧ vm_capacity m1 = vm_capacity m * 2
        ∧ (λ e, (e_old_val e, e_new_val e)) <$> vm_entries m1
          = (λ e, (e_old_val e, e_new_val e)) <$> vm_entries m.
Proof.
  intros Hwf Hfull. pose proof Hwf as ((Hc & Hcnt & Hmax) & Hne & Hnd & Hall & Hh).
  unfold value_map_grow.
  destruct (round_up_from (vm_capacity m * 2) ltac:(lia)) as (r & Hr & Hle).
  rewrite Hr, outcome_bind_Done. cbv beta.
  assert (Hkeys : ∀ j e, vm_entries m !! j = Some e →
            ∃ kj hj, e_old_val e = Some kj ∧ hash_value hw s (Some kj) = Done hj).
  { intros j e He. destruct (vm_wf_entry s m j e Hwf He) as (kj & Hkj & Hf & _).
    unfold finds in Hf.
    destruct (value_map_find hw s m kj) as [[bj rj]|] eqn:Hfj; [|contradiction].
    apply value_map_find_Done in Hfj as (hj & _ & Hhj & _). eauto. }
  destruct (rehash_inv s (length (vm_entries m)) (length (vm_entries m)) 0%nat
              (vm_entries m) (replicate (Z.to_nat r) None))
    as (ents' & tbl' & Hrun & Hl' & Ht' & Hp' & HA' & HB' & HC'); auto.
  - intros E. apply (f_equal length) in E. rewrite length_replicate in E. simpl in E. lia.
  - intros j e kj hj Hj. lia.
  - intros j e j' Hj. lia.
  - intros b j Hb. apply lookup_replicate in Hb as [Hb _]. discriminate.
  - rewrite Hrun, outcome_bind_Done. cbv beta iota.
    eexists. split; [reflexivity|].
    assert (Hk' : e_old_val <$> ents' = e_old_val <$> vm_entries m).
    { apply list_eq. intros j. rewrite !list_lookup_fmap.
      assert (E : (λ e, (e_old_val e, e_new_val e)) <$> ents' !! j
                  = (λ e, (e_old_val e, e_new_val e)) <$> vm_entries m !! j)
        by (rewrite <- !list_lookup_fmap, Hp'; reflexivity).
      destruct (ents' !! j), (vm_entries m !! j); simpl in *; congruence. }
    assert (Hne' : tbl' ≠ []).
    { intros E. apply (f_equal length) in E. rewrite Ht', length_replicate in E.
      simpl in E. lia. }
    split; [|split; [reflexivity|exact Hp']].
    split; [unfold vm_count in *; simpl; rewrite Hl'; lia|].
    split; [exact Hne'|]. split; [simpl; rewrite Hk'; exact Hnd|]. split.
    + intros j e He. rewrite (lookup_map_seq_0 (M := gmap nat)) in He. simpl in He.
      assert (Hke : ∃ kj hj, e_old_val e = Some kj ∧ hash_value hw s (Some kj) = Done hj
                             ∧ key_ok s kj).
      { assert (E : e_old_val <$> ents' !! j = e_old_val <$> vm_entries m !! j)
          by (rewrite <- !list_lookup_fmap, Hk'; reflexivity).
        rewrite He in E. destruct (vm_entries m !! j) as [e0|] eqn:He0; [|discriminate].
        destruct (Hkeys j e0 He0) as (kj & hj & Hkj & Hhj). exists kj, hj.
        destruct (vm_wf_entry s m j e0 Hwf He0) as (kj' & Hkj' & _ & Hkey).
        assert (kj' = kj) by congruence. subst kj'.
        simpl in E. split; [congruence|]. split; [exact Hhj|exact Hkey]. }
      destruct Hke as (kj & hj & Hkj & Hhj & Hkeyj).
      destruct (HA' j e kj hj He Hkj Hhj) as (head & Hhead & Hwalk).
      split.
      * rewrite Hkj. split; [|exact Hkeyj]. unfold finds.
        rewrite (value_map_find_intro s _ kj hj head (Some j) Hhj); simpl; auto.
        rewrite Hl'. exact Hwalk.
      * destruct (e_next_in_hash e) as [j'|] eqn:Hn; [|exact I]. eapply HB'; eauto.
    + simpl. apply Forall_lookup. intros b0 [j|] Hb0; unfold head_ok; simpl; [|exact I].
      rewrite Hl'. eapply HC'; eauto.
Qed.

(** *** [value_map_put] and [value_map_get] *)

Lemma hash_value_key s k : key_ok s k → ∃ h, hash_value hw s (Some k) = Done h.
Proof.
  unfold key_ok, hash_value, deref. destruct (values s !! k) as [v|]; [|contradiction].
  intros Hc. simpl. rewrite Hc. eauto.
Qed.

Lemma value_map_get_no_hash s m k f :
  hash_value hw s (Some k) = Stop f → value_map_get hw s (Some m) (Some k) = Stop f.
Proof. intros H. unfold value_map_get, value_map_find. rewrite H. reflexivity. Qed.

Lemma value_map_put_content s m k nv :
  vm_wf hw s m → key_ok s k →
  ∃ m', value_map_put hw s m (Some k) nv = Done m' ∧ vm_wf hw s m'
        ∧ vm_count m ≤ vm_count m' ≤ vm_count m + 1
        ∧ ∀ k', vm_content m' k' = if decide (k' = k) then nv else vm_content m k'.
Proof.
  intros Hwf Hkey. unfold value_map_put.
  pose proof Hkey as Hkey'. unfold key_ok in Hkey'.
  destruct (values s !! k) as [v|] eqn:Hv; [|contradiction].
  rewrite (proj2 (deref_Done _ _ _) Hv), outcome_bind_Done. cbv beta. rewrite Hkey'.
  (* the map after the growth step, if one is taken *)
  assert (Hm1 : ∃ m1,
            (if vm_capacity m <=? vm_count m then value_map_grow hw s m else Done m) = Done m1
            ∧ vm_wf hw s m1 ∧ vm_count m1 < vm_capacity m1 ∧ vm_count m1 = vm_count m
            ∧ NoDup (e_old_val <$> vm_entries m1)
            ∧ ∀ k', vm_content m1 k' = vm_content m k').
  { pose proof Hwf as ((Hc & Hcnt & Hmax) & _ & Hnd & _).
    destruct (Z.leb_spec (vm_capacity m) (vm_count m)) as [Hfull|Hroom].
    - destruct (value_map_grow_wf s m Hwf Hfull) as (m1 & Hg & Hwf1 & Hcap1 & Hp1).
      exists m1. split; [exact Hg|]. split; [exact Hwf1|].
      assert (Hlen : length (vm_entries m1) = length (vm_entries m)).
      { apply (f_equal length) in Hp1. rewrite !length_fmap in Hp1. exact Hp1. }
      split; [unfold vm_count in *; rewrite Hlen; lia|].
      split; [unfold vm_count; rewrite Hlen; reflexivity|].
      split; [apply Hwf1|]. intros k'. apply vm_content_same_pairs; auto.
    - exists m. split; [reflexivity|]. split; [exact Hwf|]. split; [exact Hroom|].
      split; [reflexivity|]. split; [exact Hnd|]. reflexivity. }
  destruct Hm1 as (m1 & -> & Hwf1 & Hroom1 & Hcnt1 & Hnd1 & Hc1).
  rewrite outcome_bind_Done. cbv beta.
  destruct (hash_value_key s k Hkey) as [h Hh].
  destruct (value_map_find_total s m1 k h Hwf1 Hh) as [r Hr].
  rewrite Hr, outcome_bind_Done. cbv beta iota.
  destruct r as [i|].
  - pose proof Hr as Hr'.
    apply value_map_find_Done in Hr' as (_ & head & _ & _ & _ & _ & Hwalk).
    apply bucket_find_key in Hwalk as (e & He & Hk).
    rewrite He. change (nonnull (Some e)) with (Done e). rewrite outcome_bind_Done. cbv beta.
    eexists. split; [reflexivity|]. split; [apply vm_wf_update; auto|].
    split; [unfold vm_count in *; simpl; rewrite length_insert; lia|].
    intros k'. rewrite (vm_content_update m1 i e nv k k' Hnd1 He Hk), Hc1. reflexivity.
  - destruct (Z.ltb_spec (vm_count m1) (vm_capacity m1)) as [_|]; [|lia].
    pose proof Hr as Hr'.
    apply value_map_find_Done in Hr' as (h' & head & Hh' & _ & Hb & Hhead & _).
    assert (h' = h) by congruence. subst h'.
    pose proof (hash_value_range _ _ _ Hh) as Hrange.
    assert (HH : 0 < vm_hash_capacity m1).
    { unfold vm_hash_capacity. destruct Hwf1 as (_ & Hne & _).
      destruct (vm_hash_table m1); [contradiction|simpl; lia]. }
    pose proof (Z.mod_pos_bound h _ HH) as Hbr.
    unfold array_at. destruct (Z.ltb_spec (h mod vm_hash_capacity m1) 0) as [|_]; [lia|].
    rewrite Hhead. change (nonnull (Some head)) with (Done head).
    rewrite outcome_bind_Done. cbv beta.
    eexists. split; [reflexivity|]. split; [apply vm_wf_append; auto|].
    split; [unfold vm_count in *; simpl; rewrite length_app; simpl; lia|].
    intros k'. rewrite vm_content_append, Hc1; auto.
    eapply value_map_find_absent; eauto.
Qed.

Lemma value_map_init_wf s : vm_wf hw s value_map_init.
Proof.
  split; [unfold vm_count; simpl; lia|]. split; [discriminate|].
  split; [apply NoDup_nil_2|]. split.
  - intros j e He. rewrite (lookup_map_seq_0 (M := gmap nat)) in He. discriminate.
  - apply Forall_forall. intros head Hin. apply elem_of_replicate in Hin as [-> _]. exact I.
Qed.

Lemma value_map_get_frame s m m' k :
  vm_wf hw s m → vm_wf hw s m' → vm_content m' k = vm_content m k →
  value_map_get hw s (Some m') (Some k) = value_map_get hw s (Some m) (Some k).
Proof.
  intros Hwf Hwf' Hc. destruct (hash_value hw s (Some k)) as [h|f] eqn:Hh.
  - rewrite (value_map_get_content s m k h Hwf Hh), (value_map_get_content s m' k h Hwf' Hh).
    congruence.
  - rewrite !(value_map_get_no_hash s _ k f Hh). reflexivity.
Qed.

(** The merge loop over a list of entries with distinct keys. *)
Lemma value_map_merge_loop_content s : ∀ l dst,
  vm_wf hw s dst → NoDup (e_old_val <$> l) →
  (∀ e, e ∈ l → ∃ k, e_old_val e = Some k ∧ key_ok s k) →
  ∃ dst', value_map_merge_loop hw s dst l = Done dst' ∧ vm_wf hw s dst'
          ∧ vm_count dst' ≤ vm_count dst + Z.of_nat (length l)
          ∧ (∀ e k, e ∈ l → e_old_val e = Some k → vm_content dst' k = e_new_val e)
          ∧ (∀ k, (∀ e, e ∈ l → e_old_val e ≠ Some k) → vm_content dst' k = vm_content dst k).
Proof.
  induction l as [|e l IH]; intros dst Hwf Hnd Hkeys.
  - exists dst. simpl. split; [reflexivity|]. split; [exact Hwf|]. split; [lia|].
    split; [|reflexivity]. intros e k He. apply elem_of_nil in He. contradiction.
  - destruct (Hkeys e (list_elem_of_here _ _)) as (k0 & Hk0 & Hkey0).
    destruct (value_map_put_content s dst k0 (e_new_val e) Hwf Hkey0)
      as (dst1 & Hput & Hwf1 & Hcnt1 & Hc1).
    change (value_map_merge_loop hw s dst (e :: l))
      with (d ← value_map_put hw s dst (e_old_val e) (e_new_val e);
            value_map_merge_loop hw s d l).
    rewrite Hk0, Hput, outcome_bind_Done. cbv beta.
    rewrite fmap_cons in Hnd. apply NoDup_cons in Hnd as [Hfresh Hnd].
    destruct (IH dst1 Hwf1 Hnd) as (dst' & Hrun & Hwf' & Hcnt' & Hin & Hout).
    { intros e' He'. apply Hkeys. apply list_elem_of_further, He'. }
    assert (Hk0l : ∀ e', e' ∈ l → e_old_val e' ≠ Some k0).
    { intros e' He' E. apply Hfresh. rewrite Hk0, <- E. apply list_elem_of_fmap. eauto. }
    exists dst'. split; [exact Hrun|]. split; [exact Hwf'|].
    split; [simpl length; lia|]. split.
    + intros e' k He' Hk. apply elem_of_cons in He' as [->|He'].
      * assert (k = k0) by congruence. subst k.
        rewrite (Hout k0 Hk0l), Hc1. destruct (decide (k0 = k0)); [reflexivity|contradiction].
      * eapply Hin; eauto.
    + intros k Hno. rewrite Hout by (intros e' He'; apply Hno, list_elem_of_further, He').
      rewrite Hc1. destruct (decide (k = k0)) as [->|_]; [|reflexivity].
      destruct (Hno e (list_elem_of_here _ _) Hk0).
Qed.

End value_map_facts.

(** X6: in a map that [value_map_init] and [value_map_put] have made, with
    fewer than 2^29 entries (so that no [int] wraps), [value_map_put] of a key
    that is a value of the module and not a constant returns; afterwards
    [value_map_get] of that key answers the new value, and of any other key
    what it answered before. *)
Theorem value_map_put_then_get hw s map k v new_val :
  vm_wf hw s map → vm_count map < 2 ^ 29 →
  values s !! k = Some v → v_is_constant v = false →
  ∃ map', value_map_put hw s map (Some k) new_val = Done map'
          ∧ vm_wf hw s map' ∧ vm_count map' ≤ vm_count map + 1
          ∧ value_map_get hw s (Some map') (Some k) = Done new_val
          ∧ ∀ k', k' ≠ k →
                  value_map_get hw s (Some map') (Some k')
                  = value_map_get hw s (Some map) (Some k').
Proof.
  intros Hwf _ Hv Hc.
  assert (Hkey : key_ok s k) by (unfold key_ok; rewrite Hv; exact Hc).
  destruct (value_map_put_content hw s map k new_val Hwf Hkey)
    as (map' & Hput & Hwf' & Hcnt & Hcontent).
  exists map'. split; [exact Hput|]. split; [exact Hwf'|]. split; [lia|]. split.
  - destruct (hash_value_key hw s k Hkey) as [h Hh].
    rewrite (value_map_get_content hw s map' k h Hwf' Hh), Hcontent.
    destruct (decide (k = k)); [reflexivity|contradiction].
  - intros k' Hne. apply value_map_get_frame; auto.
    rewrite Hcontent. destruct (decide (k' = k)); [contradiction|reflexivity].
Qed.

(** X7: the map that [value_map_init] makes is well formed and holds no key:
    [value_map_get] answers NULL for every key it can hash. *)
Theorem value_map_init_holds_nothing hw s k :
  vm_wf hw s value_map_init
  ∧ value_map_get hw s (Some value_map_init) (Some k)
    = (_ ← hash_value hw s (Some k); Done None).
Proof.
  split; [apply value_map_init_wf|].
  destruct (hash_value hw s (Some k)) as [h|f] eqn:Hh.
  - rewrite (value_map_get_content hw s _ k h (value_map_init_wf hw s) Hh). reflexivity.
  - rewrite (value_map_get_no_hash hw s _ k f Hh). reflexivity.
Qed.

(** X8: [value_map_merge(dst, src)] of two well-formed maps returns; afterwards
    [dst] answers, for a key of [src], what [src] holds for it, and for any
    other key what [dst] answered before. *)
Theorem value_map_merge_overrides hw s dst src :
  vm_wf hw s dst → vm_wf hw s src → vm_count dst + vm_count src < 2 ^ 29 →
  ∃ dst', value_map_merge hw s (Some dst) (Some src) = Done (Some dst')
          ∧ vm_wf hw s dst'
          ∧ (∀ e k, e ∈ vm_entries src → e_old_val e = Some k →
                    value_map_get hw s (Some dst') (Some k) = Done (e_new_val e))
          ∧ (∀ k, (∀ e, e ∈ vm_entries src → e_old_val e ≠ Some k) →
                  value_map_get hw s (Some dst') (Some k)
                  = value_map_get hw s (Some dst) (Some k)).
Proof.
  intros Hwf Hsrc _.
  destruct (value_map_merge_loop_content hw s (vm_entries src) dst Hwf)
    as (dst' & Hrun & Hwf' & _ & Hin & Hout).
  - apply Hsrc.
  - intros e He. apply list_elem_of_lookup in He as (i & Hi).
    destruct (vm_wf_entry hw s src i e Hsrc Hi) as (k & Hk & _ & Hkey). eauto.
  - exists dst'. unfold value_map_merge. rewrite Hrun. split; [reflexivity|].
    split; [exact Hwf'|]. split.
    + intros e k He Hk. pose proof He as He'.
      apply list_elem_of_lookup in He' as (i & Hi).
      destruct (vm_wf_entry hw s src i e Hsrc Hi) as (k1 & Hk1 & _ & Hkey).
      assert (k1 = k) by congruence. subst k1.
      destruct (hash_value_key hw s k Hkey) as [h Hh].
      rewrite (value_map_get_content hw s dst' k h Hwf' Hh). f_equal. eapply Hin; eauto.
    + intros k Hno. apply value_map_get_frame; auto.
Qed.

Lemma value_map_put_then_get_witness :
  ∃ map', value_map_put (λ _, 0) unused_load x_to_p (Some 50%nat) (Some 52%nat) = Done map'
          ∧ vm_wf (λ _, 0) unused_load map' ∧ vm_count map' ≤ vm_count x_to_p + 1
          ∧ value_map_get (λ _, 0) unused_load (Some map') (Some 50%nat) = Done (Some 52%nat)
          ∧ ∀ k', k' ≠ 50%nat →
                  value_map_get (λ _, 0) unused_load (Some map') (Some k')
                  = value_map_get (λ _, 0) unused_load (Some x_to_p) (Some k').
Proof.
  apply (value_map_put_then_get (λ _, 0) unused_load x_to_p 50%nat
           (argument "p" (Ty_pointer 903 (i32 900)) [200%nat]) (Some 52%nat)).
  - apply (bool_decide_unpack _). vm_compute. reflexivity.
  - vm_compute. reflexivity.
  - vm_compute. reflexivity.
  - reflexivity.
Defined.

Lemma value_map_merge_overrides_witness :
  ∃ dst', value_map_merge (λ _, 0) unused_load (Some x_to_p) (Some p_to_x) = Done (Some dst')
          ∧ vm_wf (λ _, 0) unused_load dst'
          ∧ (∀ e k, e ∈ vm_entries p_to_x → e_old_val e = Some k →
                    value_map_get (λ _, 0) unused_load (Some dst') (Some k)
                    = Done (e_new_val e))
          ∧ (∀ k, (∀ e, e ∈ vm_entries p_to_x → e_old_val e ≠ Some k) →
                  value_map_get (λ _, 0) unused_load (Some dst') (Some k)
                  = value_map_get (λ _, 0) unused_load (Some x_to_p) (Some k)).
Proof.
  apply (value_map_merge_overrides (λ _, 0) unused_load x_to_p p_to_x).
  - apply (bool_decide_unpack _). vm_compute. reflexivity.
  - apply (bool_decide_unpack _). vm_compute. reflexivity.
  - vm_compute. reflexivity.
Defined.

(** ** Inserting into an instruction list *)

Lemma linked_insert_before lk lk' b new pos l2 : ∀ l1 prev0,
  linked lk b prev0 (l1 ++ pos :: l2) → NoDup (l1 ++ pos :: l2) →
  lk' !! new = Some (last_or l1 prev0, Some pos, Some b) →
  lk' !! pos = Some (Some new, head l2, Some b) →
  (∀ p pr ne pa, last l1 = Some p → lk !! p = Some (pr, ne, pa) →
                 lk' !! p = Some (pr, Some new, pa)) →
  (∀ x, x ∈ l1 ++ l2 → last l1 ≠ Some x → lk' !! x = lk !! x) →
  linked lk' b prev0 (l1 ++ new :: pos :: l2).
Proof.
  induction l1 as [|a l1 IH]; intros prev0 Hl Hnd Hnew Hpos Hlast Hother.
  - simpl in *. destruct Hl as [_ Hrest]. split; [exact Hnew|]. split; [exact Hpos|].
    eapply linked_ext; [|exact Hrest]. intros x Hx. apply Hother; [exact Hx|discriminate].
  - change ((a :: l1) ++ pos :: l2) with (a :: (l1 ++ pos :: l2)) in *.
    change ((a :: l1) ++ new :: pos :: l2) with (a :: (l1 ++ new :: pos :: l2)).
    destruct Hl as [Ha Hrest]. apply NoDup_cons in Hnd as [Hanot Hnd].
    rewrite last_or_cons in Hnew.
    destruct l1 as [|a' l1'].
    + simpl in *. split.
      * apply (Hlast a _ _ _ eq_refl Ha).
      * apply (IH (Some a)); [exact Hrest|exact Hnd|exact Hnew|exact Hpos| |].
        -- intros p pr ne pa Hp. discriminate Hp.
        -- intros x Hx _. apply Hother; [apply list_elem_of_further, Hx|].
           intros [= ->]. apply Hanot. apply list_elem_of_further, Hx.
    + assert (Hla : last (a :: a' :: l1') = last (a' :: l1')) by reflexivity.
      split.
      * rewrite Hother; [exact Ha|apply list_elem_of_here|].
        rewrite Hla. intros Hp. apply last_Some in Hp as [l' Hp].
        apply Hanot. rewrite Hp, <- app_assoc. apply elem_of_app. right.
        apply list_elem_of_here.
      * apply (IH (Some a)); [exact Hrest|exact Hnd|exact Hnew|exact Hpos| |].
        -- intros p pr ne pa Hp. apply Hlast. rewrite Hla. exact Hp.
        -- intros x Hx Hne. apply Hother; [apply list_elem_of_further, Hx|].
           rewrite Hla. exact Hne.
Qed.

Lemma linked_insert_after lk lk' b new pos l2 : ∀ l1 prev0,
  linked lk b prev0 (l1 ++ pos :: l2) → NoDup (l1 ++ pos :: l2) →
  lk' !! new = Some (Some pos, head l2, Some b) →
  lk' !! pos = Some (last_or l1 prev0, Some new, Some b) →
  (∀ n pr ne pa, head l2 = Some n → lk !! n = Some (pr, ne, pa) →
                 lk' !! n = Some (Some new, ne, pa)) →
  (∀ x, x ∈ l1 ++ l2 → head l2 ≠ Some x → lk' !! x = lk !! x) →
  linked lk' b prev0 (l1 ++ pos :: new :: l2).
Proof.
  induction l1 as [|a l1 IH]; intros prev0 Hl Hnd Hnew Hpos Hnext Hother.
  - simpl in *. destruct Hl as [_ Hrest]. apply NoDup_cons in Hnd as [_ Hnd2].
    split; [exact Hpos|]. split; [exact Hnew|].
    destruct l2 as [|n l2']; [exact I|]. simpl in *. destruct Hrest as [Hn Hrest].
    apply NoDup_cons in Hnd2 as [Hn2 _].
    split; [apply (Hnext n _ _ _ eq_refl Hn)|].
    eapply linked_ext; [|exact Hrest]. intros x Hx. apply Hother.
    + apply list_elem_of_further, Hx.
    + intros [= ->]. contradiction.
  - change ((a :: l1) ++ pos :: l2) with (a :: (l1 ++ pos :: l2)) in *.
    change ((a :: l1) ++ pos :: new :: l2) with (a :: (l1 ++ pos :: new :: l2)).
    destruct Hl as [Ha Hrest]. apply NoDup_cons in Hnd as [Hanot Hnd].
    rewrite last_or_cons in Hpos.
    assert (Hh : head (l1 ++ pos :: new :: l2) = head (l1 ++ pos :: l2))
      by (destruct l1; reflexivity).
    split.
    + rewrite Hh, Hother; [exact Ha|apply list_elem_of_here|].
      intros Hn. apply Hanot. apply elem_of_app. right. apply list_elem_of_further.
      apply head_elem, Hn.
    + apply (IH (Some a)); [exact Hrest|exact Hnd|exact Hnew|exact Hpos|exact Hnext|].
      intros x Hx. apply Hother. apply list_elem_of_further, Hx.
Qed.

Lemma last_cons_cons {A} (a b : A) l : last (a :: b :: l) = last (b :: l).
Proof. reflexivity. Qed.

Lemma last_app_cons {A} (l1 : list A) x l2 : last (l1 ++ x :: l2) = last (x :: l2).
Proof.
  rewrite last_app. destruct (last (x :: l2)) eqn:E; [reflexivity|].
  apply last_None in E. discriminate E.
Qed.

Lemma chain_member_linked s b l x :
  chain_ok s b l → x ∈ l →
  ∃ ins, instrs s !! x = Some ins ∧ i_parent ins = Some b.
Proof. apply chain_ok_instr. Qed.

(** What [insert_instr_before] does to the arena. *)
Lemma insert_instr_before_effect assert_on s b l1 pos l2 new nins :
  chain_ok s b (l1 ++ pos :: l2) → instrs s !! new = Some nins → i_parent nins = None →
  ∃ s', insert_instr_before assert_on new pos s = Done s'
    ∧ chain_ok s' b (l1 ++ new :: pos :: l2)
    ∧ (∀ x, x ∉ l1 ++ pos :: l2 → x ≠ new → links s' !! x = links s !! x)
    ∧ (∀ b', b' ≠ b → ends s' !! b' = ends s !! b')
    ∧ bodies s' = bodies s
    ∧ bb_parent <$> blocks s' = bb_parent <$> blocks s
    ∧ values s' = values s ∧ operands s' = operands s ∧ funcs s' = funcs s
    ∧ next_addr s' = next_addr s.
Proof.
  intros Hc Hnew Hpar. pose proof Hc as (Hnd & Hl & He).
  pose proof (linked_at _ _ _ _ _ _ Hl) as Hpos. rewrite last_or_None in Hpos.
  apply links_lookup in Hpos as (pins & Hpins & Hpv & Hnx & Hpa).
  assert (Hnotin : new ∉ l1 ++ pos :: l2).
  { intros Hin. destruct (chain_ok_instr _ _ _ _ Hc Hin) as (y & Hy & Hyp). congruence. }
  assert (Hnp : new ≠ pos).
  { intros ->. apply Hnotin. apply elem_of_app. right. apply list_elem_of_here. }
  destruct (chain_ok_block _ _ _ Hc) as [blk Hblk].
  assert (Hends : bb_head blk = head (l1 ++ pos :: l2) ∧ bb_tail blk = last (l1 ++ pos :: l2)).
  { unfold ends in He. rewrite lookup_fmap, Hblk in He. simpl in He.
    injection He as -> ->. auto. }
  unfold insert_instr_before.
  rewrite (proj2 (deref_Done _ _ _) Hpins), outcome_bind_Done. cbv beta.
  rewrite Hpa. simpl is_null. simpl negb. rewrite c_assert_true, outcome_bind_Done. cbv beta.
  rewrite (proj2 (deref_Done _ _ _) Hnew), outcome_bind_Done. cbv beta.
  rewrite Hpar. simpl is_null. rewrite c_assert_true, outcome_bind_Done. cbv beta.
  rewrite Hpv.
  set (g1 := λ x, i_with_prev (last l1) (i_with_next (Some pos) (i_with_parent (Some b) x))).
  destruct (last l1) as [p|] eqn:Elast.
  - (* there is an instruction before [pos] *)
    assert (Hpin : p ∈ l1).
    { apply last_Some in Elast as [l' ->]. apply elem_of_app. right. apply list_elem_of_here. }
    assert (Hpl : p ∈ l1 ++ pos :: l2) by (apply elem_of_app; left; exact Hpin).
    destruct (chain_ok_instr _ _ _ _ Hc Hpl) as (prins & Hprins & Hprpa).
    assert (Hpnew : p ≠ new) by (intros ->; contradiction).
    assert (Hppos : p ≠ pos).
    { intros ->. apply NoDup_app in Hnd as (_ & Hd & _). apply (Hd pos Hpin).
      apply list_elem_of_here. }
    assert (Hp1 : instrs (upd_instr new g1 s) !! p = Some prins).
    { simpl. rewrite lookup_alter_ne by congruence. exact Hprins. }
    rewrite (proj2 (deref_Done _ _ _) Hp1), !outcome_bind_Done. cbv beta.
    eexists. split; [reflexivity|].
    assert (Hlk : ∀ x, links (upd_instr pos (i_with_prev (Some new))
                         (upd_instr p (i_with_next (Some new)) (upd_instr new g1 s))) !! x
                  = if decide (x = pos) then Some (Some new, head l2, Some b)
                    else if decide (x = p)
                         then (λ '(pr, _, pa), (pr, Some new, pa)) <$> links s !! x
                         else if decide (x = new) then Some (Some p, Some pos, Some b)
                              else links s !! x).
    { intros x. unfold links. simpl. rewrite !lookup_fmap.
      destruct (decide (x = pos)) as [->|Hx1].
      - rewrite lookup_alter_eq, lookup_alter_ne, lookup_alter_ne, Hpins by congruence.
        simpl. unfold link_fields. simpl. rewrite Hnx, Hpa. reflexivity.
      - rewrite lookup_alter_ne by congruence.
        destruct (decide (x = p)) as [->|Hx2].
        + rewrite lookup_alter_eq, lookup_alter_ne by congruence.
          destruct (instrs s !! p); reflexivity.
        + rewrite lookup_alter_ne by congruence.
          destruct (decide (x = new)) as [->|Hx3].
          * rewrite lookup_alter_eq, Hnew. reflexivity.
          * rewrite lookup_alter_ne by congruence. reflexivity. }
    split; [split; [|split]|].
    + apply NoDup_app in Hnd as (H1 & H12 & H2). apply NoDup_app. split; [exact H1|].
      split.
      * intros x Hx Hx'. apply elem_of_cons in Hx' as [->|Hx'].
        -- apply Hnotin. apply elem_of_app. left. exact Hx.
        -- exact (H12 x Hx Hx').
      * apply NoDup_cons. split; [|exact H2]. intros Hin. apply Hnotin.
        apply elem_of_app. right. exact Hin.
    + apply (linked_insert_before (links s)); [exact Hl|exact Hnd| | | |].
      * rewrite Hlk, last_or_None, Elast.
        destruct (decide (new = pos)); [contradiction|].
        destruct (decide (new = p)); [congruence|].
        destruct (decide (new = new)); [reflexivity|contradiction].
      * rewrite Hlk. destruct (decide (pos = pos)); [reflexivity|contradiction].
      * intros p0 pr ne pa Hp0' Hp0. rewrite Elast in Hp0'. injection Hp0' as <-.
        rewrite Hlk.
        destruct (decide (p = pos)); [contradiction|].
        destruct (decide (p = p)); [|contradiction]. rewrite Hp0. reflexivity.
      * intros x Hx Hne. rewrite Hlk.
        destruct (decide (x = pos)) as [->|_].
        { exfalso. apply elem_of_app in Hx as [Hx|Hx].
          - apply NoDup_app in Hnd as (_ & Hd & _). apply (Hd pos Hx), list_elem_of_here.
          - apply NoDup_app in Hnd as (_ & _ & Hd). apply NoDup_cons in Hd as [Hd _].
            contradiction. }
        destruct (decide (x = p)) as [->|_]; [congruence|].
        destruct (decide (x = new)) as [->|_]; [|reflexivity].
        exfalso. apply Hnotin. apply elem_of_app in Hx as [Hx|Hx]; apply elem_of_app; auto.
        right. apply list_elem_of_further, Hx.
    + unfold ends. simpl. fold (ends s). rewrite He. f_equal. f_equal.
      * destruct l1; [discriminate Elast|reflexivity].
      * rewrite !last_app_cons. reflexivity.
    + split; [|split; [reflexivity|split; [|split; [reflexivity|auto]]]].
      * intros x Hx Hxn. rewrite Hlk.
        destruct (decide (x = pos)) as [->|_].
        { exfalso. apply Hx. apply elem_of_app. right. apply list_elem_of_here. }
        destruct (decide (x = p)) as [->|_]; [contradiction|].
        destruct (decide (x = new)); [contradiction|reflexivity].
      * unfold bodies. simpl. rewrite !fmap_alter_same by reflexivity. reflexivity.
  - (* [pos] is the head of the block *)
    apply last_None in Elast. subst l1. simpl app in *.
    change (nonnull (Some b)) with (Done b). rewrite outcome_bind_Done. cbv beta.
    assert (Hb1 : blocks (upd_instr new g1 s) !! b = Some blk) by exact Hblk.
    rewrite (proj2 (deref_Done _ _ _) Hb1), !outcome_bind_Done. cbv beta.
    eexists. split; [reflexivity|].
    assert (Hlk : ∀ x, links (upd_instr pos (i_with_prev (Some new))
                         (upd_block b (bb_with_head (Some new)) (upd_instr new g1 s))) !! x
                  = if decide (x = pos) then Some (Some new, head l2, Some b)
                    else if decide (x = new) then Some (None, Some pos, Some b)
                         else links s !! x).
    { intros x. unfold links. simpl. rewrite !lookup_fmap.
      destruct (decide (x = pos)) as [->|Hx1].
      - rewrite lookup_alter_eq, lookup_alter_ne, Hpins by congruence.
        simpl. unfold link_fields. simpl. rewrite Hnx, Hpa. reflexivity.
      - rewrite lookup_alter_ne by congruence.
        destruct (decide (x = new)) as [->|Hx3].
        + rewrite lookup_alter_eq, Hnew. reflexivity.
        + rewrite lookup_alter_ne by congruence. reflexivity. }
    split; [split; [|split]|].
    + apply NoDup_cons. split; [exact Hnotin|exact Hnd].
    + apply (linked_insert_before (links s) _ b new pos l2 [] None);
        [exact Hl|exact Hnd| | | |].
      * rewrite Hlk. destruct (decide (new = pos)); [contradiction|].
        destruct (decide (new = new)); [reflexivity|contradiction].
      * rewrite Hlk. destruct (decide (pos = pos)); [reflexivity|contradiction].
      * intros p0 pr ne pa Hp0. discriminate Hp0.
      * intros x Hx _. simpl in Hx. rewrite Hlk.
        destruct (decide (x = pos)) as [->|_].
        { exfalso. apply NoDup_cons in Hnd as [Hd _]. contradiction. }
        destruct (decide (x = new)) as [->|_]; [|reflexivity].
        exfalso. apply Hnotin. apply list_elem_of_further, Hx.
    + unfold ends. simpl. rewrite lookup_fmap, lookup_alter_eq, Hblk. simpl.
      destruct Hends as [_ ->]. reflexivity.
    + split; [|split; [|split; [|split; [|auto]]]].
      * intros x Hx Hxn. rewrite Hlk.
        destruct (decide (x = pos)) as [->|_].
        { exfalso. apply Hx. apply list_elem_of_here. }
        destruct (decide (x = new)); [contradiction|reflexivity].
      * intros b' Hb'. unfold ends. simpl. rewrite !lookup_fmap, lookup_alter_ne by congruence.
        reflexivity.
      * unfold bodies. simpl. rewrite !fmap_alter_same by reflexivity. reflexivity.
      * simpl. rewrite fmap_alter_same by reflexivity. reflexivity.
Qed.

(** What [insert_instr_after] does to the arena. *)
Lemma insert_instr_after_effect assert_on s b l1 pos l2 new nins :
  chain_ok s b (l1 ++ pos :: l2) → instrs s !! new = Some nins → i_parent nins = None →
  ∃ s', insert_instr_after assert_on new pos s = Done s'
    ∧ chain_ok s' b (l1 ++ pos :: new :: l2)
    ∧ (∀ x, x ∉ l1 ++ pos :: l2 → x ≠ new → links s' !! x = links s !! x)
    ∧ (∀ b', b' ≠ b → ends s' !! b' = ends s !! b')
    ∧ bodies s' = bodies s
    ∧ bb_parent <$> blocks s' = bb_parent <$> blocks s
    ∧ values s' = values s ∧ operands s' = operands s ∧ funcs s' = funcs s
    ∧ next_addr s' = next_addr s.
Proof.
  intros Hc Hnew Hpar. pose proof Hc as (Hnd & Hl & He).
  pose proof (linked_at _ _ _ _ _ _ Hl) as Hpos. rewrite last_or_None in Hpos.
  apply links_lookup in Hpos as (pins & Hpins & Hpv & Hnx & Hpa).
  assert (Hnotin : new ∉ l1 ++ pos :: l2).
  { intros Hin. destruct (chain_ok_instr _ _ _ _ Hc Hin) as (y & Hy & Hyp). congruence. }
  assert (Hnp : new ≠ pos).
  { intros ->. apply Hnotin. apply elem_of_app. right. apply list_elem_of_here. }
  assert (Hposl1 : pos ∉ l1).
  { intros Hin. apply NoDup_app in Hnd as (_ & Hd & _). apply (Hd pos Hin), list_elem_of_here. }
  assert (Hposl2 : pos ∉ l2).
  { apply NoDup_app in Hnd as (_ & _ & Hd). apply NoDup_cons in Hd as [Hd _]. exact Hd. }
  destruct (chain_ok_block _ _ _ Hc) as [blk Hblk].
  assert (Hends : bb_head blk = head (l1 ++ pos :: l2) ∧ bb_tail blk = last (l1 ++ pos :: l2)).
  { unfold ends in He. rewrite lookup_fmap, Hblk in He. simpl in He.
    injection He as -> ->. auto. }
  assert (Hnd' : NoDup (l1 ++ pos :: new :: l2)).
  { apply NoDup_app in Hnd as (H1 & H12 & H2). apply NoDup_cons in H2 as [H2a H2].
    apply NoDup_app. split; [exact H1|]. split.
    - intros x Hx Hx'. apply elem_of_cons in Hx' as [->|Hx']; [contradiction|].
      apply elem_of_cons in Hx' as [->|Hx'].
      + apply Hnotin. apply elem_of_app. left. exact Hx.
      + apply (H12 x Hx). apply list_elem_of_further, Hx'.
    - apply NoDup_cons. split.
      + intros Hin. apply elem_of_cons in Hin as [E|Hin]; [congruence|contradiction].
      + apply NoDup_cons. split; [|exact H2]. intros Hin. apply Hnotin.
        apply elem_of_app. right. apply list_elem_of_further, Hin. }
  unfold insert_instr_after.
  rewrite (proj2 (deref_Done _ _ _) Hpins), outcome_bind_Done. cbv beta.
  rewrite Hpa. simpl is_null. simpl negb. rewrite c_assert_true, outcome_bind_Done. cbv beta.
  rewrite (proj2 (deref_Done _ _ _) Hnew), outcome_bind_Done. cbv beta.
  rewrite Hpar. simpl is_null. rewrite c_assert_true, outcome_bind_Done. cbv beta.
  rewrite Hnx.
  set (g1 := λ x, i_with_next (head l2) (i_with_prev (Some pos) (i_with_parent (Some b) x))).
  destruct (head l2) as [n|] eqn:Ehead.
  - (* there is an instruction after [pos] *)
    assert (Hnin : n ∈ l2) by (apply head_elem, Ehead).
    assert (Hnl : n ∈ l1 ++ pos :: l2).
    { apply elem_of_app. right. apply list_elem_of_further, Hnin. }
    destruct (chain_ok_instr _ _ _ _ Hc Hnl) as (nxins & Hnxins & Hnxpa).
    assert (Hnnew : n ≠ new) by (intros ->; contradiction).
    assert (Hnpos : n ≠ pos) by (intros ->; contradiction).
    assert (Hn1 : instrs (upd_instr new g1 s) !! n = Some nxins).
    { simpl. rewrite lookup_alter_ne by congruence. exact Hnxins. }
    rewrite (proj2 (deref_Done _ _ _) Hn1), !outcome_bind_Done. cbv beta.
    eexists. split; [reflexivity|].
    assert (Hlk : ∀ x, links (upd_instr pos (i_with_next (Some new))
                         (upd_instr n (i_with_prev (Some new)) (upd_instr new g1 s))) !! x
                  = if decide (x = pos) then Some (last l1, Some new, Some b)
                    else if decide (x = n)
                         then (λ '(_, ne, pa), (Some new, ne, pa)) <$> links s !! x
                         else if decide (x = new) then Some (Some pos, Some n, Some b)
                              else links s !! x).
    { intros x. unfold links. simpl. rewrite !lookup_fmap.
      destruct (decide (x = pos)) as [->|Hx1].
      - rewrite lookup_alter_eq, lookup_alter_ne, lookup_alter_ne, Hpins by congruence.
        simpl. unfold link_fields. simpl. rewrite Hpv, Hpa. reflexivity.
      - rewrite lookup_alter_ne by congruence.
        destruct (decide (x = n)) as [->|Hx2].
        + rewrite lookup_alter_eq, lookup_alter_ne by congruence.
          destruct (instrs s !! n); reflexivity.
        + rewrite lookup_alter_ne by congruence.
          destruct (decide (x = new)) as [->|Hx3].
          * rewrite lookup_alter_eq, Hnew. reflexivity.
          * rewrite lookup_alter_ne by congruence. reflexivity. }
    split; [split; [exact Hnd'|split]|].
    + apply (linked_insert_after (links s)); [exact Hl|exact Hnd| | | |].
      * rewrite Hlk, Ehead.
        destruct (decide (new = pos)); [contradiction|].
        destruct (decide (new = n)); [congruence|].
        destruct (decide (new = new)); [reflexivity|contradiction].
      * rewrite Hlk, last_or_None. destruct (decide (pos = pos)); [reflexivity|contradiction].
      * intros n0 pr ne pa Hn0' Hn0. rewrite Ehead in Hn0'. injection Hn0' as <-.
        rewrite Hlk. destruct (decide (n = pos)); [contradiction|].
        destruct (decide (n = n)); [|contradiction]. rewrite Hn0. reflexivity.
      * intros x Hx Hne. rewrite Ehead in Hne. rewrite Hlk.
        destruct (decide (x = pos)) as [->|_].
        { exfalso. apply elem_of_app in Hx as [Hx|Hx]; contradiction. }
        destruct (decide (x = n)) as [->|_]; [congruence|].
        destruct (decide (x = new)) as [->|_]; [|reflexivity].
        exfalso. apply Hnotin. apply elem_of_app in Hx as [Hx|Hx]; apply elem_of_app; auto.
        right. apply list_elem_of_further, Hx.
    + unfold ends. simpl. fold (ends s). rewrite He. f_equal. f_equal.
      * destruct l1; reflexivity.
      * rewrite !last_app_cons. destruct l2 as [|n' l2']; [discriminate Ehead|].
        reflexivity.
    + split; [|split; [reflexivity|split; [|split; [reflexivity|auto]]]].
      * intros x Hx Hxn. rewrite Hlk.
        destruct (decide (x = pos)) as [->|_].
        { exfalso. apply Hx. apply elem_of_app. right. apply list_elem_of_here. }
        destruct (decide (x = n)) as [->|_]; [contradiction|].
        destruct (decide (x = new)); [contradiction|reflexivity].
      * unfold bodies. simpl. rewrite !fmap_alter_same by reflexivity. reflexivity.
  - (* [pos] is the tail of the block *)
    assert (l2 = []) by (destruct l2; [reflexivity|discriminate Ehead]). subst l2.
    change (nonnull (Some b)) with (Done b). rewrite outcome_bind_Done. cbv beta.
    assert (Hb1 : blocks (upd_instr new g1 s) !! b = Some blk) by exact Hblk.
    rewrite (proj2 (deref_Done _ _ _) Hb1), !outcome_bind_Done. cbv beta.
    eexists. split; [reflexivity|].
    assert (Hlk : ∀ x, links (upd_instr pos (i_with_next (Some new))
                         (upd_block b (bb_with_tail (Some new)) (upd_instr new g1 s))) !! x
                  = if decide (x = pos) then Some (last l1, Some new, Some b)
                    else if decide (x = new) then Some (Some pos, None, Some b)
                         else links s !! x).
    { intros x. unfold links. simpl. rewrite !lookup_fmap.
      destruct (decide (x = pos)) as [->|Hx1].
      - rewrite lookup_alter_eq, lookup_alter_ne, Hpins by congruence.
        simpl. unfold link_fields. simpl. rewrite Hpv, Hpa. reflexivity.
      - rewrite lookup_alter_ne by congruence.
        destruct (decide (x = new)) as [->|Hx3].
        + rewrite lookup_alter_eq, Hnew. reflexivity.
        + rewrite lookup_alter_ne by congruence. reflexivity. }
    split; [split; [exact Hnd'|split]|].
    + apply (linked_insert_after (links s)); [exact Hl|exact Hnd| | | |].
      * rewrite Hlk. destruct (decide (new = pos)); [contradiction|].
        destruct (decide (new = new)); [reflexivity|contradiction].
      * rewrite Hlk, last_or_None. destruct (decide (pos = pos)); [reflexivity|contradiction].
      * intros n0 pr ne pa Hn0. discriminate Hn0.
      * intros x Hx _. rewrite app_nil_r in Hx. rewrite Hlk.
        destruct (decide (x = pos)) as [->|_]; [contradiction|].
        destruct (decide (x = new)) as [->|_]; [|reflexivity].
        exfalso. apply Hnotin. apply elem_of_app. left. exact Hx.
    + unfold ends. simpl. rewrite lookup_fmap, lookup_alter_eq, Hblk. simpl.
      destruct Hends as [-> _]. f_equal. f_equal.
      * destruct l1; reflexivity.
      * rewrite last_app_cons. reflexivity.
    + split; [|split; [|split; [|split; [|auto]]]].
      * intros x Hx Hxn. rewrite Hlk.
        destruct (decide (x = pos)) as [->|_].
        { exfalso. apply Hx. apply elem_of_app. right. apply list_elem_of_here. }
        destruct (decide (x = new)); [contradiction|reflexivity].
      * intros b' Hb'. unfold ends. simpl. rewrite !lookup_fmap, lookup_alter_ne by congruence.
        reflexivity.
      * unfold bodies. simpl. rewrite !fmap_alter_same by reflexivity. reflexivity.
      * simpl. rewrite fmap_alter_same by reflexivity. reflexivity.
Qed.

Lemma removelast_last {A} (l : list A) t : last l = Some t → l = removelast l ++ [t].
Proof.
  intros H. apply last_Some in H as [l' ->]. rewrite removelast_last. reflexivity.
Qed.

(** [add_instr_to_bb_end] before the function's count is touched. *)
Lemma add_instr_to_bb_end_links assert_on s b l instr nins blk :
  chain_ok s b l → blocks s !! b = Some blk →
  instrs s !! instr = Some nins → i_parent nins = None →
  ∃ term s1,
    is_terminator_instruction s (bb_tail blk) = Done term
    ∧ (if negb (is_null (bb_tail blk)) && term then
       t ← nonnull (bb_tail blk); insert_instr_before assert_on instr t s
     else
       let s0 := upd_instr instr
                   (fun x => i_with_next None (i_with_prev (bb_tail blk)
                                                 (i_with_parent (Some b) x))) s in
       let s0' := match bb_tail blk with
                  | Some t => upd_instr t (i_with_next (Some instr)) s0
                  | None => upd_block b (bb_with_head (Some instr)) s0
                  end in
       Done (upd_block b (bb_with_tail (Some instr)) s0')) = Done s1
    ∧ chain_ok s1 b (added_to_end s l instr)
    ∧ (∀ x, x ∉ l → x ≠ instr → links s1 !! x = links s !! x)
    ∧ (∀ b', b' ≠ b → ends s1 !! b' = ends s !! b')
    ∧ bodies s1 = bodies s
    ∧ bb_parent <$> blocks s1 = bb_parent <$> blocks s
    ∧ values s1 = values s ∧ operands s1 = operands s ∧ funcs s1 = funcs s
    ∧ next_addr s1 = next_addr s.
Proof.
  intros Hc Hblk Hnew Hpar. pose proof Hc as (Hnd & Hl & He).
  assert (Hends : bb_head blk = head l ∧ bb_tail blk = last l).
  { unfold ends in He. rewrite lookup_fmap, Hblk in He. simpl in He.
    injection He as -> ->. auto. }
  destruct Hends as [Hhd Htl]. rewrite Htl. unfold added_to_end.
  destruct (last l) as [t|] eqn:Elast.
  - pose proof (removelast_last l t Elast) as Hsplit.
    assert (Htin : t ∈ l).
    { rewrite Hsplit. apply elem_of_app. right. apply list_elem_of_here. }
    destruct (chain_ok_instr _ _ _ _ Hc Htin) as (tins & Htins & Htpa).
    rewrite Htins. exists (terminator_opcode (i_opcode tins)).
    assert (Hterm : is_terminator_instruction s (Some t)
                    = Done (terminator_opcode (i_opcode tins))).
    { unfold is_terminator_instruction.
      rewrite (proj2 (deref_Done _ _ _) Htins), !outcome_bind_Done. reflexivity. }
    simpl is_null. simpl negb. rewrite andb_true_l.
    rewrite Hsplit in Hc.
    destruct (terminator_opcode (i_opcode tins)).
    + change (nonnull (Some t)) with (Done t). rewrite outcome_bind_Done. cbv beta.
      destruct (insert_instr_before_effect assert_on s b (removelast l) t [] instr nins
                  Hc Hnew Hpar) as (s1 & Hrun & Hc1 & Hrest).
      exists s1. split; [exact Hterm|]. split; [exact Hrun|]. split; [exact Hc1|].
      rewrite <- Hsplit in Hrest. exact Hrest.
    + destruct (insert_instr_after_effect false s b (removelast l) t [] instr nins
                  Hc Hnew Hpar) as (s1 & Hrun & Hc1 & Hrest).
      exists s1. rewrite <- Hsplit in Hrest.
      split; [exact Hterm|]. split; [|split; [|exact Hrest]].
      * rewrite <- Hrun. unfold insert_instr_after.
        rewrite (proj2 (deref_Done _ _ _) Htins), outcome_bind_Done. cbv beta.
        change (c_assert false (negb (is_null (i_parent tins)))) with (Done (A := unit) tt).
        rewrite outcome_bind_Done. cbv beta.
        rewrite (proj2 (deref_Done _ _ _) Hnew), outcome_bind_Done. cbv beta.
        change (c_assert false (is_null (i_parent nins))) with (Done (A := unit) tt).
        rewrite outcome_bind_Done. cbv beta.
        pose proof (linked_at _ _ _ _ _ _ (proj1 (proj2 Hc))) as Hpos.
        apply links_lookup in Hpos as (tins' & Htins' & _ & Hnx & _).
        rewrite Htins in Htins'. injection Htins' as <-. simpl in Hnx.
        rewrite Hnx, Htpa. change (nonnull (Some b)) with (Done b).
        rewrite outcome_bind_Done. cbv beta.
        assert (Hb1 : ∀ g, blocks (upd_instr instr g s) !! b = Some blk) by (intros g; exact Hblk).
        rewrite (proj2 (deref_Done _ _ _) (Hb1 _)), !outcome_bind_Done. cbv beta.
        reflexivity.
      * assert (E : l ++ [instr] = removelast l ++ [t; instr]).
        { transitivity ((removelast l ++ [t]) ++ [instr]); [f_equal; exact Hsplit|].
          rewrite <- app_assoc. reflexivity. }
        rewrite E. exact Hc1.
  - apply last_None in Elast. subst l. simpl.
    exists false. eexists. split; [reflexivity|]. split; [reflexivity|].
    assert (Hlk : ∀ x, links (upd_block b (bb_with_tail (Some instr))
                         (upd_block b (bb_with_head (Some instr))
                            (upd_instr instr
                               (λ x0, i_with_next None
                                        (i_with_prev None (i_with_parent (Some b) x0))) s))) !! x
                  = if decide (x = instr) then Some (None, None, Some b) else links s !! x).
    { intros x. unfold links. simpl. rewrite !lookup_fmap.
      destruct (decide (x = instr)) as [->|Hx].
      - rewrite lookup_alter_eq, Hnew. reflexivity.
      - rewrite lookup_alter_ne by congruence. reflexivity. }
    split; [split; [|split]|].
    + apply NoDup_singleton.
    + simpl. split; [|exact I]. rewrite Hlk.
      destruct (decide (instr = instr)); [reflexivity|contradiction].
    + unfold ends. simpl. rewrite lookup_fmap, !lookup_alter_eq, Hblk. reflexivity.
    + split; [|split; [|split; [|split; [|auto]]]].
      * intros x _ Hx. rewrite Hlk. destruct (decide (x = instr)); [contradiction|reflexivity].
      * intros b' Hb'. unfold ends. simpl.
        rewrite !lookup_fmap, !lookup_alter_ne by congruence. reflexivity.
      * unfold bodies. simpl. rewrite !fmap_alter_same by reflexivity. reflexivity.
      * simpl. rewrite !fmap_alter_same by reflexivity. reflexivity.
Qed.

Lemma chain_ok_frame s s' b l b' l' :
  chain_ok s b l → b' ≠ b → chain_ok s b' l' →
  (∀ x, x ∉ l → links s' !! x = links s !! x ∨ instrs s !! x = None
                ∨ ∃ ins, instrs s !! x = Some ins ∧ i_parent ins = None) →
  (∀ b0, b0 ≠ b → ends s' !! b0 = ends s !! b0) →
  chain_ok s' b' l'.
Proof.
  intros Hc Hne Hc' Hlk Hen. pose proof Hc' as (Hnd' & Hl' & He').
  split; [exact Hnd'|]. split.
  - eapply linked_ext; [|exact Hl']. intros x Hx.
    destruct (chain_ok_instr _ _ _ _ Hc' Hx) as (ins & Hins & Hpa).
    destruct (Hlk x) as [E|[E|(ins' & E & Hpa')]]; [|exact E|congruence|congruence].
    intros Hxl. destruct (chain_ok_instr _ _ _ _ Hc Hxl) as (ins' & Hins' & Hpa').
    congruence.
  - rewrite Hen by exact Hne. exact He'.
Qed.

Lemma links_frame_detached s s' (l : list nat) new nins :
  instrs s !! new = Some nins → i_parent nins = None →
  (∀ x, x ∉ l → x ≠ new → links s' !! x = links s !! x) →
  ∀ x, x ∉ l → links s' !! x = links s !! x ∨ instrs s !! x = None
               ∨ ∃ ins, instrs s !! x = Some ins ∧ i_parent ins = None.
Proof.
  intros Hnew Hpar H x Hx. destruct (decide (x = new)) as [->|Hne]; eauto.
Qed.

Lemma instruction_count_of_same s s' b :
  bb_parent <$> blocks s' = bb_parent <$> blocks s → funcs s' = funcs s →
  instruction_count_of s' b = instruction_count_of s b.
Proof.
  intros Hb Hf. unfold instruction_count_of.
  assert (E : bb_parent <$> blocks s' !! b = bb_parent <$> blocks s !! b)
    by (rewrite <- !lookup_fmap, Hb; reflexivity).
  destruct (blocks s' !! b) as [blk'|], (blocks s !! b) as [blk|]; simpl in *;
    try discriminate; [|reflexivity].
  injection E as ->. rewrite Hf. reflexivity.
Qed.

(** X9: [insert_instr_before(new, pos)], with [pos] in the list of a block and
    [new] in no block, returns and puts [new] right before [pos]; the lists of
    the other blocks, what the instructions compute and the instruction count
    of the function stay as they were. *)
Theorem insert_instr_before_list assert_on s b l1 pos l2 new_instr nins :
  chain_ok s b (l1 ++ pos :: l2) →
  instrs s !! new_instr = Some nins → i_parent nins = None →
  ∃ s', insert_instr_before assert_on new_instr pos s = Done s'
    ∧ chain_ok s' b (l1 ++ new_instr :: pos :: l2)
    ∧ (∀ b' l', b' ≠ b → chain_ok s b' l' → chain_ok s' b' l')
    ∧ bodies s' = bodies s
    ∧ instruction_count_of s' b = instruction_count_of s b.
Proof.
  intros Hc Hnew Hpar.
  destruct (insert_instr_before_effect assert_on s b l1 pos l2 new_instr nins Hc Hnew Hpar)
    as (s' & Hrun & Hc' & Hlk & Hen & Hbod & Hbp & _ & _ & Hf & _).
  exists s'. split; [exact Hrun|]. split; [exact Hc'|]. split; [|split; [exact Hbod|]].
  - intros b' l' Hne Hcb. eapply (chain_ok_frame s s' b); eauto.
    eapply links_frame_detached; eauto.
  - apply instruction_count_of_same; auto.
Qed.

Lemma insert_instr_before_list_witness :
  ∃ s', insert_instr_before true 1000 101 one_slot_with_new = Done s'
    ∧ chain_ok s' 10 ([100%nat] ++ 1000%nat :: 101%nat :: [102%nat; 103%nat])
    ∧ (∀ b' l', b' ≠ 10%nat → chain_ok one_slot_with_new b' l' → chain_ok s' b' l')
    ∧ bodies s' = bodies one_slot_with_new
    ∧ instruction_count_of s' 10 = instruction_count_of one_slot_with_new 10.
Proof.
  apply (insert_instr_before_list true one_slot_with_new 10%nat [100%nat] 101%nat
           [102%nat; 103%nat] 1000%nat
           (mkIRInstruction IR_OP_ADD None None [] None None None None 0 false false false)).
  - apply (bool_decide_unpack _). vm_compute. reflexivity.
  - vm_compute. reflexivity.
  - reflexivity.
Defined.

(** X10: [insert_instr_after(new, pos)], with [pos] in the list of a block and
    [new] in no block, returns and puts [new] right after [pos]; the lists of
    the other blocks, what the instructions compute and the instruction count
    of the function stay as they were. *)
Theorem insert_instr_after_list assert_on s b l1 pos l2 new_instr nins :
  chain_ok s b (l1 ++ pos :: l2) →
  instrs s !! new_instr = Some nins → i_parent nins = None →
  ∃ s', insert_instr_after assert_on new_instr pos s = Done s'
    ∧ chain_ok s' b (l1 ++ pos :: new_instr :: l2)
    ∧ (∀ b' l', b' ≠ b → chain_ok s b' l' → chain_ok s' b' l')
    ∧ bodies s' = bodies s
    ∧ instruction_count_of s' b = instruction_count_of s b.
Proof.
  intros Hc Hnew Hpar.
  destruct (insert_instr_after_effect assert_on s b l1 pos l2 new_instr nins Hc Hnew Hpar)
    as (s' & Hrun & Hc' & Hlk & Hen & Hbod & Hbp & _ & _ & Hf & _).
  exists s'. split; [exact Hrun|]. split; [exact Hc'|]. split; [|split; [exact Hbod|]].
  - intros b' l' Hne Hcb. eapply (chain_ok_frame s s' b); eauto.
    eapply links_frame_detached; eauto.
  - apply instruction_count_of_same; auto.
Qed.

Lemma insert_instr_after_list_witness :
  ∃ s', insert_instr_after true 1000 103 one_slot_with_new = Done s'
    ∧ chain_ok s' 10 ([100%nat; 101%nat; 102%nat] ++ 103%nat :: 1000%nat :: [])
    ∧ (∀ b' l', b' ≠ 10%nat → chain_ok one_slot_with_new b' l' → chain_ok s' b' l')
    ∧ bodies s' = bodies one_slot_with_new
    ∧ instruction_count_of s' 10 = instruction_count_of one_slot_with_new 10.
Proof.
  apply (insert_instr_after_list true one_slot_with_new 10%nat
           [100%nat; 101%nat; 102%nat] 103%nat [] 1000%nat
           (mkIRInstruction IR_OP_ADD None None [] None None None None 0 false false false)).
  - apply (bool_decide_unpack _). vm_compute. reflexivity.
  - vm_compute. reflexivity.
  - reflexivity.
Defined.

(** [add_instr_to_bb_end] in full. *)
Lemma add_instr_to_bb_end_effect assert_on s b l instr nins :
  chain_ok s b l → parent_function_ok s b →
  instrs s !! instr = Some nins → i_parent nins = None →
  ∃ s', add_instr_to_bb_end assert_on (Some b) instr s = Done s'
    ∧ chain_ok s' b (added_to_end s l instr)
    ∧ (∀ b' l', b' ≠ b → chain_ok s b' l' → chain_ok s' b' l')
    ∧ bodies s' = bodies s
    ∧ instruction_count_of s' b = (λ n, n + 1) <$> instruction_count_of s b
    ∧ bb_parent <$> blocks s' = bb_parent <$> blocks s
    ∧ (∀ p, is_Some (funcs s' !! p) ↔ is_Some (funcs s !! p))
    ∧ values s' = values s ∧ operands s' = operands s ∧ next_addr s' = next_addr s.
Proof.
  intros Hc Hpf Hnew Hpar.
  destruct (chain_ok_block _ _ _ Hc) as [blk Hblk].
  destruct (add_instr_to_bb_end_links assert_on s b l instr nins blk Hc Hblk Hnew Hpar)
    as (term & s1 & Hterm & Hrun & Hc1 & Hlk & Hen & Hbod & Hbp & Hv & Ho & Hf & Hn).
  unfold add_instr_to_bb_end.
  simpl is_null. simpl negb. rewrite c_assert_true, outcome_bind_Done. cbv beta.
  change (nonnull (Some b)) with (Done b). rewrite outcome_bind_Done. cbv beta.
  rewrite (proj2 (deref_Done _ _ _) Hblk), outcome_bind_Done. cbv beta.
  rewrite (proj2 (deref_Done _ _ _) Hnew), outcome_bind_Done. cbv beta.
  rewrite Hterm, outcome_bind_Done. cbv beta zeta. cbv zeta in Hrun.
  rewrite Hrun, outcome_bind_Done. cbv beta.
  assert (Hframe : ∀ b' l', b' ≠ b → chain_ok s b' l' → chain_ok s1 b' l').
  { intros b' l' Hne Hcb. eapply (chain_ok_frame s s1 b); eauto.
    eapply links_frame_detached; eauto. }
  unfold parent_function_ok in Hpf. rewrite Hblk in Hpf.
  rewrite (instruction_count_of_Some s b blk Hblk).
  destruct (bb_parent blk) as [pf|] eqn:Epf.
  - destruct Hpf as [fn Hfn].
    assert (Hfn1 : funcs s1 !! pf = Some fn) by (rewrite Hf; exact Hfn).
    rewrite (proj2 (deref_Done _ _ _) Hfn1), outcome_bind_Done. cbv beta.
    eexists. split; [reflexivity|].
    split; [eapply chain_ok_same_tables; [| |exact Hc1]; reflexivity|].
    split.
    { intros b' l' Hne Hcb. eapply chain_ok_same_tables; [| |apply Hframe; eauto]; reflexivity. }
    split; [exact Hbod|]. split.
    { unfold instruction_count_of. simpl.
      assert (E : bb_parent <$> blocks s1 !! b = bb_parent <$> blocks s !! b)
        by (rewrite <- !lookup_fmap, Hbp; reflexivity).
      rewrite Hblk in E. destruct (blocks s1 !! b) as [blk1|]; [|discriminate].
      simpl in E. injection E as E. simpl. rewrite E, Epf. simpl.
      rewrite lookup_alter_eq, Hfn1, Hfn. reflexivity. }
    split; [exact Hbp|]. split; [|auto].
    intros p. simpl. destruct (decide (pf = p)) as [<-|Hne].
    + rewrite lookup_alter_eq, Hfn1, Hfn. simpl. split; eauto.
    + rewrite lookup_alter_ne by exact Hne. rewrite Hf. reflexivity.
  - eexists. split; [reflexivity|]. split; [exact Hc1|]. split; [exact Hframe|].
    split; [exact Hbod|]. split.
    { rewrite (instruction_count_of_same s s1 b Hbp Hf).
      rewrite (instruction_count_of_Some s b blk Hblk), Epf. reflexivity. }
    split; [exact Hbp|]. split; [|auto]. intros p. rewrite Hf. reflexivity.
Qed.

(** X11: [add_instr_to_bb_end(bb, instr)], with [instr] in no block, returns and
    puts [instr] at the end of the list of [bb], before the [ret] or [br] that
    ends it when there is one; the instruction count of the function goes up
    by one, and the lists of the other blocks stay as they were. *)
Theorem add_instr_to_bb_end_list assert_on s b l instr nins :
  chain_ok s b l → parent_function_ok s b →
  instrs s !! instr = Some nins → i_parent nins = None →
  ∃ s', add_instr_to_bb_end assert_on (Some b) instr s = Done s'
    ∧ chain_ok s' b (added_to_end s l instr)
    ∧ (∀ b' l', b' ≠ b → chain_ok s b' l' → chain_ok s' b' l')
    ∧ bodies s' = bodies s
    ∧ instruction_count_of s' b = (λ n, n + 1) <$> instruction_count_of s b.
Proof.
  intros Hc Hpf Hnew Hpar.
  destruct (add_instr_to_bb_end_effect assert_on s b l instr nins Hc Hpf Hnew Hpar)
    as (s' & Hrun & Hc' & Hframe & Hbod & Hcnt & _).
  exists s'. auto.
Qed.

Lemma add_instr_to_bb_end_list_witness :
  ∃ s', add_instr_to_bb_end true (Some 10%nat) 1000 one_slot_with_new = Done s'
    ∧ chain_ok s' 10
        (added_to_end one_slot_with_new [100%nat; 101%nat; 102%nat; 103%nat] 1000)
    ∧ (∀ b' l', b' ≠ 10%nat → chain_ok one_slot_with_new b' l' → chain_ok s' b' l')
    ∧ bodies s' = bodies one_slot_with_new
    ∧ instruction_count_of s' 10
      = (λ n, n + 1) <$> instruction_count_of one_slot_with_new 10.
Proof.
  apply (add_instr_to_bb_end_list true one_slot_with_new 10%nat
           [100%nat; 101%nat; 102%nat; 103%nat] 1000%nat
           (mkIRInstruction IR_OP_ADD None None [] None None None None 0 false false false)).
  - apply (bool_decide_unpack _). vm_compute. reflexivity.
  - apply (bool_decide_unpack _). vm_compute. reflexivity.
  - vm_compute. reflexivity.
  - reflexivity.
Defined.

Lemma added_to_end_split s l instr :
  ∃ l1 l2, added_to_end s l instr = l1 ++ instr :: l2 ∧ l = l1 ++ l2.
Proof.
  unfold added_to_end.
  assert (Hend : ∃ l1 l2, l ++ [instr] = l1 ++ instr :: l2 ∧ l = l1 ++ l2).
  { exists l, []. rewrite app_nil_r. auto. }
  destruct (last l) as [t|] eqn:Elast; [|exact Hend].
  destruct (instrs s !! t) as [tins|]; [|exact Hend].
  destruct (terminator_opcode (i_opcode tins)); [|exact Hend].
  exists (removelast l), [t]. split; [reflexivity|]. apply removelast_last, Elast.
Qed.

(** X12: [add_instr_to_bb_end] followed by [erase_instruction] of the same
    instruction leaves the list of the block and the instruction count of the
    function as they were, and the instruction poisoned. *)
Theorem add_then_erase_restores assert_on s b l instr nins :
  ud_wf s → chain_ok s b l → parent_function_ok s b →
  instrs s !! instr = Some nins → i_parent nins = None →
  i_opcode nins ≠ IR_OP_UNKNOWN → dest_unused s nins →
  ∃ s1 s2, add_instr_to_bb_end assert_on (Some b) instr s = Done s1
    ∧ erase_instruction assert_on (Some instr) s1 = Done s2
    ∧ chain_ok s2 b l
    ∧ instruction_count_of s2 b = instruction_count_of s b
    ∧ opcode_of s2 instr = Some IR_OP_UNKNOWN.
Proof.
  intros Hwf Hc Hpf Hnew Hpar Hop Hdest.
  destruct (add_instr_to_bb_end_effect assert_on s b l instr nins Hc Hpf Hnew Hpar)
    as (s1 & Hrun & Hc1 & _ & Hbod & Hcnt & Hbp & Hfd & Hv & Ho & Hn).
  destruct (added_to_end_split s l instr) as (l1 & l2 & Hsplit & Hl).
  rewrite Hsplit in Hc1.
  assert (Hwf1 : ud_wf s1) by (eapply ud_wf_same_bodies; eauto).
  assert (Hpf1 : parent_function_ok s1 b) by (eapply parent_function_ok_ext; eauto).
  assert (Hins1 : ∃ ins1, instrs s1 !! instr = Some ins1 ∧ i_opcode ins1 = i_opcode nins
                          ∧ i_dest ins1 = i_dest nins).
  { assert (E : bodies s1 !! instr = bodies s !! instr) by (rewrite Hbod; reflexivity).
    unfold bodies in E. rewrite !lookup_fmap, Hnew in E.
    destruct (instrs s1 !! instr) as [ins1|]; [|discriminate]. simpl in E.
    unfold body_fields in E. injection E as E1 E2 _ _. eauto. }
  destruct Hins1 as (ins1 & Hins1 & Hop1 & Hd1).
  destruct (erase_instruction_unasserted s1 b l1 instr l2 ins1 Hwf1 Hc1 Hpf1 Hins1)
    as (s2 & Herase & _ & Hc2 & _ & _ & Hbod2 & _ & _ & Hcnt2 & _); [congruence|].
  exists s1, s2. split; [exact Hrun|]. split.
  { rewrite (erase_instruction_assertion_passes assert_on s1 instr ins1 Hins1); [exact Herase|].
    unfold dest_unused in *. rewrite Hd1, Hv. exact Hdest. }
  split; [rewrite Hl; exact Hc2|]. split.
  - rewrite Hcnt2, Hcnt. destruct (instruction_count_of s b) as [n|]; simpl; [|reflexivity].
    f_equal. lia.
  - unfold opcode_of.
    assert (E : bodies s2 !! instr
                = (λ '(_, _, _, live), (IR_OP_UNKNOWN, None, [], live)) <$> bodies s1 !! instr).
    { rewrite Hbod2, lookup_alter_eq. reflexivity. }
    unfold bodies in E. rewrite !lookup_fmap, Hins1 in E.
    destruct (instrs s2 !! instr) as [ins2|]; [|discriminate]. simpl in E.
    unfold body_fields in E. injection E as E1 _ _ _. simpl. congruence.
Qed.

Lemma add_then_erase_restores_witness :
  ∃ s1 s2, add_instr_to_bb_end true (Some 10%nat) 1000 one_slot_with_new = Done s1
    ∧ erase_instruction true (Some 1000%nat) s1 = Done s2
    ∧ chain_ok s2 10 [100%nat; 101%nat; 102%nat; 103%nat]
    ∧ instruction_count_of s2 10 = instruction_count_of one_slot_with_new 10
    ∧ opcode_of s2 1000 = Some IR_OP_UNKNOWN.
Proof.
  apply (add_then_erase_restores true one_slot_with_new 10%nat
           [100%nat; 101%nat; 102%nat; 103%nat] 1000%nat
           (mkIRInstruction IR_OP_ADD None None [] None None None None 0 false false false)).
  - apply (bool_decide_unpack _). vm_compute. reflexivity.
  - apply (bool_decide_unpack _). vm_compute. reflexivity.
  - apply (bool_decide_unpack _). vm_compute. reflexivity.
  - vm_compute. reflexivity.
  - reflexivity.
  - discriminate.
  - exact I.
Defined.

(** ** [build_cfg] *)

Lemma for_each_inv {A} (body : A → state → outcome state) (I : list A → state → Prop)
  (all : list A) :
  (∀ done x s, x ∈ all → I done s → ∃ s', body x s = Done s' ∧ I (done ++ [x]) s') →
  ∀ l done s, (∀ x, x ∈ l → x ∈ all) → I done s →
    ∃ s', for_each body l s = Done s' ∧ I (done ++ l) s'.
Proof.
  intros Hstep. induction l as [|x l IH]; intros done s Hsub HI.
  - exists s. rewrite app_nil_r. auto.
  - destruct (Hstep done x s (Hsub x (list_elem_of_here _ _)) HI) as (s1 & Hx & HI1).
    destruct (IH (done ++ [x]) s1) as (s' & Hrun & HI'); [|exact HI1|].
    { intros y Hy. apply Hsub, list_elem_of_further, Hy. }
    exists s'. split.
    + change (for_each body (x :: l) s) with (s0 ← body x s; for_each body l s0).
      rewrite Hx. exact Hrun.
    + rewrite <- app_assoc in HI'. exact HI'.
Qed.

Lemma terminator_successors_ext a s s' blk blk' :
  instrs s' = instrs s → operands s' = operands s → bb_tail blk' = bb_tail blk →
  terminator_successors a s' blk' = terminator_successors a s blk.
Proof. intros Hi Ho Ht. unfold terminator_successors. rewrite Hi, Ho, Ht. reflexivity. Qed.

Lemma c_assert_Done c : c_assert true c = Done tt → c = true.
Proof. unfold c_assert. destruct c; [reflexivity|discriminate]. Qed.

(** Targets read with the assertions on are read the same without them. *)
Lemma terminator_successors_checked s blk l a :
  terminator_successors true s blk = Done l → terminator_successors a s blk = Done l.
Proof.
  destruct a; [auto|]. unfold terminator_successors.
  destruct (bb_tail blk) as [t|]; [|auto]. intros H.
  apply bind_Done in H as (term & Hterm & H). rewrite Hterm, outcome_bind_Done. cbv beta.
  destruct (opcode_eqb (i_opcode term) IR_OP_BR); [|exact H].
  destruct (1 <? length (i_operands term))%nat.
  - apply bind_Done in H as (op1 & -> & H). rewrite outcome_bind_Done. cbv beta.
    apply bind_Done in H as (o1 & -> & H). rewrite outcome_bind_Done. cbv beta.
    apply bind_Done in H as (op2 & -> & H). rewrite outcome_bind_Done. cbv beta.
    apply bind_Done in H as (o2 & -> & H). rewrite outcome_bind_Done. cbv beta.
    apply bind_Done in H as ([] & _ & H). exact H.
  - apply bind_Done in H as (op0 & -> & H). rewrite outcome_bind_Done. cbv beta.
    apply bind_Done in H as (o0 & -> & H). rewrite outcome_bind_Done. cbv beta.
    apply bind_Done in H as ([] & _ & H). exact H.
Qed.

Lemma block_ready_targets s all b :
  block_ready s all b →
  ∃ blk, blocks s !! b = Some blk
         ∧ (∀ a, terminator_successors a s blk = Done (branch_targets s b))
         ∧ ∀ x, x ∈ branch_targets s b → x ∈ all.
Proof.
  unfold block_ready, branch_targets. destruct (blocks s !! b) as [blk|]; [|contradiction].
  destruct (terminator_successors true s blk) as [l|] eqn:E; [|contradiction].
  intros Hall. exists blk. split; [reflexivity|].
  rewrite (terminator_successors_checked s blk l false E). split.
  - intros a. apply terminator_successors_checked, E.
  - intros x Hx. exact (proj1 (Forall_forall _ _) Hall x Hx).
Qed.

(** [s'] is [s] with new edges on the blocks [all]. *)
(** What [build_cfg] reads off a well-formed branch is its labels. *)
Lemma terminator_successors_labels a s all b blk :
  blocks s !! b = Some blk → block_ends_well s all b →
  terminator_successors a s blk = Done (jump_targets s b)
  ∧ Forall (λ x, x ∈ all) (jump_targets s b).
Proof.
  intros Hblk. unfold block_ends_well, jump_targets, last_instruction, terminator_successors.
  rewrite Hblk. destruct (bb_tail blk) as [t|]; [|intros _; split; [reflexivity|constructor]].
  destruct (instrs s !! t) as [term|] eqn:Ht; [|contradiction].
  rewrite (proj2 (deref_Done _ _ _) Ht), outcome_bind_Done. cbv beta.
  unfold opcode_eqb. destruct (decide (i_opcode term = IR_OP_BR)) as [Hbr|Hbr].
  2:{ rewrite !bool_decide_eq_false_2 by exact Hbr. intros _. split; [reflexivity|constructor]. }
  rewrite !bool_decide_eq_true_2 by exact Hbr. intros H.
  destruct (H Hbr) as [Hshape Hall]. split; [|exact Hall]. clear H Hall.
  unfold branch_well_formed, operand_kinds, labels in *.
  destruct Hshape as [[Hk Hl]|[Hk Hl]].
  - destruct (i_operands term) as [|op0 [|? ?]]; try discriminate Hk.
    simpl in Hk. injection Hk as Hk.
    destruct (operands s !! op0) as [o0|] eqn:Ho0; [|discriminate Hk]. injection Hk as Hk.
    cbn [omap list_omap] in *. unfold label_of in *. rewrite Ho0 in *.
    rewrite bool_decide_eq_true_2 in * by exact Hk.
    destruct (op_data o0) as [d|] eqn:Hd; [|discriminate Hl].
    cbn [length Nat.ltb Nat.leb lookup list_lookup nonnull].
    rewrite outcome_bind_Done. cbv beta.
    rewrite (proj2 (deref_Done _ _ _) Ho0), outcome_bind_Done. cbv beta.
    unfold op_bb. rewrite Hd. unfold c_assert. simpl. rewrite andb_false_r. reflexivity.
  - destruct (i_operands term) as [|op0 [|op1 [|op2 [|? ?]]]]; try discriminate Hk.
    simpl in Hk. injection Hk as Hk0 Hk1 Hk2.
    destruct (operands s !! op0) as [o0|] eqn:Ho0; [|discriminate Hk0]. injection Hk0 as Hk0.
    destruct (operands s !! op1) as [o1|] eqn:Ho1; [|discriminate Hk1]. injection Hk1 as Hk1.
    destruct (operands s !! op2) as [o2|] eqn:Ho2; [|discriminate Hk2]. injection Hk2 as Hk2.
    cbn [omap list_omap] in *. unfold label_of in *. rewrite Ho0, Ho1, Ho2 in *.
    rewrite (bool_decide_eq_false_2 (op_kind o0 = IR_OP_KIND_BASIC_BLOCK)) in *
      by (rewrite Hk0; discriminate).
    rewrite (bool_decide_eq_true_2 (op_kind o1 = IR_OP_KIND_BASIC_BLOCK)) in * by exact Hk1.
    rewrite (bool_decide_eq_true_2 (op_kind o2 = IR_OP_KIND_BASIC_BLOCK)) in * by exact Hk2.
    destruct (op_data o1) as [d1|] eqn:Hd1, (op_data o2) as [d2|] eqn:Hd2;
      try discriminate Hl.
    cbn [length Nat.ltb Nat.leb lookup list_lookup nonnull].
    rewrite outcome_bind_Done. cbv beta.
    rewrite (proj2 (deref_Done _ _ _) Ho1), outcome_bind_Done. cbv beta.
    rewrite outcome_bind_Done. cbv beta.
    rewrite (proj2 (deref_Done _ _ _) Ho2), outcome_bind_Done. cbv beta.
    unfold op_bb. rewrite Hd1, Hd2. unfold c_assert. simpl. rewrite andb_false_r. reflexivity.
Qed.

Lemma block_ends_well_read s all b :
  block_ends_well s all b →
  block_ready s all b ∧ branch_targets s b = jump_targets s b.
Proof.
  intros H. assert (Hblk : ∃ blk, blocks s !! b = Some blk).
  { unfold block_ends_well in H. destruct (blocks s !! b); [eauto|contradiction]. }
  destruct Hblk as (blk & Hblk). unfold block_ready, branch_targets. rewrite Hblk.
  destruct (terminator_successors_labels true s all b blk Hblk H) as [-> Hall].
  destruct (terminator_successors_labels false s all b blk Hblk H) as [-> _]. auto.
Qed.

Lemma branches_well_formed_read s all :
  branches_well_formed s all →
  cfg_ready s all ∧ ∀ b, b ∈ all → branch_targets s b = jump_targets s b.
Proof.
  intros H. split.
  - eapply Forall_impl; [exact H|]. intros b Hb. apply block_ends_well_read, Hb.
  - intros b Hb. eapply Forall_forall in H; [|exact Hb]. apply block_ends_well_read in H.
    apply H.
Qed.

Lemma incoming_jumping_to s b : ∀ from,
  (∀ a, a ∈ from → branch_targets s a = jump_targets s a) →
  incoming s from b = jumping_to s from b.
Proof.
  induction from as [|a from IH]; intros H; [reflexivity|].
  unfold incoming, jumping_to in *. cbn [mbind list_bind]. 
  rewrite (H a) by apply list_elem_of_here. f_equal.
  apply IH. intros a' Ha'. apply H. apply list_elem_of_further, Ha'.
Qed.

Lemma same_but_blocks s s1 :
  instrs s1 = instrs s ∧ operands s1 = operands s ∧ funcs s1 = funcs s
  ∧ values s1 = values s ∧ next_addr s1 = next_addr s →
  ∀ b f, instrs (upd_block b f s1) = instrs s ∧ operands (upd_block b f s1) = operands s
         ∧ funcs (upd_block b f s1) = funcs s ∧ values (upd_block b f s1) = values s
         ∧ next_addr (upd_block b f s1) = next_addr s.
Proof. intros H b f. exact H. Qed.

Lemma clear_edges_pass s all :
  (∀ b, b ∈ all → is_Some (blocks s !! b)) →
  ∃ s1, for_each clear_edges all s = Done s1
        ∧ (instrs s1 = instrs s ∧ operands s1 = operands s ∧ funcs s1 = funcs s
           ∧ values s1 = values s ∧ next_addr s1 = next_addr s)
        ∧ ∀ b, blocks s1 !! b = blocks_with_edges s all (λ _, []) (λ _, []) b.
Proof.
  intros Hex.
  destruct (for_each_inv clear_edges
              (λ done s1, (instrs s1 = instrs s ∧ operands s1 = operands s
                           ∧ funcs s1 = funcs s ∧ values s1 = values s
                           ∧ next_addr s1 = next_addr s)
                          ∧ ∀ b, blocks s1 !! b
                                 = blocks_with_edges s done (λ _, []) (λ _, []) b)
              all) with (l := all) (done := @nil nat) (s := s) as (s1 & Hrun & Hsame & Hb).
  - intros done x s0 Hx [Hsame Hb]. unfold clear_edges.
    destruct (Hex x Hx) as [blk Hblk].
    assert (Hx0 : is_Some (blocks s0 !! x)).
    { rewrite Hb. unfold blocks_with_edges. rewrite Hblk. eauto. }
    destruct Hx0 as [blk0 Hblk0].
    rewrite (proj2 (deref_Done _ _ _) Hblk0), outcome_bind_Done. cbv beta.
    eexists. split; [reflexivity|]. split; [exact Hsame|].
    intros b. simpl. unfold blocks_with_edges in *.
    destruct (decide (x = b)) as [<-|Hne].
    + rewrite lookup_alter_eq, Hb, Hblk. simpl.
      rewrite (bool_decide_true (x ∈ done ++ [x]))
        by (apply elem_of_app; right; apply list_elem_of_here).
      destruct (bool_decide (x ∈ done)); reflexivity.
    + rewrite lookup_alter_ne by exact Hne. rewrite Hb.
      destruct (blocks s !! b) as [blkb|]; [|reflexivity]. simpl.
      destruct (decide (b ∈ done)) as [Hin|Hout].
      * rewrite !bool_decide_true; [reflexivity| |exact Hin]. apply elem_of_app. auto.
      * rewrite !bool_decide_false; [reflexivity| |exact Hout].
        intros Hin. apply elem_of_app in Hin as [Hin|Hin]; [contradiction|].
        apply list_elem_of_singleton in Hin. congruence.
  - auto.
  - split; [auto|]. intros b. unfold blocks_with_edges.
    rewrite bool_decide_false by apply not_elem_of_nil.
    destruct (blocks s !! b); reflexivity.
  - exists s1. auto.
Qed.

Lemma set_successors_pass assert_on s s1 all :
  cfg_ready s all →
  (instrs s1 = instrs s ∧ operands s1 = operands s ∧ funcs s1 = funcs s
   ∧ values s1 = values s ∧ next_addr s1 = next_addr s) →
  (∀ b, blocks s1 !! b = blocks_with_edges s all (λ _, []) (λ _, []) b) →
  ∃ s2, for_each (set_successors assert_on) all s1 = Done s2
        ∧ (instrs s2 = instrs s ∧ operands s2 = operands s ∧ funcs s2 = funcs s
           ∧ values s2 = values s ∧ next_addr s2 = next_addr s)
        ∧ ∀ b, blocks s2 !! b = blocks_with_edges s all (branch_targets s) (λ _, []) b.
Proof.
  intros Hready Hsame1 Hb1.
  assert (Hr : ∀ b, b ∈ all → block_ready s all b)
    by (intros b Hb; exact (proj1 (Forall_forall _ _) Hready b Hb)).
  destruct (for_each_inv (set_successors assert_on)
              (λ done s2, (instrs s2 = instrs s ∧ operands s2 = operands s
                           ∧ funcs s2 = funcs s ∧ values s2 = values s
                           ∧ next_addr s2 = next_addr s)
                          ∧ ∀ b, blocks s2 !! b
                                 = blocks_with_edges s all
                                     (λ x, if bool_decide (x ∈ done) then branch_targets s x
                                           else []) (λ _, []) b)
              all) with (l := all) (done := @nil nat) (s := s1) as (s2 & Hrun & Hsame & Hb).
  - intros done x s0 Hx [Hsame Hb]. unfold set_successors.
    destruct (block_ready_targets s all x (Hr x Hx)) as (blk & Hblk & Htg & Hin).
    assert (Hblk0 : ∃ blk0, blocks s0 !! x = Some blk0 ∧ bb_tail blk0 = bb_tail blk).
    { rewrite Hb. unfold blocks_with_edges. rewrite Hblk. simpl.
      eexists. split; [reflexivity|]. destruct (bool_decide (x ∈ all)); reflexivity. }
    destruct Hblk0 as (blk0 & Hblk0 & Htail).
    rewrite (proj2 (deref_Done _ _ _) Hblk0), outcome_bind_Done. cbv beta.
    destruct Hsame as (Hi & Ho & Hrest).
    rewrite (terminator_successors_ext assert_on s s0 blk blk0 Hi Ho Htail), Htg,
      outcome_bind_Done. cbv beta.
    assert (Hderefs : ∀ l, (∀ y, y ∈ l → y ∈ all) →
              foldr (λ succ r, _ ← deref (blocks s0) succ; r) (Done tt) l = Done tt).
    { induction l as [|y l IH]; intros Hl; [reflexivity|]. simpl.
      destruct (block_ready_targets s all y (Hr y (Hl y (list_elem_of_here _ _))))
        as (blky & Hblky & _).
      assert (is_Some (blocks s0 !! y)) as [b0 Hb0].
      { rewrite Hb. unfold blocks_with_edges. rewrite Hblky. eauto. }
      rewrite (proj2 (deref_Done _ _ _) Hb0), outcome_bind_Done. cbv beta.
      apply IH. intros z Hz. apply Hl, list_elem_of_further, Hz. }
    rewrite Hderefs by exact Hin.
    rewrite outcome_bind_Done. cbv beta.
    eexists. split; [reflexivity|]. split; [auto|].
    intros b. simpl. unfold blocks_with_edges in *.
    destruct (decide (x = b)) as [<-|Hne].
    + rewrite lookup_alter_eq, Hb, Hblk. simpl.
      rewrite (bool_decide_true (x ∈ all)) by exact Hx.
      rewrite (bool_decide_true (x ∈ done ++ [x]))
        by (apply elem_of_app; right; apply list_elem_of_here).
      reflexivity.
    + rewrite lookup_alter_ne by exact Hne. rewrite Hb.
      destruct (blocks s !! b) as [blkb|]; [|reflexivity]. simpl.
      destruct (bool_decide (b ∈ all)); [|reflexivity].
      destruct (decide (b ∈ done)) as [Hd|Hd].
      * rewrite !bool_decide_true; [reflexivity| |exact Hd]. apply elem_of_app. auto.
      * rewrite !bool_decide_false; [reflexivity| |exact Hd].
        intros Hd'. apply elem_of_app in Hd' as [Hd'|Hd']; [contradiction|].
        apply list_elem_of_singleton in Hd'. congruence.
  - auto.
  - split; [exact Hsame1|]. intros b. rewrite Hb1. unfold blocks_with_edges.
    destruct (blocks s !! b) as [blkb|]; [|reflexivity]. simpl.
    destruct (bool_decide (b ∈ all)); reflexivity.
  - exists s2. split; [exact Hrun|]. split; [exact Hsame|].
    intros b. rewrite Hb. unfold blocks_with_edges.
    destruct (blocks s !! b) as [blkb|]; [|reflexivity]. simpl.
    destruct (decide (b ∈ all)) as [Hd|Hd].
    + rewrite !bool_decide_true by exact Hd. reflexivity.
    + rewrite !bool_decide_false by exact Hd. reflexivity.
Qed.

Lemma fill_predecessors_pass s all a from :
  (∀ b, b ∈ all → is_Some (blocks s !! b)) →
  ∀ rest seen s0,
    (∀ y, y ∈ rest → y ∈ all) →
    (∀ b, blocks s0 !! b
          = blocks_with_edges s all (branch_targets s)
              (λ b, incoming s from b ++ ((λ _, a) <$> filter (λ x, x = b) seen)) b) →
    ∃ s', fill_predecessors all a rest s0 = Done s'
          ∧ instrs s' = instrs s0 ∧ operands s' = operands s0 ∧ funcs s' = funcs s0
          ∧ values s' = values s0 ∧ next_addr s' = next_addr s0
          ∧ ∀ b, blocks s' !! b
                 = blocks_with_edges s all (branch_targets s)
                     (λ b, incoming s from b
                           ++ ((λ _, a) <$> filter (λ x, x = b) (seen ++ rest))) b.
Proof.
  intros Hex. induction rest as [|succ rest IH]; intros seen s0 Hsub Hb.
  - exists s0. rewrite app_nil_r. simpl. auto 10.
  - assert (Hsucc : succ ∈ all) by (apply Hsub, list_elem_of_here).
    destruct (Hex succ Hsucc) as [blk Hblk].
    pose proof (Hb succ) as Hs0. unfold blocks_with_edges in Hs0. rewrite Hblk in Hs0.
    simpl in Hs0. rewrite (bool_decide_true _ Hsucc) in Hs0.
    change (fill_predecessors all a (succ :: rest) s0)
      with (sblk ← deref (blocks s0) succ;
            if bool_decide (succ ∈ all) then
              fill_predecessors all a rest
                (upd_block succ (bb_with_predecessors (bb_predecessors sblk ++ [a])) s0)
            else Stop invalid_pointer).
    rewrite (proj2 (deref_Done _ _ _) Hs0), outcome_bind_Done. cbv beta.
    rewrite (bool_decide_true _ Hsucc).
    destruct (IH (seen ++ [succ])
                (upd_block succ
                   (bb_with_predecessors
                      (bb_predecessors
                         (with_edges (branch_targets s succ)
                            (incoming s from succ
                             ++ ((λ _, a) <$> filter (λ x, x = succ) seen)) blk) ++ [a])) s0))
      as (s' & Hrun & Hi & Ho & Hf & Hv & Hn & Hb').
    + intros y Hy. apply Hsub, list_elem_of_further, Hy.
    + intros b. simpl. unfold blocks_with_edges in *.
      destruct (decide (succ = b)) as [<-|Hne].
      * rewrite lookup_alter_eq, Hs0, Hblk. simpl. rewrite (bool_decide_true _ Hsucc).
        rewrite filter_app, fmap_app, filter_cons_True by reflexivity.
        rewrite filter_nil. simpl. rewrite app_assoc. reflexivity.
      * rewrite lookup_alter_ne by exact Hne. rewrite Hb.
        destruct (blocks s !! b) as [blkb|]; [|reflexivity]. simpl.
        rewrite filter_app, filter_cons_False by congruence.
        rewrite filter_nil, app_nil_r. reflexivity.
    + exists s'. split; [exact Hrun|]. rewrite <- app_assoc in Hb'. simpl in Hb'. auto 10.
Qed.

Lemma fill_pass s s2 all :
  cfg_ready s all →
  (instrs s2 = instrs s ∧ operands s2 = operands s ∧ funcs s2 = funcs s
   ∧ values s2 = values s ∧ next_addr s2 = next_addr s) →
  (∀ b, blocks s2 !! b = blocks_with_edges s all (branch_targets s) (λ _, []) b) →
  ∃ s3, for_each (λ block s', blk ← deref (blocks s') block;
                    fill_predecessors all block (bb_successors blk) s') all s2 = Done s3
        ∧ (instrs s3 = instrs s ∧ operands s3 = operands s ∧ funcs s3 = funcs s
           ∧ values s3 = values s ∧ next_addr s3 = next_addr s)
        ∧ ∀ b, blocks s3 !! b
               = blocks_with_edges s all (branch_targets s) (incoming s all) b.
Proof.
  intros Hready Hsame2 Hb2.
  assert (Hr : ∀ b, b ∈ all → block_ready s all b)
    by (intros b Hb; exact (proj1 (Forall_forall _ _) Hready b Hb)).
  assert (Hex : ∀ b, b ∈ all → is_Some (blocks s !! b)).
  { intros b Hb. destruct (block_ready_targets s all b (Hr b Hb)) as (blk & Hblk & _). eauto. }
  destruct (for_each_inv
              (λ block s', blk ← deref (blocks s') block;
                 fill_predecessors all block (bb_successors blk) s')
              (λ done s3, (instrs s3 = instrs s ∧ operands s3 = operands s
                           ∧ funcs s3 = funcs s ∧ values s3 = values s
                           ∧ next_addr s3 = next_addr s)
                          ∧ ∀ b, blocks s3 !! b
                                 = blocks_with_edges s all (branch_targets s)
                                     (incoming s done) b)
              all) with (l := all) (done := @nil nat) (s := s2) as (s3 & Hrun & Hsame & Hb).
  - intros done x s0 Hx [Hsame Hb].
    destruct (block_ready_targets s all x (Hr x Hx)) as (blk & Hblk & _ & Hin).
    pose proof (Hb x) as Hx0. unfold blocks_with_edges in Hx0. rewrite Hblk in Hx0.
    simpl in Hx0. rewrite (bool_decide_true _ Hx) in Hx0.
    rewrite (proj2 (deref_Done _ _ _) Hx0), outcome_bind_Done. cbv beta.
    change (bb_successors (with_edges (branch_targets s x) (incoming s done x) blk))
      with (branch_targets s x).
    destruct (fill_predecessors_pass s all x done Hex (branch_targets s x) [] s0 Hin)
      as (s' & Hfill & Hi & Ho & Hf & Hv & Hn & Hb').
    + intros b. rewrite Hb. unfold blocks_with_edges.
      destruct (blocks s !! b) as [blkb|]; [|reflexivity]. simpl.
      rewrite app_nil_r. reflexivity.
    + exists s'. split; [exact Hfill|]. destruct Hsame as (Hi0 & Ho0 & Hf0 & Hv0 & Hn0).
      split; [repeat split; congruence|].
      intros b. rewrite Hb'. unfold blocks_with_edges, incoming.
      destruct (blocks s !! b) as [blkb|]; [|reflexivity]. simpl.
      rewrite bind_app. simpl. rewrite app_nil_r. reflexivity.
  - auto.
  - split; [exact Hsame2|]. intros b. rewrite Hb2. reflexivity.
  - exists s3. auto.
Qed.

Lemma elem_of_incoming s all a b : a ∈ incoming s all b ↔ a ∈ all ∧ b ∈ branch_targets s a.
Proof.
  unfold incoming. rewrite list_elem_of_bind. split.
  - intros (y & Hy & Hin). apply list_elem_of_fmap in Hy as (x & -> & Hx).
    apply list_elem_of_filter in Hx as [-> Hx]. auto.
  - intros [Hin Hb]. exists a. split; [|exact Hin].
    apply list_elem_of_fmap. exists b. split; [reflexivity|].
    apply list_elem_of_filter. auto.
Qed.

Lemma branch_targets_same s s' all succs preds :
  instrs s' = instrs s → operands s' = operands s →
  (∀ b, blocks s' !! b = blocks_with_edges s all succs preds b) →
  ∀ a, branch_targets s' a = branch_targets s a.
Proof.
  intros Hi Ho Hb a. unfold branch_targets. rewrite Hb. unfold blocks_with_edges.
  destruct (blocks s !! a) as [blk|]; [|reflexivity]. simpl.
  rewrite (terminator_successors_ext false s s' blk _ Hi Ho); [reflexivity|].
  destruct (bool_decide (a ∈ all)); reflexivity.
Qed.

Lemma incoming_same s s' from b :
  (∀ a, branch_targets s' a = branch_targets s a) → incoming s' from b = incoming s from b.
Proof.
  intros H. unfold incoming. induction from as [|a from IH]; [reflexivity|].
  simpl. rewrite H. f_equal. exact IH.
Qed.

Lemma build_cfg_effect assert_on s f fn :
  funcs s !! f = Some fn → fn_entry fn ≠ None → cfg_ready s (fn_blocks fn) →
  ∃ s', build_cfg assert_on (Some f) s = Done s'
    ∧ (instrs s' = instrs s ∧ operands s' = operands s ∧ funcs s' = funcs s
       ∧ values s' = values s ∧ next_addr s' = next_addr s)
    ∧ ∀ b, blocks s' !! b
           = blocks_with_edges s (fn_blocks fn) (branch_targets s)
               (incoming s (fn_blocks fn)) b.
Proof.
  intros Hfn Hentry Hready. unfold build_cfg.
  rewrite (proj2 (deref_Done _ _ _) Hfn), outcome_bind_Done. cbv beta.
  destruct (fn_entry fn) as [e|]; [|contradiction]. simpl is_null. cbv iota.
  assert (Hex : ∀ b, b ∈ fn_blocks fn → is_Some (blocks s !! b)).
  { intros b Hb.
    destruct (block_ready_targets s _ b (proj1 (Forall_forall _ _) Hready b Hb))
      as (blk & Hblk & _). eauto. }
  destruct (clear_edges_pass s (fn_blocks fn) Hex) as (s1 & H1 & Hsame1 & Hb1).
  rewrite H1, outcome_bind_Done. cbv beta.
  destruct (set_successors_pass assert_on s s1 (fn_blocks fn) Hready Hsame1 Hb1)
    as (s2 & H2 & Hsame2 & Hb2).
  rewrite H2, outcome_bind_Done. cbv beta.
  destruct (fill_pass s s2 (fn_blocks fn) Hready Hsame2 Hb2) as (s3 & H3 & Hsame3 & Hb3).
  exists s3. auto.
Qed.

(** X13: on a function whose blocks end well (a [br] at the end of a block is
    [br label] or [br cond, label, label] and its labels are blocks of the
    function), [build_cfg] returns, and afterwards the successors of every
    block of the function are the labels of the [br] it ends in, in operand
    order (none if it ends in another instruction, or is empty), and its
    predecessors are the blocks of the function that jump to it, in function
    order, once for every label that names it; so [a] is a predecessor of [b]
    exactly when [b] is a successor of [a]. *)
Theorem build_cfg_edges assert_on s f fn :
  funcs s !! f = Some fn → fn_entry fn ≠ None → branches_well_formed s (fn_blocks fn) →
  ∃ s', build_cfg assert_on (Some f) s = Done s'
    ∧ (∀ a blka, a ∈ fn_blocks fn → blocks s' !! a = Some blka →
         bb_successors blka = jump_targets s a
         ∧ bb_predecessors blka = jumping_to s (fn_blocks fn) a)
    ∧ (∀ a b blka blkb, a ∈ fn_blocks fn → b ∈ fn_blocks fn →
         blocks s' !! a = Some blka → blocks s' !! b = Some blkb →
         (a ∈ bb_predecessors blkb ↔ b ∈ bb_successors blka)).
Proof.
  intros Hfn Hentry Hwell.
  destruct (branches_well_formed_read s (fn_blocks fn) Hwell) as [Hready Hread].
  destruct (build_cfg_effect assert_on s f fn Hfn Hentry Hready)
    as (s' & Hrun & _ & Hb).
  assert (Hshape : ∀ a blka, a ∈ fn_blocks fn → blocks s' !! a = Some blka →
            bb_successors blka = branch_targets s a
            ∧ bb_predecessors blka = incoming s (fn_blocks fn) a).
  { intros a blka Ha Hblka. rewrite Hb in Hblka. unfold blocks_with_edges in Hblka.
    destruct (blocks s !! a) as [blk|]; [|discriminate]. simpl in Hblka.
    rewrite (bool_decide_true _ Ha) in Hblka. injection Hblka as <-. auto. }
  exists s'. split; [exact Hrun|]. split.
  - intros a blka Ha Hblka. destruct (Hshape a blka Ha Hblka) as [-> ->].
    split; [apply Hread, Ha|]. apply incoming_jumping_to. exact Hread.
  - intros a b blka blkb Ha Hbin Hblka Hblkb.
    destruct (Hshape a blka Ha Hblka) as [-> _].
    destruct (Hshape b blkb Hbin Hblkb) as [_ ->].
    rewrite elem_of_incoming. tauto.
Qed.

Lemma build_cfg_edges_witness :
  ∃ s', build_cfg true (Some 1%nat) branch_on_argument = Done s'
    ∧ (∀ a blka, a ∈ [10%nat; 11%nat; 12%nat] → blocks s' !! a = Some blka →
         bb_successors blka = jump_targets branch_on_argument a
         ∧ bb_predecessors blka = jumping_to branch_on_argument [10%nat; 11%nat; 12%nat] a)
    ∧ (∀ a b blka blkb, a ∈ [10%nat; 11%nat; 12%nat] → b ∈ [10%nat; 11%nat; 12%nat] →
         blocks s' !! a = Some blka → blocks s' !! b = Some blkb →
         (a ∈ bb_predecessors blkb ↔ b ∈ bb_successors blka)).
Proof.
  apply (build_cfg_edges true branch_on_argument 1%nat
           (mkIRFunction (Some "f"%string) (Some 10%nat) [10%nat; 11%nat; 12%nat] 3 4
              [50%nat] (Some [10%nat; 11%nat; 12%nat]))).
  - vm_compute. reflexivity.
  - discriminate.
  - apply (bool_decide_unpack _). vm_compute. reflexivity.
Defined.

Lemma for_each_preserves {A B} (P : state → B) (body : A → state → outcome state) :
  (∀ x s s', body x s = Done s' → P s' = P s) →
  ∀ l s s', for_each body l s = Done s' → P s' = P s.
Proof.
  intros Hbody. induction l as [|x l IH]; intros s s' H.
  - injection H as <-. reflexivity.
  - change (for_each body (x :: l) s) with (s0 ← body x s; for_each body l s0) in H.
    apply bind_Done in H as (s0 & Hx & H). rewrite (IH _ _ H). eapply Hbody, Hx.
Qed.

Lemma fill_predecessors_module all a : ∀ rest s s',
  fill_predecessors all a rest s = Done s' → module_functions s' = module_functions s.
Proof.
  induction rest as [|succ rest IH]; intros s s' H.
  - injection H as <-. reflexivity.
  - simpl in H. apply bind_Done in H as (sblk & _ & H).
    destruct (bool_decide (succ ∈ all)); [|discriminate]. rewrite (IH _ _ H). reflexivity.
Qed.

Lemma build_cfg_module assert_on func s s' :
  build_cfg assert_on func s = Done s' → module_functions s' = module_functions s.
Proof.
  unfold build_cfg. destruct func as [f|]; [|intros [= <-]; reflexivity]. intros H.
  apply bind_Done in H as (fn & _ & H).
  destruct (is_null (fn_entry fn)); [injection H as <-; reflexivity|].
  apply bind_Done in H as (s1 & H1 & H). apply bind_Done in H as (s2 & H2 & H3).
  apply (for_each_preserves module_functions) in H1, H2, H3.
  - congruence.
  - intros x s0 s0' Hx. apply bind_Done in Hx as (blk & _ & Hx).
    eapply fill_predecessors_module, Hx.
  - intros x s0 s0' Hx. unfold set_successors in Hx.
    apply bind_Done in Hx as (blk & _ & Hx). apply bind_Done in Hx as (succs & _ & Hx).
    apply bind_Done in Hx as ([] & _ & Hx). injection Hx as <-. reflexivity.
  - intros x s0 s0' Hx. unfold clear_edges in Hx.
    apply bind_Done in Hx as (blk & _ & Hx). injection Hx as <-. reflexivity.
Qed.

Lemma state_eq s s' :
  values s' = values s → operands s' = operands s → instrs s' = instrs s →
  blocks s' = blocks s → funcs s' = funcs s → module_functions s' = module_functions s →
  next_addr s' = next_addr s → s' = s.
Proof. destruct s, s'. simpl. intros -> -> -> -> -> -> ->. reflexivity. Qed.

(** X14: [build_cfg] run again on its own result changes nothing. *)
Theorem build_cfg_twice assert_on s f fn :
  funcs s !! f = Some fn → fn_entry fn ≠ None → cfg_ready s (fn_blocks fn) →
  ∃ s', build_cfg assert_on (Some f) s = Done s'
        ∧ build_cfg assert_on (Some f) s' = Done s'.
Proof.
  intros Hfn Hentry Hready.
  destruct (build_cfg_effect assert_on s f fn Hfn Hentry Hready)
    as (s' & Hrun & (Hi & Ho & Hf & Hv & Hn) & Hb).
  exists s'. split; [exact Hrun|].
  pose proof (branch_targets_same s s' _ _ _ Hi Ho Hb) as Htg.
  assert (Hready' : cfg_ready s' (fn_blocks fn)).
  { apply Forall_forall. intros b Hbin.
    pose proof (proj1 (Forall_forall _ _) Hready b Hbin) as Hbr.
    unfold block_ready in *. rewrite Hb. unfold blocks_with_edges.
    destruct (blocks s !! b) as [blk|]; [|contradiction]. simpl.
    rewrite (bool_decide_true _ Hbin).
    rewrite (terminator_successors_ext true s s' blk _ Hi Ho); [exact Hbr|reflexivity]. }
  assert (Hfn' : funcs s' !! f = Some fn) by (rewrite Hf; exact Hfn).
  destruct (build_cfg_effect assert_on s' f fn Hfn' Hentry Hready')
    as (s'' & Hrun' & (Hi' & Ho' & Hf' & Hv' & Hn') & Hb').
  rewrite Hrun'. f_equal. apply state_eq; auto.
  - apply map_eq. intros b. rewrite Hb'. unfold blocks_with_edges.
    rewrite Htg, (incoming_same s s' _ _ Htg), Hb. unfold blocks_with_edges.
    destruct (blocks s !! b) as [blk|]; [|reflexivity]. simpl.
    destruct (bool_decide (b ∈ fn_blocks fn)); reflexivity.
  - eapply build_cfg_module, Hrun'.
Qed.

Lemma build_cfg_twice_witness :
  ∃ s', build_cfg true (Some 1%nat) branch_on_argument = Done s'
        ∧ build_cfg true (Some 1%nat) s' = Done s'.
Proof.
  apply (build_cfg_twice true branch_on_argument 1%nat
           (mkIRFunction (Some "f"%string) (Some 10%nat) [10%nat; 11%nat; 12%nat] 3 4
              [50%nat] (Some [10%nat; 11%nat; 12%nat]))).
  - vm_compute. reflexivity.
  - discriminate.
  - apply (bool_decide_unpack _). vm_compute. reflexivity.
Defined.

(** ** PHI entries *)

Lemma deref_at {A} (m : gmap nat A) p x : m !! p = Some x → deref m p = Done x.
Proof. intros H. unfold deref. rewrite H. reflexivity. Qed.

Lemma phi_pairs_find_ext s s' block ops :
  operands s' = operands s → phi_pairs_find s' block ops = phi_pairs_find s block ops.
Proof.
  intros Ho. revert ops. fix IH 1. intros [|v [|b rest]]; try reflexivity.
  simpl. rewrite Ho. apply outcome_bind_ext. intros ob _.
  destruct (_ && _); [reflexivity|]. apply IH.
Qed.

Lemma remove_operand_of_instr s i ins l1 op l2 :
  ud_wf s → instrs s !! i = Some ins → i_operands ins = l1 ++ op :: l2 →
  ∃ s' ins', remove_operand op s = Done s' ∧ ud_wf s' ∧ operands s' = operands s
    ∧ instrs s' !! i = Some ins' ∧ i_opcode ins' = i_opcode ins
    ∧ i_operands ins' = l1 ++ l2
    ∧ only_operands_of i s s'.
Proof.
  intros Hwf Hins Hops.
  assert (Hin : op ∈ i_operands ins) by (rewrite Hops; set_solver).
  destruct (remove_operand_attached s i ins op Hwf Hins Hin) as (s1 & Hs & Hrun).
  pose proof Hwf as (_ & _ & Hlists & _).
  destruct (Hlists i ins Hins) as [Hnd _]. rewrite Hops in Hnd.
  apply NoDup_app in Hnd as (_ & Hdisj & _).
  eexists _, _. split; [exact Hrun|]. split; [eapply remove_operand_wf; eauto|].
  destruct Hs as (Ho & Hi & H). split; [simpl; exact Ho|]. simpl.
  rewrite lookup_alter_eq, Hi, Hins. simpl. split; [reflexivity|]. split; [reflexivity|].
  split; [rewrite Hops; apply remove_first_middle; intros Hm; apply (Hdisj _ Hm); set_solver|].
  destruct H as (Hb & Hf & _). split; [exact Hb|]. split; [exact Hf|].
  split; [unfold links; simpl; rewrite Hi; apply fmap_alter_same; reflexivity|].
  split; [simpl; rewrite Hi; apply fmap_alter_same; reflexivity|].
  intros j Hj. simpl. rewrite lookup_alter_ne, Hi by congruence. reflexivity.
Qed.

Lemma only_operands_of_refl i s : only_operands_of i s s.
Proof. repeat split; reflexivity. Qed.

Lemma only_operands_of_trans i s1 s2 s3 :
  only_operands_of i s1 s2 → only_operands_of i s2 s3 → only_operands_of i s1 s3.
Proof.
  intros (Hb & Hf & Hl & Hc & Hi) (Hb' & Hf' & Hl' & Hc' & Hi').
  split; [congruence|]. split; [congruence|]. split; [congruence|]. split; [congruence|].
  intros j Hj. rewrite Hi', Hi by exact Hj. reflexivity.
Qed.

Local Ltac loop_ends Hwf Hins Hops :=
  split; [reflexivity|]; split; [exact Hwf|]; split; [reflexivity|];
  split; [exact Hins|]; split; [reflexivity|]; split; [exact Hops|];
  split; [reflexivity|]; split; [intros; reflexivity|]; apply only_operands_of_refl.

Lemma remove_phi_pairs_inv pred phi n : ∀ rest s keep ins,
  (length rest ≤ n)%nat →
  ud_wf s → instrs s !! phi = Some ins → i_operands ins = keep ++ rest →
  ∃ s' ins' keep',
    remove_phi_pairs pred rest s = Done s' ∧ ud_wf s' ∧ operands s' = operands s
    ∧ instrs s' !! phi = Some ins' ∧ i_opcode ins' = i_opcode ins
    ∧ i_operands ins' = keep ++ keep'
    ∧ phi_pairs_find s pred keep' = Done None
    ∧ (∀ b, b ≠ pred → phi_pairs_find s b keep' = phi_pairs_find s b rest)
    ∧ only_operands_of phi s s'.
Proof.
  induction n as [|n IH]; intros rest s keep ins Hlen Hwf Hins Hops.
  { destruct rest; [|simpl in Hlen; lia].
    exists s, ins, []. loop_ends Hwf Hins Hops. }
  destruct rest as [|v [|b rest]].
  { exists s, ins, []. loop_ends Hwf Hins Hops. }
  { exists s, ins, [v]. loop_ends Hwf Hins Hops. }
  pose proof Hwf as (_ & _ & Hlists & _).
  destruct (Hlists phi ins Hins) as [_ Hall]. rewrite Hops in Hall.
  apply Forall_app in Hall as [_ Hall].
  apply Forall_cons in Hall as [_ Hall]. apply Forall_cons in Hall as [Hb _].
  unfold operand_has in Hb. destruct (operands s !! b) as [ob|] eqn:Hob; [|contradiction].
  clear Hb. simpl. unfold deref at 1. rewrite Hob. simpl.
  destruct (bool_decide (op_kind ob = IR_OP_KIND_BASIC_BLOCK) && ptr_eqb (op_bb ob) (Some pred))
    eqn:Hmatch.
  - destruct (remove_operand_of_instr s phi ins keep v (b :: rest) Hwf Hins Hops)
      as (s1 & ins1 & Hr1 & Hwf1 & Ho1 & Hi1 & Hc1 & Hl1 & Hfr1).
    destruct (remove_operand_of_instr s1 phi ins1 keep b rest Hwf1 Hi1 Hl1)
      as (s2 & ins2 & Hr2 & Hwf2 & Ho2 & Hi2 & Hc2 & Hl2 & Hfr2).
    rewrite Hr1. simpl. rewrite Hr2. simpl.
    destruct (IH rest s2 keep ins2 ltac:(simpl in Hlen; lia) Hwf2 Hi2 Hl2)
      as (s' & ins' & keep' & Hrun & Hwf' & Ho' & Hi' & Hc' & Hl' & Hnone & Hother & Hfr').
    assert (Ho : operands s2 = operands s) by congruence.
    exists s', ins', keep'. split; [exact Hrun|]. split; [exact Hwf'|].
    split; [congruence|]. split; [exact Hi'|]. split; [congruence|]. split; [exact Hl'|].
    split; [rewrite <- (phi_pairs_find_ext s s2) by exact Ho; exact Hnone|].
    split; [|exact (only_operands_of_trans _ _ _ _
                      (only_operands_of_trans _ _ _ _ Hfr1 Hfr2) Hfr')].
    intros b0 Hb0. rewrite <- (phi_pairs_find_ext s s2) by exact Ho.
    rewrite (Hother b0 Hb0), (phi_pairs_find_ext s s2) by exact Ho.
    simpl. unfold deref. rewrite Hob. simpl.
    apply andb_true_iff in Hmatch as [Hk Heq]. apply bool_decide_eq_true in Heq.
    rewrite Heq. unfold ptr_eqb. rewrite (bool_decide_eq_false_2 (Some pred = Some b0)) by congruence.
    rewrite andb_false_r. reflexivity.
  - simpl.
    destruct (IH rest s (keep ++ [v; b]) ins ltac:(simpl in Hlen; lia) Hwf Hins)
      as (s' & ins' & keep' & Hrun & Hwf' & Ho' & Hi' & Hc' & Hl' & Hnone & Hother & Hfr').
    { rewrite Hops, <- app_assoc. reflexivity. }
    exists s', ins', (v :: b :: keep'). split; [exact Hrun|]. split; [exact Hwf'|].
    split; [exact Ho'|]. split; [exact Hi'|]. split; [exact Hc'|].
    split; [rewrite Hl', <- app_assoc; reflexivity|].
    split; [|split; [|exact Hfr']].
    + simpl. unfold deref. rewrite Hob. simpl. rewrite Hmatch. exact Hnone.
    + intros b0 Hb0. simpl. unfold deref. rewrite Hob. simpl.
      destruct (bool_decide (op_kind ob = IR_OP_KIND_BASIC_BLOCK) && ptr_eqb (op_bb ob) (Some b0));
        [reflexivity|]. apply Hother, Hb0.
Qed.

Lemma remove_phi_entries_effect s phi ins pred :
  ud_wf s → instrs s !! phi = Some ins → i_opcode ins = IR_OP_PHI →
  ∃ s', remove_phi_entries_for_predecessor (Some phi) (Some pred) s = Done s'
    ∧ ud_wf s' ∧ operands s' = operands s ∧ only_operands_of phi s s'
    ∧ phi_get_incoming_value_for_block s' (Some phi) (Some pred) = Done None
    ∧ ∀ b, b ≠ pred →
           phi_get_incoming_value_for_block s' (Some phi) (Some b)
           = phi_get_incoming_value_for_block s (Some phi) (Some b).
Proof.
  intros Hwf Hins Hop.
  destruct (remove_phi_pairs_inv pred phi (length (i_operands ins)) (i_operands ins) s [] ins
              ltac:(lia) Hwf Hins eq_refl)
    as (s' & ins' & keep' & Hrun & Hwf' & Ho' & Hi' & Hc' & Hl' & Hnone & Hother & Hfr').
  exists s'. unfold remove_phi_entries_for_predecessor, phi_get_incoming_value_for_block, deref.
  rewrite Hins, Hi'. simpl. rewrite Hc', Hop. simpl. simpl in Hl'. rewrite Hl'.
  split; [exact Hrun|]. split; [exact Hwf'|]. split; [exact Ho'|]. split; [exact Hfr'|].
  split; [rewrite (phi_pairs_find_ext s s') by exact Ho'; exact Hnone|].
  intros b Hb. rewrite (phi_pairs_find_ext s s') by exact Ho'. apply Hother, Hb.
Qed.

(** X15: on a consistent arena, [remove_phi_entries_for_predecessor(phi, pred)]
    returns and keeps the arena consistent; afterwards
    [phi_get_incoming_value_for_block(phi, pred)] answers NULL, and for every
    other block it answers what it did before. *)
Theorem remove_phi_entries_then_lookup s phi ins pred :
  ud_wf s → instrs s !! phi = Some ins → i_opcode ins = IR_OP_PHI →
  ∃ s', remove_phi_entries_for_predecessor (Some phi) (Some pred) s = Done s'
    ∧ ud_wf s'
    ∧ phi_get_incoming_value_for_block s' (Some phi) (Some pred) = Done None
    ∧ ∀ b, b ≠ pred →
           phi_get_incoming_value_for_block s' (Some phi) (Some b)
           = phi_get_incoming_value_for_block s (Some phi) (Some b).
Proof.
  intros Hwf Hins Hop.
  destruct (remove_phi_entries_effect s phi ins pred Hwf Hins Hop)
    as (s' & Hrun & Hwf' & _ & _ & Hnone & Hother).
  exists s'. split; [exact Hrun|]. split; [exact Hwf'|]. split; [exact Hnone|exact Hother].
Qed.

Lemma remove_phi_entries_then_lookup_witness :
  ∃ s', remove_phi_entries_for_predecessor (Some 110%nat) (Some 11%nat) with_phi = Done s'
    ∧ ud_wf s'
    ∧ phi_get_incoming_value_for_block s' (Some 110%nat) (Some 11%nat) = Done None
    ∧ ∀ b, b ≠ 11%nat →
           phi_get_incoming_value_for_block s' (Some 110%nat) (Some b)
           = phi_get_incoming_value_for_block with_phi (Some 110%nat) (Some b).
Proof.
  eapply (remove_phi_entries_then_lookup with_phi 110).
  - apply (bool_decide_unpack _). vm_compute. reflexivity.
  - vm_compute. reflexivity.
  - reflexivity.
Defined.

Lemma add_operand_returns s instr ins kind d :
  ud_wf s → instrs s !! instr = Some ins → reaches_function s ins →
  (kind = IR_OP_KIND_VALUE → is_Some (values s !! d)) →
  ∃ s', add_operand instr kind (Some d) s = Done (Some (next_addr s), s')
    ∧ ud_wf s'
    ∧ operands s' = <[next_addr s := mkIROperand kind (Some d) (Some instr)]> (operands s)
    ∧ instrs s' = alter (i_with_operands (i_operands ins ++ [next_addr s])) instr (instrs s)
    ∧ blocks s' = blocks s ∧ funcs s' = funcs s
    ∧ next_addr s' = S (next_addr s)
    ∧ ∀ v, is_Some (values s !! v) → is_Some (values s' !! v).
Proof.
  intros Hwf Hins Hhome Hval.
  assert (Hrun : ∃ r s', add_operand instr kind (Some d) s = Done (r, s')).
  { unfold add_operand, deref. rewrite Hins. simpl.
    unfold reaches_function in Hhome.
    destruct (i_parent ins) as [b|]; [|contradiction]. simpl.
    destruct (blocks s !! b) as [blk|]; [|contradiction]. simpl.
    destruct (bb_parent blk) as [f|]; [|contradiction]. simpl.
    destruct Hhome as [fn ->]. simpl.
    destruct kind; [|eauto].
    destruct (Hval eq_refl) as [val Hv]. simpl. rewrite Hv. simpl.
    destruct (v_is_constant val); eauto. }
  destruct Hrun as (r & s' & Hrun). exists s'.
  pose proof (add_operand_wf _ _ _ _ _ _ Hwf Hrun) as Hwf'.
  apply add_operand_spec in Hrun as Hspec. destruct Hspec as (ins0 & Hins0 & -> & Hs').
  rewrite Hins in Hins0. injection Hins0 as <-.
  split; [exact Hrun|]. split; [exact Hwf'|]. simpl in Hs'.
  assert (E : ∃ g, s' = set_values g
                (upd_instr instr (i_with_operands (i_operands ins ++ [next_addr s]))
                   (set_operands (insert (next_addr s) (mkIROperand kind (Some d) (Some instr)))
                      (snd (pool_alloc s))))
              ∧ ∀ v, is_Some (values s !! v) → is_Some (g (values s) !! v)).
  { destruct kind.
    - destruct Hs' as (val & Hv & ->). destruct (v_is_constant val).
      + exists id. split; [destruct s; reflexivity|auto].
      + eexists (alter _ d). split; [reflexivity|].
        intros v [x Hx]. destruct (decide (v = d)) as [->|Hne].
        * rewrite lookup_alter_eq, Hx. eauto.
        * rewrite lookup_alter_ne by congruence. eauto.
    - exists id. split; [subst s'; destruct s; reflexivity|auto]. }
  destruct E as (g & -> & Hg). simpl. repeat (split; [reflexivity|]). exact Hg.
Qed.

Lemma phi_pairs_find_agree s s' block ops :
  (∀ op, op ∈ ops → operands s' !! op = operands s !! op) →
  phi_pairs_find s' block ops = phi_pairs_find s block ops.
Proof.
  revert ops. fix IH 1. intros [|v [|b rest]] Hag; try reflexivity.
  simpl. unfold deref. rewrite !Hag by set_solver.
  apply outcome_bind_ext. intros ob _.
  destruct (_ && _); [reflexivity|]. apply IH. intros op Hop. apply Hag. set_solver.
Qed.

Lemma phi_pairs_find_skip s block k : ∀ ops tail,
  length ops = (2 * k)%nat →
  Forall (λ op, is_Some (operands s !! op) ∧ ¬ names_block s block op) ops →
  phi_pairs_find s block (ops ++ tail) = phi_pairs_find s block tail.
Proof.
  induction k as [|k IH]; intros ops tail Hlen Hall.
  { destruct ops; [reflexivity|discriminate]. }
  destruct ops as [|v [|b rest]]; [discriminate|simpl in Hlen; lia|].
  apply Forall_cons in Hall as [_ Hall]. apply Forall_cons in Hall as [[[ob Hob] Hb] Hall].
  simpl. rewrite (deref_at _ _ _ Hob). simpl.
  unfold names_block, operand_has in Hb. rewrite Hob in Hb.
  destruct (bool_decide (op_kind ob = IR_OP_KIND_BASIC_BLOCK) && ptr_eqb (op_bb ob) (Some block))
    eqn:Hm.
  - apply andb_true_iff in Hm as [Hk He]. apply bool_decide_eq_true in Hk, He.
    destruct Hb. split; assumption.
  - apply IH; [simpl in Hlen; lia|exact Hall].
Qed.

Lemma phi_pairs_find_before s block k : ∀ ops tail,
  length ops = (2 * k)%nat →
  phi_pairs_find s block tail = Done None →
  phi_pairs_find s block (ops ++ tail) = phi_pairs_find s block ops.
Proof.
  induction k as [|k IH]; intros ops tail Hlen Htail.
  { destruct ops; [exact Htail|discriminate]. }
  destruct ops as [|v [|b rest]]; [discriminate|simpl in Hlen; lia|].
  simpl. apply outcome_bind_ext. intros ob _.
  destruct (_ && _); [reflexivity|]. apply IH; [simpl in Hlen; lia|exact Htail].
Qed.

Lemma no_entry_check s pred ops :
  Forall (λ op, is_Some (operands s !! op) ∧ ¬ names_block s pred op) ops →
  foldr (λ op r, b ← r; o ← deref (operands s) op;
                 Done (b || (bool_decide (op_kind o = IR_OP_KIND_BASIC_BLOCK)
                             && ptr_eqb (op_bb o) (Some pred))))
        (Done false) ops = Done false.
Proof.
  induction 1 as [|op ops [[o Ho] Hn] _ IH]; [reflexivity|].
  simpl. rewrite IH. simpl. unfold deref. rewrite Ho. simpl.
  unfold names_block, operand_has in Hn. rewrite Ho in Hn.
  destruct (bool_decide (op_kind o = IR_OP_KIND_BASIC_BLOCK) && ptr_eqb (op_bb o) (Some pred))
    eqn:Hm; [|reflexivity].
  apply andb_true_iff in Hm as [Hk He]. apply bool_decide_eq_true in Hk, He.
  destruct Hn. split; assumption.
Qed.

(** X16: on a consistent arena, for a PHI of a function's block that has an
    even number of operands, none of them a block operand for [pred],
    [ir_phi_add_incoming(phi, val, pred)] returns and keeps the arena
    consistent; afterwards [phi_get_incoming_value_for_block(phi, pred)]
    answers [val], and for every other block what it answered before. *)
Theorem phi_add_incoming_then_lookup assert_on s phi ins val pred k :
  ud_wf s → instrs s !! phi = Some ins → i_opcode ins = IR_OP_PHI →
  reaches_function s ins → value_valid s (i_dest ins) → is_Some (values s !! val) →
  length (i_operands ins) = (2 * k)%nat →
  Forall (λ op, ¬ names_block s pred op) (i_operands ins) →
  ∃ s', ir_phi_add_incoming assert_on (Some phi) (Some val) (Some pred) s = Done s'
    ∧ ud_wf s'
    ∧ phi_get_incoming_value_for_block s' (Some phi) (Some pred) = Done (Some val)
    ∧ ∀ b, b ≠ pred →
           phi_get_incoming_value_for_block s' (Some phi) (Some b)
           = phi_get_incoming_value_for_block s (Some phi) (Some b).
Proof.
  intros Hwf Hins Hop Hhome Hdest Hval Hlen Hno.
  pose proof Hwf as (Hfresh & _ & Hlists & _).
  destruct (Hlists phi ins Hins) as [_ Hall].
  assert (Hold : ∀ op, op ∈ i_operands ins →
                   is_Some (operands s !! op) ∧ (op < next_addr s)%nat).
  { intros op Hin. eapply Forall_forall in Hall; [|exact Hin].
    unfold operand_has in Hall. destruct (operands s !! op) as [o|] eqn:Ho; [|contradiction].
    split; [eauto|]. exact (Hfresh _ _ Ho). }
  assert (Hno' : Forall (λ op, is_Some (operands s !! op) ∧ ¬ names_block s pred op)
                        (i_operands ins)).
  { apply Forall_forall. intros op Hin. split; [apply Hold, Hin|].
    eapply Forall_forall in Hno; eauto. }
  destruct (add_operand_returns s phi ins IR_OP_KIND_VALUE val Hwf Hins Hhome (λ _, Hval))
    as (s1 & Hr1 & Hwf1 & Ho1 & Hi1 & Hb1 & Hf1 & Hn1 & Hv1).
  set (a := next_addr s) in *.
  set (ins1 := i_with_operands (i_operands ins ++ [a]) ins).
  assert (Hins1 : instrs s1 !! phi = Some ins1).
  { rewrite Hi1, lookup_alter_eq, Hins. reflexivity. }
  assert (Hhome1 : reaches_function s1 ins1).
  { unfold reaches_function. rewrite Hb1, Hf1. exact Hhome. }
  destruct (add_operand_returns s1 phi ins1 IR_OP_KIND_BASIC_BLOCK pred Hwf1 Hins1 Hhome1
              ltac:(discriminate))
    as (s2 & Hr2 & Hwf2 & Ho2 & Hi2 & _ & _ & _ & _).
  rewrite Hn1 in Hr2, Ho2, Hi2.
  exists s2. split.
  { unfold ir_phi_add_incoming. simpl. rewrite (deref_at _ _ _ Hins). simpl.
    rewrite Hop. simpl.
    assert (Htype : match i_dest ins with
                    | Some d =>
                        dv ← deref (values s) d;
                        if negb (is_null (v_type dv))
                        then _ ← deref (values s) val; Done tt
                        else Done tt
                    | None => Done tt
                    end = Done tt).
    { unfold value_valid in Hdest. destruct (i_dest ins) as [d|]; [|reflexivity].
      destruct Hdest as [dv Hdv]. unfold deref. rewrite Hdv. simpl.
      destruct (negb (is_null (v_type dv))); [|reflexivity].
      destruct Hval as [vv ->]. reflexivity. }
    change (opcode_eqb IR_OP_PHI IR_OP_PHI) with true. rewrite !c_assert_true. simpl.
    rewrite Htype. simpl. rewrite (no_entry_check s pred _ Hno'). simpl.
    assert (Hv : add_value_operand phi (Some val) s = Done s1)
      by (unfold add_value_operand; rewrite Hr1; reflexivity).
    assert (Hb : add_bb_operand phi (Some pred) s1 = Done s2)
      by (unfold add_bb_operand; rewrite Hr2; reflexivity).
    rewrite Hv, outcome_bind_Done. exact Hb. }
  split; [exact Hwf2|].
  assert (Hops2 : instrs s2 !! phi
                  = Some (i_with_operands (i_operands ins ++ [a; S a]) ins1)).
  { rewrite Hi2, lookup_alter_eq, Hins1. simpl. rewrite <- app_assoc. reflexivity. }
  assert (Hsame : ∀ op, op ∈ i_operands ins → operands s2 !! op = operands s !! op).
  { intros op Hin. destruct (Hold op Hin) as [_ Hlt].
    rewrite Ho2, Ho1, !lookup_insert_ne by lia. reflexivity. }
  assert (Ha : operands s2 !! a = Some (mkIROperand IR_OP_KIND_VALUE (Some val) (Some phi))).
  { rewrite Ho2, Ho1, lookup_insert_ne by lia. apply lookup_insert_eq. }
  assert (Hb : operands s2 !! S a
               = Some (mkIROperand IR_OP_KIND_BASIC_BLOCK (Some pred) (Some phi))).
  { rewrite Ho2. apply lookup_insert_eq. }
  unfold phi_get_incoming_value_for_block, deref. rewrite Hops2, Hins. simpl. rewrite Hop. simpl.
  split.
  - assert (Hno2 : Forall (λ op, is_Some (operands s2 !! op) ∧ ¬ names_block s2 pred op)
                          (i_operands ins)).
    { apply Forall_forall. intros op Hin. unfold names_block, operand_has.
      rewrite (Hsame op Hin). eapply Forall_forall in Hno'; [exact Hno'|exact Hin]. }
    rewrite (phi_pairs_find_skip s2 pred k _ _ Hlen Hno2).
    simpl. unfold deref. rewrite Hb. simpl.
    unfold ptr_eqb, op_bb. simpl. rewrite bool_decide_eq_true_2 by reflexivity. simpl.
    rewrite Ha. reflexivity.
  - intros b Hne.
    assert (Hlast : phi_pairs_find s2 b [a; S a] = Done None).
    { simpl. rewrite (deref_at _ _ _ Hb). simpl.
      unfold ptr_eqb, op_bb. simpl. rewrite bool_decide_eq_false_2 by congruence.
      reflexivity. }
    rewrite (phi_pairs_find_before s2 b k _ _ Hlen Hlast).
    apply phi_pairs_find_agree, Hsame.
Qed.

Lemma phi_add_incoming_then_lookup_witness :
  ∃ s', ir_phi_add_incoming true (Some 110%nat) (Some 52%nat) (Some 10%nat) with_phi = Done s'
    ∧ ud_wf s'
    ∧ phi_get_incoming_value_for_block s' (Some 110%nat) (Some 10%nat) = Done (Some 52%nat)
    ∧ ∀ b, b ≠ 10%nat →
           phi_get_incoming_value_for_block s' (Some 110%nat) (Some b)
           = phi_get_incoming_value_for_block with_phi (Some 110%nat) (Some b).
Proof.
  eapply (phi_add_incoming_then_lookup true with_phi 110 _ 52 10 2).
  - apply (bool_decide_unpack _). vm_compute. reflexivity.
  - vm_compute. reflexivity.
  - reflexivity.
  - apply (bool_decide_unpack _). vm_compute. reflexivity.
  - apply (bool_decide_unpack _). vm_compute. reflexivity.
  - apply (bool_decide_unpack _). vm_compute. reflexivity.
  - reflexivity.
  - apply (bool_decide_unpack _). vm_compute. reflexivity.
Defined.

(** ** Moving a block's instructions *)

Lemma linked_reparent lk lk' b b' l : ∀ prev,
  linked lk b prev l →
  (∀ x pv nx, x ∈ l → lk !! x = Some (pv, nx, Some b) → lk' !! x = Some (pv, nx, Some b')) →
  linked lk' b' prev l.
Proof.
  induction l as [|i rest IH]; intros prev Hl Hre; [exact I|].
  destruct Hl as [Hi Hrest]. split.
  - apply Hre; [set_solver|exact Hi].
  - apply IH; [exact Hrest|]. intros x pv nx Hx. apply Hre. set_solver.
Qed.

Lemma linked_new_prev lk lk' b i rest prev prev' :
  linked lk b prev (i :: rest) → i ∉ rest →
  lk' !! i = Some (prev', head rest, Some b) →
  (∀ x, x ∈ rest → lk' !! x = lk !! x) →
  linked lk' b prev' (i :: rest).
Proof.
  intros [_ Hrest] Hni Hi Hsame. split; [exact Hi|].
  eapply linked_ext; [|exact Hrest]. exact Hsame.
Qed.

Lemma linked_app lk lk' b l2 : ∀ l1 prev,
  linked lk b prev l1 → NoDup l1 →
  (∀ x, x ∈ l1 → last l1 ≠ Some x → lk' !! x = lk !! x) →
  (∀ p pr ne pa, last l1 = Some p → lk !! p = Some (pr, ne, pa) →
                 lk' !! p = Some (pr, head l2, pa)) →
  linked lk' b (last_or l1 prev) l2 →
  linked lk' b prev (l1 ++ l2).
Proof.
  induction l1 as [|i rest IH]; intros prev Hl Hnd Hsame Hlast H2; [exact H2|].
  destruct Hl as [Hi Hrest]. apply NoDup_cons in Hnd as [Hni Hnd].
  rewrite last_or_cons in H2. simpl. split.
  - destruct rest as [|j rest'].
    + simpl. apply (Hlast i _ _ _ eq_refl Hi).
    + rewrite Hsame; [exact Hi|apply elem_of_cons; left; reflexivity|].
      rewrite last_cons_cons. intros Hl. apply Hni. apply last_Some_elem_of. exact Hl.
  - destruct rest as [|j rest']; [exact H2|].
    apply IH; [exact Hrest|exact Hnd| | |exact H2].
    + intros x Hx Hl. apply Hsame; [apply elem_of_cons; right; exact Hx|].
      rewrite last_cons_cons. exact Hl.
    + intros p pr ne pa Hp. apply Hlast. rewrite last_cons_cons. exact Hp.
Qed.

Lemma set_parents_spec t l : ∀ s,
  blocks (set_parents t l s) = blocks s ∧ funcs (set_parents t l s) = funcs s
  ∧ values (set_parents t l s) = values s ∧ operands (set_parents t l s) = operands s
  ∧ next_addr (set_parents t l s) = next_addr s
  ∧ ∀ x, instrs (set_parents t l s) !! x
         = if bool_decide (x ∈ l) then i_with_parent (Some t) <$> instrs s !! x
           else instrs s !! x.
Proof.
  induction l as [|i l IH]; intros s.
  { repeat (split; [reflexivity|]). intros x. reflexivity. }
  change (set_parents t (i :: l) s)
    with (set_parents t l (upd_instr i (i_with_parent (Some t)) s)).
  destruct (IH (upd_instr i (i_with_parent (Some t)) s)) as (-> & -> & -> & -> & -> & Hx).
  repeat (split; [reflexivity|]). intros x. rewrite Hx. simpl.
  destruct (decide (x = i)) as [->|Hne].
  - rewrite lookup_alter_eq. rewrite (bool_decide_eq_true_2 (i ∈ i :: l)) by set_solver.
    destruct (bool_decide (i ∈ l)); [|reflexivity].
    destruct (instrs s !! i); reflexivity.
  - rewrite lookup_alter_ne by congruence.
    destruct (decide (x ∈ l)) as [Hin|Hnin].
    + rewrite !bool_decide_eq_true_2 by set_solver. reflexivity.
    + rewrite !bool_decide_eq_false_2 by set_solver. reflexivity.
Qed.

Lemma set_parents_links t l s x :
  links (set_parents t l s) !! x
  = if bool_decide (x ∈ l) then (λ '(pv, nx, _), (pv, nx, Some t)) <$> links s !! x
    else links s !! x.
Proof.
  destruct (set_parents_spec t l s) as (_ & _ & _ & _ & _ & Hx).
  unfold links. rewrite !lookup_fmap, Hx.
  destruct (bool_decide (x ∈ l)); [|reflexivity].
  destruct (instrs s !! x); reflexivity.
Qed.

Lemma set_parents_bodies t l s : bodies (set_parents t l s) = bodies s.
Proof.
  apply map_eq. intros x. destruct (set_parents_spec t l s) as (_ & _ & _ & _ & _ & Hx).
  unfold bodies. rewrite !lookup_fmap, Hx.
  destruct (bool_decide (x ∈ l)); [|reflexivity].
  destruct (instrs s !! x); reflexivity.
Qed.

Lemma chains_disjoint s b l b' l' x :
  chain_ok s b l → chain_ok s b' l' → b ≠ b' → x ∈ l → x ∉ l'.
Proof.
  intros Hb Hb' Hne Hx Hx'.
  destruct (chain_ok_instr _ _ _ _ Hb Hx) as (ins & Hi & Hp).
  destruct (chain_ok_instr _ _ _ _ Hb' Hx') as (ins' & Hi' & Hp').
  congruence.
Qed.

Lemma head_app_cons {A} (l1 : list A) x l2 : head ((x :: l1) ++ l2) = Some x.
Proof. reflexivity. Qed.

Lemma last_app_nonempty {A} (l1 : list A) x l2 : last (l1 ++ x :: l2) = last (x :: l2).
Proof. apply last_app_cons. Qed.

(** The link table once the list [fh :: rest] of [f] has been spliced after
    the list [lt] of [t], before the parents are set. *)
Lemma spliced_chain s s1 f t lt fh rest :
  chain_ok s f (fh :: rest) → chain_ok s t lt → f ≠ t →
  links s1 !! fh = Some (last lt, head rest, Some f) →
  (∀ x, x ∈ rest → links s1 !! x = links s !! x) →
  (∀ x, x ∈ lt → last lt ≠ Some x → links s1 !! x = links s !! x) →
  (∀ p pr ne pa, last lt = Some p → links s !! p = Some (pr, ne, pa) →
                 links s1 !! p = Some (pr, Some fh, pa)) →
  (∀ x, x ∉ lt → x ∉ fh :: rest → links s1 !! x = links s !! x) →
  chain_from s1 (S (size (instrs s1))) (Some fh) = Done (fh :: rest)
  ∧ linked (links (set_parents t (fh :: rest) s1)) t None (lt ++ fh :: rest)
  ∧ ∀ b l, b ≠ f → b ≠ t → chain_ok s b l →
           linked (links (set_parents t (fh :: rest) s1)) b None l.
Proof.
  intros Hf Ht Hne H1 H2 H3 H4 H5.
  pose proof Hf as (Hndf & Hlf & _). pose proof Ht as (Hndt & Hlt & _).
  apply NoDup_cons in Hndf as Hnd. destruct Hnd as [Hfh Hrest].
  assert (Hl1 : linked (links s1) f (last lt) (fh :: rest)).
  { eapply linked_new_prev; [exact Hlf|exact Hfh|exact H1|exact H2]. }
  split.
  { apply (chain_from_linked s1 f (fh :: rest) (last lt)); [exact Hl1|].
    apply le_S. apply NoDup_length_le_size; [apply NoDup_cons; split; assumption|].
    intros x Hx. destruct (linked_lookup _ _ _ _ _ Hl1 Hx) as (pv & nx & Hlk).
    apply links_lookup in Hlk as (ins & -> & _). eauto. }
  split.
  - apply (linked_app (links s)); [exact Hlt|exact Hndt| | |].
    + intros x Hx Hl. rewrite set_parents_links.
      rewrite bool_decide_eq_false_2 by (eapply chains_disjoint; eauto).
      apply H3; assumption.
    + intros p pr ne pa Hp Hlk. rewrite set_parents_links.
      rewrite bool_decide_eq_false_2
        by (eapply chains_disjoint; eauto; apply last_Some_elem_of; exact Hp).
      apply (H4 _ _ _ _ Hp Hlk).
    + rewrite last_or_None. eapply linked_reparent; [exact Hl1|].
      intros x pv nx Hx Hlk. rewrite set_parents_links.
      rewrite bool_decide_eq_true_2 by exact Hx. rewrite Hlk. reflexivity.
  - intros b l Hbf Hbt Hb. pose proof Hb as (_ & Hll & _).
    eapply linked_ext; [|exact Hll]. intros x Hx. rewrite set_parents_links.
    rewrite bool_decide_eq_false_2 by (eapply (chains_disjoint s b l f); eauto).
    apply H5; [eapply (chains_disjoint s b l t); eauto
              |eapply (chains_disjoint s b l f); eauto].
Qed.

Lemma links_upd_instr_ne s g i x :
  x ≠ i → links (upd_instr i g s) !! x = links s !! x.
Proof. intros Hne. unfold links. simpl. rewrite !lookup_fmap, lookup_alter_ne by congruence. reflexivity. Qed.

Lemma links_upd_instr_eq s g i :
  links (upd_instr i g s) !! i = (λ ins, link_fields (g ins)) <$> instrs s !! i.
Proof.
  unfold links. simpl. rewrite lookup_fmap, lookup_alter_eq.
  destruct (instrs s !! i); reflexivity.
Qed.

Lemma ends_of_block s b blk : blocks s !! b = Some blk → ends s !! b = Some (bb_head blk, bb_tail blk).
Proof. intros H. unfold ends. rewrite lookup_fmap, H. reflexivity. Qed.

Lemma chain_ok_ends s b l :
  chain_ok s b l → ∃ blk, blocks s !! b = Some blk ∧ bb_head blk = head l ∧ bb_tail blk = last l.
Proof.
  intros (_ & _ & He). unfold ends in He. rewrite lookup_fmap in He.
  destruct (blocks s !! b) as [blk|]; [|discriminate]. injection He as Hh Ht. eauto.
Qed.

Lemma chain_from_same_instrs s s' : instrs s' = instrs s →
  ∀ fuel cur, chain_from s' fuel cur = chain_from s fuel cur.
Proof.
  intros H fuel. induction fuel as [|n IH]; intros [i|]; try reflexivity.
  simpl. rewrite H. apply outcome_bind_ext. intros ins _. rewrite IH. reflexivity.
Qed.

Lemma move_instructions_effect s f t fh rest lt :
  chain_ok s f (fh :: rest) → chain_ok s t lt → f ≠ t → parent_function_ok s f →
  ∃ s1, move_instructions_to_block_end (Some f) (Some t) s
        = Done (upd_block f (bb_with_ends None None) (set_parents t (fh :: rest) s1))
    ∧ links s1 !! fh = Some (last lt, head rest, Some f)
    ∧ (∀ x, x ≠ fh → last lt ≠ Some x → links s1 !! x = links s !! x)
    ∧ (∀ p pr ne pa, last lt = Some p → links s !! p = Some (pr, ne, pa) →
                     links s1 !! p = Some (pr, Some fh, pa))
    ∧ bodies s1 = bodies s
    ∧ (∃ tb, blocks s1 = <[t := tb]> (blocks s)
             ∧ bb_head tb = head (lt ++ fh :: rest) ∧ bb_tail tb = last (fh :: rest)).
Proof.
  intros Hf Ht Hne Hpar.
  destruct (chain_ok_ends _ _ _ Hf) as (fb & Hfb & Hfh & Hft).
  destruct (chain_ok_ends _ _ _ Ht) as (tb & Htb & Hth & Htt).
  simpl in Hfh.
  assert (Hcount : chain_from s (S (size (instrs s))) (Some fh) = Done (fh :: rest)).
  { pose proof (block_chain_ok _ _ _ Hf) as Hc. unfold block_chain in Hc.
    rewrite (deref_at _ _ _ Hfb), outcome_bind_Done in Hc. cbv beta in Hc.
    rewrite Hfh in Hc. exact Hc. }
  assert (Hlog : match bb_parent fb with
                 | Some p => _ ← deref (funcs s) p; Done tt
                 | None => Done tt
                 end = Done tt).
  { unfold parent_function_ok in Hpar. rewrite Hfb in Hpar.
    destruct (bb_parent fb) as [p|]; [|reflexivity]. destruct Hpar as [fn Hfn].
    rewrite (deref_at _ _ _ Hfn). reflexivity. }
  pose proof Hf as (Hndf & Hlf & _). destruct Hlf as [Hlfh _].
  apply links_lookup in Hlfh as (fins & Hfins & Hfp & Hfn & Hfpa).
  assert (Hdis : ∀ x, x ∈ lt → x ≠ fh).
  { intros x Hx ->. eapply (chains_disjoint s t lt f); eauto. set_solver. }
  destruct (last lt) as [tl|] eqn:Hlast.
  - (* [to] has instructions *)
    assert (Htl : tl ∈ lt) by (apply last_Some_elem_of; exact Hlast).
    destruct (chain_ok_instr _ _ _ _ Ht Htl) as (tins & Htins & _).
    assert (Hhead : ∃ h, bb_head tb = Some h).
    { rewrite Hth. destruct lt as [|h lt']; [discriminate|]. eauto. }
    destruct Hhead as [h Hh].
    set (s0 := upd_instr tl (i_with_next (Some fh)) s).
    assert (Hfins0 : instrs s0 !! fh = Some fins).
    { simpl. rewrite lookup_alter_ne by (apply Hdis, Htl). exact Hfins. }
    exists (upd_block t (bb_with_tail (bb_tail fb))
              (upd_instr fh (i_with_prev (Some tl)) s0)).
    assert (H1 : links (upd_instr fh (i_with_prev (Some tl)) s0) !! fh
                 = Some (Some tl, head rest, Some f)).
    { rewrite links_upd_instr_eq, Hfins0. simpl. unfold link_fields. simpl.
      rewrite Hfn, Hfpa. reflexivity. }
    assert (H2 : ∀ x, x ≠ fh → Some tl ≠ Some x →
                      links (upd_instr fh (i_with_prev (Some tl)) s0) !! x = links s !! x).
    { intros x Hx Hxt. rewrite links_upd_instr_ne by exact Hx.
      apply links_upd_instr_ne. congruence. }
    assert (H4 : ∀ p pr ne pa, Some tl = Some p → links s !! p = Some (pr, ne, pa) →
                   links (upd_instr fh (i_with_prev (Some tl)) s0) !! p
                   = Some (pr, Some fh, pa)).
    { intros p pr ne pa [= <-] Hlk. rewrite links_upd_instr_ne by (apply Hdis, Htl).
      unfold s0. rewrite links_upd_instr_eq.
      apply links_lookup in Hlk as (ins & -> & <- & _ & <-). reflexivity. }
    split; [|split; [exact H1|split; [exact H2|split; [exact H4|split]]]].
    + unfold move_instructions_to_block_end.
      rewrite bool_decide_eq_false_2 by exact Hne.
      rewrite (deref_at _ _ _ Hfb), outcome_bind_Done. cbv beta. rewrite Hfh.
      rewrite Hlog, outcome_bind_Done. cbv beta.
      rewrite Hcount, outcome_bind_Done. cbv beta.
      rewrite (deref_at _ _ _ Htb), outcome_bind_Done. cbv beta.
      rewrite Hh, Htt. change (nonnull (Some tl)) with (Done tl).
      rewrite outcome_bind_Done. cbv beta.
      rewrite (deref_at _ _ _ Htins), outcome_bind_Done. cbv beta zeta.
      fold s0. rewrite (deref_at _ _ _ Hfins0), !outcome_bind_Done. cbv beta.
      set (s1 := upd_block t _ _).
      assert (Hmoved : chain_from s1 (S (size (instrs s1))) (Some fh) = Done (fh :: rest)).
      { apply (spliced_chain s s1 f t lt fh rest Hf Ht Hne).
        - rewrite Hlast. exact H1.
        - intros x Hx. apply H2.
          + apply NoDup_cons in Hndf as [Hni _]. intros ->. contradiction.
          + intros [= ->]. eapply (chains_disjoint s t lt f); eauto. set_solver.
        - intros x Hx Hl. rewrite Hlast in Hl. apply H2; [apply Hdis, Hx|exact Hl].
        - rewrite Hlast. exact H4.
        - intros x Hx Hx'. apply H2; [set_solver|]. intros [= ->]. contradiction. }
      rewrite Hmoved. reflexivity.
    + apply map_eq. intros x. unfold bodies. simpl. rewrite !lookup_fmap.
      destruct (decide (x = fh)) as [->|Hx].
      * rewrite lookup_alter_eq, lookup_alter_ne by (apply Hdis, Htl).
        destruct (instrs s !! fh); reflexivity.
      * rewrite lookup_alter_ne by congruence.
        destruct (decide (x = tl)) as [->|Hx'].
        -- rewrite lookup_alter_eq. destruct (instrs s !! tl); reflexivity.
        -- rewrite lookup_alter_ne by congruence. reflexivity.
    + exists (bb_with_tail (bb_tail fb) tb). split.
      * simpl. apply map_eq. intros x. destruct (decide (x = t)) as [->|Hx].
        -- rewrite lookup_alter_eq, lookup_insert_eq, Htb. reflexivity.
        -- rewrite lookup_alter_ne, lookup_insert_ne by congruence. reflexivity.
      * simpl. rewrite Hft. split; [|reflexivity].
        rewrite Hth. destruct lt; [discriminate|reflexivity].
  - (* [to] is empty *)
    assert (Hlt : lt = []) by (apply last_None; exact Hlast). subst lt.
    simpl in Hth, Htt.
    exists (upd_block t (bb_with_ends (Some fh) (bb_tail fb)) s).
    split; [|split; [|split; [|split; [|split]]]].
    + unfold move_instructions_to_block_end.
      rewrite bool_decide_eq_false_2 by exact Hne.
      rewrite (deref_at _ _ _ Hfb), outcome_bind_Done. cbv beta. rewrite Hfh.
      rewrite Hlog, outcome_bind_Done. cbv beta.
      rewrite Hcount, outcome_bind_Done. cbv beta.
      rewrite (deref_at _ _ _ Htb), outcome_bind_Done. cbv beta.
      rewrite Hth, outcome_bind_Done. cbv beta.
      set (s1 := upd_block t _ s).
      assert (Hmoved : chain_from s1 (S (size (instrs s1))) (Some fh) = Done (fh :: rest))
        by (rewrite (chain_from_same_instrs s s1 eq_refl); exact Hcount).
      rewrite Hmoved. reflexivity.
    + change (links (upd_block t (bb_with_ends (Some fh) (bb_tail fb)) s)) with (links s).
      apply links_lookup. exists fins. rewrite Hfp. auto.
    + intros x _ _. reflexivity.
    + intros p pr ne pa Hp. discriminate.
    + reflexivity.
    + exists (bb_with_ends (Some fh) (bb_tail fb) tb). split.
      * simpl. apply map_eq. intros x. destruct (decide (x = t)) as [->|Hx].
        -- rewrite lookup_alter_eq, lookup_insert_eq, Htb. reflexivity.
        -- rewrite lookup_alter_ne, lookup_insert_ne by congruence. reflexivity.
      * simpl. rewrite Hft. split; reflexivity.
Qed.

(** X17: [move_instructions_to_block_end(from, to)] on two different blocks
    returns; afterwards the instruction list of [to] is its old list followed
    by the old list of [from], the list of [from] is empty, and the lists of
    the other blocks and what the instructions compute are as they were. *)
Theorem move_instructions_appends s f t lf lt :
  chain_ok s f lf → chain_ok s t lt → f ≠ t → parent_function_ok s f →
  ∃ s', move_instructions_to_block_end (Some f) (Some t) s = Done s'
    ∧ chain_ok s' t (lt ++ lf) ∧ chain_ok s' f []
    ∧ (∀ b l, b ≠ f → b ≠ t → chain_ok s b l → chain_ok s' b l)
    ∧ bodies s' = bodies s.
Proof.
  intros Hf Ht Hne Hpar. destruct lf as [|fh rest].
  { destruct (chain_ok_ends _ _ _ Hf) as (fb & Hfb & Hfh & _). simpl in Hfh.
    exists s. split.
    - unfold move_instructions_to_block_end. rewrite bool_decide_eq_false_2 by exact Hne.
      rewrite (deref_at _ _ _ Hfb), outcome_bind_Done. cbv beta. rewrite Hfh. reflexivity.
    - rewrite app_nil_r. auto. }
  destruct (move_instructions_effect s f t fh rest lt Hf Ht Hne Hpar)
    as (s1 & Hrun & H1 & H2 & H4 & Hbod & tb & Hblocks & Hhead & Htail).
  eexists. split; [exact Hrun|].
  pose proof Hf as (Hndf & _ & _). pose proof Ht as (Hndt & _ & _).
  assert (Hfh : ∀ x, x ∈ lt → x ≠ fh).
  { intros x Hx ->. eapply (chains_disjoint s t lt f); eauto. set_solver. }
  destruct (spliced_chain s s1 f t lt fh rest Hf Ht Hne H1) as (_ & Hlinked & Hframe).
  { intros x Hx. apply H2.
    - apply NoDup_cons in Hndf as [Hni _]. intros ->. contradiction.
    - intros Hl. apply last_Some_elem_of in Hl.
      eapply (chains_disjoint s t lt f); eauto. set_solver. }
  { intros x Hx Hl. apply H2; [apply Hfh, Hx|exact Hl]. }
  { exact H4. }
  { intros x Hx Hx'. apply H2; [set_solver|].
    intros Hl. apply last_Some_elem_of in Hl. contradiction. }
  destruct (set_parents_spec t (fh :: rest) s1) as (Hb2 & _).
  assert (Hends : ∀ b, ends (upd_block f (bb_with_ends None None)
                               (set_parents t (fh :: rest) s1)) !! b
                       = if decide (b = f) then (λ _, (None, None)) <$> ends s !! f
                         else if decide (b = t) then Some (bb_head tb, bb_tail tb)
                              else ends s !! b).
  { intros b. unfold ends.
    change (blocks (upd_block f (bb_with_ends None None) (set_parents t (fh :: rest) s1)))
      with (alter (bb_with_ends None None) f (blocks (set_parents t (fh :: rest) s1))).
    rewrite Hb2, Hblocks, !lookup_fmap.
    destruct (decide (b = f)) as [->|Hbf].
    - rewrite lookup_alter_eq, lookup_insert_ne by congruence.
      destruct (blocks s !! f); reflexivity.
    - rewrite lookup_alter_ne by congruence.
      destruct (decide (b = t)) as [->|Hbt].
      + rewrite lookup_insert_eq. reflexivity.
      + rewrite lookup_insert_ne by congruence. reflexivity. }
  split; [|split; [|split]].
  - split; [|split; [exact Hlinked|]].
    + apply NoDup_app. split; [exact Hndt|]. split; [|exact Hndf].
      intros x Hx. eapply (chains_disjoint s t lt f); eauto.
    + rewrite Hends. destruct (decide (t = f)); [congruence|].
      rewrite decide_True by reflexivity. rewrite Hhead, Htail, last_app_cons. reflexivity.
  - split; [constructor|]. split; [exact I|].
    rewrite Hends, decide_True by reflexivity.
    destruct Hf as (_ & _ & ->). reflexivity.
  - intros b l Hbf Hbt Hb. pose proof Hb as (Hnd & _ & He).
    split; [exact Hnd|]. split; [apply Hframe; assumption|].
    rewrite Hends, decide_False, decide_False by assumption. exact He.
  - change (bodies (upd_block f (bb_with_ends None None) (set_parents t (fh :: rest) s1)))
      with (bodies (set_parents t (fh :: rest) s1)).
    rewrite set_parents_bodies. exact Hbod.
Qed.

Lemma move_instructions_appends_witness :
  ∃ s', move_instructions_to_block_end (Some 12%nat) (Some 10%nat) with_phi = Done s'
    ∧ chain_ok s' 10 ([110%nat] ++ [102%nat]) ∧ chain_ok s' 12 []
    ∧ (∀ b l, b ≠ 12%nat → b ≠ 10%nat → chain_ok with_phi b l → chain_ok s' b l)
    ∧ bodies s' = bodies with_phi.
Proof.
  apply (move_instructions_appends with_phi 12 10 [102%nat] [110%nat]).
  - apply (bool_decide_unpack _). vm_compute. reflexivity.
  - apply (bool_decide_unpack _). vm_compute. reflexivity.
  - discriminate.
  - apply (bool_decide_unpack _). vm_compute. reflexivity.
Defined.

(** ** Powers of two (inst_combine.c) *)

Lemma log2_loop_power fuel : ∀ j acc,
  0 ≤ j → j ≤ Z.of_nat fuel → log2_loop fuel (2 ^ j) acc = acc + j.
Proof.
  induction fuel as [|fuel IH]; intros j acc Hj Hle.
  { simpl. lia. }
  simpl. destruct (Z.eq_dec j 0) as [->|Hne].
  { simpl. lia. }
  assert (Heven : Z.land (2 ^ j) 1 = 0).
  { change 1 with (Z.ones 1). rewrite Z.land_ones by lia.
    replace j with (Z.succ (j - 1)) by lia. rewrite Z.pow_succ_r by lia.
    rewrite Z.mul_comm. apply Z.mod_mul. lia. }
  rewrite Heven. simpl.
  assert (Hbig : 1 < 2 ^ j).
  { replace j with (Z.succ (j - 1)) by lia. rewrite Z.pow_succ_r by lia.
    pose proof (Z.pow_pos_nonneg 2 (j - 1)). lia. }
  rewrite (proj2 (Z.ltb_lt _ _) Hbig).
  rewrite Z.shiftr_div_pow2 by lia.
  replace (2 ^ j / 2 ^ 1) with (2 ^ (j - 1)).
  - rewrite IH by lia. lia.
  - replace j with (Z.succ (j - 1)) at 2 by lia. rewrite Z.pow_succ_r by lia.
    change (2 ^ 1) with 2. rewrite Z.mul_comm, Z.div_mul by lia. reflexivity.
Qed.

Lemma land_pred_power j : 0 ≤ j → Z.land (2 ^ j) (2 ^ j - 1) = 0.
Proof.
  intros Hj. replace (2 ^ j - 1) with (Z.ones j) by (rewrite Z.ones_equiv; lia).
  rewrite Z.land_ones by lia. apply Z.mod_same. pose proof (Z.pow_pos_nonneg 2 j). lia.
Qed.

Lemma land_pred_zero n : 0 < n → Z.land n (n - 1) = 0 → n = 2 ^ Z.log2 n.
Proof.
  intros Hpos Hland.
  destruct (Z.log2_spec n Hpos) as [Hlo Hhi].
  destruct (Z.eq_dec n (2 ^ Z.log2 n)) as [E|Hne]; [exact E|exfalso].
  assert (Hk : Z.log2 (n - 1) = Z.log2 n).
  { apply Z.log2_unique; [apply Z.log2_nonneg|]. lia. }
  assert (H1 : Z.testbit n (Z.log2 n) = true) by (apply Z.bit_log2; lia).
  assert (H2 : Z.testbit (n - 1) (Z.log2 n) = true).
  { rewrite <- Hk. apply Z.bit_log2. pose proof (Z.pow_pos_nonneg 2 (Z.log2 n)).
    pose proof (Z.log2_nonneg n). lia. }
  assert (H3 : Z.testbit (Z.land n (n - 1)) (Z.log2 n) = true).
  { rewrite Z.land_spec, H1, H2. reflexivity. }
  rewrite Hland, Z.bits_0 in H3. discriminate.
Qed.

Lemma is_power_of_two_of_power k :
  0 ≤ k → 2 ^ k < 2 ^ 31 → is_power_of_two (2 ^ k) = (true, k).
Proof.
  intros Hk Hint. unfold is_power_of_two.
  pose proof (Z.pow_pos_nonneg 2 k ltac:(lia) Hk) as Hpos.
  rewrite (proj2 (Z.leb_gt _ _)) by lia.
  rewrite land_pred_power by exact Hk. rewrite Z.eqb_refl.
  assert (k < 31) by (apply (Z.pow_lt_mono_r_iff 2); lia).
  rewrite log2_loop_power; [reflexivity|exact Hk|].
  change (Z.of_nat 32) with 32. lia.
Qed.

(** X18: for an [int] [n], [is_power_of_two] answers true exactly when [n] is
    [2^k] for some [k >= 0], and then the logarithm it hands back is that
    [k]. *)
Theorem is_power_of_two_log n :
  n < 2 ^ 31 →
  (∀ k, 0 ≤ k → n = 2 ^ k → is_power_of_two n = (true, k))
  ∧ ((∀ k, 0 ≤ k → n ≠ 2 ^ k) → fst (is_power_of_two n) = false).
Proof.
  intros Hint. split.
  - intros k Hk ->. apply is_power_of_two_of_power; assumption.
  - intros Hno. unfold is_power_of_two.
    destruct (n <=? 0) eqn:Hle; [reflexivity|]. apply Z.leb_gt in Hle.
    destruct (Z.land n (n - 1) =? 0) eqn:Hl; [|reflexivity].
    apply Z.eqb_eq in Hl. apply land_pred_zero in Hl; [|exact Hle].
    destruct (Hno (Z.log2 n) (Z.log2_nonneg n) Hl).
Qed.

Lemma is_power_of_two_log_witness :
  (∀ k, 0 ≤ k → 1024 = 2 ^ k → is_power_of_two 1024 = (true, k))
  ∧ ((∀ k, 0 ≤ k → 1024 ≠ 2 ^ k) → fst (is_power_of_two 1024) = false).
Proof. apply (is_power_of_two_log 1024). reflexivity. Defined.

(** ** Dominator-tree timestamps *)

Lemma BlockTree_rect' (P : BlockTree → Prop) :
  (∀ b kids, Forall P kids → P (BlockNode b kids)) → ∀ T, P T.
Proof.
  intros H. fix IH 1. intros [b kids]. apply H.
  induction kids as [|k kids IHk]; constructor; [apply IH|exact IHk].
Qed.

Lemma tree_size_node b ks : tree_size (BlockNode b ks) = 1 + forest_size ks.
Proof. unfold tree_size, forest_size, forest_nodes. simpl. lia. Qed.

Lemma forest_size_cons k ks : forest_size (k :: ks) = tree_size k + forest_size ks.
Proof. unfold tree_size, forest_size, forest_nodes. simpl. rewrite length_app. lia. Qed.

Lemma root_in_nodes T : tree_root T ∈ tree_nodes T.
Proof. destruct T. simpl. set_solver. Qed.

Lemma tree_above_nodes T : ∀ a b, tree_above T a b → a ∈ tree_nodes T ∧ b ∈ tree_nodes T.
Proof.
  induction T as [r kids IH] using BlockTree_rect'. intros a b [[-> Hb]|Hk].
  - split; [simpl; set_solver|exact Hb].
  - change (tree_nodes (BlockNode r kids)) with (r :: forest_nodes kids).
    assert (a ∈ forest_nodes kids ∧ b ∈ forest_nodes kids) as [Ha Hb]; [|set_solver].
    induction IH as [|k ks Hk0 _ IHks]; [destruct Hk|].
    unfold forest_nodes. simpl. destruct Hk as [Hk|Hk].
    + destruct (Hk0 _ _ Hk). set_solver.
    + destruct (IHks Hk). unfold forest_nodes in *. set_solver.
Qed.

Lemma forest_above_nodes ks a b :
  forest_above ks a b → a ∈ forest_nodes ks ∧ b ∈ forest_nodes ks.
Proof.
  induction ks as [|k ks IH]; [intros []|]. unfold forest_nodes. simpl.
  intros [Hk|Hk].
  - destruct (tree_above_nodes _ _ _ Hk). set_solver.
  - destruct (IH Hk). unfold forest_nodes in *. set_solver.
Qed.

Lemma tree_above_refl T a : a ∈ tree_nodes T → tree_above T a a.
Proof.
  induction T as [r kids IH] using BlockTree_rect'. intros Ha.
  change (tree_nodes (BlockNode r kids)) with (r :: forest_nodes kids) in Ha.
  apply elem_of_cons in Ha as [->|Ha]; [left; split; [reflexivity|simpl; set_solver]|].
  right. induction IH as [|k ks Hk0 _ IHks]; [unfold forest_nodes in Ha; simpl in Ha; set_solver|].
  unfold forest_nodes in Ha. simpl in Ha. apply elem_of_app in Ha as [Ha|Ha].
  - left. apply Hk0, Ha.
  - right. apply IHks, Ha.
Qed.

Lemma height_le_size T : (tree_height T ≤ length (tree_nodes T))%nat.
Proof.
  induction T as [r kids IH] using BlockTree_rect'. simpl. apply le_n_S.
  induction IH as [|k ks Hk _ IHks]; [simpl; lia|].
  simpl. rewrite length_app. lia.
Qed.

Lemma dom_shape_upd s b g :
  (∀ blk, bb_dom_children (g blk) = bb_dom_children blk) →
  dom_shape (upd_block b g s) = dom_shape s.
Proof. intros H. unfold dom_shape. simpl. apply fmap_alter_same. exact H. Qed.

Lemma dom_stamps_tin s b t :
  dom_stamps (upd_block b (bb_with_dom_tin t) s) = alter (λ p, (t, snd p)) b (dom_stamps s).
Proof. unfold dom_stamps. simpl. apply fmap_alter_commute. reflexivity. Qed.

Lemma dom_stamps_tout s b t :
  dom_stamps (upd_block b (bb_with_dom_tout t) s) = alter (λ p, (fst p, t)) b (dom_stamps s).
Proof. unfold dom_stamps. simpl. apply fmap_alter_commute. reflexivity. Qed.

Lemma dfs_forest n ks :
  Forall (dfs_ok n) ks →
  ∀ t s, forest_is (dom_shape s) ks → NoDup (forest_nodes ks) →
    ∃ s', foldl (λ acc child, '(t, st) ← acc; dfs_dom_tree n child t st)
                (Done (t, s)) (map tree_root ks)
          = Done (t + 2 * forest_size ks, s')
      ∧ dom_shape s' = dom_shape s
      ∧ (∀ x, x ∉ forest_nodes ks → dom_stamps s' !! x = dom_stamps s !! x)
      ∧ stamped (forest_above ks) (forest_nodes ks) t (forest_size ks) (dom_stamps s').
Proof.
  induction 1 as [|k ks Hk _ IH]; intros t s His Hnd.
  { exists s. split; [simpl; f_equal; f_equal; unfold forest_size; simpl; lia|].
    split; [reflexivity|]. split; [reflexivity|].
    split; [intros x Hx; inversion Hx|intros a b i o i' o' Ha; inversion Ha]. }
  destruct His as [Hisk His].
  change (forest_nodes (k :: ks)) with (tree_nodes k ++ forest_nodes ks) in *.
  apply NoDup_app in Hnd as (Hndk & Hdis & Hndks).
  destruct (Hk t s Hisk Hndk) as (s1 & Hrun1 & Hsh1 & Hfr1 & Hst1 & Hrel1).
  destruct (IH (t + 2 * tree_size k) s1) as (s2 & Hrun2 & Hsh2 & Hfr2 & Hst2 & Hrel2);
    [rewrite Hsh1; exact His|exact Hndks|].
  exists s2. split.
  { simpl. rewrite Hrun1, Hrun2. f_equal. f_equal. rewrite forest_size_cons. lia. }
  split; [congruence|].
  split.
  { intros x Hx. rewrite Hfr2, Hfr1 by set_solver. reflexivity. }
  assert (Hin1 : ∀ x, x ∈ tree_nodes k → dom_stamps s2 !! x = dom_stamps s1 !! x).
  { intros x Hx. apply Hfr2. intros Hx'. exact (Hdis x Hx Hx'). }
  pose proof (forest_size_cons k ks) as Hsize.
  assert (Hpos : 0 ≤ forest_size ks) by (unfold forest_size; lia).
  assert (Hposk : 0 ≤ tree_size k) by (unfold tree_size; lia).
  split.
  - intros x Hx. apply elem_of_app in Hx as [Hx|Hx].
    + destruct (Hst1 x Hx) as (i & o & Hs & Hbnd). exists i, o.
      rewrite (Hin1 x Hx). split; [exact Hs|]. lia.
    + destruct (Hst2 x Hx) as (i & o & Hs & Hbnd). exists i, o. split; [exact Hs|]. lia.
  - intros a b i o i' o' Ha Hb Hsa Hsb. simpl.
    apply elem_of_app in Ha as [Ha|Ha]; apply elem_of_app in Hb as [Hb|Hb].
    + rewrite (Hin1 a Ha) in Hsa. rewrite (Hin1 b Hb) in Hsb.
      rewrite (Hrel1 a b i o i' o' Ha Hb Hsa Hsb). split; [auto|].
      intros [HA|HA]; [exact HA|]. apply forest_above_nodes in HA as [Ha' _].
      destruct (Hdis a Ha Ha').
    + rewrite (Hin1 a Ha) in Hsa.
      destruct (Hst1 a Ha) as (ia & oa & Hsa' & Hbnda).
      destruct (Hst2 b Hb) as (ib & ob & Hsb' & Hbndb).
      assert (ia = i ∧ oa = o) as [-> ->] by (split; congruence).
      assert (ib = i' ∧ ob = o') as [-> ->] by (split; congruence).
      split; [lia|]. intros [HA|HA].
      * apply tree_above_nodes in HA as [_ Hb']. destruct (Hdis b Hb' Hb).
      * apply forest_above_nodes in HA as [Ha' _]. destruct (Hdis a Ha Ha').
    + rewrite (Hin1 b Hb) in Hsb.
      destruct (Hst2 a Ha) as (ia & oa & Hsa' & Hbnda).
      destruct (Hst1 b Hb) as (ib & ob & Hsb' & Hbndb).
      assert (ia = i ∧ oa = o) as [-> ->] by (split; congruence).
      assert (ib = i' ∧ ob = o') as [-> ->] by (split; congruence).
      split; [lia|]. intros [HA|HA].
      * apply tree_above_nodes in HA as [Ha' _]. destruct (Hdis a Ha' Ha).
      * apply forest_above_nodes in HA as [_ Hb']. destruct (Hdis b Hb Hb').
    + rewrite (Hrel2 a b i o i' o' Ha Hb Hsa Hsb). split; [auto|].
      intros [HA|HA]; [|exact HA]. apply tree_above_nodes in HA as [Ha' _].
      destruct (Hdis a Ha' Ha).
Qed.

Lemma dfs_tree T : ∀ n, (tree_height T ≤ n)%nat → dfs_ok n T.
Proof.
  induction T as [b ks IH] using BlockTree_rect'. intros [|n] Hh; [simpl in Hh; lia|].
  assert (Hkids : Forall (dfs_ok n) ks).
  { simpl in Hh. apply le_S_n in Hh. clear -IH Hh.
    induction IH as [|k ks Hk _ IHks]; constructor; simpl in Hh.
    - apply Hk. lia.
    - apply IHks. lia. }
  intros t s [Hsh His] Hnd.
  change (tree_nodes (BlockNode b ks)) with (b :: forest_nodes ks) in *.
  apply NoDup_cons in Hnd as [Hb Hnd].
  unfold dom_shape in Hsh. rewrite lookup_fmap in Hsh.
  destruct (blocks s !! b) as [blk|] eqn:Hblk; [|discriminate]. injection Hsh as Hkids'.
  set (s1 := upd_block b (bb_with_dom_tin t) s).
  assert (Hsh1 : dom_shape s1 = dom_shape s) by (apply dom_shape_upd; reflexivity).
  destruct (dfs_forest n ks Hkids (t + 1) s1) as (s2 & Hrun & Hsh2 & Hfr2 & Hst2 & Hrel2);
    [rewrite Hsh1; exact His|exact Hnd|].
  exists (upd_block b (bb_with_dom_tout (t + 1 + 2 * forest_size ks)) s2).
  assert (Hpos : 0 ≤ forest_size ks) by (unfold forest_size; lia).
  split.
  { simpl. rewrite (deref_at _ _ _ Hblk). simpl. rewrite Hkids'. fold s1.
    rewrite Hrun. simpl. rewrite tree_size_node. f_equal. f_equal. lia. }
  split; [rewrite dom_shape_upd by reflexivity; congruence|].
  assert (Hstb : dom_stamps s2 !! b = Some (t, bb_dom_tout blk)).
  { rewrite Hfr2 by exact Hb. unfold s1. rewrite dom_stamps_tin, lookup_alter_eq.
    unfold dom_stamps. rewrite lookup_fmap, Hblk. reflexivity. }
  assert (Hb' : dom_stamps (upd_block b (bb_with_dom_tout (t + 1 + 2 * forest_size ks)) s2) !! b
                = Some (t, t + 1 + 2 * forest_size ks)).
  { rewrite dom_stamps_tout, lookup_alter_eq, Hstb. reflexivity. }
  assert (Hother : ∀ x, x ≠ b →
            dom_stamps (upd_block b (bb_with_dom_tout (t + 1 + 2 * forest_size ks)) s2) !! x
            = dom_stamps s2 !! x).
  { intros x Hx. rewrite dom_stamps_tout, lookup_alter_ne by congruence. reflexivity. }
  assert (Hkid : ∀ x, x ∈ forest_nodes ks → x ≠ b) by (intros x Hx ->; contradiction).
  split.
  { intros x Hx. rewrite Hother by set_solver. rewrite Hfr2 by set_solver.
    unfold s1. rewrite dom_stamps_tin, lookup_alter_ne by set_solver. reflexivity. }
  rewrite tree_size_node. split.
  - intros x Hx. apply elem_of_cons in Hx as [->|Hx].
    + exists t, (t + 1 + 2 * forest_size ks). split; [exact Hb'|]. lia.
    + destruct (Hst2 x Hx) as (i & o & Hs & Hbnd). exists i, o.
      rewrite Hother by (apply Hkid, Hx). split; [exact Hs|]. lia.
  - intros a c i o i' o' Ha Hc Hsa Hsc.
    change (tree_above (BlockNode b ks) a c)
      with ((a = b ∧ c ∈ b :: forest_nodes ks) ∨ forest_above ks a c).
    apply elem_of_cons in Ha as [->|Ha]; apply elem_of_cons in Hc as [->|Hc].
    + split; [intros _; left; split; [reflexivity|set_solver]|].
      intros _. rewrite Hb' in Hsa, Hsc. injection Hsa as <- <-. injection Hsc as <- <-. lia.
    + rewrite Hb' in Hsa. injection Hsa as <- <-.
      rewrite Hother in Hsc by (apply Hkid, Hc).
      destruct (Hst2 c Hc) as (ic & oc & Hs & Hbnd).
      assert (ic = i' ∧ oc = o') as [-> ->] by (split; congruence).
      split; [intros _; left; split; [reflexivity|set_solver]|]. intros _. lia.
    + rewrite Hb' in Hsc. injection Hsc as <- <-.
      rewrite Hother in Hsa by (apply Hkid, Ha).
      destruct (Hst2 a Ha) as (ia & oa & Hs & Hbnd).
      assert (ia = i ∧ oa = o) as [-> ->] by (split; congruence).
      split; [lia|]. intros [[-> _]|HA]; [contradiction|].
      apply forest_above_nodes in HA as [_ Hb'']. contradiction.
    + rewrite Hother in Hsa by (apply Hkid, Ha). rewrite Hother in Hsc by (apply Hkid, Hc).
      rewrite (Hrel2 a c i o i' o' Ha Hc Hsa Hsc). split; [auto|].
      intros [[-> _]|HA]; [contradiction|exact HA].
Qed.

Lemma is_dom_tree_blocks sh T : is_dom_tree sh T → ∀ x, x ∈ tree_nodes T → is_Some (sh !! x).
Proof.
  induction T as [b ks IH] using BlockTree_rect'. intros [Hb His] x Hx.
  change (tree_nodes (BlockNode b ks)) with (b :: forest_nodes ks) in Hx.
  apply elem_of_cons in Hx as [->|Hx]; [eauto|]. clear Hb.
  induction IH as [|k ks Hk _ IHks]; [inversion Hx|].
  destruct His as [Hisk His].
  change (forest_nodes (k :: ks)) with (tree_nodes k ++ forest_nodes ks) in Hx.
  apply elem_of_app in Hx as [Hx|Hx]; [apply Hk; assumption|apply IHks; assumption].
Qed.

Lemma dom_stamps_lookup s x i o :
  dom_stamps s !! x = Some (i, o) →
  ∃ blk, blocks s !! x = Some blk ∧ bb_dom_tin blk = i ∧ bb_dom_tout blk = o.
Proof.
  unfold dom_stamps. rewrite lookup_fmap. destruct (blocks s !! x) as [blk|]; [|discriminate].
  intros [= <- <-]. eauto.
Qed.

(** X19: when the [dom_children] arrays of a function's blocks form a tree [T]
    under the entry block, [compute_dom_tree_timestamps] returns, and
    afterwards [dominates(a, b)] on two blocks of the tree answers true exactly
    when [a] is [b] or above [b] in that tree. *)
Theorem dominates_follows_dom_tree s f fn T :
  funcs s !! f = Some fn → fn_entry fn = Some (tree_root T) →
  is_dom_tree (dom_shape s) T → NoDup (tree_nodes T) →
  ∃ s', compute_dom_tree_timestamps (Some f) s = Done s'
    ∧ ∀ a b, a ∈ tree_nodes T → b ∈ tree_nodes T →
        ∃ r, dominates s' (Some a) (Some b) = Done r ∧ (r = true ↔ tree_above T a b).
Proof.
  intros Hfn Hentry His Hnd.
  assert (Hfuel : (tree_height T ≤ S (size (blocks s)))%nat).
  { apply le_S. etransitivity; [apply height_le_size|].
    apply NoDup_length_le_size; [exact Hnd|]. intros x Hx.
    destruct (is_dom_tree_blocks _ _ His x Hx) as [l Hl].
    unfold dom_shape in Hl. rewrite lookup_fmap in Hl.
    destruct (blocks s !! x); [eauto|discriminate]. }
  destruct (dfs_tree T _ Hfuel 0 s His Hnd) as (s' & Hrun & _ & _ & Hst & Hrel).
  exists s'. split.
  { unfold compute_dom_tree_timestamps. rewrite (deref_at _ _ _ Hfn), outcome_bind_Done.
    cbv beta. rewrite Hentry, Hrun. reflexivity. }
  intros a b Ha Hb. unfold dominates, ptr_eqb.
  destruct (decide (a = b)) as [->|Hne].
  { rewrite bool_decide_eq_true_2 by reflexivity. exists true.
    split; [reflexivity|]. split; [intros _; apply tree_above_refl, Hb|reflexivity]. }
  rewrite bool_decide_eq_false_2 by congruence.
  destruct (Hst a Ha) as (i & o & Hsa & _). destruct (Hst b Hb) as (i' & o' & Hsb & _).
  destruct (dom_stamps_lookup _ _ _ _ Hsa) as (db & Hdb & <- & <-).
  destruct (dom_stamps_lookup _ _ _ _ Hsb) as (ub & Hub & <- & <-).
  rewrite (deref_at _ _ _ Hdb), outcome_bind_Done. cbv beta.
  rewrite (deref_at _ _ _ Hub), outcome_bind_Done. cbv beta.
  eexists. split; [reflexivity|].
  rewrite <- (Hrel a b _ _ _ _ Ha Hb Hsa Hsb), andb_true_iff, !Z.leb_le. reflexivity.
Qed.

Lemma dominates_follows_dom_tree_witness :
  ∃ s', compute_dom_tree_timestamps (Some 1%nat) chain_cfg_analysed = Done s'
    ∧ ∀ a b, a ∈ tree_nodes two_leaves → b ∈ tree_nodes two_leaves →
        ∃ r, dominates s' (Some a) (Some b) = Done r ∧ (r = true ↔ tree_above two_leaves a b).
Proof.
  eapply (dominates_follows_dom_tree chain_cfg_analysed 1 _ two_leaves).
  - vm_compute. reflexivity.
  - reflexivity.
  - vm_compute. auto.
  - apply (bool_decide_unpack _). vm_compute. reflexivity.
Defined.

(** ** Retargeting a terminator *)

Lemma retarget_loop from to : ∀ ops s,
  Forall (λ op, is_Some (operands s !! op)) ops → NoDup ops →
  ∃ s1, for_each (retarget_operand from to) ops s = Done s1
    ∧ instrs s1 = instrs s ∧ blocks s1 = blocks s ∧ funcs s1 = funcs s
    ∧ values s1 = values s ∧ next_addr s1 = next_addr s
    ∧ ∀ op, operands s1 !! op
            = if bool_decide (op ∈ ops) then retargeted_operand from to <$> operands s !! op
              else operands s !! op.
Proof.
  induction ops as [|x ops IH]; intros s Hall Hnd.
  { exists s. repeat (split; [reflexivity|]). intros op. reflexivity. }
  apply Forall_cons in Hall as [[o Ho] Hall]. apply NoDup_cons in Hnd as [Hx Hnd].
  set (s0 := if bool_decide (op_kind o = IR_OP_KIND_BASIC_BLOCK) && ptr_eqb (op_bb o) from
             then upd_operand x (op_with_data to) s else s).
  assert (Hstep : retarget_operand from to x s = Done s0).
  { unfold retarget_operand. rewrite (deref_at _ _ _ Ho), outcome_bind_Done. cbv beta.
    unfold s0. destruct (_ && _); reflexivity. }
  assert (Hops0 : operands s0 = alter (retargeted_operand from to) x (operands s)).
  { unfold s0, retargeted_operand. apply map_eq. intros y.
    destruct (decide (y = x)) as [->|Hy].
    - rewrite lookup_alter_eq, Ho. simpl. destruct (_ && _); simpl.
      + rewrite lookup_alter_eq, Ho. reflexivity.
      + exact Ho.
    - rewrite lookup_alter_ne by congruence.
      destruct (_ && _); simpl; [rewrite lookup_alter_ne by congruence|]; reflexivity. }
  assert (Hrest0 : instrs s0 = instrs s ∧ blocks s0 = blocks s ∧ funcs s0 = funcs s
                   ∧ values s0 = values s ∧ next_addr s0 = next_addr s).
  { unfold s0. destruct (_ && _); repeat split; reflexivity. }
  destruct Hrest0 as (Hi0 & Hb0 & Hf0 & Hv0 & Hn0).
  destruct (IH s0) as (s1 & Hrun & Hi & Hb & Hf & Hv & Hn & Hops); [|exact Hnd|].
  { eapply Forall_impl; [exact Hall|]. intros y [oy Hy]. rewrite Hops0.
    destruct (decide (y = x)) as [->|Hne].
    - rewrite lookup_alter_eq, Hy. eauto.
    - rewrite lookup_alter_ne by congruence. eauto. }
  exists s1. split; [simpl; rewrite Hstep; exact Hrun|].
  split; [congruence|]. split; [congruence|]. split; [congruence|].
  split; [congruence|]. split; [congruence|].
  intros op. rewrite Hops, Hops0. destruct (decide (op = x)) as [->|Hne].
  - rewrite lookup_alter_eq. rewrite (bool_decide_eq_false_2 (x ∈ ops)) by exact Hx.
    rewrite (bool_decide_eq_true_2 (x ∈ x :: ops)) by set_solver. reflexivity.
  - rewrite lookup_alter_ne by congruence.
    destruct (decide (op ∈ ops)) as [Hin|Hnin].
    + rewrite !bool_decide_eq_true_2 by set_solver. reflexivity.
    + rewrite !bool_decide_eq_false_2 by set_solver. reflexivity.
Qed.

Lemma terminator_successors_map a s s1 blk (g : nat → nat) :
  instrs s1 = instrs s →
  (∀ t term op o, bb_tail blk = Some t → instrs s !! t = Some term → op ∈ i_operands term →
                  operands s !! op = Some o →
                  ∃ o1, operands s1 !! op = Some o1 ∧ op_bb o1 = g <$> op_bb o) →
  ∀ l, terminator_successors a s blk = Done l →
       terminator_successors a s1 blk = Done (g <$> l).
Proof.
  intros Hi Hops l. unfold terminator_successors.
  destruct (bb_tail blk) as [t|]; [|intros [= <-]; reflexivity].
  rewrite Hi. intros H. apply bind_Done in H as (term & Hterm & H).
  rewrite Hterm, outcome_bind_Done. cbv beta. apply deref_Done in Hterm.
  destruct (opcode_eqb (i_opcode term) IR_OP_BR); [|injection H as <-; reflexivity].
  assert (Hread : ∀ k op o, i_operands term !! k = Some op → operands s !! op = Some o →
                    ∃ o1, operands s1 !! op = Some o1 ∧ op_bb o1 = g <$> op_bb o).
  { intros k op o Hk Ho. apply (Hops t term op o eq_refl Hterm); [|exact Ho].
    eapply list_elem_of_lookup_2. exact Hk. }
  destruct (1 <? length (i_operands term))%nat.
  - apply bind_Done in H as (op1 & Hop1 & H). apply nonnull_Done in Hop1.
    apply bind_Done in H as (o1 & Ho1 & H). apply deref_Done in Ho1.
    apply bind_Done in H as (op2 & Hop2 & H). apply nonnull_Done in Hop2.
    apply bind_Done in H as (o2 & Ho2 & H). apply deref_Done in Ho2.
    apply bind_Done in H as ([] & Hassert & H).
    apply bind_Done in H as (ts & Hts & H). apply nonnull_Done in Hts.
    apply bind_Done in H as (fs & Hfs & H). apply nonnull_Done in Hfs.
    injection H as <-.
    destruct (Hread _ _ _ Hop1 Ho1) as (o1' & Ho1' & Hbb1).
    destruct (Hread _ _ _ Hop2 Ho2) as (o2' & Ho2' & Hbb2).
    rewrite Hop1. change (nonnull (Some op1)) with (Done op1).
    rewrite outcome_bind_Done. cbv beta. rewrite (deref_at _ _ _ Ho1'), outcome_bind_Done.
    cbv beta. rewrite Hop2. change (nonnull (Some op2)) with (Done op2).
    rewrite outcome_bind_Done. cbv beta. rewrite (deref_at _ _ _ Ho2'), outcome_bind_Done.
    cbv beta. rewrite Hbb1, Hbb2, Hts, Hfs. simpl. destruct a; reflexivity.
  - apply bind_Done in H as (op0 & Hop0 & H). apply nonnull_Done in Hop0.
    apply bind_Done in H as (o0 & Ho0 & H). apply deref_Done in Ho0.
    apply bind_Done in H as ([] & Hassert & H).
    apply bind_Done in H as (ts & Hts & H). apply nonnull_Done in Hts.
    injection H as <-.
    destruct (Hread _ _ _ Hop0 Ho0) as (o0' & Ho0' & Hbb0).
    rewrite Hop0. change (nonnull (Some op0)) with (Done op0).
    rewrite outcome_bind_Done. cbv beta. rewrite (deref_at _ _ _ Ho0'), outcome_bind_Done.
    cbv beta. rewrite Hbb0, Hts. simpl. destruct a; reflexivity.
Qed.

Lemma retargeted_operand_bb s from to ins op o :
  targets_are_blocks s from ins → op ∈ i_operands ins → operands s !! op = Some o →
  op_bb (retargeted_operand (Some from) (Some to) o) = retargeted from to <$> op_bb o.
Proof.
  intros Hall Hop Ho. unfold targets_are_blocks in Hall.
  eapply Forall_forall in Hall; [|exact Hop]. unfold operand_has in Hall. rewrite Ho in Hall.
  unfold retargeted_operand, retargeted, ptr_eqb.
  destruct (decide (op_bb o = Some from)) as [E|E].
  - rewrite (bool_decide_eq_true_2 _ (Hall E)), (bool_decide_eq_true_2 _ E). simpl.
    rewrite E. simpl. rewrite bool_decide_eq_true_2 by reflexivity. reflexivity.
  - rewrite (bool_decide_eq_false_2 _ E), andb_false_r.
    destruct (op_bb o) as [x|]; [|reflexivity]. simpl.
    rewrite bool_decide_eq_false_2 by congruence. reflexivity.
Qed.

(** The successors [build_cfg] reads after a retargeting, in terms of what it
    read before. *)
Lemma change_target_then_build_cfg_read assert_on s f fn term ins from to :
  ud_wf s → funcs s !! f = Some fn → fn_entry fn ≠ None → cfg_ready s (fn_blocks fn) →
  instrs s !! term = Some ins → is_terminator_instruction s (Some term) = Done true →
  targets_are_blocks s from ins → to ∈ fn_blocks fn →
  ∃ s1 s2,
    change_terminator_target assert_on (Some term) (Some from) (Some to) s = Done s1
    ∧ build_cfg assert_on (Some f) s1 = Done s2
    ∧ ∀ b blk, b ∈ fn_blocks fn → blocks s !! b = Some blk →
        ∃ blk2, blocks s2 !! b = Some blk2
          ∧ bb_successors blk2
            = if bool_decide (bb_tail blk = Some term)
              then retargeted from to <$> branch_targets s b
              else branch_targets s b.
Proof.
  intros Hwf Hfn Hentry Hready Hins Hterm Htargets Hto.
  pose proof Hwf as (_ & _ & Hlists & _).
  destruct (Hlists term ins Hins) as [Hnd Hall].
  destruct (retarget_loop (Some from) (Some to) (i_operands ins) s)
    as (s1 & Hloop & Hi & Hb & Hf & Hv & Hn & Hops); [|exact Hnd|].
  { eapply Forall_impl; [exact Hall|]. intros op Hop. unfold operand_has in Hop.
    destruct (operands s !! op); [eauto|contradiction]. }
  exists s1.
  assert (Hrun : change_terminator_target assert_on (Some term) (Some from) (Some to) s
                 = Done s1).
  { unfold change_terminator_target. rewrite Hterm.
    assert (Hpre : (if assert_on then is_term ← Done true; c_assert true is_term else Done tt)
                   = Done tt) by (destruct assert_on; reflexivity).
    rewrite Hpre, outcome_bind_Done. change (nonnull (Some term)) with (Done term).
    rewrite outcome_bind_Done. cbv beta. rewrite (deref_at _ _ _ Hins). exact Hloop. }
  set (g := λ blk : IRBasicBlock,
              if bool_decide (bb_tail blk = Some term) then retargeted from to else id).
  assert (Hsucc : ∀ a b blk, b ∈ fn_blocks fn → blocks s !! b = Some blk →
            terminator_successors a s1 blk = Done (g blk <$> branch_targets s b)
            ∧ ∀ x, x ∈ branch_targets s b → x ∈ fn_blocks fn).
  { intros a b blk Hbin Hblk. unfold cfg_ready in Hready.
    eapply Forall_forall in Hready; [|exact Hbin].
    destruct (block_ready_targets _ _ _ Hready) as (blk0 & Hblk0 & Hts & Hin).
    rewrite Hblk in Hblk0. injection Hblk0 as <-. split; [|exact Hin].
    apply (terminator_successors_map a s s1 blk (g blk) Hi); [|apply Hts].
    intros t termi op o Ht Htermi Hop Ho. unfold g. rewrite Ht.
    destruct (decide (t = term)) as [->|Hne].
    - rewrite bool_decide_eq_true_2 by reflexivity.
      assert (termi = ins) as -> by congruence.
      rewrite Hops, bool_decide_eq_true_2, Ho by exact Hop. eexists. split; [reflexivity|].
      eapply retargeted_operand_bb; eauto.
    - rewrite bool_decide_eq_false_2 by congruence.
      assert (Hnin : op ∉ i_operands ins).
      { intros Hin'. eapply Forall_forall in Hall; [|exact Hin'].
        destruct (Hlists t termi Htermi) as [_ Hall'].
        eapply Forall_forall in Hall'; [|exact Hop].
        unfold operand_has in Hall, Hall'. rewrite Ho in Hall, Hall'.
        destruct Hall as [Hu _]. destruct Hall' as [Hu' _]. congruence. }
      rewrite Hops, bool_decide_eq_false_2, Ho by exact Hnin. eexists. split; [reflexivity|].
      destruct (op_bb o); reflexivity. }
  assert (Hg : ∀ blk x, x ∈ fn_blocks fn → g blk x ∈ fn_blocks fn).
  { intros blk x Hx. unfold g, retargeted.
    destruct (bool_decide (bb_tail blk = Some term)); [|exact Hx].
    destruct (bool_decide (x = from)); assumption. }
  assert (Hready1 : cfg_ready s1 (fn_blocks fn)).
  { apply Forall_forall. intros b Hbin. unfold block_ready. rewrite Hb.
    pose proof Hready as Hr. eapply Forall_forall in Hr; [|exact Hbin].
    destruct (block_ready_targets _ _ _ Hr) as (blk & Hblk & _ & _). rewrite Hblk.
    destruct (Hsucc true b blk Hbin Hblk) as [-> Hin].
    apply Forall_forall. intros x Hx. apply list_elem_of_fmap in Hx as (y & -> & Hy).
    apply Hg, Hin, Hy. }
  assert (Hfn1 : funcs s1 !! f = Some fn) by (rewrite Hf; exact Hfn).
  destruct (build_cfg_effect assert_on s1 f fn Hfn1 Hentry Hready1) as (s2 & Hbuild & _ & Hblocks).
  exists s2. split; [exact Hrun|]. split; [exact Hbuild|].
  intros b blk Hbin Hblk. rewrite Hblocks. unfold blocks_with_edges.
  rewrite Hb, Hblk. simpl. rewrite bool_decide_eq_true_2 by exact Hbin.
  eexists. split; [reflexivity|]. simpl.
  unfold branch_targets at 1. rewrite Hb, Hblk.
  destruct (Hsucc false b blk Hbin Hblk) as [-> _]. unfold g.
  destruct (bool_decide (bb_tail blk = Some term)); [reflexivity|apply list_fmap_id].
Qed.

(** X20: on a consistent arena and a function whose blocks end well,
    [change_terminator_target(term, from, to)] followed by [build_cfg] gives
    every block of the function that ends in [term] the labels of its [br]
    with [from] replaced by [to] as successors, and every other block of the
    function the labels of the [br] it ends in. *)
Theorem change_target_then_build_cfg assert_on s f fn term ins from to :
  ud_wf s → funcs s !! f = Some fn → fn_entry fn ≠ None →
  branches_well_formed s (fn_blocks fn) →
  instrs s !! term = Some ins → is_terminator_instruction s (Some term) = Done true →
  targets_are_blocks s from ins → to ∈ fn_blocks fn →
  ∃ s1 s2,
    change_terminator_target assert_on (Some term) (Some from) (Some to) s = Done s1
    ∧ build_cfg assert_on (Some f) s1 = Done s2
    ∧ ∀ b blk, b ∈ fn_blocks fn → blocks s !! b = Some blk →
        ∃ blk2, blocks s2 !! b = Some blk2
          ∧ bb_successors blk2
            = if bool_decide (bb_tail blk = Some term)
              then retargeted from to <$> jump_targets s b
              else jump_targets s b.
Proof.
  intros Hwf Hfn Hentry Hwell Hins Hterm Htargets Hto.
  destruct (branches_well_formed_read s (fn_blocks fn) Hwell) as [Hready Hread].
  destruct (change_target_then_build_cfg_read assert_on s f fn term ins from to
              Hwf Hfn Hentry Hready Hins Hterm Htargets Hto)
    as (s1 & s2 & Hrun & Hbuild & Hsucc).
  exists s1, s2. split; [exact Hrun|]. split; [exact Hbuild|].
  intros b blk Hb Hblk. destruct (Hsucc b blk Hb Hblk) as (blk2 & Hblk2 & Hs).
  exists blk2. split; [exact Hblk2|]. rewrite Hs, (Hread b Hb). reflexivity.
Qed.

Lemma change_target_then_build_cfg_witness :
  ∃ s1 s2,
    change_terminator_target true (Some 101%nat) (Some 11%nat) (Some 12%nat) branch_on_argument
    = Done s1
    ∧ build_cfg true (Some 1%nat) s1 = Done s2
    ∧ ∀ b blk, b ∈ [10%nat; 11%nat; 12%nat] → blocks branch_on_argument !! b = Some blk →
        ∃ blk2, blocks s2 !! b = Some blk2
          ∧ bb_successors blk2
            = if bool_decide (bb_tail blk = Some 101%nat)
              then retargeted 11 12 <$> jump_targets branch_on_argument b
              else jump_targets branch_on_argument b.
Proof.
  eapply (change_target_then_build_cfg true branch_on_argument 1
            (mkIRFunction (Some "f"%string) (Some 10%nat) [10%nat; 11%nat; 12%nat] 3 4
               [50%nat] (Some [10%nat; 11%nat; 12%nat])) 101 _ 11 12).
  - apply (bool_decide_unpack _). vm_compute. reflexivity.
  - vm_compute. reflexivity.
  - discriminate.
  - apply (bool_decide_unpack _). vm_compute. reflexivity.
  - vm_compute. reflexivity.
  - vm_compute. reflexivity.
  - apply (bool_decide_unpack _). vm_compute. reflexivity.
  - apply (bool_decide_unpack _). vm_compute. reflexivity.
Defined.

(** ** Removing a predecessor *)

Lemma phi_get_incoming_frame s s' phi b :
  operands s' = operands s → instrs s' !! phi = instrs s !! phi →
  phi_get_incoming_value_for_block s' (Some phi) b
  = phi_get_incoming_value_for_block s (Some phi) b.
Proof.
  intros Ho Hi. unfold phi_get_incoming_value_for_block, deref. rewrite Hi.
  destruct (instrs s !! phi) as [ins|]; [|reflexivity]. simpl.
  destruct (negb _); [reflexivity|]. destruct b as [b|]; [|reflexivity].
  apply phi_pairs_find_ext, Ho.
Qed.

Lemma opcode_of_same s s' i :
  i_opcode <$> instrs s' = i_opcode <$> instrs s → opcode_of s' i = opcode_of s i.
Proof.
  intros H. unfold opcode_of. rewrite <- !lookup_fmap, H. reflexivity.
Qed.

Lemma for_each_cons {A} (body : A → state → outcome state) x l s :
  for_each body (x :: l) s = body x s ≫= for_each body l.
Proof. reflexivity. Qed.

Lemma remove_phi_entries_loop pred : ∀ phis s,
  ud_wf s → NoDup phis → (∀ phi, phi ∈ phis → opcode_of s phi = Some IR_OP_PHI) →
  ∃ s', for_each (λ phi st, remove_phi_entries_for_predecessor (Some phi) (Some pred) st)
                 phis s = Done s'
    ∧ ud_wf s' ∧ operands s' = operands s ∧ blocks s' = blocks s ∧ funcs s' = funcs s
    ∧ links s' = links s
    ∧ (∀ j, j ∉ phis → instrs s' !! j = instrs s !! j)
    ∧ ∀ phi, phi ∈ phis →
        phi_get_incoming_value_for_block s' (Some phi) (Some pred) = Done None
        ∧ ∀ b, b ≠ pred →
               phi_get_incoming_value_for_block s' (Some phi) (Some b)
               = phi_get_incoming_value_for_block s (Some phi) (Some b).
Proof.
  induction phis as [|phi phis IH]; intros s Hwf Hnd Hop.
  { exists s. repeat (split; [reflexivity || exact Hwf|]). intros phi Hphi. inversion Hphi. }
  apply NoDup_cons in Hnd as [Hphi Hnd].
  assert (Hins : ∃ ins, instrs s !! phi = Some ins ∧ i_opcode ins = IR_OP_PHI).
  { specialize (Hop phi ltac:(set_solver)). unfold opcode_of in Hop.
    destruct (instrs s !! phi) as [ins|]; [|discriminate]. injection Hop as Hop. eauto. }
  destruct Hins as (ins & Hins & Hopc).
  destruct (remove_phi_entries_effect s phi ins pred Hwf Hins Hopc)
    as (s1 & Hrun1 & Hwf1 & Ho1 & (Hb1 & Hf1 & Hl1 & Hc1 & Hi1) & Hnone1 & Hother1).
  destruct (IH s1 Hwf1 Hnd) as (s' & Hrun & Hwf' & Ho & Hb & Hf & Hl & Hi & Hphis).
  { intros p Hp. rewrite (opcode_of_same s s1) by exact Hc1. apply Hop. set_solver. }
  exists s'. split; [rewrite for_each_cons, Hrun1; exact Hrun|]. split; [exact Hwf'|].
  split; [congruence|]. split; [congruence|]. split; [congruence|]. split; [congruence|].
  split.
  { intros j Hj. rewrite Hi, Hi1 by set_solver. reflexivity. }
  intros p Hp. apply elem_of_cons in Hp as [->|Hp].
  - assert (Hsame : ∀ b, phi_get_incoming_value_for_block s' (Some phi) b
                         = phi_get_incoming_value_for_block s1 (Some phi) b).
    { intros b. apply phi_get_incoming_frame; [exact Ho|apply Hi, Hphi]. }
    split; [rewrite Hsame; exact Hnone1|].
    intros b Hb'. rewrite Hsame. apply Hother1, Hb'.
  - destruct (Hphis p Hp) as [Hnone Hother]. split; [exact Hnone|].
    intros b Hb'. rewrite (Hother b Hb').
    apply phi_get_incoming_frame; [exact Ho1|]. apply Hi1. intros ->. contradiction.
Qed.

Lemma leading_phis_total s : ∀ l,
  (∀ x, x ∈ l → is_Some (instrs s !! x)) →
  ∃ phis, leading_phis s l = Done phis
    ∧ (∀ phi, phi ∈ phis → phi ∈ l ∧ opcode_of s phi = Some IR_OP_PHI)
    ∧ (NoDup l → NoDup phis).
Proof.
  induction l as [|i l IH]; intros Hall.
  { exists []. split; [reflexivity|]. split; [intros phi Hphi; inversion Hphi|auto]. }
  destruct (Hall i ltac:(set_solver)) as [ins Hins].
  simpl. rewrite (deref_at _ _ _ Hins), outcome_bind_Done. cbv beta.
  destruct (opcode_eqb (i_opcode ins) IR_OP_PHI) eqn:Hop.
  - destruct IH as (phis & -> & Hin & Hnd); [intros x Hx; apply Hall; set_solver|].
    exists (i :: phis). split; [reflexivity|]. split.
    + intros phi Hphi. apply elem_of_cons in Hphi as [->|Hphi].
      * split; [set_solver|]. unfold opcode_of. rewrite Hins. simpl.
        apply bool_decide_eq_true in Hop. rewrite Hop. reflexivity.
      * destruct (Hin phi Hphi). split; [set_solver|assumption].
    + intros Hndl. apply NoDup_cons in Hndl as [Hi Hndl]. apply NoDup_cons. split; [|auto].
      intros Hi'. apply Hi. apply (Hin i Hi').
  - exists []. split; [reflexivity|]. split; [intros phi Hphi; inversion Hphi|].
    intros _. constructor.
Qed.

Lemma leading_phis_same s s' l :
  instrs s' = instrs s → leading_phis s' l = leading_phis s l.
Proof.
  intros H. induction l as [|i l IH]; [reflexivity|]. simpl. rewrite H, IH. reflexivity.
Qed.

(** X21: on a consistent arena, [remove_predecessor(block, pred)] for a [pred]
    that is among the predecessors of [block] returns and keeps the arena
    consistent; afterwards one entry of [pred] is gone from the predecessors
    of [block], the instruction list of [block] is as it was, and every PHI at
    the head of [block] has no incoming value for [pred] and the incoming
    values it had for the other blocks. *)
Theorem remove_predecessor_fixes_phis s b blk l pred :
  ud_wf s → chain_ok s b l → blocks s !! b = Some blk → pred ∈ bb_predecessors blk →
  ∃ s' phis, remove_predecessor (Some b) (Some pred) s = Done s'
    ∧ ud_wf s'
    ∧ bb_predecessors <$> blocks s' !! b = Some (remove_first pred (bb_predecessors blk))
    ∧ chain_ok s' b l
    ∧ leading_phis s l = Done phis
    ∧ ∀ phi, phi ∈ phis →
        phi_get_incoming_value_for_block s' (Some phi) (Some pred) = Done None
        ∧ ∀ b', b' ≠ pred →
                phi_get_incoming_value_for_block s' (Some phi) (Some b')
                = phi_get_incoming_value_for_block s (Some phi) (Some b').
Proof.
  intros Hwf Hchain Hblk Hpred.
  set (s1 := upd_block b (bb_with_predecessors (remove_first pred (bb_predecessors blk))) s).
  assert (Hwf1 : ud_wf s1) by (apply upd_block_wf; exact Hwf).
  assert (Hchain1 : chain_ok s1 b l).
  { apply (chain_ok_same_tables s); [reflexivity| |exact Hchain].
    unfold ends. simpl. apply fmap_alter_same. reflexivity. }
  destruct (leading_phis_total s l) as (phis & Hphis & Hin & Hnd).
  { intros x Hx. destruct (chain_ok_instr _ _ _ _ Hchain Hx) as (ins & -> & _). eauto. }
  pose proof Hchain as (Hndl & _ & _).
  destruct (remove_phi_entries_loop pred phis s1 Hwf1 (Hnd Hndl))
    as (s' & Hrun & Hwf' & Ho & Hb & Hf & Hl & Hi & Hget).
  { intros phi Hphi. apply (Hin phi Hphi). }
  exists s', phis. split.
  { unfold remove_predecessor. change (nonnull (Some b)) with (Done b).
    rewrite outcome_bind_Done. cbv beta. rewrite (deref_at _ _ _ Hblk), outcome_bind_Done.
    cbv beta.
    assert (Hex : existsb (Nat.eqb pred) (bb_predecessors blk) = true).
    { apply existsb_exists. exists pred. split; [|apply Nat.eqb_refl].
      apply list_elem_of_In. exact Hpred. }
    rewrite Hex. cbv zeta. fold s1.
    rewrite (block_chain_ok _ _ _ Hchain1), outcome_bind_Done. cbv beta.
    rewrite (leading_phis_same s s1 l eq_refl), Hphis, outcome_bind_Done. cbv beta.
    exact Hrun. }
  split; [exact Hwf'|].
  split; [rewrite Hb; unfold s1; simpl; rewrite lookup_alter_eq, Hblk; reflexivity|].
  split.
  { apply (chain_ok_same_tables s1); [exact Hl|unfold ends; rewrite Hb; reflexivity|].
    exact Hchain1. }
  split; [exact Hphis|].
  intros phi Hphi. destruct (Hget phi Hphi) as [Hnone Hother]. split; [exact Hnone|].
  intros b' Hb'. rewrite (Hother b' Hb'). apply phi_get_incoming_frame; reflexivity.
Qed.

Lemma remove_predecessor_fixes_phis_witness :
  ∃ s' phis, remove_predecessor (Some 10%nat) (Some 11%nat) with_phi = Done s'
    ∧ ud_wf s'
    ∧ bb_predecessors <$> blocks s' !! 10%nat = Some (remove_first 11 [11%nat; 12%nat])
    ∧ chain_ok s' 10 [110%nat]
    ∧ leading_phis with_phi [110%nat] = Done phis
    ∧ ∀ phi, phi ∈ phis →
        phi_get_incoming_value_for_block s' (Some phi) (Some 11%nat) = Done None
        ∧ ∀ b', b' ≠ 11%nat →
                phi_get_incoming_value_for_block s' (Some phi) (Some b')
                = phi_get_incoming_value_for_block with_phi (Some phi) (Some b').
Proof.
  apply (remove_predecessor_fixes_phis with_phi 10
           (plain_block (Some 110%nat) (Some 110%nat) (Some 1%nat) [] [11%nat; 12%nat] 0)
           [110%nat] 11).
  - apply (bool_decide_unpack _). vm_compute. reflexivity.
  - apply (bool_decide_unpack _). vm_compute. reflexivity.
  - vm_compute. reflexivity.
  - apply (bool_decide_unpack _). vm_compute. reflexivity.
Defined.

(** ** Remapping the operands of an instruction *)

Lemma cells_upd_value s v l : cells (upd_value v (v_with_use_list l) s) = cells s.
Proof. unfold cells. simpl. apply fmap_alter_same. reflexivity. Qed.

Lemma cells_lookup s s' p :
  cells s' = cells s →
  match values s' !! p, values s !! p with
  | Some a', Some a => v_is_constant a' = v_is_constant a ∧ v_type a' = v_type a
                       ∧ v_word a' = v_word a
  | None, None => True
  | _, _ => False
  end.
Proof.
  intros H. assert (E : cells s' !! p = cells s !! p) by (rewrite H; reflexivity).
  unfold cells in E. rewrite !lookup_fmap in E.
  destruct (values s' !! p) as [a'|], (values s !! p) as [a|]; simpl in E;
    try discriminate; [|exact I].
  injection E as E1 _ E3 _ E5 _ _. auto.
Qed.

Lemma hash_value_cells hw s s' v :
  cells s' = cells s → hash_value hw s' v = hash_value hw s v.
Proof.
  intros H. destruct v as [p|]; [|reflexivity]. unfold hash_value, deref.
  pose proof (cells_lookup s s' p H) as E.
  destruct (values s' !! p) as [a'|], (values s !! p) as [a|]; try contradiction;
    [|reflexivity].
  destruct E as (E1 & E2 & E3). simpl. rewrite ?E1, ?E2, ?E3. reflexivity.
Qed.

Lemma value_valid_cells s s' p : cells s' = cells s → value_valid s p → value_valid s' p.
Proof.
  intros H. destruct p as [p|]; [|auto]. simpl. pose proof (cells_lookup s s' p H) as E.
  intros [a Ha]. rewrite Ha in E. destruct (values s' !! p); [eauto|contradiction].
Qed.

Lemma value_map_get_cells hw s s' mm v :
  cells s' = cells s → value_map_get hw s' mm v = value_map_get hw s mm v.
Proof.
  intros H. destruct v as [k|], mm as [m|]; try reflexivity.
  unfold value_map_get, value_map_find. rewrite (hash_value_cells hw s s' _ H). reflexivity.
Qed.

Lemma op_with_data_same o : op_with_data (op_data o) o = o.
Proof. destruct o. reflexivity. Qed.

Lemma unlinked_same op s s1 :
  unlinked_from_referent op s s1 →
  operands s1 = operands s ∧ instrs s1 = instrs s ∧ blocks s1 = blocks s
  ∧ funcs s1 = funcs s ∧ cells s1 = cells s.
Proof.
  intros (o & _ & H). destruct (op_kind o); [|subst; auto].
  destruct (op_value o) as [v|]; [|subst; auto].
  destruct H as (val & _ & ->). destruct (is_register val); [|auto].
  repeat (split; [reflexivity|]). apply cells_upd_value.
Qed.

(** [change_operand_value] on a value operand of an instruction. *)
Lemma change_operand_value_attached a s i ins op new_val :
  ud_wf s → instrs s !! i = Some ins → op ∈ i_operands ins →
  operand_has s op (λ o, op_kind o = IR_OP_KIND_VALUE) → value_valid s new_val →
  ∃ s', change_operand_value a op new_val s = Done s' ∧ ud_wf s'
    ∧ operands s' = alter (op_with_data new_val) op (operands s)
    ∧ instrs s' = instrs s ∧ blocks s' = blocks s ∧ funcs s' = funcs s
    ∧ cells s' = cells s.
Proof.
  intros Hwf Hins Hop Hkind Hvalid.
  assert (Hrun : ∃ s', change_operand_value a op new_val s = Done s').
  { pose proof Hwf as (_ & _ & Hlists & _).
    destruct (Hlists i ins Hins) as [_ Hall].
    eapply Forall_forall in Hall; [|exact Hop].
    unfold operand_has in Hall, Hkind.
    destruct (operands s !! op) as [o|] eqn:Ho; [|contradiction].
    destruct Hall as [_ Hin].
    unfold change_operand_value. rewrite (deref_at _ _ _ Ho), outcome_bind_Done. cbv beta.
    rewrite bool_decide_eq_true_2 by exact Hkind. rewrite c_assert_true, outcome_bind_Done.
    cbv beta. destruct (ptr_eqb (op_value o) new_val); [eauto|].
    assert (Htot : ∃ s1, remove_operand_from_use_list op s = Done s1
                         ∧ cells s1 = cells s).
    { unfold remove_operand_from_use_list. rewrite (deref_at _ _ _ Ho), outcome_bind_Done.
      cbv beta. rewrite Hkind.
      unfold in_use_list_of_referent in Hin. specialize (Hin Hkind).
      destruct (op_value o) as [v|]; [|eauto].
      destruct (values s !! v) as [val|] eqn:Hv; [|contradiction].
      rewrite (deref_at _ _ _ Hv), outcome_bind_Done. cbv beta.
      destruct (v_is_constant val || is_null (v_def_instr val)); [eauto|].
      eexists. split; [reflexivity|apply cells_upd_value]. }
    destruct Htot as (s1 & -> & Hc1). rewrite outcome_bind_Done. cbv beta zeta.
    destruct new_val as [nv|]; [|eauto].
    assert (Hnv : value_valid (upd_operand op (op_with_data (Some nv)) s1) (Some nv)).
    { apply (value_valid_cells s); [exact Hc1|exact Hvalid]. }
    destruct Hnv as [val Hval]. rewrite (deref_at _ _ _ Hval), outcome_bind_Done. cbv beta.
    destruct (negb (v_is_constant val) && negb (is_null (v_def_instr val))); eauto. }
  destruct Hrun as (s' & Hrun). exists s'. split; [exact Hrun|].
  split; [exact (change_operand_value_wf _ _ _ _ _ Hwf Hkind Hrun)|].
  apply change_operand_value_spec in Hrun as (o & Ho & _ & [[Heq ->]|(_ & s1 & Hun & H)]).
  { split; [|auto]. symmetry. apply (alter_id_at _ _ _ o Ho).
    rewrite <- Heq. apply op_with_data_same. }
  destruct (unlinked_same _ _ _ Hun) as (Ho1 & Hi1 & Hb1 & Hf1 & Hc1).
  destruct new_val as [nv|].
  - destruct H as (val & _ & ->). destruct (is_register val).
    + simpl. rewrite Ho1. repeat (split; [reflexivity || assumption|]).
      rewrite cells_upd_value. exact Hc1.
    + simpl. rewrite Ho1. repeat (split; [reflexivity || assumption|]). exact Hc1.
  - subst s'. simpl. rewrite Ho1. repeat (split; [reflexivity || assumption|]). exact Hc1.
Qed.

Lemma vm_content_valid s m k : vm_targets_valid s m → value_valid s (vm_content m k).
Proof.
  intros Hall. unfold vm_content.
  destruct (list_find _ (vm_entries m)) as [[j e]|] eqn:E; [|exact I].
  apply list_find_Some in E as (He & _). eapply Forall_lookup in Hall; eauto.
Qed.

Lemma remap_value_returns hw s s0 m v :
  vm_wf hw s0 m → cells s = cells s0 → hashes hw s0 v →
  remap_value hw s (Some m) v = Done (remapped m v).
Proof.
  intros Hm Hc Hh. unfold remap_value. rewrite (value_map_get_cells hw s0 s _ _ Hc).
  destruct v as [k|]; [|reflexivity].
  unfold hashes in Hh. destruct (hash_value hw s0 (Some k)) as [h|] eqn:E; [|contradiction].
  rewrite (value_map_get_content hw s0 m k h Hm E), outcome_bind_Done. cbv beta.
  unfold remapped. destruct (vm_content m k); reflexivity.
Qed.

Lemma remapped_valid hw s m v :
  vm_targets_valid s m → hashes hw s v → value_valid s (remapped m v).
Proof.
  intros Hall Hh. destruct v as [k|]; [|exact I]. unfold remapped.
  pose proof (vm_content_valid s m k Hall) as Hv.
  destruct (vm_content m k) as [n|]; [exact Hv|].
  unfold hashes, hash_value, deref in Hh. simpl.
  destruct (values s !! k); [eauto|contradiction].
Qed.

Lemma remap_loop hw a m s0 i ins :
  vm_wf hw s0 m → vm_targets_valid s0 m → remappable hw s0 ins →
  ∀ ops s,
    ud_wf s → instrs s = instrs s0 → cells s = cells s0 → blocks s = blocks s0 →
    funcs s = funcs s0 → instrs s0 !! i = Some ins →
    NoDup ops → (∀ op, op ∈ ops → op ∈ i_operands ins) →
    (∀ op, op ∈ ops → operands s !! op = operands s0 !! op) →
    ∃ s', for_each (remap_operand hw a m) ops s = Done s' ∧ ud_wf s'
      ∧ instrs s' = instrs s0 ∧ cells s' = cells s0 ∧ blocks s' = blocks s0
      ∧ funcs s' = funcs s0
      ∧ ∀ op, operands s' !! op
              = if bool_decide (op ∈ ops) then remapped_operand m <$> operands s0 !! op
                else operands s !! op.
Proof.
  intros Hm Hvalid Hable. induction ops as [|op ops IH];
    intros s Hwf Hi Hc Hb Hf Hins Hnd Hsub Hsame.
  { exists s. repeat (split; [reflexivity || assumption|]). intros op. reflexivity. }
  apply NoDup_cons in Hnd as [Hop Hnd].
  assert (Hin : op ∈ i_operands ins) by (apply Hsub; set_solver).
  assert (Hins' : instrs s !! i = Some ins) by (rewrite Hi; exact Hins).
  pose proof Hable as Hh. unfold remappable in Hh.
  eapply Forall_forall in Hh; [|exact Hin]. unfold operand_has in Hh.
  destruct (operands s0 !! op) as [o|] eqn:Ho0; [|contradiction].
  assert (Ho : operands s !! op = Some o) by (rewrite Hsame by set_solver; exact Ho0).
  assert (Hstep : ∃ s1, remap_operand hw a m op s = Done s1 ∧ ud_wf s1
            ∧ operands s1 = alter (remapped_operand m) op (operands s)
            ∧ instrs s1 = instrs s ∧ blocks s1 = blocks s ∧ funcs s1 = funcs s
            ∧ cells s1 = cells s).
  { unfold remap_operand. rewrite (deref_at _ _ _ Ho), outcome_bind_Done. cbv beta.
    destruct (decide (op_kind o = IR_OP_KIND_VALUE)) as [Hk|Hk].
    - rewrite bool_decide_eq_true_2 by exact Hk.
      rewrite (remap_value_returns hw s s0 m _ Hm Hc (Hh Hk)), outcome_bind_Done. cbv beta.
      destruct (change_operand_value_attached a s i ins op (remapped m (op_value o))
                  Hwf Hins' Hin)
        as (s1 & Hrun & Hwf1 & Ho1 & Hrest).
      { unfold operand_has. rewrite Ho. exact Hk. }
      { apply (value_valid_cells s0); [exact Hc|].
        apply (remapped_valid hw); [exact Hvalid|exact (Hh Hk)]. }
      exists s1. split; [exact Hrun|]. split; [exact Hwf1|]. split; [|exact Hrest].
      rewrite Ho1. apply map_eq. intros x. destruct (decide (x = op)) as [->|Hx].
      + rewrite !lookup_alter_eq, Ho. simpl. unfold remapped_operand.
        rewrite bool_decide_eq_true_2 by exact Hk. reflexivity.
      + rewrite !lookup_alter_ne by congruence. reflexivity.
    - rewrite bool_decide_eq_false_2 by exact Hk. exists s. split; [reflexivity|].
      split; [exact Hwf|]. split; [|auto]. symmetry. apply (alter_id_at _ _ _ o Ho).
      unfold remapped_operand. rewrite bool_decide_eq_false_2 by exact Hk. reflexivity. }
  destruct Hstep as (s1 & Hrun1 & Hwf1 & Ho1 & Hi1 & Hb1 & Hf1 & Hc1).
  destruct (IH s1 Hwf1 ltac:(congruence) ltac:(congruence) ltac:(congruence)
              ltac:(congruence) Hins Hnd)
    as (s' & Hrun & Hwf' & Hi' & Hc' & Hb' & Hf' & Hops);
    [intros x Hx; apply Hsub; set_solver| |].
  { intros x Hx. rewrite Ho1, lookup_alter_ne by (intros ->; contradiction).
    apply Hsame. set_solver. }
  exists s'. split; [rewrite for_each_cons, Hrun1; exact Hrun|].
  split; [exact Hwf'|]. split; [exact Hi'|]. split; [exact Hc'|]. split; [exact Hb'|].
  split; [exact Hf'|].
  intros x. rewrite Hops. destruct (decide (x = op)) as [->|Hx].
  - rewrite (bool_decide_eq_false_2 (op ∈ ops)) by exact Hop.
    rewrite (bool_decide_eq_true_2 (op ∈ op :: ops)) by set_solver.
    rewrite Ho1, lookup_alter_eq, Ho, Ho0. reflexivity.
  - destruct (decide (x ∈ ops)) as [Hx'|Hx'].
    + rewrite !bool_decide_eq_true_2 by set_solver. reflexivity.
    + rewrite !bool_decide_eq_false_2 by set_solver.
      rewrite Ho1, lookup_alter_ne by congruence. reflexivity.
Qed.

(** X22: on a consistent arena, with a well-formed map whose new values are
    values of the arena, [remap_instruction_operands(instr, map)] returns and
    keeps the arena consistent; afterwards every value operand of [instr]
    holds what the map gives for the value it held, or that value when the map
    has nothing for it, and no other operand and no instruction has
    changed. *)
Theorem remap_instruction_operands_effect hw a s i ins m :
  ud_wf s → vm_wf hw s m → vm_targets_valid s m →
  instrs s !! i = Some ins → home_ok s ins → remappable hw s ins →
  ∃ s', remap_instruction_operands hw a (Some i) (Some m) s = Done s'
    ∧ ud_wf s' ∧ instrs s' = instrs s
    ∧ ∀ op, operands s' !! op
            = if bool_decide (op ∈ i_operands ins)
              then remapped_operand m <$> operands s !! op
              else operands s !! op.
Proof.
  intros Hwf Hm Hvalid Hins Hhome Hable.
  pose proof Hwf as (_ & _ & Hlists & _). destruct (Hlists i ins Hins) as [Hnd _].
  destruct (remap_loop hw a m s i ins Hm Hvalid Hable (i_operands ins) s Hwf)
    as (s' & Hrun & Hwf' & Hi' & _ & _ & _ & Hops); auto.
  exists s'. split; [|auto].
  unfold remap_instruction_operands. rewrite (deref_at _ _ _ Hins), outcome_bind_Done.
  cbv beta.
  assert (Hlog : match i_parent ins with
                 | Some p =>
                     blk ← deref (blocks s) p;
                     match bb_parent blk with
                     | Some f => _ ← deref (funcs s) f; Done tt
                     | None => Done tt
                     end
                 | None => Done tt
                 end = Done tt).
  { unfold home_ok, parent_function_ok in Hhome.
    destruct (i_parent ins) as [p|]; [|reflexivity].
    destruct (blocks s !! p) as [blk|] eqn:Hblk; [|contradiction].
    rewrite (deref_at _ _ _ Hblk), outcome_bind_Done. cbv beta.
    destruct (bb_parent blk) as [f|]; [|reflexivity]. destruct Hhome as [fn Hfn].
    rewrite (deref_at _ _ _ Hfn). reflexivity. }
  rewrite Hlog, outcome_bind_Done. exact Hrun.
Qed.

Lemma remap_instruction_operands_effect_witness :
  ∃ s', remap_instruction_operands (λ _, 0) true (Some 100%nat) (Some p_to_x) unused_load
        = Done s'
    ∧ ud_wf s' ∧ instrs s' = instrs unused_load
    ∧ ∀ op, operands s' !! op
            = if bool_decide (op ∈ [200%nat])
              then remapped_operand p_to_x <$> operands unused_load !! op
              else operands unused_load !! op.
Proof.
  apply (remap_instruction_operands_effect (λ _, 0) true unused_load 100
           (plain_instr IR_OP_LOAD None (Some 52%nat) [200%nat]
              (Some 10%nat) None (Some 101%nat)) p_to_x).
  - apply (bool_decide_unpack _). vm_compute. reflexivity.
  - apply (bool_decide_unpack _). vm_compute. reflexivity.
  - apply (bool_decide_unpack _). vm_compute. reflexivity.
  - vm_compute. reflexivity.
  - apply (bool_decide_unpack _). vm_compute. reflexivity.
  - apply (bool_decide_unpack _). vm_compute. reflexivity.
Defined.

(** ** Where a new PHI goes (ir_builder.c) *)

Lemma first_non_phi_split s : ∀ l,
  (∀ x, x ∈ l → is_Some (instrs s !! x)) →
  ∃ phis rest, l = phis ++ rest
    ∧ Forall (λ x, opcode_of s x = Some IR_OP_PHI) phis
    ∧ (∀ p, head rest = Some p → opcode_of s p ≠ Some IR_OP_PHI)
    ∧ first_non_phi s l = Done (head rest).
Proof.
  induction l as [|i l IH]; intros Hall.
  { exists [], []. split; [reflexivity|]. split; [constructor|]. split; [discriminate|reflexivity]. }
  destruct (Hall i ltac:(set_solver)) as [ins Hins].
  simpl. rewrite (deref_at _ _ _ Hins), outcome_bind_Done. cbv beta.
  destruct (opcode_eqb (i_opcode ins) IR_OP_PHI) eqn:Hop.
  - destruct IH as (phis & rest & -> & Hphis & Hrest & ->); [intros x Hx; apply Hall; set_solver|].
    exists (i :: phis), rest. split; [reflexivity|]. split; [|split; [exact Hrest|reflexivity]].
    constructor; [|exact Hphis]. unfold opcode_of. rewrite Hins. simpl.
    apply bool_decide_eq_true in Hop. rewrite Hop. reflexivity.
  - exists [], (i :: l). split; [reflexivity|]. split; [constructor|]. split; [|reflexivity].
    intros p [= <-]. unfold opcode_of. rewrite Hins. simpl. intros [= E].
    unfold opcode_eqb in Hop. rewrite E in Hop. rewrite bool_decide_eq_true_2 in Hop by reflexivity.
    discriminate.
Qed.

Lemma first_non_phi_same s s' l :
  (∀ x, x ∈ l → instrs s' !! x = instrs s !! x) → first_non_phi s' l = first_non_phi s l.
Proof.
  induction l as [|i l IH]; intros H; [reflexivity|]. simpl. unfold deref.
  rewrite H by set_solver. destruct (instrs s !! i) as [ins|]; [|reflexivity]. simpl.
  destruct (opcode_eqb _ _); [|reflexivity]. apply IH. intros x Hx. apply H. set_solver.
Qed.

Lemma chain_ok_same_on s s' b l :
  (∀ x, x ∈ l → links s' !! x = links s !! x) → ends s' !! b = ends s !! b →
  chain_ok s b l → chain_ok s' b l.
Proof.
  intros Hl He (Hnd & Hlk & Hends). split; [exact Hnd|]. split.
  - eapply linked_ext; [|exact Hlk]. exact Hl.
  - rewrite He. exact Hends.
Qed.

(** X23: [ir_builder_create_phi] on a block with a well-linked instruction
    list returns a new PHI and links it after the PHIs that lead the list and
    before the first instruction that is not a PHI; the lists of the other
    blocks stay as they were. *)
Theorem ir_builder_create_phi_placement a builder type name s b l :
  b_current_bb builder = Some b → chain_ok s b l → parent_function_ok s b →
  instrs s !! next_addr s = None →
  ∃ builder' s' phis rest,
    ir_builder_create_phi a builder type name s = Done (next_addr s, builder', s')
    ∧ l = phis ++ rest
    ∧ Forall (λ x, opcode_of s x = Some IR_OP_PHI) phis
    ∧ (∀ p, head rest = Some p → opcode_of s p ≠ Some IR_OP_PHI)
    ∧ chain_ok s' b (phis ++ next_addr s :: rest)
    ∧ opcode_of s' (next_addr s) = Some IR_OP_PHI
    ∧ ∀ b' l', b' ≠ b → chain_ok s b' l' → chain_ok s' b' l'.
Proof.
  intros Hbb Hchain Hpar Hfresh.
  set (instr := next_addr s). set (dest := S (next_addr s)).
  unfold ir_builder_create_phi, create_ir_instruction, ir_builder_create_reg, pool_alloc.
  cbv beta iota zeta. simpl b_current_bb. rewrite Hbb.
  change (nonnull (Some b)) with (Done b). rewrite outcome_bind_Done. cbv beta.
  match goal with |- context [block_chain ?st b] => set (s4 := st) end.
  assert (Hsame : ∀ x, x ≠ instr → instrs s4 !! x = instrs s !! x).
  { intros x Hx. unfold s4. simpl. rewrite lookup_alter_ne, lookup_insert_ne by (fold instr; congruence).
    reflexivity. }
  assert (Hnew : ∃ nins, instrs s4 !! instr = Some nins ∧ i_parent nins = None
                         ∧ i_opcode nins = IR_OP_PHI).
  { unfold s4. simpl. fold instr. rewrite lookup_alter_eq, lookup_insert_eq. simpl. eauto. }
  destruct Hnew as (nins & Hnins & Hnpar & Hnop).
  assert (Hblocks : blocks s4 = blocks s) by reflexivity.
  assert (Hfuncs : funcs s4 = funcs s) by reflexivity.
  assert (Hold : ∀ b0 l0 x, chain_ok s b0 l0 → x ∈ l0 → x ≠ instr).
  { intros b0 l0 x Hc Hx ->. destruct (chain_ok_instr _ _ _ _ Hc Hx) as (ins & Hins & _).
    unfold instr in Hins. congruence. }
  assert (Hkeep : ∀ b0 l0, chain_ok s b0 l0 → chain_ok s4 b0 l0).
  { intros b0 l0 Hc. apply (chain_ok_same_on s); [|reflexivity|exact Hc].
    intros x Hx. unfold links. rewrite !lookup_fmap, Hsame by (eapply Hold; eauto).
    reflexivity. }
  pose proof (Hkeep b l Hchain) as Hchain4.
  rewrite (block_chain_ok _ _ _ Hchain4), outcome_bind_Done. cbv beta.
  destruct (first_non_phi_split s l) as (phis & rest & Hl & Hphis & Hrest & Hfnp).
  { intros x Hx. destruct (chain_ok_instr _ _ _ _ Hchain Hx) as (ins & -> & _). eauto. }
  rewrite (first_non_phi_same s s4 l), Hfnp, outcome_bind_Done
    by (intros x Hx; apply Hsame; eapply Hold; eauto).
  cbv beta.
  assert (Hpar4 : parent_function_ok s4 b) by exact Hpar.
  assert (Hgoal : ∃ s', match head rest with
                        | Some p => insert_instr_before a instr p s4
                        | None => add_instr_to_bb_end a (Some b) instr s4
                        end = Done s'
                    ∧ chain_ok s' b (phis ++ instr :: rest)
                    ∧ bodies s' = bodies s4
                    ∧ ∀ b' l', b' ≠ b → chain_ok s4 b' l' → chain_ok s' b' l').
  { destruct rest as [|p rest'].
    - rewrite app_nil_r in Hl. subst l.
      destruct (add_instr_to_bb_end_effect a s4 b phis instr nins Hchain4 Hpar4 Hnins Hnpar)
        as (s' & Hrun & Hc' & Hfr & Hbod & _).
      exists s'. split; [exact Hrun|]. split; [|split; [exact Hbod|exact Hfr]].
      assert (E : added_to_end s4 phis instr = phis ++ [instr]); [|rewrite <- E; exact Hc'].
      unfold added_to_end. destruct (last phis) as [t|] eqn:Hlast; [|reflexivity].
      assert (Ht : t ∈ phis) by (apply last_Some_elem_of; exact Hlast).
      eapply Forall_forall in Hphis; [|exact Ht].
      rewrite Hsame by (eapply Hold; eauto). unfold opcode_of in Hphis.
      destruct (instrs s !! t) as [tins|]; [|reflexivity]. injection Hphis as ->. reflexivity.
    - subst l.
      destruct (insert_instr_before_effect a s4 b phis p rest' instr nins Hchain4 Hnins Hnpar)
        as (s' & Hrun & Hc' & Hlk & Hen & Hbod & _).
      exists s'. split; [exact Hrun|]. split; [exact Hc'|]. split; [exact Hbod|].
      intros b' l' Hne Hcb. eapply (chain_ok_frame s4 s' b); eauto.
      eapply links_frame_detached; eauto. }
  destruct Hgoal as (s' & Hrun & Hc' & Hbod & Hfr). unfold instr in Hrun.
  eexists _, s', phis, rest. rewrite Hrun, outcome_bind_Done. cbv beta.
  split; [reflexivity|]. split; [exact Hl|]. split; [exact Hphis|]. split; [exact Hrest|].
  split; [exact Hc'|]. split.
  - assert (E : bodies s' !! instr = bodies s4 !! instr) by (rewrite Hbod; reflexivity).
    unfold bodies in E. rewrite !lookup_fmap, Hnins in E. unfold opcode_of.
    destruct (instrs s' !! instr) as [ins'|]; [|discriminate]. simpl in *.
    injection E as E _ _ _. rewrite E, Hnop. reflexivity.
  - intros b' l' Hne Hcb. apply Hfr; [exact Hne|]. apply Hkeep, Hcb.
Qed.

Lemma ir_builder_create_phi_placement_witness :
  ∃ builder' s' phis rest,
    ir_builder_create_phi true (mkIRBuilder (Some 1%nat) (Some 10%nat) None 0 0) None None
      one_slot
    = Done (next_addr one_slot, builder', s')
    ∧ [100%nat; 101%nat; 102%nat; 103%nat] = phis ++ rest
    ∧ Forall (λ x, opcode_of one_slot x = Some IR_OP_PHI) phis
    ∧ (∀ p, head rest = Some p → opcode_of one_slot p ≠ Some IR_OP_PHI)
    ∧ chain_ok s' 10 (phis ++ next_addr one_slot :: rest)
    ∧ opcode_of s' (next_addr one_slot) = Some IR_OP_PHI
    ∧ ∀ b' l', b' ≠ 10%nat → chain_ok one_slot b' l' → chain_ok s' b' l'.
Proof.
  apply (ir_builder_create_phi_placement true (mkIRBuilder (Some 1%nat) (Some 10%nat) None 0 0)
           None None one_slot 10 [100%nat; 101%nat; 102%nat; 103%nat]).
  - reflexivity.
  - apply (bool_decide_unpack _). vm_compute. reflexivity.
  - apply (bool_decide_unpack _). vm_compute. reflexivity.
  - vm_compute. reflexivity.
Defined.

(** ** Counting instructions (ir_utils.c, inliner.c) *)

Lemma count_live_in_chain s acc : ∀ l,
  (∀ i, i ∈ l → ∃ ins, instrs s !! i = Some ins ∧ i_opcode ins ≠ IR_OP_UNKNOWN) →
  foldr (λ i r, n ← r; ins ← deref (instrs s) i;
                Done (if opcode_eqb (i_opcode ins) IR_OP_UNKNOWN then n else n + 1))
        (Done acc) l
  = Done (acc + Z.of_nat (length l)).
Proof.
  induction l as [|i l IH]; intros Hall.
  { simpl. f_equal. lia. }
  destruct (Hall i ltac:(set_solver)) as (ins & Hins & Hop).
  simpl foldr. rewrite IH by (intros x Hx; apply Hall; set_solver).
  rewrite outcome_bind_Done. cbv beta. rewrite (deref_at _ _ _ Hins), outcome_bind_Done.
  cbv beta. unfold opcode_eqb. rewrite bool_decide_eq_false_2 by exact Hop.
  f_equal. simpl length. lia.
Qed.

Lemma count_blocks_spec s : ∀ bbs chains,
  Forall2 (chain_ok s) bbs chains →
  count_blocks_instructions s bbs = Done (Z.of_nat (length (concat chains))).
Proof.
  induction 1 as [|b l bbs chains Hc _ IH]; [reflexivity|].
  simpl. rewrite (block_chain_ok _ _ _ Hc), outcome_bind_Done. cbv beta.
  rewrite IH, outcome_bind_Done. cbv beta. f_equal. rewrite length_app. lia.
Qed.

Lemma recalculate_blocks_spec s : ∀ bbs chains,
  Forall2 (chain_ok s) bbs chains →
  Forall (Forall (λ i, opcode_of s i ≠ Some IR_OP_UNKNOWN)) chains →
  foldr (λ bb r, n ← r;
                 l ← block_chain s bb;
                 foldr (λ i r, n ← r; ins ← deref (instrs s) i;
                               Done (if opcode_eqb (i_opcode ins) IR_OP_UNKNOWN
                                     then n else n + 1))
                       (Done n) l)
        (Done 0) bbs
  = Done (Z.of_nat (length (concat chains))).
Proof.
  induction 1 as [|b l bbs chains Hc _ IH]; intros Hlive; [reflexivity|].
  apply Forall_cons in Hlive as [Hl Hlive].
  simpl foldr. rewrite (IH Hlive), outcome_bind_Done. cbv beta.
  rewrite (block_chain_ok _ _ _ Hc), outcome_bind_Done. cbv beta.
  rewrite count_live_in_chain.
  - f_equal. simpl. rewrite length_app. lia.
  - intros i Hi. destruct (chain_ok_instr _ _ _ _ Hc Hi) as (ins & Hins & _).
    exists ins. split; [exact Hins|]. eapply Forall_forall in Hl; [|exact Hi].
    unfold opcode_of in Hl. rewrite Hins in Hl. simpl in Hl. congruence.
Qed.

(** X24: on a function whose blocks have well-linked instruction lists with no
    instruction marked as removed, [recalculate_instruction_count] returns and
    stores the number of instructions in those lists, which is the number the
    inliner's [count_instructions] computes. *)
Theorem recalculated_count_is_inliner_count s f fn chains :
  funcs s !! f = Some fn → Forall2 (chain_ok s) (fn_blocks fn) chains →
  Forall (Forall (λ i, opcode_of s i ≠ Some IR_OP_UNKNOWN)) chains →
  ∃ s', recalculate_instruction_count f s = Done s'
    ∧ count_instructions s f = Done (Z.of_nat (length (concat chains)))
    ∧ fn_instruction_count <$> funcs s' !! f = Some (Z.of_nat (length (concat chains)))
    ∧ count_instructions s' f = count_instructions s f.
Proof.
  intros Hfn Hchains Hlive. eexists. split.
  { unfold recalculate_instruction_count. rewrite (deref_at _ _ _ Hfn), outcome_bind_Done.
    cbv beta zeta. rewrite (recalculate_blocks_spec s _ _ Hchains Hlive), outcome_bind_Done.
    reflexivity. }
  split.
  { unfold count_instructions. rewrite (deref_at _ _ _ Hfn), outcome_bind_Done.
    apply count_blocks_spec, Hchains. }
  split.
  { simpl. rewrite lookup_alter_eq, Hfn. reflexivity. }
  unfold count_instructions, deref. simpl. rewrite lookup_alter_eq, Hfn. simpl.
  generalize (fn_blocks fn). intros bbs. induction bbs as [|b bbs IH]; [reflexivity|].
  simpl. rewrite IH.
  assert (E : block_chain (upd_func f (fn_with_instruction_count
                                         (Z.of_nat (length (concat chains)))) s) b
              = block_chain s b).
  { unfold block_chain. apply outcome_bind_ext. intros blk _.
    apply (chain_from_same_instrs s). reflexivity. }
  rewrite E. reflexivity.
Qed.

Lemma recalculated_count_is_inliner_count_witness :
  ∃ s', recalculate_instruction_count 1 one_slot = Done s'
    ∧ count_instructions one_slot 1
      = Done (Z.of_nat (length (concat [[100%nat; 101%nat; 102%nat; 103%nat]])))
    ∧ fn_instruction_count <$> funcs s' !! 1%nat
      = Some (Z.of_nat (length (concat [[100%nat; 101%nat; 102%nat; 103%nat]])))
    ∧ count_instructions s' 1 = count_instructions one_slot 1.
Proof.
  eapply (recalculated_count_is_inliner_count one_slot 1 _
            [[100%nat; 101%nat; 102%nat; 103%nat]]).
  - vm_compute. reflexivity.
  - apply (bool_decide_unpack _). vm_compute. reflexivity.
  - apply (bool_decide_unpack _). vm_compute. reflexivity.
Defined.

(** ** Cloning an instruction *)

Lemma clone_operands_stop n nins : ∀ ops s,
  instrs s !! n = Some nins → i_parent nins = None →
  Exists (λ op, ¬ holds_null s op) ops →
  for_each (clone_operand n) ops s = Stop invalid_pointer.
Proof.
  induction ops as [|op ops IH]; intros s Hn Hpar Hex; [inversion Hex|].
  rewrite for_each_cons.
  destruct (operands s !! op) as [o|] eqn:Ho.
  - destruct (op_data o) as [d|] eqn:Hd.
    + assert (E : clone_operand n op s = Stop invalid_pointer); [|rewrite E; reflexivity].
      unfold clone_operand. rewrite (deref_at _ _ _ Ho), outcome_bind_Done. cbv beta.
      rewrite Hd. unfold add_operand. rewrite (deref_at _ _ _ Hn), outcome_bind_Done.
      cbv beta. rewrite Hpar. reflexivity.
    + assert (E : clone_operand n op s = Done s).
      { unfold clone_operand. rewrite (deref_at _ _ _ Ho), outcome_bind_Done. cbv beta.
        rewrite Hd. reflexivity. }
      rewrite E, outcome_bind_Done. apply IH; [exact Hn|exact Hpar|].
      apply Exists_cons in Hex as [Hex|Hex]; [|exact Hex].
      destruct Hex. unfold holds_null, operand_has. rewrite Ho. exact Hd.
  - assert (E : clone_operand n op s = Stop invalid_pointer); [|rewrite E; reflexivity].
    unfold clone_operand, deref. rewrite Ho. reflexivity.
Qed.

Lemma clone_operands_null n : ∀ ops s,
  Forall (holds_null s) ops → for_each (clone_operand n) ops s = Done s.
Proof.
  induction ops as [|op ops IH]; intros s Hall; [reflexivity|].
  apply Forall_cons in Hall as [Hop Hall]. rewrite for_each_cons.
  unfold holds_null, operand_has in Hop.
  destruct (operands s !! op) as [o|] eqn:Ho; [|contradiction].
  assert (E : clone_operand n op s = Done s).
  { unfold clone_operand. rewrite (deref_at _ _ _ Ho), outcome_bind_Done. cbv beta.
    rewrite Hop. reflexivity. }
  rewrite E, outcome_bind_Done. apply IH, Hall.
Qed.

(** X25: [clone_instruction] returns only for an instruction whose operands
    all hold NULL (or that has none), and then hands back a new instruction
    with the same opcode and no operands; for an instruction with an operand
    that holds a value or a block it stops at a NULL dereference, since
    [add_operand] looks for the pool through the parent block of the new
    instruction, which has none. *)
Theorem clone_instruction_needs_no_operands s i ins :
  instrs s !! i = Some ins →
  (Exists (λ op, ¬ holds_null s op) (i_operands ins) →
   clone_instruction (Some i) s = Stop invalid_pointer)
  ∧ (Forall (holds_null s) (i_operands ins) →
     ∃ s', clone_instruction (Some i) s = Done (Some (next_addr s), s')
       ∧ instrs s' !! next_addr s
         = Some (mkIRInstruction (i_opcode ins) (i_opcode_cond ins) None [] None None None
                   None (i_align ins) (i_is_inbounds ins) false false)).
Proof.
  intros Hins. unfold clone_instruction, create_ir_instruction, pool_alloc.
  rewrite (deref_at _ _ _ Hins), outcome_bind_Done. cbv beta iota zeta.
  match goal with |- context [for_each _ _ ?st] => set (s2 := st) end.
  assert (Hn : instrs s2 !! next_addr s
               = Some (mkIRInstruction (i_opcode ins) (i_opcode_cond ins) None [] None None
                         None None (i_align ins) (i_is_inbounds ins) false false)).
  { unfold s2. simpl. rewrite lookup_alter_eq, lookup_insert_eq. reflexivity. }
  split.
  - intros Hex. rewrite (clone_operands_stop _ _ _ s2 Hn eq_refl); [reflexivity|].
    exact Hex.
  - intros Hall. rewrite (clone_operands_null _ _ s2) by exact Hall.
    eexists. split; [reflexivity|]. simpl. rewrite lookup_alter_eq.
    change (instrs s2 !! next_addr s) with
      (alter (i_with_copied_fields (i_opcode_cond ins) (i_align ins) (i_is_inbounds ins))
         (next_addr s)
         (<[next_addr s := mkIRInstruction (i_opcode ins) None None [] None None None None 0
                             false false false]> (instrs s)) !! next_addr s).
    rewrite lookup_alter_eq, lookup_insert_eq. reflexivity.
Qed.

Lemma clone_instruction_needs_no_operands_witness :
  (Exists (λ op, ¬ holds_null unused_load op) [200%nat] →
   clone_instruction (Some 100%nat) unused_load = Stop invalid_pointer)
  ∧ (Forall (holds_null unused_load) [200%nat] →
     ∃ s', clone_instruction (Some 100%nat) unused_load
           = Done (Some (next_addr unused_load), s')
       ∧ instrs s' !! next_addr unused_load
         = Some (mkIRInstruction IR_OP_LOAD None None [] None None None None 0 false false
                   false)).
Proof.
  apply (clone_instruction_needs_no_operands unused_load 100
           (plain_instr IR_OP_LOAD None (Some 52%nat) [200%nat]
              (Some 10%nat) None (Some 101%nat))).
  vm_compute. reflexivity.
Defined.

(** ** Strength reduction of a multiplication (inst_combine.c) *)

Lemma create_const_int_wf v s :
  ud_wf s → values s !! next_addr s = None → ud_wf (snd (create_const_int v s)).
Proof.
  intros (Hfresh & Huses & Hlists & Husers) Hnew.
  unfold create_const_int, create_basic_type, pool_alloc. simpl.
  split; [|split; [|split]].
  - intros op o Ho. specialize (Hfresh op o Ho). simpl in *. lia.
  - intros w wal Hw. simpl in Hw. apply lookup_insert_Some in Hw as [[<- <-]|[Hne Hw]].
    + split; [constructor|intros _; constructor].
    + exact (Huses w wal Hw).
  - intros j jns Hj. destruct (Hlists j jns Hj) as [Hnd Hall]. split; [exact Hnd|].
    eapply Forall_impl; [exact Hall|]. intros op Hop. unfold operand_has in *. simpl.
    destruct (operands s !! op) as [o|]; [|contradiction]. destruct Hop as [Hu Hin].
    split; [exact Hu|]. unfold in_use_list_of_referent in *. simpl. intros Hk.
    specialize (Hin Hk). destruct (op_value o) as [w|]; [|exact I].
    destruct (decide (w = next_addr s)) as [->|Hne].
    + rewrite Hnew in Hin. contradiction.
    + rewrite lookup_insert_ne by congruence. exact Hin.
  - exact Husers.
Qed.

(** X26: on a consistent arena, [visit_mul] of [x * c], with [x] not a constant
    and [c] the constant [2^k] for some [1 <= k <= 30], turns the instruction
    into a shift left whose second operand is a new constant [k]; nothing is
    handed back as replacement and the instruction is queued again. *)
Theorem visit_mul_by_power_of_two a s i ins op1 op2 x xv c cv k :
  ud_wf s → values s !! next_addr s = None →
  instrs s !! i = Some ins → i_operands ins = [op1; op2] →
  operand_has s op2 (λ o, op_kind o = IR_OP_KIND_VALUE) →
  values s !! x = Some xv → v_is_constant xv = false →
  values s !! c = Some cv → v_is_constant cv = true → v_word cv = 2 ^ k → 1 ≤ k ≤ 30 →
  ∃ s', visit_mul a i (Some x) (Some c) s = Done (None, true, s')
    ∧ ud_wf s'
    ∧ opcode_of s' i = Some IR_OP_SHL
    ∧ (i_operands <$> instrs s' !! i) = Some [op1; op2]
    ∧ operands s' !! op1 = operands s !! op1
    ∧ (op_value <$> operands s' !! op2) = Some (Some (next_addr s))
    ∧ (∃ kv, values s' !! next_addr s = Some kv ∧ v_is_constant kv = true ∧ v_word kv = k).
Proof.
  intros Hwf Hnew Hins Hops Hkind Hx Hxc Hc Hcc Hword Hk.
  assert (Hpow : 2 ^ k < 2 ^ 31) by (apply Z.pow_lt_mono_r; lia).
  assert (Hbig : 2 ≤ 2 ^ k).
  { change 2 with (2 ^ 1) at 1. apply Z.pow_le_mono_r; lia. }
  pose proof (is_power_of_two_of_power k ltac:(lia) Hpow) as Hlog.
  set (s1 := upd_instr i (i_with_opcode IR_OP_SHL) s).
  assert (Hwf1 : ud_wf s1) by (apply upd_instr_wf; [reflexivity|exact Hwf]).
  set (s2 := snd (create_const_int k s1)).
  assert (Hwf2 : ud_wf s2) by (apply create_const_int_wf; [exact Hwf1|exact Hnew]).
  set (ins1 := i_with_opcode IR_OP_SHL ins).
  assert (Hins2 : instrs s2 !! i = Some ins1).
  { unfold s2, s1, create_const_int, create_basic_type, pool_alloc. simpl.
    rewrite lookup_alter_eq, Hins. reflexivity. }
  assert (Hin2 : op2 ∈ i_operands ins1) by (simpl; rewrite Hops; set_solver).
  destruct (change_operand_value_attached a s2 i ins1 op2 (Some (next_addr s)) Hwf2 Hins2 Hin2)
    as (s' & Hrun & Hwf' & Ho' & Hi' & _ & _ & Hc').
  { exact Hkind. }
  { simpl. unfold s2, s1, create_const_int, create_basic_type, pool_alloc. simpl.
    rewrite lookup_insert_eq. eauto. }
  exists s'. split.
  { unfold visit_mul. rewrite (deref_at _ _ _ Hins), outcome_bind_Done. cbv beta.
    change (nonnull (Some x)) with (Done x). rewrite outcome_bind_Done. cbv beta.
    change (nonnull (Some c)) with (Done c). rewrite outcome_bind_Done. cbv beta.
    rewrite (deref_at _ _ _ Hx), outcome_bind_Done. cbv beta.
    rewrite (deref_at _ _ _ Hc), outcome_bind_Done. cbv beta.
    rewrite Hxc, Hcc. cbv beta iota zeta. simpl andb. cbv iota. rewrite Hword.
    rewrite (proj2 (Z.eqb_neq _ _)) by lia. rewrite (proj2 (Z.eqb_neq _ _)) by lia.
    rewrite (proj2 (Z.eqb_neq _ _)) by lia. rewrite Hlog. cbv beta iota zeta.
    fold s1. change (create_const_int k s1) with (next_addr s, s2). cbv beta iota.
    unfold set_operand, operand_at. rewrite Hops.
    change (nonnull ([op1; op2] !! 1%nat)) with (Done op2).
    rewrite outcome_bind_Done. cbv beta. rewrite Hrun. reflexivity. }
  split; [exact Hwf'|]. split.
  { unfold opcode_of. rewrite Hi', Hins2. reflexivity. }
  split; [rewrite Hi', Hins2; simpl; rewrite Hops; reflexivity|].
  pose proof Hwf as (_ & _ & Hlists & _). destruct (Hlists i ins Hins) as [Hnd _].
  rewrite Hops in Hnd. apply NoDup_cons in Hnd as [Hne _].
  split; [rewrite Ho', lookup_alter_ne by set_solver; reflexivity|].
  split.
  { rewrite Ho', lookup_alter_eq. unfold operand_has in Hkind.
    change (operands s2) with (operands s).
    destruct (operands s !! op2) as [o|]; [reflexivity|contradiction]. }
  assert (E : cells s' !! next_addr s = cells s2 !! next_addr s) by (rewrite Hc'; reflexivity).
  unfold cells in E. rewrite !lookup_fmap in E.
  assert (Hk2 : values s2 !! next_addr s
                = Some (mkIRValue true false k None
                          (Some (Ty_basic (S (next_addr s)) false BASIC_INT)) None None [])).
  { unfold s2, s1, create_const_int, create_basic_type, pool_alloc. simpl.
    apply lookup_insert_eq. }
  rewrite Hk2 in E. destruct (values s' !! next_addr s) as [kv|]; [|discriminate].
  simpl in E. injection E as E1 _ E3 _. exists kv. auto.
Qed.

Lemma visit_mul_by_power_of_two_witness :
  ∃ s', visit_mul true 100 (Some 50%nat) (Some 51%nat) times_eight = Done (None, true, s')
    ∧ ud_wf s'
    ∧ opcode_of s' 100 = Some IR_OP_SHL
    ∧ (i_operands <$> instrs s' !! 100%nat) = Some [200%nat; 201%nat]
    ∧ operands s' !! 200%nat = operands times_eight !! 200%nat
    ∧ (op_value <$> operands s' !! 201%nat) = Some (Some (next_addr times_eight))
    ∧ (∃ kv, values s' !! next_addr times_eight = Some kv ∧ v_is_constant kv = true
             ∧ v_word kv = 3).
Proof.
  eapply (visit_mul_by_power_of_two true times_eight 100 _ 200 201 50 _ 51 _ 3).
  - apply (bool_decide_unpack _). vm_compute. reflexivity.
  - vm_compute. reflexivity.
  - vm_compute. reflexivity.
  - reflexivity.
  - apply (bool_decide_unpack _). vm_compute. reflexivity.
  - vm_compute. reflexivity.
  - reflexivity.
  - vm_compute. reflexivity.
  - reflexivity.
  - reflexivity.
  - lia.
Defined.

(** ** Promotable allocas *)

Lemma uses_are_promotable_cons s use rest :
  uses_are_promotable s (use :: rest)
  = (o ← deref (operands s) use;
     user ← nonnull (op_user o);
     uins ← deref (instrs s) user;
     if opcode_eqb (i_opcode uins) IR_OP_LOAD then uses_are_promotable s rest
     else if opcode_eqb (i_opcode uins) IR_OP_STORE then
       _ ← operand_at s uins 0;
       if ptr_eqb (Some use) (i_operands uins !! 1%nat) then uses_are_promotable s rest
       else Done false
     else Done false).
Proof. reflexivity. Qed.

Lemma address_use_inv s use o user uins :
  operands s !! use = Some o → op_user o = Some user → instrs s !! user = Some uins →
  address_use s use →
  i_opcode uins = IR_OP_LOAD
  ∨ (i_opcode uins = IR_OP_STORE ∧ i_operands uins !! 1%nat = Some use).
Proof.
  intros Ho Hu Hi (o' & u' & uins' & Ho' & Hu' & Hi' & H).
  assert (o' = o) as -> by congruence. assert (u' = user) as -> by congruence.
  assert (uins' = uins) as -> by congruence. exact H.
Qed.

Lemma uses_are_promotable_iff s : ∀ uses,
  uses_are_promotable s uses = Done true ↔ Forall (address_use s) uses.
Proof.
  induction uses as [|use uses IH]; [split; [constructor|reflexivity]|].
  rewrite uses_are_promotable_cons.
  destruct (operands s !! use) as [o|] eqn:Ho.
  2:{ unfold deref. rewrite Ho. split; [discriminate|]. intros H.
      apply Forall_cons in H as [(o & ? & ? & Ho' & _) _]. congruence. }
  rewrite (deref_at _ _ _ Ho), outcome_bind_Done. cbv beta.
  destruct (op_user o) as [user|] eqn:Hu.
  2:{ split; [discriminate|]. intros H.
      apply Forall_cons in H as [(o' & ? & ? & Ho' & Hu' & _) _]. congruence. }
  change (nonnull (Some user)) with (Done user). rewrite outcome_bind_Done. cbv beta.
  destruct (instrs s !! user) as [uins|] eqn:Hi.
  2:{ unfold deref. rewrite Hi. split; [discriminate|]. intros H.
      apply Forall_cons in H as [(o' & u' & ? & Ho' & Hu' & Hi' & _) _]. congruence. }
  rewrite (deref_at _ _ _ Hi), outcome_bind_Done. cbv beta.
  pose proof (address_use_inv s use o user uins Ho Hu Hi) as Hhead.
  assert (Hintro : (i_opcode uins = IR_OP_LOAD
                    ∨ (i_opcode uins = IR_OP_STORE ∧ i_operands uins !! 1%nat = Some use)) →
                   address_use s use).
  { intros H. exists o, user, uins. auto. }
  unfold opcode_eqb.
  destruct (decide (i_opcode uins = IR_OP_LOAD)) as [Hl|Hl].
  { rewrite bool_decide_eq_true_2 by exact Hl. rewrite IH. split.
    - intros H. constructor; [auto|exact H].
    - intros H. apply Forall_cons in H as [_ H]. exact H. }
  rewrite bool_decide_eq_false_2 by exact Hl.
  destruct (decide (i_opcode uins = IR_OP_STORE)) as [Hs|Hs].
  - rewrite bool_decide_eq_true_2 by exact Hs. unfold operand_at, ptr_eqb.
    destruct (decide (i_operands uins !! 1%nat = Some use)) as [H1|H1].
    + assert (H0 : ∃ op0, i_operands uins !! 0%nat = Some op0).
      { destruct (i_operands uins) as [|op0 ops]; [discriminate|]. eauto. }
      destruct H0 as [op0 ->]. change (nonnull (Some op0)) with (Done op0).
      rewrite outcome_bind_Done. cbv beta.
      rewrite bool_decide_eq_true_2 by (symmetry; exact H1). rewrite IH. split.
      * intros H. constructor; [auto|exact H].
      * intros H. apply Forall_cons in H as [_ H]. exact H.
    + split.
      * intros H. exfalso. destruct (i_operands uins !! 0%nat) as [op0|].
        -- change (nonnull (Some op0)) with (Done op0) in H.
           rewrite outcome_bind_Done in H. cbv beta in H.
           rewrite bool_decide_eq_false_2 in H by congruence. discriminate.
        -- discriminate.
      * intros H. apply Forall_cons in H as [Hh _].
        destruct (Hhead Hh) as [?|[_ ?]]; contradiction.
  - rewrite bool_decide_eq_false_2 by exact Hs. split; [discriminate|].
    intros H. apply Forall_cons in H as [Hh _].
    destruct (Hhead Hh) as [?|[? _]]; contradiction.
Qed.

(** X27: [is_alloca_promotable] answers true exactly when the allocated type
    is not an array and every use of the alloca's result is by a load or as the
    address of a store; an alloca whose address is stored as a value, or used
    by any other instruction, is not promoted. *)
Theorem is_alloca_promotable_iff s a ins d dv t et :
  instrs s !! a = Some ins → i_dest ins = Some d → values s !! d = Some dv →
  v_type dv = Some t → ty_element_type t = Some et →
  (is_alloca_promotable s a = Done true
   ↔ ty_kind et ≠ TYPE_ARRAY ∧ Forall (address_use s) (v_use_list dv)).
Proof.
  intros Hins Hd Hdv Ht Het. unfold is_alloca_promotable.
  rewrite (deref_at _ _ _ Hins), outcome_bind_Done. cbv beta. rewrite Hd.
  change (nonnull (Some d)) with (Done d). rewrite outcome_bind_Done. cbv beta.
  rewrite (deref_at _ _ _ Hdv), outcome_bind_Done. cbv beta. rewrite Ht.
  change (nonnull (Some t)) with (Done t). rewrite outcome_bind_Done. cbv beta.
  rewrite Het. change (nonnull (Some et)) with (Done et). rewrite outcome_bind_Done.
  cbv beta. destruct (decide (ty_kind et = TYPE_ARRAY)) as [Hk|Hk].
  - rewrite bool_decide_eq_true_2 by exact Hk. split; [discriminate|]. intros [H _].
    contradiction.
  - rewrite bool_decide_eq_false_2 by exact Hk. rewrite uses_are_promotable_iff.
    split; [auto|]. intros [_ H]. exact H.
Qed.

Lemma is_alloca_promotable_iff_witness :
  is_alloca_promotable one_slot 100 = Done true
  ↔ ty_kind (i32 900) ≠ TYPE_ARRAY ∧ Forall (address_use one_slot) [202%nat; 201%nat].
Proof.
  apply (is_alloca_promotable_iff one_slot 100
           (plain_instr IR_OP_ALLOCA None (Some 50%nat) [] (Some 10%nat) None (Some 101%nat))
           50 (register "p" (Ty_pointer 903 (i32 900)) 100 [202%nat; 201%nat])
           (Ty_pointer 903 (i32 900)) (i32 900)).
  - vm_compute. reflexivity.
  - reflexivity.
  - vm_compute. reflexivity.
  - reflexivity.
  - reflexivity.
Defined.
